(** * VANMOKUM configurator: the geometry pipeline and its GLB exporter

    A shallow embedding of [app/builder/geometry.py], [app/builder/build.py],
    [app/builder/exporter.py], [app/builder/materials.py],
    [app/builder/library.py], [app/codec.py] and the parts of
    [app/schema.py] and [app/settings.py] they use.

    Conventions.
    - Python [float] is an abstract number type [F] with the operations the
      code applies to it (class [Float]).  Three instances are given: the
      reals [R] (exact arithmetic, with the real [cos], [sin], [atan],
      [acos], [sqrt]), the canonical rationals [Qc] (exact arithmetic that
      computes) and the binary64 numbers of the machine (the arithmetic
      Python runs, rounded to nearest).  An equation proved at [R] holds of
      the code up to rounding only; where a statement says so, it is about
      exact arithmetic, and the binary64 instance shows what rounding does
      to it.
    - [math], [rhino3dm], [random], [json] and [struct] are libraries the
      repository imports; their functions are the methods of the classes
      [Libm], [Rhino], [Random] and [Codec], and every generic theorem holds
      for all implementations of them.
    - Every [rhino3dm.Mesh] object lives in a heap ([list Mesh], a location
      is an index); [Duplicate] allocates, [Transform] updates in place.
      The two [lru_cache] tables are maps in the same state.
    - Exceptions are values of [exn]; a computation returns its result (or
      the exception) together with the state it leaves behind. *)

From Stdlib Require Import ZArith QArith Qcanon Qcabs Reals Ratan Lra Lia ZifyNat ZifyN.
From Stdlib Require Import Strings.String Strings.Ascii Strings.Byte.
From Stdlib Require Floats.PrimFloat.
From stdpp Require Import base list gmap strings pretty sorting.

Close Scope Qc_scope.
Close Scope Q_scope.
Close Scope R_scope.
Close Scope Z_scope.

(** ** Exceptions and the two monads *)

(** The exceptions the code can raise.  [DanglingReference] is the model's
    own: a read of a heap location that was never allocated, which Python
    cannot express. *)
Inductive exn :=
  | ValueError | IndexError | AttributeError | KeyError
  | TypeError | StructError | OverflowError | DanglingReference.

Inductive result (A : Type) := Ok (a : A) | Raise (e : exn).
Arguments Ok {A} a.
Arguments Raise {A} e.

Definition rbind {A B} (m : result A) (f : A → result B) : result B :=
  match m with Ok a => f a | Raise e => Raise e end.

Declare Scope result_scope.
Delimit Scope result_scope with res.
Notation "'let?' x := m 'in' k" := (rbind m (fun x => k))
  (at level 10, x pattern, m at level 100, k at level 200) : result_scope.

(** [xs[i]] and [xs[-1]] on a Python list. *)
Definition index {A} (xs : list A) (i : nat) : result A :=
  match xs !! i with Some x => Ok x | None => Raise IndexError end.

Definition index_last {A} (xs : list A) : result A :=
  match last xs with Some x => Ok x | None => Raise IndexError end.

(** [for x in xs: acc = f(acc, x)] in the exception monad. *)
Fixpoint for_each {A B} (f : B → A → result B) (xs : list A) (acc : B) : result B :=
  match xs with
  | [] => Ok acc
  | x :: xs' => rbind (f acc x) (for_each f xs')
  end.

(** ** Numbers *)

(** The operations the code applies to Python floats.  [of_frac z p] is the
    number [z/p]: [of_frac n 1] is [float(n)], and a decimal literal such as
    [1e-6] is [of_frac 1 1000000]. *)
Class Float (F : Type) := {
  fadd : F → F → F;
  fsub : F → F → F;
  fmul : F → F → F;
  fdiv : F → F → F;
  fneg : F → F;
  fabs : F → F;
  fltb : F → F → bool;
  of_frac : Z → positive → F;
}.

Declare Scope pyfloat_scope.
Delimit Scope pyfloat_scope with fl.
Infix "+" := fadd : pyfloat_scope.
Infix "-" := fsub : pyfloat_scope.
Infix "*" := fmul : pyfloat_scope.
Infix "/" := fdiv : pyfloat_scope.
Notation "- x" := (fneg x) : pyfloat_scope.
Infix "<?" := fltb : pyfloat_scope.

Definition of_Z {F} `{Float F} (z : Z) : F := of_frac z 1.
Definition of_nat {F} `{Float F} (n : nat) : F := of_Z (Z.of_nat n).

(** Python's [min(a, b)] and [max(a, b)]: the first argument unless the
    second is strictly smaller (larger). *)
Definition fmin {F} `{Float F} (a b : F) : F := if (b <? a)%fl then b else a.
Definition fmax {F} `{Float F} (a b : F) : F := if (a <? b)%fl then b else a.

(** [math]: the constant and the functions the code calls. *)
Class Libm (F : Type) := {
  pi : F;
  cos : F → F;
  sin : F → F;
  acos : F → F;
  atan2 : F → F → F;
}.

(** ** Drop-distance solving (geometry.py, lines 161-173)

    The part of [place_pendants_then_plan_cables] between the extents loop
    and the assignment of attachment points: from [first], [total] and the
    lists [tops] and [bottoms] it computes [gap] and the list [drops]. *)
Section Layout.
Context {F : Type} `{Float F}.

Definition occupied_clearance (tops bottoms : list F) (n : nat) : result F :=
  (let? t0 := index tops 0 in
   let? bl := index_last bottoms in
   for_each (fun occupied i =>
               let? b := index bottoms i in
               let? t := index tops (i + 1) in
               Ok (occupied + (b + t))%fl)
            (seq 0 (n - 1)) (t0 + bl)%fl)%res.

Definition gap_of (first total occupied : F) (n : nat) : F :=
  let available := (total - first)%fl in
  if decide (n ≤ 1) then of_Z 0 else ((available - occupied) / of_nat (n - 1))%fl.

Definition drops_of (first gap : F) (tops bottoms : list F) (n : nat) : result (list F) :=
  for_each (fun drops i =>
              (let? d := index_last drops in
               let? b := index bottoms i in
               let? t := index tops (i + 1) in
               Ok (drops ++ [(d + b + t + gap)%fl]))%res)
           (seq 0 (n - 1)) [first].

Definition solve_drops (first total : F) (tops bottoms : list F) (n : nat)
  : result (F * list F) :=
  (let? occupied := occupied_clearance tops bottoms n in
   let gap := gap_of first total occupied n in
   let? drops := drops_of first gap tops bottoms n in
   Ok (gap, drops))%res.
End Layout.

(** ** Geometry data (rhino3dm) *)

Record Point3d (F : Type) := mkPoint3d { ptX : F; ptY : F; ptZ : F }.
Arguments mkPoint3d {F}.
Arguments ptX {F}.
Arguments ptY {F}.
Arguments ptZ {F}.

Record Vector3d (F : Type) := mkVector3d { vecX : F; vecY : F; vecZ : F }.
Arguments mkVector3d {F}.
Arguments vecX {F}.
Arguments vecY {F}.
Arguments vecZ {F}.

Record BoundingBox (F : Type) := mkBoundingBox { bbMin : Point3d F; bbMax : Point3d F }.
Arguments mkBoundingBox {F}.
Arguments bbMin {F}.
Arguments bbMax {F}.

(** A face refers to vertices by index.  rhino3dm stores every face with
    four indices and hands it to Python as a 4-tuple: [AddFace(a, b, c, d)]
    stores (a, b, c, d), and [AddFace(a, b, c)] stores the triangle as
    (a, b, c, c). *)
Inductive Face := Quad (a b c d : nat).

Definition Tri (a b c : nat) : Face := Quad a b c c.

(** The value of a mesh object: the index-ordered vertex list and the face
    list.  Normals are not modelled: nothing exported reads them. *)
Record Mesh (F : Type) := mkMesh { Vertices : list (Point3d F); Faces : list Face }.
Arguments mkMesh {F}.
Arguments Vertices {F}.
Arguments Faces {F}.

(** The transforms the code constructs. *)
Inductive Transform (F : Type) :=
  | Rotation (angle : F) (axis : Vector3d F) (center : Point3d F)
  | Translation (dx dy dz : F).
Arguments Rotation {F}.
Arguments Translation {F}.

(** What [_rotation_from_z] returns: a transform, or, at line 55, the
    static method [rhino3dm.Transform.Identity] itself, which the code names
    without calling it. *)
Inductive RotationResult (F : Type) :=
  | AsTransform (xf : Transform F)
  | IdentityMethod.
Arguments AsTransform {F}.
Arguments IdentityMethod {F}.

(** [rhino3dm]: what the code calls on points, vectors, boxes and meshes. *)
Class Rhino (F : Type) := {
  transform_point : Transform F → Point3d F → Point3d F;
  Length : Vector3d F → F;
  Unitize : Vector3d F → Vector3d F;
  CrossProduct : Vector3d F → Vector3d F → Vector3d F;
  GetBoundingBox : Mesh F → BoundingBox F;
  Union : BoundingBox F → BoundingBox F → BoundingBox F;
}.

(** [mesh.Transform(xf)] on the value of a mesh. *)
Definition transform_mesh {F} `{Rhino F} (xf : Transform F) (m : Mesh F) : Mesh F :=
  mkMesh (transform_point xf <$> Vertices m) (Faces m).

(** [random.Random]: a generator is a value [Gen]; each draw returns the
    next generator. *)
Class Random (F : Type) := {
  Gen : Type;
  Random_new : Z → Gen;
  gen_random : Gen → F * Gen;
  gen_shuffle : list nat → Gen → list nat * Gen;
}.

(** ** Configuration (schema.py, settings.py) *)

Inductive ClusterType := RING | RING_WITH_CENTER | RANDOM_RING.

Global Instance ClusterType_eq_dec : EqDecision ClusterType.
Proof. solve_decision. Defined.

Inductive CanopySize := size_s | size_m | size_l.

Record CanopyConfig := mkCanopyConfig { size : CanopySize; canopy_appearance : string }.
Record CableConfig := mkCableConfig { cable_appearance : string }.
Record LayoutConfig := mkLayoutConfig {
  cluster_type : ClusterType;
  first_drop_mm : Z;
  total_drop_mm : Z;
}.
Record PendantConfig := mkPendantConfig { model : string; appearance : string }.
Record ClusterConfig := mkClusterConfig {
  canopy : CanopyConfig;
  cable : CableConfig;
  layout : LayoutConfig;
  pendants : list PendantConfig;
  random_seed : Z;
}.

Definition num_pendants (config : ClusterConfig) : nat := length (pendants config).

(** What schema.py validates: the field ranges, [total >= first], and the
    three [Literal] appearance types. *)
Definition valid_config (config : ClusterConfig) : Prop :=
  (100 ≤ first_drop_mm (layout config) ≤ 6000)%Z ∧
  (200 ≤ total_drop_mm (layout config) ≤ 8000)%Z ∧
  (first_drop_mm (layout config) ≤ total_drop_mm (layout config))%Z ∧
  (0 ≤ random_seed config ≤ 2147483647)%Z ∧
  canopy_appearance (canopy config) ∈ ["canopy_black"; "canopy_white"] ∧
  cable_appearance (cable config) ∈ ["cable_black"; "cable_white"] ∧
  Forall (λ p, appearance p ∈ ["shade_white"; "shade_blonde"; "shade_natural"])
         (pendants config).

Record CanopySpec (F : Type) := mkCanopySpec {
  outer_radius_mm : F;
  inner_radius_mm : F;
  cable_offset_mm : F;
  height_mm : F;
  plate_thickness_mm : F;
}.
Arguments mkCanopySpec {F}.
Arguments outer_radius_mm {F}.
Arguments inner_radius_mm {F}.
Arguments cable_offset_mm {F}.
Arguments height_mm {F}.
Arguments plate_thickness_mm {F}.

Definition CANOPY_SPECS {F} `{Float F} (size_key : CanopySize) : CanopySpec F :=
  match size_key with
  | size_s => mkCanopySpec (of_Z 150) (of_Z 130) (of_Z 20) (of_Z 40) (of_frac 15 10)
  | size_m => mkCanopySpec (of_Z 300) (of_Z 280) (of_Z 30) (of_Z 40) (of_frac 15 10)
  | size_l => mkCanopySpec (of_Z 450) (of_Z 430) (of_Z 30) (of_Z 40) (of_frac 15 10)
  end.

Definition CABLE_RADIUS_MM {F} `{Float F} : F := of_frac 25 10.

(** library.py: the keys of [PENDANT_LIBRARY]. *)
Definition PENDANT_LIBRARY : list string :=
  ["denny"; "alki"; "allyn"; "madison"; "moon10"; "moon14"; "moon18"; "moon24";
   "nest24"; "nest32"; "hive9"; "hive12"; "hive15"; "drop18"; "drop26";
   "disc16"; "disc20"; "disc24"; "bell10"; "bell16"; "ausi8"; "ausi12"; "ausi14"].

(** [get_pendant_path]: the path is the key's file; an unknown key raises. *)
Definition get_pendant_path (key : string) : result string :=
  if decide (key ∈ PENDANT_LIBRARY) then Ok key else Raise ValueError.

(** ** The heap of mesh objects, the memo tables, and the state monad *)

Definition loc := nat.

Record PendantPlacement (F : Type) := mkPendantPlacement {
  pendant : PendantConfig;
  start : Point3d F;
  end_ : Point3d F;
  meshes : list loc;
}.
Arguments mkPendantPlacement {F}.
Arguments pendant {F}.
Arguments start {F}.
Arguments end_ {F}.
Arguments meshes {F}.

Section Geometry.
Context {F : Type} `{Float F, Libm F, Rhino F, Random F}.

(** The process state a request runs in: the mesh objects, the table of
    [_load_pendant_meshes] (model key to the tuple of template objects),
    the table of [_pendant_extents], and the module-level generator of
    [random], which the code never names.  Both tables hold at most the 23
    keys of [PENDANT_LIBRARY] (a failing call is not memoized), fewer than
    [maxsize=128], so nothing is ever evicted. *)
Record World := mkWorld {
  heap : list (Mesh F);
  load_cache : gmap string (list loc);
  extents_cache : gmap string (F * F);
  global_rng : Gen;
}.

Definition set_heap (h : list (Mesh F)) (w : World) : World :=
  mkWorld h (load_cache w) (extents_cache w) (global_rng w).
Definition set_load_cache (c : gmap string (list loc)) (w : World) : World :=
  mkWorld (heap w) c (extents_cache w) (global_rng w).
Definition set_extents_cache (c : gmap string (F * F)) (w : World) : World :=
  mkWorld (heap w) (load_cache w) c (global_rng w).

Definition M (A : Type) : Type := World → result A * World.

Definition ret {A} (a : A) : M A := λ w, (Ok a, w).
Definition raise {A} (e : exn) : M A := λ w, (Raise e, w).
Definition lift {A} (r : result A) : M A := λ w, (r, w).
Definition bind {A B} (m : M A) (f : A → M B) : M B :=
  λ w, match m w with
       | (Ok a, w') => f a w'
       | (Raise e, w') => (Raise e, w')
       end.

Notation "'let*' x := m 'in' k" := (bind m (fun x => k))
  (at level 10, x pattern, m at level 100, k at level 200).

(** [for x in xs: acc = f(acc, x)] and [[f(x) for x in xs]]. *)
Fixpoint for_eachM {A B} (f : B → A → M B) (xs : list A) (acc : B) : M B :=
  match xs with
  | [] => ret acc
  | x :: xs' => let* acc' := f acc x in for_eachM f xs' acc'
  end.

Fixpoint mapM {A B} (f : A → M B) (xs : list A) : M (list B) :=
  match xs with
  | [] => ret []
  | x :: xs' => let* y := f x in let* ys := mapM f xs' in ret (y :: ys)
  end.

(** A new mesh object with value [m]. *)
Definition new_mesh (m : Mesh F) : M loc :=
  λ w, (Ok (length (heap w)), set_heap (heap w ++ [m]) w).

Definition read_mesh (l : loc) : M (Mesh F) :=
  λ w, match heap w !! l with
       | Some m => (Ok m, w)
       | None => (Raise DanglingReference, w)
       end.

(** [m.Duplicate()]. *)
Definition mesh_Duplicate (l : loc) : M loc :=
  let* m := read_mesh l in new_mesh m.

(** [m.Transform(xf)]: the object at [l] changes in place. *)
Definition mesh_Transform (l : loc) (xf : Transform F) : M unit :=
  λ w, match heap w !! l with
       | Some m => (Ok (), set_heap (<[l := transform_mesh xf m]> (heap w)) w)
       | None => (Raise DanglingReference, w)
       end.

(** *** Basic mesh helpers *)

(** The value [create_cylinder_mesh] builds.  [Vertices.Add] returns the
    index of the vertex it appends, so [ring_bottom[i]] is [2 * i] and
    [ring_top[i]] is [2 * i + 1]; [cb] and [ct] follow the rings. *)
Definition cylinder_value (radius height : F) (segments : nat) : Mesh F :=
  let ring_bottom i := 2 * i in
  let ring_top i := 2 * i + 1 in
  let rings :=
    flat_map (λ i,
      let a := (of_Z 2 * pi * of_nat i / of_nat segments)%fl in
      [mkPoint3d (radius * cos a)%fl (radius * sin a)%fl (of_Z 0);
       mkPoint3d (radius * cos a)%fl (radius * sin a)%fl height])
      (seq 0 segments) in
  let side :=
    (λ i, let i2 := (i + 1) `mod` segments in
          Quad (ring_bottom i) (ring_bottom i2) (ring_top i2) (ring_top i))
      <$> seq 0 segments in
  let cb := 2 * segments in
  let ct := 2 * segments + 1 in
  let caps :=
    flat_map (λ i,
      let i2 := (i + 1) `mod` segments in
      [Tri cb (ring_bottom i2) (ring_bottom i); Tri ct (ring_top i) (ring_top i2)])
      (seq 0 segments) in
  mkMesh (rings ++ [mkPoint3d (of_Z 0) (of_Z 0) (of_Z 0);
                    mkPoint3d (of_Z 0) (of_Z 0) height])
         (side ++ caps).

Definition create_cylinder_mesh (radius height : F) (segments : nat) : M loc :=
  new_mesh (cylinder_value radius height segments).

Definition _rotation_from_z (direction : Vector3d F) : RotationResult F :=
  let z := mkVector3d (of_Z 0) (of_Z 0) (of_Z 1) in
  let d := Unitize direction in
  let dot := fmax (of_frac (-1) 1)
                  (fmin (of_frac 1 1)
                        (vecX z * vecX d + vecY z * vecY d + vecZ z * vecZ d)%fl) in
  if (fabs (dot - of_frac 1 1) <? of_frac 1 100000000)%fl then IdentityMethod
  else if (fabs (dot + of_frac 1 1) <? of_frac 1 100000000)%fl then
    AsTransform (Rotation pi (mkVector3d (of_Z 1) (of_Z 0) (of_Z 0))
                          (mkPoint3d (of_Z 0) (of_Z 0) (of_Z 0)))
  else
    let axis := CrossProduct z d in
    let angle := acos dot in
    AsTransform (Rotation angle axis (mkPoint3d (of_Z 0) (of_Z 0) (of_Z 0))).

(** [cyl.Transform(x)] for what [_rotation_from_z] returned: a method is no
    [Transform], and the call raises [TypeError] without touching the
    mesh. *)
Definition mesh_Transform_with (l : loc) (x : RotationResult F) : M unit :=
  match x with
  | AsTransform xf => mesh_Transform l xf
  | IdentityMethod => raise TypeError
  end.

(** *** Canopy *)

Definition wants_center (cluster_type : ClusterType) : bool :=
  bool_decide (cluster_type ∈ [RING_WITH_CENTER; RANDOM_RING]).

(** The point of index [i] on the ring of [count] points. *)
Definition ring_point (conn_r zc : F) (count i : nat) : Point3d F :=
  let a := (of_Z 2 * pi * of_nat i / of_nat (max 1 count))%fl in
  mkPoint3d (conn_r * cos a)%fl (conn_r * sin a)%fl zc.

(** The points of [build_canopy].  [n_pendants] is the length of a list;
    [max(0, n_pendants - 1)] is the subtraction of [nat], which stops at 0. *)
Definition canopy_points (conn_r zc : F) (n_pendants : nat) (cluster_type : ClusterType)
  : list (Point3d F) :=
  if wants_center cluster_type then
    let ring_count := n_pendants - 1 in
    (ring_point conn_r zc ring_count <$> seq 0 ring_count)
      ++ [mkPoint3d (of_Z 0) (of_Z 0) zc]
  else
    ring_point conn_r zc n_pendants <$> seq 0 n_pendants.

Definition build_canopy (size_key : CanopySize) (n_pendants : nat)
           (cluster_type : ClusterType) : M (loc * loc * list (Point3d F)) :=
  let spec := CANOPY_SPECS size_key in
  let r_in := inner_radius_mm spec in
  let r_out := outer_radius_mm spec in
  let offset := cable_offset_mm spec in
  let height := height_mm spec in
  let plate := plate_thickness_mm spec in
  let* bottom := create_cylinder_mesh r_out plate 96 in
  let* _ := mesh_Transform bottom (Translation (of_Z 0) (of_Z 0) (- height)%fl) in
  let* top := create_cylinder_mesh (r_in + plate)%fl (height - plate)%fl 96 in
  let* _ := mesh_Transform top (Translation (of_Z 0) (of_Z 0) (- (height - plate))%fl) in
  let conn_r := (r_in - offset)%fl in
  let zc := (- height)%fl in
  ret (bottom, top, canopy_points conn_r zc n_pendants cluster_type).

(** *** Pendants *)

(** The pendant files on disk: for a model key, the mesh geometries of its
    [.3dm] file in object order; no entry when the file cannot be read. *)
Variable disk : gmap string (list (Mesh F)).

(** [File3dm.Read(path)] followed by the comprehension over
    [model.Objects]: each mesh geometry is duplicated into a new object. *)
Definition read_pendant_file (path : string) : M (list loc) :=
  match disk !! path with
  | Some geometries => mapM new_mesh geometries
  | None => raise AttributeError
  end.

(** [@lru_cache] around the body: a hit returns the stored tuple, a miss
    runs the body and stores its result; an exception stores nothing. *)
Definition _load_pendant_meshes (model_key : string) : M (list loc) :=
  λ w, match load_cache w !! model_key with
       | Some tuple => (Ok tuple, w)
       | None =>
           (let* path := lift (get_pendant_path model_key) in
            let* tuple := read_pendant_file path in
            λ w', (Ok tuple, set_load_cache (<[model_key := tuple]> (load_cache w')) w')) w
       end.

(** The loop over [meshes] in [_pendant_extents]: [bbox] starts as [None]. *)
Definition union_bboxes (ms : list loc) : M (option (BoundingBox F)) :=
  for_eachM (λ bbox l,
               let* m := read_mesh l in
               let b := GetBoundingBox m in
               ret (Some (match bbox with None => b | Some bb => Union bb b end)))
            ms None.

Definition _pendant_extents (model_key : string) : M (F * F) :=
  λ w, match extents_cache w !! model_key with
       | Some e => (Ok e, w)
       | None =>
           (let* ms := _load_pendant_meshes model_key in
            let* bbox := union_bboxes ms in
            match bbox with
            | None => raise AttributeError
            | Some bb =>
                let top := ptZ (bbMax bb) in
                let bottom := (- ptZ (bbMin bb))%fl in
                λ w', (Ok (top, bottom),
                       set_extents_cache (<[model_key := (top, bottom)]> (extents_cache w')) w')
            end) w
       end.

(** *** Core placement logic *)

(** [sorted(xs, key=...)] on the precomputed keys: a stable sort by [<]. *)
Fixpoint insert_by_key (key : nat → F) (x : nat) (sorted : list nat) : list nat :=
  match sorted with
  | [] => [x]
  | y :: rest => if (key x <? key y)%fl then x :: y :: rest
                 else y :: insert_by_key key x rest
  end.

Definition sorted_by_key (key : nat → F) (xs : list nat) : list nat :=
  fold_left (λ acc x, insert_by_key key x acc) xs [].

Definition ring_types : list ClusterType := [RING; RING_WITH_CENTER; RANDOM_RING].

(** The first loop: extents and a private copy of the templates, per pendant. *)
Definition load_pendants (ps : list PendantConfig)
  : M (list F * list F * list (list loc)) :=
  for_eachM (λ '(tops, bottoms, meshes_by_index) p,
               let* (t, b) := _pendant_extents (model p) in
               let* templates := _load_pendant_meshes (model p) in
               let* copies := mapM mesh_Duplicate templates in
               ret (tops ++ [t], bottoms ++ [b], meshes_by_index ++ [copies]))
            ps ([], [], []).

(** The attachment-point order: [indices]. *)
Definition assign_indices (cluster : ClusterType) (n : nat)
           (connection_points : list (Point3d F)) (rng : Gen)
  : result (list nat * Gen) :=
  if bool_decide (1 < n) && bool_decide (cluster ∈ ring_types) then
    (let? keys := for_each (λ ks i, let? p := index connection_points i in
                                    Ok (ks ++ [atan2 (ptY p) (ptX p)]))
                           (seq 0 n) [] in
     let indices := sorted_by_key (λ i, default (of_Z 0) (keys !! i)) (seq 0 n) in
     if decide (cluster = RANDOM_RING) then Ok (gen_shuffle indices rng)
     else Ok (indices, rng))%res
  else Ok (seq 0 n, rng).

(** The body of the second loop for pendant [i]. *)
Definition place_one (config : ClusterConfig) (connection_points : list (Point3d F))
           (indices : list nat) (drops : list F) (meshes_by_index : list (list loc))
           (acc : Gen * list (PendantPlacement F)) (i : nat)
  : M (Gen * list (PendantPlacement F)) :=
  let '(rng, placements) := acc in
  let* k := lift (index indices i) in
  let* sp := lift (index connection_points k) in
  let* drop := lift (index drops i) in
  let endp := mkPoint3d (ptX sp) (ptY sp) (ptZ sp - drop)%fl in
  let '(r, rng') := gen_random rng in
  let twist := (r * (of_frac 2 1 * pi))%fl in
  let rot := Rotation twist (mkVector3d (of_Z 0) (of_Z 0) (of_Z 1))
                      (mkPoint3d (of_Z 0) (of_Z 0) (of_Z 0)) in
  let* ms := lift (index meshes_by_index i) in
  let* placed :=
    mapM (λ m, let* mm := mesh_Duplicate m in
               let* _ := mesh_Transform mm rot in
               let* _ := mesh_Transform mm (Translation (ptX endp) (ptY endp) (ptZ endp)) in
               ret mm) ms in
  let* p := lift (index (pendants config) i) in
  ret (rng', placements ++ [mkPendantPlacement p sp endp placed]).

Definition place_pendants_then_plan_cables (config : ClusterConfig)
           (connection_points : list (Point3d F)) : M (list (PendantPlacement F)) :=
  let n := length (pendants config) in
  let rng := Random_new (random_seed config) in
  let* (tops, bottoms, meshes_by_index) := load_pendants (pendants config) in
  let first := of_Z (first_drop_mm (layout config)) in
  let total := of_Z (total_drop_mm (layout config)) in
  let* (gap, drops) := lift (solve_drops first total tops bottoms n) in
  let* (indices, rng) :=
    lift (assign_indices (cluster_type (layout config)) n connection_points rng) in
  let* (_, placements) :=
    for_eachM (place_one config connection_points indices drops meshes_by_index)
              (seq 0 n) (rng, []) in
  ret placements.

(** *** Cables *)

Definition build_cables_from_placements (placements : list (PendantPlacement F))
  : M (list loc * list (Point3d F)) :=
  for_eachM (λ '(cable_meshes, ends) pl,
               let sp := start pl in
               let ep := end_ pl in
               let d := mkVector3d (ptX ep - ptX sp)%fl (ptY ep - ptY sp)%fl
                                   (ptZ ep - ptZ sp)%fl in
               let length := Length d in
               if (length <? of_frac 1 1000000)%fl then ret (cable_meshes, ends)
               else
                 let* cyl := create_cylinder_mesh CABLE_RADIUS_MM length 32 in
                 let* _ := mesh_Transform_with cyl (_rotation_from_z d) in
                 let* _ := mesh_Transform cyl (Translation (ptX sp) (ptY sp) (ptZ sp)) in
                 ret (cable_meshes ++ [cyl], ends ++ [ep]))
            placements ([], []).

(** *** Scene assembly (build.py) *)

Record MeshGroup := mkMeshGroup { mesh : loc; material_key : string }.

(** The three appending loops over the canopy, the cables and the
    placements. *)
Definition assemble_mesh_groups (config : ClusterConfig) (bottom_mesh top_mesh : loc)
           (cable_meshes : list loc) (placements : list (PendantPlacement F))
  : list MeshGroup :=
  let mesh_groups := [] in
  let mesh_groups :=
    mesh_groups ++ [mkMeshGroup bottom_mesh (canopy_appearance (canopy config))] in
  let mesh_groups :=
    mesh_groups ++ [mkMeshGroup top_mesh (canopy_appearance (canopy config))] in
  let mesh_groups :=
    fold_left (λ gs cm, gs ++ [mkMeshGroup cm (cable_appearance (cable config))])
              cable_meshes mesh_groups in
  fold_left (λ gs pl,
               fold_left (λ gs' pm, gs' ++ [mkMeshGroup pm (appearance (pendant pl))])
                         (meshes pl) gs)
            placements mesh_groups.

(** The loop that collects [material_keys]. *)
Definition unique_material_keys (mesh_groups : list MeshGroup) : list string :=
  fold_left (λ material_keys mg,
               let k := material_key mg in
               if bool_decide (k ∈ material_keys) then material_keys
               else material_keys ++ [k])
            mesh_groups [].

Definition build_mesh_groups (config : ClusterConfig) : M (list MeshGroup * list string) :=
  let n := num_pendants config in
  let* (bottom_mesh, top_mesh, connection_points) :=
    build_canopy (size (canopy config)) n (cluster_type (layout config)) in
  let* placements := place_pendants_then_plan_cables config connection_points in
  let* (cable_meshes, _) := build_cables_from_placements placements in
  let mesh_groups :=
    assemble_mesh_groups config bottom_mesh top_mesh cable_meshes placements in
  ret (mesh_groups, unique_material_keys mesh_groups).
End Geometry.

Arguments World F {_}.
Arguments M F {_} A.

(** ** Materials (materials.py) *)

Record MaterialPreset (F : Type) := mkMaterialPreset {
  name : string;
  baseColorFactor : list F;
  metallicFactor : F;
  roughnessFactor : F;
}.
Arguments mkMaterialPreset {F}.
Arguments name {F}.
Arguments baseColorFactor {F}.
Arguments metallicFactor {F}.
Arguments roughnessFactor {F}.

(** [str.strip()] on the characters Python counts as ASCII whitespace. *)
Definition is_space (c : ascii) : bool :=
  let n := nat_of_ascii c in
  bool_decide (n = 32) || (bool_decide (9 ≤ n) && bool_decide (n ≤ 13))
  || (bool_decide (28 ≤ n) && bool_decide (n ≤ 31)).

Fixpoint lstrip (s : string) : string :=
  match s with
  | String c s' => if is_space c then lstrip s' else s
  | EmptyString => EmptyString
  end.

Fixpoint rstrip (s : string) : string :=
  match s with
  | String c s' =>
      match rstrip s' with
      | EmptyString => if is_space c then EmptyString else String c EmptyString
      | r => String c r
      end
  | EmptyString => EmptyString
  end.

Definition strip (s : string) : string := rstrip (lstrip s).

Section Materials.
Context {F : Type} `{Float F}.

Definition preset (nm : string) (r g b : Z) (roughness : Z) : MaterialPreset F :=
  mkMaterialPreset nm [of_frac r 100; of_frac g 100; of_frac b 100; of_frac 1 1]
                   (of_frac 0 1) (of_frac roughness 100).

Definition MATERIAL_PRESETS : list (string * MaterialPreset F) :=
  [("canopy_white", preset "CanopyWhite" 95 95 95 60);
   ("canopy_black", preset "CanopyBlack" 5 5 5 65);
   ("cable_white", preset "CableWhite" 92 92 92 80);
   ("cable_black", preset "CableBlack" 3 3 3 85);
   ("shade_white", preset "ShadeWhite" 82 81 78 95);
   ("shade_blonde", preset "ShadeBlonde" 48 40 26 95);
   ("shade_natural", preset "ShadeNatural" 13 9 5 98)].

(** [d[key]] on the preset table. *)
Fixpoint preset_lookup (key : string) (table : list (string * MaterialPreset F))
  : option (MaterialPreset F) :=
  match table with
  | [] => None
  | (k, v) :: rest => if decide (k = key) then Some v else preset_lookup key rest
  end.

Definition get_material_preset (key : string) (fallback : string) : result (MaterialPreset F) :=
  let key := strip key in
  match preset_lookup key MATERIAL_PRESETS with
  | Some p => Ok p
  | None =>
      match preset_lookup fallback MATERIAL_PRESETS with
      | Some p => Ok p
      | None =>
          match preset_lookup "shade_natural" MATERIAL_PRESETS with
          | Some p => Ok p
          | None => Raise KeyError
          end
      end
  end.
End Materials.

(** ** The GLB exporter (exporter.py) *)

(** The JSON document handed to [json.dumps]: objects keep insertion order. *)
#[warnings="-register-all"]
Inductive json (F : Type) :=
  | JInt (z : Z)
  | JFloat (x : F)
  | JStr (s : string)
  | JBool (b : bool)
  | JArr (items : list (json F))
  | JObj (fields : list (string * json F)).
Arguments JInt {F}.
Arguments JFloat {F}.
Arguments JStr {F}.
Arguments JBool {F}.
Arguments JArr {F}.
Arguments JObj {F}.

(** [json] and [struct]: [json.dumps] with its defaults (ASCII output), and
    [struct.pack("<f", x)], which raises when [x] does not fit binary32. *)
Class Codec (F : Type) := {
  json_dumps : json F → string;
  pack_f32 : F → result (list byte);
}.

(** [struct.pack("<I", n)]: four bytes, least significant first; a value
    that does not fit raises [struct.error]. *)
Definition byte_of_N (n : N) : byte :=
  default Byte.x00 (Byte.of_N (n `mod` 256)%N).

Definition pack_u32 (n : N) : result (list byte) :=
  if decide (n < 2 ^ 32)%N then
    Ok [byte_of_N n; byte_of_N (n `div` 256)%N;
        byte_of_N (n `div` 65536)%N; byte_of_N (n `div` 16777216)%N]
  else Raise StructError.

(** The [while len(data) % 4 != 0: data += fill] loop, unrolled [fuel]
    times.  Three rounds always reach the exit ([pad_loop_exit]). *)
Fixpoint pad_loop (fuel : nat) (fill : byte) (data : list byte) : list byte :=
  match fuel with
  | 0 => data
  | S fuel' =>
      if decide (length data `mod` 4 ≠ 0) then pad_loop fuel' fill (data ++ [fill])
      else data
  end.

Definition pad_to_4 (data : list byte) : list byte := pad_loop 3 Byte.x00 data.

Definition pad_json_to_4 (json_str : string) : list byte :=
  pad_loop 3 Byte.x20 (list_byte_of_string json_str).

Definition mapping_type_from_material_key (key : string) : string :=
  if String.prefix "shade_" key then "cylindrical" else "planar".

Section Exporter.
Context {F : Type} `{Float F, Libm F, Codec F}.

Definition compute_planar_uv (x y scale : F) : F * F :=
  ((x / scale) + of_frac 5 10, (y / scale) + of_frac 5 10)%fl.

Definition compute_cylindrical_uv (x y z scale_height : F) : F * F :=
  let angle := atan2 y x in
  let u := ((angle / (of_Z 2 * pi)) + of_frac 5 10)%fl in
  let v := ((z / scale_height) + of_frac 5 10)%fl in
  (u, v).

(** The default value of [scale] and of [scale_height]: [500.0]. *)
Definition default_scale : F := of_frac 500 1.

(** The face loop.  A face of [mesh.Faces] is a 4-tuple: it has no
    attribute [IsTriangle] and its length is 4, so the branch taken is
    [a, b, c, d = f] with the two triangles a, b, c and a, c, d.  For a
    triangle, stored as (a, b, c, c), the second one is a, c, c. *)
Definition face_indices (f : Face) : list nat :=
  match f with
  | Quad a b c d => [a; b; c; a; c; d]
  end.

Definition mesh_to_arrays (m : Mesh F) (mapping_type : string)
  : list F * list F * list nat :=
  let '(positions, uvs) :=
    fold_left (λ '(positions, uvs) v,
                 let positions :=
                   positions ++ [(ptX v / of_frac 1000 1)%fl;
                                 (ptZ v / of_frac 1000 1)%fl;
                                 (ptY v / of_frac 1000 1)%fl] in
                 let '(u, vv) :=
                   if decide (mapping_type = "cylindrical")
                   then compute_cylindrical_uv (ptX v) (ptY v) (ptZ v) default_scale
                   else compute_planar_uv (ptX v) (ptY v) default_scale in
                 (positions, uvs ++ [u; vv]))
              (Vertices m) ([], []) in
  let indices := fold_left (λ indices f, indices ++ face_indices f) (Faces m) [] in
  (positions, uvs, indices).

(** [struct.pack("<" + "f" * len(xs), *xs)] and the same with ["I"]. *)
Definition pack_floats (xs : list F) : result (list byte) :=
  for_each (λ acc x, let? b := pack_f32 x in Ok (acc ++ b))%res xs [].

Definition pack_uints (ns : list nat) : result (list byte) :=
  for_each (λ acc n, let? b := pack_u32 (N.of_nat n) in Ok (acc ++ b))%res ns [].

(** [sum(len(b) for b in buffers)]. *)
Definition total_length (buffers : list (list byte)) : nat :=
  sum_list (length <$> buffers).

Definition json_int (n : nat) : json F := JInt (Z.of_nat n).

(** The materials loop: the records and [material_index_map]. *)
Definition material_records (material_keys : list string)
  : result (list (json F) * gmap string nat) :=
  for_each (λ '(materials, material_index_map) key,
              (let? p := get_material_preset key "shade_natural" in
               let mat_def :=
                 JObj [("name", JStr (name p));
                       ("pbrMetallicRoughness",
                        JObj [("baseColorFactor", JArr (JFloat <$> baseColorFactor p));
                              ("metallicFactor", JFloat (metallicFactor p));
                              ("roughnessFactor", JFloat (roughnessFactor p))]);
                       ("doubleSided", JBool true)] in
               Ok (materials ++ [mat_def],
                   <[key := length materials]> material_index_map))%res)
           material_keys ([], ∅).

(** The lists the meshes loop appends to. *)
Record ExportState := mkExportState {
  buffers : list (list byte);
  buffer_views : list (json F);
  accessors : list (json F);
  meshes_out : list (json F);
  nodes : list (json F);
}.

Definition buffer_view (off len : nat) (target : Z) : json F :=
  JObj [("buffer", JInt 0); ("byteOffset", json_int off);
        ("byteLength", json_int len); ("target", JInt target)].

Definition accessor (view : nat) (component : Z) (count : nat) (type : string) : json F :=
  JObj [("bufferView", json_int view); ("componentType", JInt component);
        ("count", json_int count); ("type", JStr type)].

(** The body of the meshes loop for one mesh group. *)
Definition export_group (h : list (Mesh F)) (material_index_map : gmap string nat)
           (st : ExportState) (mg : MeshGroup) : result ExportState :=
  (let? m := match h !! mesh mg with
             | Some m => Ok m
             | None => Raise DanglingReference
             end in
   let? mat_index := match material_index_map !! material_key mg with
                     | Some i => Ok i
                     | None => Raise KeyError
                     end in
   let '(positions, uvs, indices) :=
     mesh_to_arrays m (mapping_type_from_material_key (material_key mg)) in
   match indices with
   | [] => Ok st
   | _ =>
       let? pos := pack_floats positions in
       let pos := pad_to_4 pos in
       let? uv := pack_floats uvs in
       let uv := pad_to_4 uv in
       let? idx := pack_uints indices in
       let idx := pad_to_4 idx in
       let bufs := buffers st in
       let pos_off := total_length bufs in
       let bufs := bufs ++ [pos] in
       let uv_off := total_length bufs in
       let bufs := bufs ++ [uv] in
       let idx_off := total_length bufs in
       let bufs := bufs ++ [idx] in
       let bvs := buffer_views st in
       let bv_pos := length bvs in
       let bvs := bvs ++ [buffer_view pos_off (length pos) 34962%Z] in
       let bv_uv := length bvs in
       let bvs := bvs ++ [buffer_view uv_off (length uv) 34962%Z] in
       let bv_idx := length bvs in
       let bvs := bvs ++ [buffer_view idx_off (length idx) 34963%Z] in
       let accs := accessors st in
       let acc_pos := length accs in
       let accs := accs ++ [accessor bv_pos 5126%Z (length positions `div` 3) "VEC3"] in
       let acc_uv := length accs in
       let accs := accs ++ [accessor bv_uv 5126%Z (length uvs `div` 2) "VEC2"] in
       let acc_idx := length accs in
       let accs := accs ++ [accessor bv_idx 5125%Z (length indices) "SCALAR"] in
       let ms := meshes_out st ++
         [JObj [("primitives",
                 JArr [JObj [("attributes",
                              JObj [("POSITION", json_int acc_pos);
                                    ("TEXCOORD_0", json_int acc_uv)]);
                             ("indices", json_int acc_idx);
                             ("material", json_int mat_index)]])]] in
       let ns := nodes st ++ [JObj [("mesh", json_int (length ms - 1))]] in
       Ok (mkExportState bufs bvs accs ms ns)
   end)%res.

Definition gltf_document (st : ExportState) (materials : list (json F)) : json F :=
  JObj [("asset", JObj [("version", JStr "2.0")]);
        ("scene", JInt 0);
        ("scenes", JArr [JObj [("nodes", JArr (json_int <$> seq 0 (length (nodes st))))]]);
        ("nodes", JArr (nodes st));
        ("meshes", JArr (meshes_out st));
        ("buffers", JArr [JObj [("byteLength", json_int (total_length (buffers st)))]]);
        ("bufferViews", JArr (buffer_views st));
        ("accessors", JArr (accessors st));
        ("materials", JArr materials)].

(** The bytes [struct.pack("<4sII", b"glTF", 2, total)] and the two chunk
    headers [struct.pack("<I4s", length, tag)] produce. *)
Definition magic : list byte := list_byte_of_string "glTF".
Definition json_tag : list byte := list_byte_of_string "JSON".
Definition bin_tag : list byte := list_byte_of_string "BIN" ++ [Byte.x00].

Definition container (json_chunk bin_chunk : list byte) : result (list byte) :=
  (let? version := pack_u32 2 in
   let? total := pack_u32 (N.of_nat (12 + 8 + length json_chunk + 8 + length bin_chunk)) in
   let header := magic ++ version ++ total in
   let? json_len := pack_u32 (N.of_nat (length json_chunk)) in
   let? bin_len := pack_u32 (N.of_nat (length bin_chunk)) in
   Ok (header ++ (json_len ++ json_tag) ++ json_chunk
              ++ (bin_len ++ bin_tag) ++ bin_chunk))%res.

(** [save_mesh_groups_as_glb]: the bytes written to [output_path], read
    from the mesh objects in heap [h]. *)
Definition save_mesh_groups_as_glb (h : list (Mesh F)) (mesh_groups : list MeshGroup)
           (material_keys : list string) : result (list byte) :=
  (let? (materials, material_index_map) := material_records material_keys in
   let? st := for_each (export_group h material_index_map) mesh_groups
                       (mkExportState [] [] [] [] []) in
   let gltf := gltf_document st materials in
   let json_chunk := pad_json_to_4 (json_dumps gltf) in
   let bin_chunk := pad_to_4 (concat (buffers st)) in
   container json_chunk bin_chunk)%res.
End Exporter.

(** ** Implementations of the library classes *)

(** *** Euclidean geometry for [rhino3dm], over any numbers with a square root *)
Section Euclid.
Context {F : Type} `{Float F, Libm F}.
Variable fsqrt : F → F.

Definition euclid_length (v : Vector3d F) : F :=
  fsqrt (vecX v * vecX v + vecY v * vecY v + vecZ v * vecZ v)%fl.

Definition euclid_unitize (v : Vector3d F) : Vector3d F :=
  let len := euclid_length v in
  if (of_Z 0 <? len)%fl
  then mkVector3d (vecX v / len)%fl (vecY v / len)%fl (vecZ v / len)%fl
  else v.

Definition cross (a b : Vector3d F) : Vector3d F :=
  mkVector3d (vecY a * vecZ b - vecZ a * vecY b)%fl
             (vecZ a * vecX b - vecX a * vecZ b)%fl
             (vecX a * vecY b - vecY a * vecX b)%fl.

(** A rotation by [angle] about the line through [center] along [axis]
    (Rodrigues' formula), and a translation. *)
Definition euclid_transform (xf : Transform F) (p : Point3d F) : Point3d F :=
  match xf with
  | Translation dx dy dz => mkPoint3d (ptX p + dx)%fl (ptY p + dy)%fl (ptZ p + dz)%fl
  | Rotation angle axis center =>
      let u := euclid_unitize axis in
      let v := mkVector3d (ptX p - ptX center)%fl (ptY p - ptY center)%fl
                          (ptZ p - ptZ center)%fl in
      let c := cos angle in
      let s := sin angle in
      let uv := cross u v in
      let k := ((vecX u * vecX v + vecY u * vecY v + vecZ u * vecZ v)
                * (of_Z 1 - c))%fl in
      mkPoint3d (ptX center + (vecX v * c + vecX uv * s + vecX u * k))%fl
                (ptY center + (vecY v * c + vecY uv * s + vecY u * k))%fl
                (ptZ center + (vecZ v * c + vecZ uv * s + vecZ u * k))%fl
  end.

Definition point_min (a b : Point3d F) : Point3d F :=
  mkPoint3d (fmin (ptX a) (ptX b)) (fmin (ptY a) (ptY b)) (fmin (ptZ a) (ptZ b)).
Definition point_max (a b : Point3d F) : Point3d F :=
  mkPoint3d (fmax (ptX a) (ptX b)) (fmax (ptY a) (ptY b)) (fmax (ptZ a) (ptZ b)).

Definition euclid_union (a b : BoundingBox F) : BoundingBox F :=
  mkBoundingBox (point_min (bbMin a) (bbMin b)) (point_max (bbMax a) (bbMax b)).

(** The box of a mesh without vertices is the empty box at the origin. *)
Definition euclid_bbox (m : Mesh F) : BoundingBox F :=
  match Vertices m with
  | [] => let o := mkPoint3d (of_Z 0) (of_Z 0) (of_Z 0) in mkBoundingBox o o
  | v :: vs => fold_left (λ bb p, mkBoundingBox (point_min (bbMin bb) p)
                                                (point_max (bbMax bb) p))
                         vs (mkBoundingBox v v)
  end.

Definition euclid_rhino : Rhino F :=
  {| transform_point := euclid_transform;
     Length := euclid_length;
     Unitize := euclid_unitize;
     CrossProduct := cross;
     GetBoundingBox := euclid_bbox;
     Union := euclid_union |}.
End Euclid.

(** *** A linear congruential generator for [random.Random] *)
Section Lcg.
Context {F : Type} `{Float F}.

Definition lcg_next (g : Z) : Z := ((1103515245 * g + 12345) `mod` 2147483648)%Z.

Definition lcg_random (g : Z) : F * Z :=
  let g' := lcg_next g in (of_frac g' 2147483648, g').

(** [x[i], x[j] = x[j], x[i]]. *)
Definition swap (i j : nat) (xs : list nat) : list nat :=
  match xs !! i, xs !! j with
  | Some a, Some b => <[j := a]> (<[i := b]> xs)
  | _, _ => xs
  end.

(** [for i in reversed(range(1, len(x))): j = randbelow(i + 1); swap]. *)
Definition lcg_shuffle (xs : list nat) (g : Z) : list nat * Z :=
  fold_left (λ '(xs, g) i,
               let g' := lcg_next g in
               let j := Z.to_nat (g' `mod` Z.of_nat (i + 1))%Z in
               (swap i j xs, g'))
            (rev (seq 1 (length xs - 1))) (xs, g).

Definition lcg_generator : Random F :=
  {| Gen := Z;
     Random_new := λ seed, seed;
     gen_random := lcg_random;
     gen_shuffle := lcg_shuffle |}.
End Lcg.

(** *** The real numbers *)
Module RealModel.
Definition Rltb (a b : R) : bool := if Rlt_dec a b then true else false.

Global Instance float_R : Float R :=
  {| fadd := Rplus; fsub := Rminus; fmul := Rmult; fdiv := Rdiv;
     fneg := Ropp; fabs := Rabs; fltb := Rltb;
     of_frac := λ z p, (IZR z / IZR (Z.pos p))%R |}.

(** [math.atan2(y, x)] from the arctangent, by quadrant. *)
Definition Ratan2 (y x : R) : R :=
  if Rlt_dec 0 x then atan (y / x)
  else if Rlt_dec x 0 then
    if Rlt_dec y 0 then (atan (y / x) - PI)%R else (atan (y / x) + PI)%R
  else if Rlt_dec 0 y then (PI / 2)%R
  else if Rlt_dec y 0 then (- (PI / 2))%R
  else 0%R.

Global Instance libm_R : Libm R :=
  {| pi := PI; cos := Rtrigo_def.cos; sin := Rtrigo_def.sin;
     acos := Ratan.acos; atan2 := Ratan2 |}.

Global Instance rhino_R : Rhino R := euclid_rhino sqrt.
Global Instance random_R : Random R := lcg_generator.
End RealModel.

(** *** A serializer in the layout of [json.dumps] *)
Section Dumps.
Context {F : Type}.
Variable float_repr : F → string.

Definition join (sep : string) (parts : list string) : string :=
  match parts with
  | [] => ""
  | p :: ps => fold_left (λ acc q, acc +:+ sep +:+ q) ps p
  end.

Definition double_quote : ascii := ascii_of_nat 34.

Definition quoted (s : string) : string := String double_quote (s +:+ String double_quote "").

Fixpoint dumps (j : json F) : string :=
  match j with
  | JInt z => pretty z
  | JFloat x => float_repr x
  | JStr s => quoted s
  | JBool b => if b then "true" else "false"
  | JArr items => "[" +:+ join ", " (map dumps items) +:+ "]"
  | JObj fields =>
      "{" +:+ join ", " (map (λ kv, quoted (fst kv) +:+ ": " +:+ dumps (snd kv)) fields)
          +:+ "}"
  end.
End Dumps.

(** *** The rationals: exact arithmetic that computes

    [math]'s functions have irrational values; here they are rational
    approximations, so that the model runs on concrete inputs.  The square
    root is exact on squares of rationals, which covers the length of a
    vertical segment. *)
Module RationalModel.
Definition Qcltb (a b : Qc) : bool :=
  match Qccompare a b with Lt => true | _ => false end.

Global Instance float_Qc : Float Qc :=
  {| fadd := Qcplus; fsub := Qcminus; fmul := Qcmult; fdiv := Qcdiv;
     fneg := Qcopp; fabs := Qcabs; fltb := Qcltb;
     of_frac := λ z p, Q2Qc (z # p) |}.

Definition Qcsqrt (q : Qc) : Qc :=
  Q2Qc (Z.sqrt (Qnum (this q)) # Pos.sqrt (Qden (this q))).

Definition Qcpi : Qc := Q2Qc (355 # 113).

(** Taylor polynomials of degree 7 and 6. *)
Definition Qcsin (x : Qc) : Qc :=
  let x2 := (x * x)%Qc in
  (x * (1 - x2 / Q2Qc 6 * (1 - x2 / Q2Qc 20 * (1 - x2 / Q2Qc 42))))%Qc.
Definition Qccos (x : Qc) : Qc :=
  let x2 := (x * x)%Qc in
  (1 - x2 / Q2Qc 2 * (1 - x2 / Q2Qc 12 * (1 - x2 / Q2Qc 30)))%Qc.

(** The arctangent on [-1, 1] as [t / (1 + 0.28 t^2)], extended by octant. *)
Definition Qcatan_unit (t : Qc) : Qc := (t / (1 + Q2Qc (28 # 100) * t * t))%Qc.

Definition Qcatan2 (y x : Qc) : Qc :=
  if Qcltb (Qcabs x) (Qcabs y) then
    if Qcltb 0 y then (Qcpi / Q2Qc 2 - Qcatan_unit (x / y))%Qc
    else (- (Qcpi / Q2Qc 2) - Qcatan_unit (x / y))%Qc
  else if Qcltb 0 x then Qcatan_unit (y / x)
  else if Qcltb x 0 then
    if Qcltb y 0 then (Qcatan_unit (y / x) - Qcpi)%Qc
    else (Qcatan_unit (y / x) + Qcpi)%Qc
  else 0%Qc.

Definition Qcacos (x : Qc) : Qc := (Qcpi / Q2Qc 2 - Qcatan_unit x * Q2Qc 2)%Qc.

Global Instance libm_Qc : Libm Qc :=
  {| pi := Qcpi; cos := Qccos; sin := Qcsin; acos := Qcacos; atan2 := Qcatan2 |}.

Global Instance rhino_Qc : Rhino Qc := euclid_rhino Qcsqrt.
Global Instance random_Qc : Random Qc := lcg_generator.

(** The nearest integer to [n / d], ties to even ([0 < d]). *)
Definition round_half_even (n d : Z) : Z :=
  let q := (n `div` d)%Z in
  let r := (n `mod` d)%Z in
  match (2 * r ?= d)%Z with
  | Lt => q
  | Gt => (q + 1)%Z
  | Eq => if Z.even q then q else (q + 1)%Z
  end.

(** The binary32 encoding of a rational: sign, biased exponent, 23
    fraction bits, rounded to nearest; too large a value raises. *)
Definition binary32_bits (q : Qc) : result Z :=
  let n := Z.abs (Qnum (this q)) in
  let d := Z.pos (Qden (this q)) in
  let sign := if (Qnum (this q) <? 0)%Z then 2147483648%Z else 0%Z in
  if (n =? 0)%Z then Ok 0%Z
  else
    let e0 := (Z.log2 n - Z.log2 d)%Z in
    let e := if (n <? d * 2 ^ e0)%Z && (0 <=? e0)%Z then (e0 - 1)%Z
             else if (n * 2 ^ (- e0) <? d)%Z && (e0 <? 0)%Z then (e0 - 1)%Z
             else e0 in
    let e := Z.max e (-126) in
    let k := (23 - e)%Z in
    let m := round_half_even (n * 2 ^ k)%Z d in
    let '(e, m) := if (16777216 <=? m)%Z then ((e + 1)%Z, 8388608%Z) else (e, m) in
    if (127 <? e)%Z then Raise OverflowError
    else if (m <? 8388608)%Z then Ok (sign + m)%Z
    else Ok (sign + (e + 127) * 8388608 + (m - 8388608))%Z.

Definition pack_f32_Qc (q : Qc) : result (list byte) :=
  (let? bits := binary32_bits q in pack_u32 (Z.to_N bits))%res.

(** A decimal rendering with six fractional digits. *)
Definition Qc_repr (q : Qc) : string :=
  let n := Qnum (this q) in
  let d := Z.pos (Qden (this q)) in
  let scaled := Z.abs (round_half_even (n * 1000000)%Z d) in
  let frac := pretty (scaled `mod` 1000000)%Z in
  (if (n <? 0)%Z then "-" else "") +:+ pretty (scaled `div` 1000000)%Z +:+ "."
    +:+ string_of_list_ascii (replicate (6 - String.length frac) "0"%char) +:+ frac.

Global Instance codec_Qc : Codec Qc :=
  {| json_dumps := dumps Qc_repr; pack_f32 := pack_f32_Qc |}.
End RationalModel.

(** *** binary64

    Python's [float] as the machine has it: IEEE 754 binary64, every
    operation rounded to the nearest number, ties to even.  [float(n)] is
    built by doubling, which is exact for integers below 2^53; [of_frac z p]
    divides two such numbers, which gives the number nearest to [z/p], as
    the decimal literal does. *)
Module Binary64Model.

Fixpoint float_of_pos (p : positive) : PrimFloat.float :=
  match p with
  | xH => PrimFloat.one
  | xO p' => PrimFloat.mul PrimFloat.two (float_of_pos p')
  | xI p' => PrimFloat.add (PrimFloat.mul PrimFloat.two (float_of_pos p')) PrimFloat.one
  end.

Definition float_of_Z (z : Z) : PrimFloat.float :=
  match z with
  | Z0 => PrimFloat.zero
  | Zpos p => float_of_pos p
  | Zneg p => PrimFloat.opp (float_of_pos p)
  end.

Global Instance float_binary64 : Float PrimFloat.float :=
  {| fadd := PrimFloat.add; fsub := PrimFloat.sub; fmul := PrimFloat.mul;
     fdiv := PrimFloat.div; fneg := PrimFloat.opp; fabs := PrimFloat.abs;
     fltb := PrimFloat.ltb;
     of_frac := λ z p, PrimFloat.div (float_of_Z z) (float_of_pos p) |}.
End Binary64Model.

(** ** The configuration code (codec.py, with the validators of schema.py)

    A Python [str] is a [string]; the codes the front end sends are ASCII.
    Exceptions are told apart by class only.  [pydantic]'s
    [ValidationError] is a [ValueError]. *)

Global Instance CanopySize_eq_dec : EqDecision CanopySize.
Proof. solve_decision. Defined.

Global Instance CanopySize_countable : Countable CanopySize.
Proof.
  refine (inj_countable' (λ s, match s with size_s => 0 | size_m => 1 | size_l => 2 end)
                         (λ n, match n with 0 => size_s | 1 => size_m | _ => size_l end) _).
  by intros [].
Defined.

Global Instance ClusterType_countable : Countable ClusterType.
Proof.
  refine (inj_countable' (λ t, match t with RING => 0 | RING_WITH_CENTER => 1 | RANDOM_RING => 2 end)
                         (λ n, match n with 0 => RING | 1 => RING_WITH_CENTER | _ => RANDOM_RING end) _).
  by intros [].
Defined.

(** *** Strings *)

(** [s.split(sep)] for a one-character separator: the pieces between the
    separators, empty ones included. *)
Fixpoint split_pieces (sep : ascii) (s : string) : string * list string :=
  match s with
  | EmptyString => (EmptyString, [])
  | String c s' =>
      let '(piece, rest) := split_pieces sep s' in
      if decide (c = sep) then (EmptyString, piece :: rest) else (String c piece, rest)
  end.

Definition split_on (sep : ascii) (s : string) : list string :=
  let '(piece, rest) := split_pieces sep s in piece :: rest.

(** [s.split(sep, 1)]: cut at the first separator, if there is one. *)
Fixpoint cut (sep : ascii) (s : string) : string * option string :=
  match s with
  | EmptyString => (EmptyString, None)
  | String c s' =>
      if decide (c = sep) then (EmptyString, Some s')
      else let '(before, after) := cut sep s' in (String c before, after)
  end.

Definition split_once (sep : ascii) (s : string) : list string :=
  match cut sep s with
  | (before, Some after) => [before; after]
  | (before, None) => [before]
  end.

(** [a, b = xs]: unpacking into exactly two names. *)
Definition unpack_pair (xs : list string) : result (string * string) :=
  match xs with
  | [a; b] => Ok (a, b)
  | _ => Raise ValueError
  end.

(** [s[n:]] and [s[:n]]. *)
Fixpoint str_drop (n : nat) (s : string) : string :=
  match n, s with
  | S n', String _ s' => str_drop n' s'
  | _, _ => s
  end.

Fixpoint str_take (n : nat) (s : string) : string :=
  match n, s with
  | S n', String c s' => String c (str_take n' s')
  | _, _ => EmptyString
  end.

(** [s[0]] as a string of length one. *)
Definition str_head (s : string) : result string :=
  match s with
  | String c _ => Ok (String c EmptyString)
  | EmptyString => Raise IndexError
  end.

(** *** Integers and their decimal form *)

(** The whitespace [int()] strips: space and the characters 9 to 13. *)
Definition is_int_space (c : ascii) : bool :=
  let n := nat_of_ascii c in
  bool_decide (n = 32) || (bool_decide (9 ≤ n) && bool_decide (n ≤ 13)).

Fixpoint int_lstrip (s : string) : string :=
  match s with
  | String c s' => if is_int_space c then int_lstrip s' else s
  | EmptyString => EmptyString
  end.

Fixpoint int_rstrip (s : string) : string :=
  match s with
  | String c s' =>
      match int_rstrip s' with
      | EmptyString => if is_int_space c then EmptyString else String c EmptyString
      | r => String c r
      end
  | EmptyString => EmptyString
  end.

Definition digit_value (c : ascii) : option Z :=
  let n := nat_of_ascii c in
  if bool_decide (48 ≤ n) && bool_decide (n ≤ 57) then Some (Z.of_nat n - 48)%Z else None.

(** The digits of a decimal literal, left to right: single underscores
    may stand between digits.  [value] is the number read so far, [count]
    the number of digits, [after_digit] whether the last character was a
    digit. *)
Fixpoint parse_digits (s : string) (value : Z) (count : nat) (after_digit : bool)
  : option (Z * nat) :=
  match s with
  | EmptyString => if after_digit then Some (value, count) else None
  | String c s' =>
      match digit_value c with
      | Some d => parse_digits s' (10 * value + d)%Z (S count) true
      | None =>
          if bool_decide (c = "_"%char) && after_digit
          then parse_digits s' value count false
          else None
      end
  end.

Section Codec.
(** [sys.get_int_max_str_digits()]: 4300 unless configured, 0 for no limit
    (and in interpreters that have no such limit). *)
Variable int_max_str_digits : nat.

(** CPython checks the limit only above 640 digits. *)
Definition exceeds_limit (digits : nat) : bool :=
  bool_decide (640 < digits) && bool_decide (0 < int_max_str_digits)
  && bool_decide (int_max_str_digits < digits).

(** [int(s)] for a string [s]. *)
Definition py_int (s : string) : result Z :=
  let s := int_rstrip (int_lstrip s) in
  let '(negative, digits) :=
    match s with
    | String c r =>
        if decide (c = "-"%char) then (true, r)
        else if decide (c = "+"%char) then (false, r)
        else (false, s)
    | EmptyString => (false, s)
    end in
  match parse_digits digits 0 0 false with
  | Some (value, count) =>
      if exceeds_limit count then Raise ValueError
      else Ok (if negative then (- value)%Z else value)
  | None => Raise ValueError
  end.

(** [format(z, "0{width}d")]; [width = 0] is [str(z)] and [f"{z}"]. *)
Definition format_d (width : nat) (z : Z) : result string :=
  let digits := pretty (Z.abs_N z) in
  let sign := if (z <? 0)%Z then "-" else "" in
  if exceeds_limit (String.length digits) then Raise ValueError
  else Ok (sign +:+ string_of_list_ascii
                      (replicate (width - String.length sign - String.length digits)
                                 "0"%char)
                +:+ digits).

(** *** The mapping tables *)

(** A [dict] built from its items in order: a later item overrides. *)
Definition dict_of {K V} `{Countable K} (items : list (K * V)) : gmap K V :=
  fold_left (λ d kv, <[kv.1 := kv.2]> d) items ∅.

(** [{v: k for k, v in items}]. *)
Definition reversed {K V} (items : list (K * V)) : list (V * K) :=
  (λ kv, (kv.2, kv.1)) <$> items.

(** [d[k]]. *)
Definition getitem {K V} `{Countable K} (d : gmap K V) (k : K) : result V :=
  match d !! k with
  | Some v => Ok v
  | None => Raise KeyError
  end.

Definition CANOPY_SIZE_ITEMS : list (Z * CanopySize) :=
  [(0, size_s); (1, size_m); (2, size_l)]%Z.
Definition CANOPY_SIZE_MAP := dict_of CANOPY_SIZE_ITEMS.
Definition CANOPY_SIZE_REVERSE := dict_of (reversed CANOPY_SIZE_ITEMS).

Definition CANOPY_APPEARANCE_ITEMS : list (Z * string) :=
  [(0, "canopy_black"); (1, "canopy_white")]%Z.
Definition CANOPY_APPEARANCE_MAP := dict_of CANOPY_APPEARANCE_ITEMS.
Definition CANOPY_APPEARANCE_REVERSE := dict_of (reversed CANOPY_APPEARANCE_ITEMS).

Definition CABLE_APPEARANCE_ITEMS : list (Z * string) :=
  [(0, "cable_black"); (1, "cable_white")]%Z.
Definition CABLE_APPEARANCE_MAP := dict_of CABLE_APPEARANCE_ITEMS.
Definition CABLE_APPEARANCE_REVERSE := dict_of (reversed CABLE_APPEARANCE_ITEMS).

Definition SHADE_APPEARANCE_ITEMS : list (Z * string) :=
  [(0, "shade_natural"); (1, "shade_blonde"); (2, "shade_white")]%Z.
Definition SHADE_APPEARANCE_MAP := dict_of SHADE_APPEARANCE_ITEMS.
Definition SHADE_APPEARANCE_REVERSE := dict_of (reversed SHADE_APPEARANCE_ITEMS).

Definition CLUSTER_TYPE_ITEMS : list (Z * ClusterType) :=
  [(0, RING); (1, RING_WITH_CENTER); (2, RANDOM_RING)]%Z.
Definition CLUSTER_TYPE_MAP := dict_of CLUSTER_TYPE_ITEMS.
Definition CLUSTER_TYPE_REVERSE := dict_of (reversed CLUSTER_TYPE_ITEMS).

Definition PENDANT_MODEL_ITEMS : list (Z * string) :=
  [(0, "denny"); (1, "alki"); (2, "allyn"); (3, "madison"); (4, "oliv");
   (5, "moon10"); (6, "moon14"); (7, "moon18"); (8, "moon24"); (9, "moon32");
   (10, "nest24"); (11, "nest32"); (12, "hive9"); (13, "hive12"); (14, "hive15");
   (15, "drop18"); (16, "drop26"); (17, "disc16"); (18, "disc20"); (19, "disc24");
   (20, "disc32"); (21, "bell10"); (22, "bell16"); (23, "ausi8"); (24, "ausi12");
   (25, "ausi14")]%Z.
Definition PENDANT_MODEL_MAP := dict_of PENDANT_MODEL_ITEMS.
Definition PENDANT_MODEL_REVERSE := dict_of (reversed PENDANT_MODEL_ITEMS).

(** *** The validators of schema.py *)

Definition CanopyAppearance : list string := ["canopy_black"; "canopy_white"].
Definition CableAppearance : list string := ["cable_black"; "cable_white"].
Definition ShadeAppearance : list string := ["shade_white"; "shade_blonde"; "shade_natural"].

(** [CanopyConfig(size=..., appearance=...)] and the like: the value, or
    the [ValidationError] of a field outside its type. *)
Definition new_CanopyConfig (size : CanopySize) (appearance : string) : result CanopyConfig :=
  if decide (appearance ∈ CanopyAppearance) then Ok (mkCanopyConfig size appearance)
  else Raise ValueError.

Definition new_CableConfig (appearance : string) : result CableConfig :=
  if decide (appearance ∈ CableAppearance) then Ok (mkCableConfig appearance)
  else Raise ValueError.

Definition new_PendantConfig (model appearance : string) : result PendantConfig :=
  if decide (appearance ∈ ShadeAppearance) then Ok (mkPendantConfig model appearance)
  else Raise ValueError.

(** A [LayoutConfig] as constructed: [cluster_type] may still be [None]. *)
Record LayoutFields := mkLayoutFields {
  given_cluster_type : option ClusterType;
  given_first_drop_mm : Z;
  given_total_drop_mm : Z;
}.

(** The field bounds, then [_validate_drops]. *)
Definition new_LayoutConfig (cluster_type : option ClusterType) (first_drop_mm total_drop_mm : Z)
  : result LayoutFields :=
  if bool_decide (100 ≤ first_drop_mm ≤ 6000)%Z && bool_decide (200 ≤ total_drop_mm ≤ 8000)%Z
  then
    if bool_decide (total_drop_mm < first_drop_mm)%Z then Raise ValueError
    else Ok (mkLayoutFields cluster_type first_drop_mm total_drop_mm)
  else Raise ValueError.

(** [LayoutConfig()]. *)
Definition default_LayoutFields : LayoutFields := mkLayoutFields None 1400 2000.

(** [ClusterConfig(...)]: the bound on [random_seed], then
    [_apply_defaults], which fills in a missing cluster type and records
    that it did.  Returned with the configuration: [defaults_applied]. *)
Definition new_ClusterConfig (canopy : CanopyConfig) (cable : CableConfig)
           (layout : LayoutFields) (pendants : list PendantConfig) (random_seed : Z)
           (defaults_applied : list string) : result (ClusterConfig * list string) :=
  if bool_decide (0 ≤ random_seed ≤ 2147483647)%Z then
    let '(cluster_type, defaults_applied) :=
      match given_cluster_type layout with
      | Some t => (t, defaults_applied)
      | None =>
          let n := length pendants in
          (if decide (n ≤ 3) then RING else RING_WITH_CENTER,
           defaults_applied ++ ["layout.cluster_type defaulted"])
      end in
    Ok (mkClusterConfig canopy cable
          (mkLayoutConfig cluster_type (given_first_drop_mm layout)
                          (given_total_drop_mm layout))
          pendants random_seed,
        defaults_applied)
  else Raise ValueError.

(** *** Encoding *)

(** [int(round(x / 100))]: the quotient rounded half to even. *)
Definition hundreds (x : Z) : Z := RationalModel.round_half_even x 100.

Definition encode_pendant (p : PendantConfig) : result string :=
  (let? model_id := getitem PENDANT_MODEL_REVERSE (model p) in
   let? shade_id := getitem SHADE_APPEARANCE_REVERSE (appearance p) in
   let? m := format_d 0 model_id in
   let? s := format_d 0 shade_id in
   Ok (m +:+ "," +:+ s))%res.

(** The five segments, in the order the function computes them. *)
Definition canopy_seg (config : ClusterConfig) : result string :=
  (let? size_id := getitem CANOPY_SIZE_REVERSE (size (canopy config)) in
   let? canopy_app_id :=
     getitem CANOPY_APPEARANCE_REVERSE (canopy_appearance (canopy config)) in
   let? size_str := format_d 0 size_id in
   let? canopy_app_str := format_d 0 canopy_app_id in
   Ok ("C" +:+ size_str +:+ canopy_app_str))%res.

Definition layout_seg (config : ClusterConfig) : result string :=
  (let? type_id := getitem CLUSTER_TYPE_REVERSE (cluster_type (layout config)) in
   let first_u := hundreds (first_drop_mm (layout config)) in
   let total_u := hundreds (total_drop_mm (layout config)) in
   if negb (bool_decide (0 ≤ first_u ≤ 99)%Z) then Raise ValueError
   else if negb (bool_decide (0 ≤ total_u ≤ 999)%Z) then Raise ValueError
   else
     let? type_str := format_d 0 type_id in
     let? first_str := format_d 2 first_u in
     let? total_str := format_d 3 total_u in
     Ok ("L" +:+ type_str +:+ first_str +:+ total_str))%res.

Definition cable_seg (config : ClusterConfig) : result string :=
  (let? cable_id := getitem CABLE_APPEARANCE_REVERSE (cable_appearance (cable config)) in
   let? cable_str := format_d 0 cable_id in
   Ok ("B" +:+ cable_str))%res.

Definition pendant_seg (config : ClusterConfig) : result string :=
  (let? pendant_items :=
     for_each (λ items p, let? item := encode_pendant p in Ok (items ++ [item]))
              (pendants config) [] in
   let? count_str := format_d 0 (Z.of_nat (length pendant_items)) in
   Ok ("P" +:+ count_str +:+ "-" +:+ join "-" pendant_items))%res.

Definition global_seg (config : ClusterConfig) : result string :=
  (let? seed_str := format_d 0 (random_seed config) in
   Ok ("G" +:+ seed_str))%res.

Definition encode_config_to_code (config : ClusterConfig) : result string :=
  (let? canopy_seg := canopy_seg config in
   let? layout_seg := layout_seg config in
   let? cable_seg := cable_seg config in
   let? pendant_seg := pendant_seg config in
   let? global_seg := global_seg config in
   Ok (join "." [canopy_seg; layout_seg; cable_seg; pendant_seg; global_seg]))%res.

(** *** Decoding *)

(** The locals of [decode_code_to_config] that the loop over the
    segments assigns. *)
Record Decoding := mkDecoding {
  decoded_canopy : option CanopyConfig;
  decoded_layout : option LayoutFields;
  decoded_cable : option CableConfig;
  decoded_pendants : list PendantConfig;
  decoded_random_seed : Z;
}.

(** One entry of the pendant segment.  Both [try] blocks only turn a
    [ValueError] into a [ValueError]. *)
Definition decode_pendant (token : string) : result PendantConfig :=
  (let? (model_id_str, shade_id_str) := unpack_pair (split_once "," token) in
   let? model_id := py_int model_id_str in
   let? shade_id := py_int shade_id_str in
   let? model := getitem PENDANT_MODEL_MAP model_id in
   let? appearance := getitem SHADE_APPEARANCE_MAP shade_id in
   new_PendantConfig model appearance)%res.

(** The branches of the loop body, by prefix letter; each returns what
    the branch assigns. *)
Definition decode_canopy (body : string) : result CanopyConfig :=
  if decide (String.length body < 2) then Raise ValueError
  else
    (let? size_char := str_head body in
     let? size_id := py_int size_char in
     let? appearance_id := py_int (str_drop 1 body) in
     let? size := getitem CANOPY_SIZE_MAP size_id in
     let? appearance := getitem CANOPY_APPEARANCE_MAP appearance_id in
     new_CanopyConfig size appearance)%res.

Definition decode_layout (body : string) : result LayoutFields :=
  if decide (String.length body < 1 + 2 + 1) then Raise ValueError
  else
    (let? type_char := str_head body in
     let? t := py_int type_char in
     let? f := py_int (str_take 2 (str_drop 1 body)) in
     let f := (f * 100)%Z in
     let? d := py_int (str_drop 3 body) in
     let d := (d * 100)%Z in
     let? cluster_type := getitem CLUSTER_TYPE_MAP t in
     new_LayoutConfig (Some cluster_type) f d)%res.

Definition decode_cable (body : string) : result CableConfig :=
  (let? appearance_id := py_int body in
   let? appearance := getitem CABLE_APPEARANCE_MAP appearance_id in
   new_CableConfig appearance)%res.

Definition decode_pendants (body : string) : result (list PendantConfig) :=
  (let? (count_part, items_part) := unpack_pair (split_once "-" body) in
   let? count := py_int count_part in
   let item_tokens :=
     if decide (items_part = EmptyString) then [] else split_on "-" items_part in
   if decide (count ≠ Z.of_nat (length item_tokens)) then Raise ValueError
   else
     for_each (λ pendants token, let? p := decode_pendant token in Ok (pendants ++ [p]))
              item_tokens [])%res.

(** The body of the loop for one (non-empty) segment. *)
Definition decode_segment (st : Decoding) (seg : string) : result Decoding :=
  match seg with
  | EmptyString => Raise IndexError
  | String prefix body =>
      if decide (prefix = "C"%char) then
        (let? canopy := decode_canopy body in
         Ok (mkDecoding (Some canopy) (decoded_layout st) (decoded_cable st)
                        (decoded_pendants st) (decoded_random_seed st)))%res
      else if decide (prefix = "L"%char) then
        (let? layout := decode_layout body in
         Ok (mkDecoding (decoded_canopy st) (Some layout) (decoded_cable st)
                        (decoded_pendants st) (decoded_random_seed st)))%res
      else if decide (prefix = "B"%char) then
        (let? cable := decode_cable body in
         Ok (mkDecoding (decoded_canopy st) (decoded_layout st) (Some cable)
                        (decoded_pendants st) (decoded_random_seed st)))%res
      else if decide (prefix = "P"%char) then
        (let? pendants := decode_pendants body in
         Ok (mkDecoding (decoded_canopy st) (decoded_layout st) (decoded_cable st)
                        pendants (decoded_random_seed st)))%res
      else if decide (prefix = "G"%char) then
        (let? random_seed := py_int body in
         Ok (mkDecoding (decoded_canopy st) (decoded_layout st) (decoded_cable st)
                        (decoded_pendants st) random_seed))%res
      else Ok st
  end.

(** [decode_code_to_config]: the configuration and its
    [defaults_applied]. *)
Definition decode_code_to_config (code : string) : result (ClusterConfig * list string) :=
  if decide (code = EmptyString) then Raise ValueError
  else
    let segments := filter (λ s, s ≠ EmptyString) (split_on "." code) in
    (let? st := for_each decode_segment segments (mkDecoding None None None [] 0) in
     match decoded_canopy st with
     | None => Raise ValueError
     | Some canopy =>
         let '(layout, defaults_applied) :=
           match decoded_layout st with
           | Some layout => (layout, [])
           | None => (default_LayoutFields, ["layout defaulted"])
           end in
         let? (cable, defaults_applied) :=
           match decoded_cable st with
           | Some cable => Ok (cable, defaults_applied)
           | None => let? cable := new_CableConfig "cable_black" in
                     Ok (cable, defaults_applied ++ ["cable defaulted"])
           end in
         match decoded_pendants st with
         | [] => Raise ValueError
         | pendants =>
             new_ClusterConfig canopy cable layout pendants (decoded_random_seed st)
                               defaults_applied
         end
     end)%res.

(** [decode_code_to_hash_inputs]: the canonical code and the configuration. *)
Definition decode_code_to_hash_inputs (code : string) : result (string * ClusterConfig) :=
  (let? (config, _) := decode_code_to_config code in
   let? canonical_code := encode_config_to_code config in
   Ok (canonical_code, config))%res.
End Codec.

(** * Specification-side definitions *)

(** ** The layout formulas in the spec's words, over the reals *)
Module LayoutSpec.
Import RealModel.
Local Open Scope R_scope.

(** [extent xs i]: the extent of pendant [i]. *)
Definition extent (xs : list R) (i : nat) : R := default 0 (xs !! i).

(** The sum of [f j] for [j < k]. *)
Fixpoint sum_below (f : nat → R) (k : nat) : R :=
  match k with
  | O => 0
  | S k' => sum_below f k' + f k'
  end.

(** topExtent(0) + bottomExtent(N-1) + the sum over i in 0..N-2 of
    (bottomExtent(i) + topExtent(i+1)). *)
Definition occupiedClearance (tops bottoms : list R) (N : nat) : R :=
  extent tops 0 + extent bottoms (N - 1)
  + sum_below (λ i, extent bottoms i + extent tops (i + 1)) (N - 1).

Definition slack (firstDrop totalDrop : R) (tops bottoms : list R) (N : nat) : R :=
  totalDrop - firstDrop - occupiedClearance tops bottoms N.

(** The slack divided into N-1 gaps when N > 1; no gap term otherwise. *)
Definition gap (firstDrop totalDrop : R) (tops bottoms : list R) (N : nat) : R :=
  if decide (1 < N)%nat then slack firstDrop totalDrop tops bottoms N / INR (N - 1) else 0.

(** firstDrop + the sum over j < i of (bottomExtent(j) + topExtent(j+1) + gap). *)
Definition cumulativeDrop (firstDrop g : R) (tops bottoms : list R) (i : nat) : R :=
  firstDrop + sum_below (λ j, extent bottoms j + extent tops (j + 1) + g) i.
End LayoutSpec.

(** * Theorems *)

(** ** Loops in the exception monad *)
Section ResultLoops.
Context {A B : Type}.

Lemma rbind_Ok (m : result A) (f : A → result B) (b : B) :
  rbind m f = Ok b → ∃ a, m = Ok a ∧ f a = Ok b.
Proof. destruct m as [a|]; [|done]. intros Hf. by exists a. Qed.

Lemma index_Ok (xs : list A) (i : nat) (x : A) :
  xs !! i = Some x → index xs i = Ok x.
Proof. unfold index. by intros ->. Qed.

Lemma index_last_snoc (xs : list A) (x : A) : index_last (xs ++ [x]) = Ok x.
Proof. unfold index_last. by rewrite last_snoc. Qed.

(** A loop whose body succeeds on every element is a [fold_left]. *)
Lemma for_each_fold (f : B → A → result B) (g : B → A → B) (xs : list A) (acc : B) :
  (∀ b x, x ∈ xs → f b x = Ok (g b x)) →
  for_each f xs acc = Ok (fold_left g xs acc).
Proof.
  revert acc. induction xs as [|x xs IH]; intros acc Hf; simpl; [done|].
  rewrite Hf by left. simpl. apply IH. intros b y Hy. apply Hf. by right.
Qed.

Lemma for_each_app (f : B → A → result B) (xs ys : list A) (acc : B) :
  for_each f (xs ++ ys) acc = rbind (for_each f xs acc) (for_each f ys).
Proof.
  revert acc. induction xs as [|x xs IH]; intros acc; simpl; [done|].
  destruct (f acc x); simpl; [apply IH|done].
Qed.
End ResultLoops.

(** ** Drop-distance solving *)
Section LayoutFacts.
Context {F : Type} `{Float F}.

Definition at_ (xs : list F) (i : nat) : F := default (of_Z 0) (xs !! i).

(** The running sum the first loop leaves in [occupied] after [k] rounds. *)
Definition occupied_after (tops bottoms : list F) (n k : nat) : F :=
  fold_left (λ occ i, occ + (at_ bottoms i + at_ tops (i + 1)))%fl (seq 0 k)
            (at_ tops 0 + at_ bottoms (n - 1))%fl.

(** The value the second loop appends as [drops[i]]. *)
Definition drop_after (first gap : F) (tops bottoms : list F) (i : nat) : F :=
  fold_left (λ d j, d + at_ bottoms j + at_ tops (j + 1) + gap)%fl (seq 0 i) first.

(** [k] gaps, added one by one. *)
Definition gaps_sum (gap : F) (k : nat) : F :=
  fold_left (λ s _, s + gap)%fl (seq 0 k) (of_Z 0).

(** The conservation law as an equation between numbers of [F], for the
    values the solver computes: when the slack is not negative, the first
    drop, the occupied clearance and the n-1 gaps add up to the total drop;
    and the last drop with the top extent of the first pendant and the
    bottom extent of the last is the total drop. *)
Definition layout_conserved (first total : F) (tops bottoms : list F) (n : nat) : Prop :=
  ∀ gap drops,
    (total - first - occupied_after tops bottoms n (n - 1) <? of_Z 0)%fl = false →
    solve_drops first total tops bottoms n = Ok (gap, drops) →
    (first + occupied_after tops bottoms n (n - 1) + gaps_sum gap (n - 1))%fl = total.

Definition last_drop_conserved (first total : F) (tops bottoms : list F) (n : nat)
  : Prop :=
  ∀ gap drops,
    (total - first - occupied_after tops bottoms n (n - 1) <? of_Z 0)%fl = false →
    solve_drops first total tops bottoms n = Ok (gap, drops) →
    ∃ d, drops !! (n - 1) = Some d ∧ (d + at_ tops 0 + at_ bottoms (n - 1))%fl = total.

Lemma at_lookup (xs : list F) (i : nat) :
  i < length xs → xs !! i = Some (at_ xs i).
Proof.
  intros Hi. unfold at_. destruct (xs !! i) eqn:E; [done|].
  apply lookup_ge_None in E. lia.
Qed.

Lemma occupied_clearance_Ok (tops bottoms : list F) (n : nat) :
  length tops = n → length bottoms = n → 1 ≤ n →
  occupied_clearance tops bottoms n = Ok (occupied_after tops bottoms n (n - 1)).
Proof.
  intros Ht Hb Hn. unfold occupied_clearance, occupied_after.
  rewrite (index_Ok _ _ _ (at_lookup tops 0 ltac:(lia))). simpl.
  assert (index_last bottoms = Ok (at_ bottoms (n - 1))) as ->.
  { unfold index_last. rewrite last_lookup, Hb.
    replace (Init.Nat.pred n) with (n - 1) by lia.
    by rewrite (at_lookup bottoms (n - 1)) by lia. }
  simpl. apply for_each_fold. intros occ i Hi.
  apply elem_of_seq in Hi.
  rewrite (index_Ok _ _ _ (at_lookup bottoms i ltac:(lia))). simpl.
  by rewrite (index_Ok _ _ _ (at_lookup tops (i + 1) ltac:(lia))).
Qed.

Lemma drops_of_prefix (first gap : F) (tops bottoms : list F) (n k : nat) :
  length tops = n → length bottoms = n → k < n →
  for_each (λ drops i,
              (let? d := index_last drops in
               let? b := index bottoms i in
               let? t := index tops (i + 1) in
               Ok (drops ++ [(d + b + t + gap)%fl]))%res)
           (seq 0 k) [first]
  = Ok (drop_after first gap tops bottoms <$> seq 0 (S k)).
Proof.
  intros Ht Hb. induction k as [|k IH]; intros Hk; [done|].
  rewrite seq_S, for_each_app, IH by lia.
  cbn [rbind for_each plus].
  assert (index_last (drop_after first gap tops bottoms <$> seq 0 (S k))
          = Ok (drop_after first gap tops bottoms k)) as ->.
  { rewrite seq_S, fmap_app. apply index_last_snoc. }
  cbn [rbind].
  rewrite (index_Ok _ _ _ (at_lookup bottoms k ltac:(lia))). cbn [rbind].
  rewrite (index_Ok _ _ _ (at_lookup tops (k + 1) ltac:(lia))). cbn [rbind].
  rewrite (seq_S (S k)), fmap_app. cbn [fmap list_fmap plus].
  do 3 f_equal.
  unfold drop_after at 2. by rewrite seq_S, fold_left_app.
Qed.

Lemma drops_of_Ok (first gap : F) (tops bottoms : list F) (n : nat) :
  length tops = n → length bottoms = n → 1 ≤ n →
  drops_of first gap tops bottoms n = Ok (drop_after first gap tops bottoms <$> seq 0 n).
Proof.
  intros Ht Hb Hn. unfold drops_of.
  rewrite (drops_of_prefix first gap tops bottoms n (n - 1)) by lia.
  by replace (S (n - 1)) with n by lia.
Qed.

(** With as many tops and bottoms as pendants, and at least one pendant,
    the solver returns, whatever the lengths are. *)
Lemma solve_drops_Ok (first total : F) (tops bottoms : list F) (n : nat) :
  length tops = n → length bottoms = n → 1 ≤ n →
  solve_drops first total tops bottoms n
  = let gap := gap_of first total (occupied_after tops bottoms n (n - 1)) n in
    Ok (gap, drop_after first gap tops bottoms <$> seq 0 n).
Proof.
  intros Ht Hb Hn. unfold solve_drops.
  rewrite occupied_clearance_Ok by done. simpl.
  by rewrite drops_of_Ok by done.
Qed.

(** Without pendants [tops[0]] raises. *)
Lemma solve_drops_empty (first total : F) (bottoms : list F) (n : nat) :
  solve_drops first total [] bottoms n = Raise IndexError.
Proof. done. Qed.
End LayoutFacts.

(** ** Number conversions over the reals *)
Module RealFacts.
Import RealModel.
Local Open Scope R_scope.

Lemma of_Z_R (z : Z) : of_Z z = IZR z.
Proof. unfold of_Z. simpl. field. Qed.

Lemma of_nat_R (n : nat) : of_nat n = INR n.
Proof. unfold of_nat. rewrite of_Z_R. symmetry. apply INR_IZR_INZ. Qed.

Lemma of_frac_R (z : Z) (p : positive) : of_frac z p = IZR z / IZR (Z.pos p).
Proof. done. Qed.
End RealFacts.

(** ** The layout over the reals: the code computes the spec's formulas *)
Module LayoutReal.
Import RealModel RealFacts LayoutSpec.
Local Open Scope R_scope.

Lemma at_extent (xs : list R) (i : nat) : at_ xs i = extent xs i.
Proof. unfold at_, extent. destruct (xs !! i); simpl; [done|apply of_Z_R]. Qed.

Lemma occupied_after_sum (tops bottoms : list R) (n k : nat) :
  occupied_after tops bottoms n k
  = extent tops 0 + extent bottoms (n - 1)
    + sum_below (λ i, extent bottoms i + extent tops (i + 1)) k.
Proof.
  unfold occupied_after. induction k as [|k IH].
  - simpl. rewrite !at_extent. lra.
  - rewrite seq_S, fold_left_app, IH. simpl. rewrite !at_extent. lra.
Qed.

Lemma drop_after_sum (first g : R) (tops bottoms : list R) (i : nat) :
  drop_after first g tops bottoms i = cumulativeDrop first g tops bottoms i.
Proof.
  unfold drop_after, cumulativeDrop. induction i as [|i IH].
  - simpl. lra.
  - rewrite seq_S, fold_left_app, IH. simpl. rewrite !at_extent. lra.
Qed.

Lemma gap_of_spec (first total : R) (tops bottoms : list R) (n : nat) :
  gap_of first total (occupied_after tops bottoms n (n - 1)) n
  = gap first total tops bottoms n.
Proof.
  unfold gap_of, gap, slack, occupiedClearance.
  rewrite occupied_after_sum.
  destruct (decide (n ≤ 1)%nat), (decide (1 < n)%nat); try lia.
  - apply of_Z_R.
  - by rewrite of_nat_R.
Qed.

Lemma sum_below_const (c : R) (k : nat) : sum_below (λ _, c) k = INR k * c.
Proof.
  induction k as [|k IH]; [simpl; lra|].
  rewrite S_INR. simpl. rewrite IH. lra.
Qed.

Lemma sum_below_plus (f g : nat → R) (k : nat) :
  sum_below (λ i, f i + g i) k = sum_below f k + sum_below g k.
Proof. induction k as [|k IH]; simpl; [lra|rewrite IH; lra]. Qed.

(** C2.  With N >= 1 pendants the solver returns, for any first and total
    drop (negative slack included): [gap] is the slack divided by N-1 when
    N > 1 and 0 otherwise, [drops[i]] is the first drop plus the sum over
    j < i of (bottomExtent(j) + topExtent(j+1) + gap), a single pendant
    drops by exactly the first-drop length, and a negative slack gives a
    negative gap. *)
Theorem solve_drops_formulas (first total : R) (tops bottoms : list R) (N : nat) :
  length tops = N → length bottoms = N → (1 ≤ N)%nat →
  ∃ g drops,
    solve_drops first total tops bottoms N = Ok (g, drops) ∧
    g = gap first total tops bottoms N ∧
    g = (if decide (1 < N)%nat
         then (total - first - occupiedClearance tops bottoms N) / INR (N - 1)
         else 0) ∧
    length drops = N ∧
    (∀ i, (i < N)%nat → drops !! i = Some (cumulativeDrop first g tops bottoms i)) ∧
    (N = 1%nat → g = 0 ∧ drops = [first]) ∧
    ((1 < N)%nat → slack first total tops bottoms N < 0 → g < 0).
Proof.
  intros Ht Hb HN.
  rewrite solve_drops_Ok by done. cbv zeta. rewrite gap_of_spec.
  eexists _, _. split; [reflexivity|]. split; [done|]. split; [done|].
  split; [by rewrite length_fmap, length_seq|]. split; [|split].
  - intros i Hi. rewrite list_lookup_fmap, lookup_seq_lt by done.
    simpl. by rewrite drop_after_sum.
  - intros ->. split; [done|]. done.
  - intros HN' Hslack. unfold gap. rewrite decide_True by done.
    assert (0 < INR (N - 1)) by (apply lt_0_INR; lia).
    apply Rmult_lt_reg_r with (INR (N - 1)); [done|].
    unfold Rdiv. rewrite Rmult_assoc, Rinv_l by lra. lra.
Qed.

Lemma solve_drops_formulas_witness :
  ∃ g drops,
    solve_drops 100 200 [0; 0] [300; 300] 2 = Ok (g, drops) ∧
    g = -500 ∧ drops !! 1%nat = Some (-100).
Proof.
  destruct (solve_drops_formulas 100 200 [0; 0] [300; 300] 2)
    as (g & drops & Hrun & Hg & _ & _ & Hdrops & _); [done|done|lia|].
  exists g, drops. split; [done|].
  assert (g = -500) as Hg'.
  { rewrite Hg. unfold gap, slack, occupiedClearance, extent. simpl. lra. }
  split; [done|].
  rewrite (Hdrops 1%nat) by lia. f_equal.
  rewrite Hg'. unfold cumulativeDrop, extent. simpl. lra.
Defined.

Lemma gaps_sum_const (g : R) (k : nat) : gaps_sum g k = INR k * g.
Proof.
  unfold gaps_sum. rewrite of_Z_R. induction k as [|k IH]; [simpl; lra|].
  rewrite seq_S, fold_left_app, IH, S_INR. simpl. lra.
Qed.

(** In exact arithmetic the N-1 gaps are the slack. *)
Lemma gaps_are_slack (first total : R) (tops bottoms : list R) (N : nat) :
  (1 < N)%nat →
  INR (N - 1) * gap first total tops bottoms N = slack first total tops bottoms N.
Proof.
  intros HN. assert (INR (N - 1) ≠ 0) as Hne by (apply not_0_INR; lia).
  unfold gap. rewrite decide_True by done. field. done.
Qed.



(** Over the reals both equations of the law hold of the numbers the solver
    computes. *)
Lemma layout_conserved_exact (first total : R) (tops bottoms : list R) (N : nat) :
  length tops = N → length bottoms = N → (1 < N)%nat →
  layout_conserved first total tops bottoms N ∧
  last_drop_conserved first total tops bottoms N.
Proof.
  intros Ht Hb HN.
  pose proof (gaps_are_slack first total tops bottoms N HN) as Hgaps.
  split; intros g drops _ Hrun.
  all: rewrite solve_drops_Ok in Hrun by (done || lia); cbv zeta in Hrun.
  all: rewrite gap_of_spec in Hrun; injection Hrun as Hg Hdrops; rewrite Hg in Hgaps.
  - rewrite gaps_sum_const, Hgaps, occupied_after_sum.
    cbn [fadd float_R]. unfold slack, occupiedClearance. lra.
  - exists (drop_after first g tops bottoms (N - 1)). split.
    + rewrite <- Hdrops, list_lookup_fmap, lookup_seq_lt by lia. simpl. by rewrite Hg.
    + rewrite drop_after_sum, !at_extent. unfold cumulativeDrop.
      rewrite (sum_below_plus (λ j, extent bottoms j + extent tops (j + 1)) (λ _, g)).
      rewrite sum_below_const, Hgaps. cbn [fadd float_R].
      unfold slack, occupiedClearance. lra.
Qed.
End LayoutReal.

(** ** The layout in binary64: the sums are rounded *)
Module LayoutBinary64.
Import Binary64Model.

(** Seven pendants with extents 10 and 10, first drop 100, total drop 2000;
    and four pendants with extents 10 and 100, first drop 1400, total drop
    2000. *)
Definition seven_run : result (PrimFloat.float * list PrimFloat.float) :=
  Eval vm_compute in
    solve_drops (of_Z 100) (of_Z 2000) (replicate 7 (of_Z 10)) (replicate 7 (of_Z 10)) 7.

Definition four_run : result (PrimFloat.float * list PrimFloat.float) :=
  Eval vm_compute in
    solve_drops (of_Z 1400) (of_Z 2000) (replicate 4 (of_Z 10)) (replicate 4 (of_Z 100)) 4.

Lemma seven_run_eq :
  solve_drops (of_Z 100) (of_Z 2000) (replicate 7 (of_Z 10)) (replicate 7 (of_Z 10)) 7
  = seven_run.
Proof. vm_compute. reflexivity. Qed.

Lemma four_run_eq :
  solve_drops (of_Z 1400) (of_Z 2000) (replicate 4 (of_Z 10)) (replicate 4 (of_Z 100)) 4
  = four_run.
Proof. vm_compute. reflexivity. Qed.

(** Both runs return, and their slack is not negative. *)
Lemma runs_return :
  (∃ gap drops, seven_run = Ok (gap, drops) ∧ length drops = 7) ∧
  (∃ gap drops, four_run = Ok (gap, drops) ∧ length drops = 4) ∧
  (of_Z 2000 - of_Z 100
   - occupied_after (replicate 7 (of_Z 10)) (replicate 7 (of_Z 10)) 7 6 <? of_Z 0)%fl = false ∧
  (of_Z 2000 - of_Z 1400
   - occupied_after (replicate 4 (of_Z 10)) (replicate 4 (of_Z 100)) 4 3 <? of_Z 0)%fl = false.
Proof.
  split; [by eexists _, _|]. split; [by eexists _, _|].
  split; vm_compute; reflexivity.
Qed.

(** C3, counterexample: in binary64 the sums miss the total drop.  For the
    seven pendants the first drop, the occupied clearance and the six gaps
    add up to less than 2000, and so do the last drop and the two extents;
    for the four pendants the last drop and the two extents do. *)
Lemma binary64_layout_not_conserved :
  ¬ layout_conserved (of_Z 100) (of_Z 2000)
      (replicate 7 (of_Z 10)) (replicate 7 (of_Z 10)) 7 ∧
  ¬ last_drop_conserved (of_Z 100) (of_Z 2000)
      (replicate 7 (of_Z 10)) (replicate 7 (of_Z 10)) 7 ∧
  ¬ last_drop_conserved (of_Z 1400) (of_Z 2000)
      (replicate 4 (of_Z 10)) (replicate 4 (of_Z 100)) 4.
Proof.
  destruct runs_return as (_ & _ & Hslack7 & Hslack4).
  split; [|split].
  - intros Hclaim. specialize (Hclaim _ _ Hslack7 seven_run_eq).
    apply (f_equal (λ x, PrimFloat.ltb x (of_Z 2000))) in Hclaim.
    vm_compute in Hclaim. discriminate Hclaim.
  - intros Hclaim. destruct (Hclaim _ _ Hslack7 seven_run_eq) as (d & Hd & Hsum).
    vm_compute in Hd. injection Hd as <-.
    apply (f_equal (λ x, PrimFloat.ltb x (of_Z 2000))) in Hsum.
    vm_compute in Hsum. discriminate Hsum.
  - intros Hclaim. destruct (Hclaim _ _ Hslack4 four_run_eq) as (d & Hd & Hsum).
    vm_compute in Hd. injection Hd as <-.
    apply (f_equal (λ x, PrimFloat.ltb x (of_Z 2000))) in Hsum.
    vm_compute in Hsum. discriminate Hsum.
Qed.
End LayoutBinary64.

(** ** The heap operations *)
Section HeapFacts.
Context {F : Type} `{Float F, Libm F, Rhino F, Random F}.

Lemma new_mesh_run (m : Mesh F) (w : World F) :
  new_mesh m w = (Ok (length (heap w)), set_heap (heap w ++ [m]) w).
Proof. done. Qed.

(** Transforming the object allocated last. *)
Lemma mesh_Transform_last (xf : Transform F) (h : list (Mesh F)) (m : Mesh F) (w : World F) :
  mesh_Transform (length h) xf (set_heap (h ++ [m]) w)
  = (Ok (), set_heap (h ++ [transform_mesh xf m]) w).
Proof.
  unfold mesh_Transform. simpl. rewrite list_lookup_middle by done.
  by rewrite (insert_app_r_alt h [m] (length h)), Nat.sub_diag by lia.
Qed.

Lemma heap_set_heap (h : list (Mesh F)) (w : World F) : heap (set_heap h w) = h.
Proof. done. Qed.

Lemma set_heap_set_heap (h h' : list (Mesh F)) (w : World F) :
  set_heap h (set_heap h' w) = set_heap h w.
Proof. done. Qed.

(** A fresh cylinder transformed once: one new object, the transformed value. *)
Lemma create_then_transform (radius height : F) (segments : nat) (xf : Transform F)
      {A} (k : loc → M F A) (w : World F) :
  bind (create_cylinder_mesh radius height segments)
       (λ l, bind (mesh_Transform l xf) (λ _, k l)) w
  = k (length (heap w))
      (set_heap (heap w ++ [transform_mesh xf (cylinder_value radius height segments)]) w).
Proof.
  unfold bind at 1, create_cylinder_mesh. rewrite new_mesh_run.
  unfold bind. by rewrite mesh_Transform_last.
Qed.
End HeapFacts.

(** ** The canopy *)
Section CanopyFacts.
Context {F : Type} `{Float F, Libm F, Rhino F, Random F}.

(** The two discs [build_canopy] leaves on the heap. *)
Definition canopy_bottom_value (size_key : CanopySize) : Mesh F :=
  let spec := CANOPY_SPECS size_key in
  transform_mesh (Translation (of_Z 0) (of_Z 0) (- height_mm spec)%fl)
                 (cylinder_value (outer_radius_mm spec) (plate_thickness_mm spec) 96).

Definition canopy_top_value (size_key : CanopySize) : Mesh F :=
  let spec := CANOPY_SPECS size_key in
  transform_mesh
    (Translation (of_Z 0) (of_Z 0) (- (height_mm spec - plate_thickness_mm spec))%fl)
    (cylinder_value (inner_radius_mm spec + plate_thickness_mm spec)%fl
                    (height_mm spec - plate_thickness_mm spec)%fl 96).

Definition connection_radius (size_key : CanopySize) : F :=
  (inner_radius_mm (CANOPY_SPECS size_key) - cable_offset_mm (CANOPY_SPECS size_key))%fl.

Definition canopy_base_z (size_key : CanopySize) : F :=
  (- height_mm (CANOPY_SPECS size_key))%fl.

(** [build_canopy] always returns: two new objects and the points. *)
Lemma build_canopy_run (size_key : CanopySize) (n : nat) (ct : ClusterType) (w : World F) :
  build_canopy size_key n ct w
  = (Ok (length (heap w), S (length (heap w)),
         canopy_points (connection_radius size_key) (canopy_base_z size_key) n ct),
     set_heap (heap w ++ [canopy_bottom_value size_key; canopy_top_value size_key]) w).
Proof.
  unfold build_canopy. cbv zeta.
  rewrite create_then_transform, create_then_transform.
  unfold ret. rewrite heap_set_heap, set_heap_set_heap, length_app, <- app_assoc.
  simpl. by rewrite Nat.add_1_r.
Qed.


(** With a centre the list is never empty: without pendants it is the
    centre alone. *)
Lemma canopy_points_length_any (conn_r zc : F) (n : nat) (ct : ClusterType) :
  length (canopy_points conn_r zc n ct) = if wants_center ct then Nat.max 1 n else n.
Proof.
  unfold canopy_points. destruct (wants_center ct).
  - rewrite length_app, length_fmap, length_seq. simpl. lia.
  - by rewrite length_fmap, length_seq.
Qed.

Lemma canopy_points_z (conn_r zc : F) (n : nat) (ct : ClusterType) (p : Point3d F) :
  p ∈ canopy_points conn_r zc n ct → ptZ p = zc.
Proof.
  unfold canopy_points. destruct (wants_center ct).
  - rewrite elem_of_app, list_elem_of_fmap, list_elem_of_singleton.
    intros [(i & -> & _)| ->]; done.
  - rewrite list_elem_of_fmap. by intros (i & -> & _).
Qed.



End CanopyFacts.

(** ** The canopy over the reals: the points lie on the circle *)
Module CanopyReal.
Import RealModel RealFacts.
Local Open Scope R_scope.




Definition empty_world : World R := mkWorld (F:=R) [] ∅ ∅ 0%Z.






(** The claim as first stated: the call returns exactly N points. *)
Definition canopy_returns_N_points (size_key : CanopySize) (N : nat) (ct : ClusterType)
           (w : World R) : Prop :=
  ∀ bottom top points w',
    build_canopy size_key N ct w = (Ok (bottom, top, points), w') → length points = N.

(** C4, counterexample: without pendants, ring-with-center gives one point,
    the center. *)
Lemma no_pendant_one_point :
  ¬ canopy_returns_N_points size_s 0 RING_WITH_CENTER empty_world.
Proof.
  intros Hclaim.
  specialize (Hclaim _ _ _ _ (build_canopy_run size_s 0 RING_WITH_CENTER empty_world)).
  rewrite canopy_points_length_any in Hclaim. discriminate Hclaim.
Qed.

End CanopyReal.

(** ** The container framing *)

(** Linear arithmetic with division and remainder by constants. *)
Ltac div_lia := zify; Z.to_euclidean_division_equations; lia.

(** The number four little-endian bytes encode. *)
Definition u32_le (bs : list byte) : N :=
  match bs with
  | [b0; b1; b2; b3] =>
      (Byte.to_N b0 + 256 * Byte.to_N b1 + 65536 * Byte.to_N b2
       + 16777216 * Byte.to_N b3)%N
  | _ => 0%N
  end.

Lemma to_N_byte_of_N (n : N) : Byte.to_N (byte_of_N n) = (n `mod` 256)%N.
Proof.
  unfold byte_of_N.
  assert (n `mod` 256 < 256)%N as Hlt by (apply N.mod_lt; lia).
  destruct (Byte.of_N (n `mod` 256)%N) as [b|] eqn:E.
  - simpl. by apply Byte.to_of_N in E.
  - apply Byte.of_N_None_iff in E. lia.
Qed.

Lemma pack_u32_Ok (n : N) (bs : list byte) :
  pack_u32 n = Ok bs → length bs = 4 ∧ u32_le bs = n ∧ (n < 2 ^ 32)%N.
Proof.
  unfold pack_u32. destruct (decide (n < 2 ^ 32)%N) as [Hn|]; [|done].
  intros [= <-]. split; [done|]. split; [|done].
  unfold u32_le. rewrite !to_N_byte_of_N.
  change (2 ^ 32)%N with 4294967296%N in Hn. div_lia.
Qed.


Lemma pad_loop_stop (fuel : nat) (fill : byte) (d : list byte) :
  length d `mod` 4 = 0 → pad_loop fuel fill d = d.
Proof. intros Hd. destruct fuel; cbn [pad_loop]; [done|]. by rewrite decide_False by lia. Qed.

(** With enough fuel the loop appends fewer than four fill bytes and stops
    on a multiple of 4. *)
Lemma pad_loop_fuel (fill : byte) (fuel : nat) (d : list byte) :
  (4 - length d `mod` 4) `mod` 4 ≤ fuel →
  pad_loop fuel fill d = d ++ replicate ((4 - length d `mod` 4) `mod` 4) fill ∧
  length (pad_loop fuel fill d) `mod` 4 = 0.
Proof.
  revert d. induction fuel as [|fuel IH]; intros d Hd.
  - assert ((4 - length d `mod` 4) `mod` 4 = 0) as E by lia.
    rewrite E. cbn [pad_loop replicate]. rewrite app_nil_r. split; [done|div_lia].
  - cbn [pad_loop]. destruct (decide (length d `mod` 4 ≠ 0)) as [Hne|He].
    + destruct (IH (d ++ [fill])) as [Heq Hmod].
      { rewrite length_app. cbn [length]. div_lia. }
      split; [|done]. rewrite Heq, <- app_assoc. f_equal.
      rewrite length_app. cbn [length].
      assert ((4 - length d `mod` 4) `mod` 4
              = S ((4 - (length d + 1) `mod` 4) `mod` 4)) as -> by div_lia.
      done.
    + assert ((4 - length d `mod` 4) `mod` 4 = 0) as E by div_lia.
      rewrite E. cbn [replicate]. rewrite app_nil_r. split; [done|div_lia].
Qed.

(** Three rounds are enough fuel: the loop of [pad_to_4] and of
    [pad_json_to_4] leaves through its condition. *)
Lemma pad_loop_spec (fill : byte) (data : list byte) :
  ∃ k, k < 4 ∧ pad_loop 3 fill data = data ++ replicate k fill ∧
       length (pad_loop 3 fill data) `mod` 4 = 0.
Proof.
  destruct (pad_loop_fuel fill 3 data) as [Heq Hmod]; [div_lia|].
  exists ((4 - length data `mod` 4) `mod` 4). split; [div_lia|done].
Qed.

(** More fuel changes nothing. *)
Lemma pad_loop_exit (fuel : nat) (fill : byte) (data : list byte) :
  3 ≤ fuel → pad_loop fuel fill data = pad_loop 3 fill data.
Proof.
  intros Hf.
  destruct (pad_loop_fuel fill 3 data) as [-> _]; [div_lia|].
  destruct (pad_loop_fuel fill fuel data) as [-> _]; [div_lia|done].
Qed.

Section ContainerFacts.
Context {F : Type} `{Float F, Libm F, Codec F}.

Lemma container_Ok (json_chunk bin_chunk bytes : list byte) :
  container json_chunk bin_chunk = Ok bytes →
  ∃ version total json_len bin_len,
    bytes = (magic ++ version ++ total) ++ (json_len ++ json_tag) ++ json_chunk
              ++ (bin_len ++ bin_tag) ++ bin_chunk ∧
    (length version = 4 ∧ u32_le version = 2%N) ∧
    (length total = 4 ∧
     u32_le total = N.of_nat (12 + 8 + length json_chunk + 8 + length bin_chunk)) ∧
    (length json_len = 4 ∧ u32_le json_len = N.of_nat (length json_chunk)) ∧
    (length bin_len = 4 ∧ u32_le bin_len = N.of_nat (length bin_chunk)).
Proof.
  unfold container. intros Hrun.
  destruct (pack_u32 2) as [version|] eqn:Ev; [|done].
  destruct (pack_u32 (N.of_nat (12 + 8 + length json_chunk + 8 + length bin_chunk)))
    as [total|] eqn:Et; [|done].
  destruct (pack_u32 (N.of_nat (length json_chunk))) as [json_len|] eqn:Ej; [|done].
  destruct (pack_u32 (N.of_nat (length bin_chunk))) as [bin_len|] eqn:Eb; [|done].
  cbn [rbind] in Hrun. injection Hrun as <-.
  apply pack_u32_Ok in Ev as (? & ? & _), Et as (? & ? & _),
        Ej as (? & ? & _), Eb as (? & ? & _).
  by exists version, total, json_len, bin_len.
Qed.

(** C5.  The bytes written are a 12-byte header (the magic tag, version 2,
    the total length), the JSON chunk and the binary chunk, each behind its
    8-byte header (length, 4-byte tag).  The JSON text is padded with fewer
    than four trailing spaces, the binary data with fewer than four trailing
    zero bytes, both to a multiple of 4; the total-length field is
    12 + 8 + (padded JSON length) + 8 + (padded binary length), which is the
    length of the whole output. *)
Theorem save_mesh_groups_as_glb_framing
        (h : list (Mesh F)) (mesh_groups : list MeshGroup) (material_keys : list string)
        (bytes : list byte) :
  save_mesh_groups_as_glb h mesh_groups material_keys = Ok bytes →
  ∃ (doc : json F) (bin_data : list byte) (k_json k_bin : nat)
    (version total json_len bin_len : list byte),
    let json_chunk := list_byte_of_string (json_dumps doc) ++ replicate k_json Byte.x20 in
    let bin_chunk := bin_data ++ replicate k_bin Byte.x00 in
    let header := magic ++ version ++ total in
    bytes = header ++ (json_len ++ json_tag) ++ json_chunk
              ++ (bin_len ++ bin_tag) ++ bin_chunk ∧
    length header = 12 ∧ u32_le version = 2%N ∧
    u32_le total = N.of_nat (12 + 8 + length json_chunk + 8 + length bin_chunk) ∧
    u32_le total = N.of_nat (length bytes) ∧
    length (json_len ++ json_tag) = 8 ∧ length json_tag = 4 ∧
    u32_le json_len = N.of_nat (length json_chunk) ∧
    length (bin_len ++ bin_tag) = 8 ∧ length bin_tag = 4 ∧
    u32_le bin_len = N.of_nat (length bin_chunk) ∧
    k_json < 4 ∧ length json_chunk `mod` 4 = 0 ∧
    k_bin < 4 ∧ length bin_chunk `mod` 4 = 0.
Proof.
  unfold save_mesh_groups_as_glb. intros Hrun.
  apply rbind_Ok in Hrun as ([materials material_index_map] & _ & Hrun).
  apply rbind_Ok in Hrun as (st & _ & Hrun).
  unfold pad_json_to_4, pad_to_4 in Hrun.
  destruct (pad_loop_spec Byte.x20 (list_byte_of_string
                                      (json_dumps (gltf_document st materials))))
    as (k_json & Hkj & Hej & Hmj).
  destruct (pad_loop_spec Byte.x00 (concat (buffers st))) as (k_bin & Hkb & Heb & Hmb).
  rewrite Hej in Hmj. rewrite Heb in Hmb. rewrite Hej, Heb in Hrun.
  apply container_Ok in Hrun
      as (version & total & json_len & bin_len & -> & [Hv1 Hv2] & [Ht1 Ht2]
          & [Hj1 Hj2] & [Hb1 Hb2]).
  exists (gltf_document st materials), (concat (buffers st)), k_json, k_bin,
         version, total, json_len, bin_len.
  cbv zeta.
  assert (length (magic ++ version ++ total) = 12) as Hh
      by (rewrite !length_app, Hv1, Ht1; done).
  assert (length (json_len ++ json_tag) = 8) as Hjh
      by (rewrite length_app, Hj1; done).
  assert (length (bin_len ++ bin_tag) = 8) as Hbh
      by (rewrite length_app, Hb1; done).
  split; [reflexivity|]. split; [exact Hh|]. split; [exact Hv2|].
  split; [exact Ht2|]. split.
  { rewrite Ht2. f_equal.
    rewrite (length_app (magic ++ _)), Hh, (length_app (json_len ++ _)), Hjh.
    rewrite (length_app (_ ++ replicate k_json _)), (length_app (bin_len ++ _)), Hbh.
    lia. }
  split; [exact Hjh|]. split; [reflexivity|]. split; [exact Hj2|].
  split; [exact Hbh|]. split; [reflexivity|]. split; [exact Hb2|].
  split; [exact Hkj|]. split; [exact Hmj|]. split; [exact Hkb|exact Hmb].
Qed.
End ContainerFacts.

Module ContainerRun.
Import RationalModel.

Definition triangle : Mesh Qc :=
  mkMesh [mkPoint3d (Q2Qc 0) (Q2Qc 100) (Q2Qc 250);
          mkPoint3d (Q2Qc 50) (Q2Qc 0) (Q2Qc (-300));
          mkPoint3d (Q2Qc (-50)) (Q2Qc 50) (Q2Qc (-300))]
         [Tri 0 1 2].

(** The bytes the exporter writes for the one-triangle scene. *)
Definition triangle_glb : list byte :=
  Eval vm_compute in
    match save_mesh_groups_as_glb [triangle] [mkMeshGroup 0 "shade_natural"]
                                  ["shade_natural"] with
    | Ok bytes => bytes
    | Raise _ => []
    end.

Lemma triangle_glb_run :
  save_mesh_groups_as_glb [triangle] [mkMeshGroup 0 "shade_natural"] ["shade_natural"]
  = Ok triangle_glb.
Proof. vm_compute. reflexivity. Qed.

Lemma save_mesh_groups_as_glb_framing_witness :
  ∃ version total : list byte,
    take 12 triangle_glb = magic ++ version ++ total ∧
    u32_le version = 2%N ∧ u32_le total = N.of_nat (length triangle_glb).
Proof.
  destruct (save_mesh_groups_as_glb_framing
              [triangle] [mkMeshGroup 0 "shade_natural"] ["shade_natural"]
              triangle_glb triangle_glb_run)
    as (doc & bin_data & k_json & k_bin & version & total & json_len & bin_len
        & Hbytes & Hlen & Hversion & _ & Htotal & _).
  exists version, total. split; [|done].
  rewrite Hbytes. apply take_app_length'. symmetry. exact Hlen.
Defined.
End ContainerRun.

(** ** UV generation *)
Section UvFacts.
Context {F : Type} `{Float F, Libm F}.

(** The position triple and the UV pair the vertex loop appends for [v]. *)
Definition vertex_position (v : Point3d F) : list F :=
  [(ptX v / of_frac 1000 1)%fl; (ptZ v / of_frac 1000 1)%fl; (ptY v / of_frac 1000 1)%fl].

Definition vertex_uv (mapping_type : string) (v : Point3d F) : list F :=
  let '(u, vv) :=
    if decide (mapping_type = "cylindrical")
    then compute_cylindrical_uv (ptX v) (ptY v) (ptZ v) default_scale
    else compute_planar_uv (ptX v) (ptY v) default_scale in
  [u; vv].

Lemma vertex_loop (mapping_type : string) (vs : list (Point3d F)) (ps uvs : list F) :
  fold_left (λ '(positions, uvs) v,
               let positions :=
                 positions ++ [(ptX v / of_frac 1000 1)%fl;
                               (ptZ v / of_frac 1000 1)%fl;
                               (ptY v / of_frac 1000 1)%fl] in
               let '(u, vv) :=
                 if decide (mapping_type = "cylindrical")
                 then compute_cylindrical_uv (ptX v) (ptY v) (ptZ v) default_scale
                 else compute_planar_uv (ptX v) (ptY v) default_scale in
               (positions, uvs ++ [u; vv]))
            vs (ps, uvs)
  = (ps ++ flat_map vertex_position vs, uvs ++ flat_map (vertex_uv mapping_type) vs).
Proof.
  revert ps uvs. induction vs as [|v vs IH]; intros ps uvs.
  - cbn [fold_left flat_map]. by rewrite !app_nil_r.
  - cbn [fold_left flat_map].
    destruct (decide (mapping_type = "cylindrical")) as [E|E] eqn:Ed.
    + destruct (compute_cylindrical_uv (ptX v) (ptY v) (ptZ v) default_scale)
        as [u vv] eqn:Euv.
      rewrite IH. unfold vertex_uv at 2. rewrite Ed, Euv.
      by rewrite <- !app_assoc.
    + destruct (compute_planar_uv (ptX v) (ptY v) default_scale) as [u vv] eqn:Euv.
      rewrite IH. unfold vertex_uv at 2. rewrite Ed, Euv.
      by rewrite <- !app_assoc.
Qed.

Lemma face_loop (fs : list Face) (acc : list nat) :
  fold_left (λ indices f, indices ++ face_indices f) fs acc
  = acc ++ flat_map face_indices fs.
Proof.
  revert acc. induction fs as [|f fs IH]; intros acc; cbn [fold_left flat_map].
  - by rewrite app_nil_r.
  - by rewrite IH, <- app_assoc.
Qed.

Lemma mesh_to_arrays_spec (m : Mesh F) (mapping_type : string) :
  mesh_to_arrays m mapping_type
  = (flat_map vertex_position (Vertices m),
     flat_map (vertex_uv mapping_type) (Vertices m),
     flat_map face_indices (Faces m)).
Proof. unfold mesh_to_arrays. by rewrite vertex_loop, face_loop. Qed.

Lemma mapping_type_cylindrical (key : string) :
  mapping_type_from_material_key key = "cylindrical" ↔ String.prefix "shade_" key = true.
Proof. unfold mapping_type_from_material_key. by destruct (String.prefix "shade_" key). Qed.
End UvFacts.

Module UvReal.
Import RealModel RealFacts.
Local Open Scope R_scope.

Lemma Ratan2_positive_y_axis (y : R) : 0 < y → Ratan2 y 0 = PI / 2.
Proof.
  intros Hy. unfold Ratan2.
  destruct (Rlt_dec 0 0) as [?|_]; [lra|].
  destruct (Rlt_dec 0 y); [done|lra].
Qed.

(** C6.  The arrays exported for a mesh under the mapping chosen from its
    material key: positions are (x/1000, z/1000, y/1000); if the key starts
    with "shade_" the UVs are cylindrical, u = atan2(y, x)/(2 pi) + 0.5 and
    v = z/500 + 0.5, otherwise planar, u = x/500 + 0.5 and v = y/500 + 0.5,
    all from the vertex as stored (millimeters, Z up).  The vertex
    (0, 100, 250) has cylindrical UV (0.75, 1). *)
Theorem uv_mapping_by_material_key (m : Mesh R) (key : string) :
  mesh_to_arrays m (mapping_type_from_material_key key)
  = (flat_map (λ v, [ptX v / 1000; ptZ v / 1000; ptY v / 1000]) (Vertices m),
     flat_map (λ v, if String.prefix "shade_" key
                    then [Ratan2 (ptY v) (ptX v) / (2 * PI) + 0.5; ptZ v / 500 + 0.5]
                    else [ptX v / 500 + 0.5; ptY v / 500 + 0.5]) (Vertices m),
     flat_map face_indices (Faces m))
  ∧ compute_cylindrical_uv 0 100 250 default_scale = (0.75, 1).
Proof.
  split.
  - rewrite mesh_to_arrays_spec.
    assert (flat_map vertex_position (Vertices m)
            = flat_map (λ v, [ptX v / 1000; ptZ v / 1000; ptY v / 1000]) (Vertices m))
      as ->.
    { apply flat_map_ext. intros v. unfold vertex_position.
      rewrite of_frac_R. cbn [fdiv float_R]. repeat f_equal; field. }
    assert (flat_map (vertex_uv (mapping_type_from_material_key key)) (Vertices m)
            = flat_map (λ v, if String.prefix "shade_" key
                             then [Ratan2 (ptY v) (ptX v) / (2 * PI) + 0.5;
                                   ptZ v / 500 + 0.5]
                             else [ptX v / 500 + 0.5; ptY v / 500 + 0.5]) (Vertices m))
      as ->; [|done].
    apply flat_map_ext. intros v. unfold vertex_uv, mapping_type_from_material_key.
    destruct (String.prefix "shade_" key).
    + rewrite decide_True by done.
      unfold compute_cylindrical_uv, default_scale.
      rewrite of_Z_R, !of_frac_R. cbn [atan2 libm_R pi fadd fdiv fmul float_R].
      repeat f_equal; lra.
    + rewrite decide_False by done.
      unfold compute_planar_uv, default_scale. rewrite !of_frac_R.
      cbn [fadd fdiv float_R]. repeat f_equal; lra.
  - unfold compute_cylindrical_uv, default_scale.
    rewrite of_Z_R, !of_frac_R. cbn [atan2 libm_R pi fadd fdiv fmul float_R].
    rewrite Ratan2_positive_y_axis by lra.
    replace (PI / 2 / (2 * PI)) with (1 / 4) by (field; apply PI_neq0).
    f_equal; lra.
Qed.
End UvReal.

(** ** The state monad *)
Section MonadFacts.
Context {F : Type} `{Float F, Libm F, Rhino F, Random F}.

Lemma bind_Ok {A B} (m : M F A) (f : A → M F B) (w w' : World F) (b : B) :
  bind m f w = (Ok b, w') → ∃ a w1, m w = (Ok a, w1) ∧ f a w1 = (Ok b, w').
Proof.
  unfold bind. destruct (m w) as [[a|e] w1]; [|done]. intros Hf. by exists a, w1.
Qed.

Lemma bind_run {A B} (m : M F A) (f : A → M F B) (w w1 : World F) (a : A) :
  m w = (Ok a, w1) → bind m f w = f a w1.
Proof. unfold bind. by intros ->. Qed.

Lemma bind_raise {A B} (m : M F A) (f : A → M F B) (w w1 : World F) (e : exn) :
  m w = (Raise e, w1) → bind m f w = (Raise e, w1).
Proof. unfold bind. by intros ->. Qed.

Lemma lift_Ok {A} (r : result A) (w w' : World F) (a : A) :
  lift r w = (Ok a, w') → r = Ok a ∧ w' = w.
Proof. unfold lift. by intros [= -> ->]. Qed.

Lemma ret_Ok {A} (a b : A) (w w' : World F) :
  ret a w = (Ok b, w') → b = a ∧ w' = w.
Proof. unfold ret. by intros [= -> ->]. Qed.
End MonadFacts.

(** ** Scene assembly *)

(** [k] occurs in [l] for the first time at position [p]. *)
Definition first_at (k : string) (l : list string) (p : nat) : Prop :=
  l !! p = Some k ∧ ∀ p', p' < p → l !! p' ≠ Some k.

(** [keys] lists the distinct elements of [l], each once, in the order of
    their first occurrence in [l]. *)
Definition first_seen_order (keys l : list string) : Prop :=
  NoDup keys ∧
  (∀ k, k ∈ keys ↔ k ∈ l) ∧
  (∀ i j ki kj, keys !! i = Some ki → keys !! j = Some kj → i < j →
     ∃ p q, first_at ki l p ∧ first_at kj l q ∧ p < q).

Lemma first_at_app (k : string) (l l' : list string) (p : nat) :
  first_at k l p → first_at k (l ++ l') p.
Proof.
  intros [Hp Hfirst]. split.
  - by apply lookup_app_l_Some.
  - intros p' Hp'. rewrite lookup_app_l; [by apply Hfirst|].
    apply lookup_lt_Some in Hp. lia.
Qed.

Lemma first_at_new (k : string) (l : list string) :
  k ∉ l → first_at k (l ++ [k]) (length l).
Proof.
  intros Hk. split.
  - by rewrite list_lookup_middle.
  - intros p' Hp' Hl. rewrite lookup_app_l in Hl by done.
    apply Hk. by eapply list_elem_of_lookup_2.
Qed.

Lemma first_at_exists (k : string) (l : list string) :
  k ∈ l → ∃ p, first_at k l p.
Proof.
  induction l as [|x l IH] using rev_ind; [by intros ?%elem_of_nil|].
  intros Hk. destruct (decide (k ∈ l)) as [Hl|Hl].
  - destruct (IH Hl) as [p Hp]. exists p. by apply first_at_app.
  - apply elem_of_app in Hk as [?|Hx%list_elem_of_singleton]; [done|]. subst x.
    exists (length l). by apply first_at_new.
Qed.

Lemma first_at_lt (k : string) (l : list string) (p : nat) :
  first_at k l p → p < length l.
Proof. intros [Hp _]. by eapply lookup_lt_Some. Qed.

Section AssemblyFacts.
Context {F : Type} `{Float F, Libm F, Rhino F, Random F}.

Lemma append_loop {A B} (f : A → B) (xs : list A) (acc : list B) :
  fold_left (λ gs x, gs ++ [f x]) xs acc = acc ++ (f <$> xs).
Proof.
  revert acc. induction xs as [|x xs IH]; intros acc; cbn [fold_left fmap list_fmap].
  - by rewrite app_nil_r.
  - by rewrite IH, <- app_assoc.
Qed.

(** The mesh groups in the order the three loops append them. *)
Definition scene_order (config : ClusterConfig) (bottom_mesh top_mesh : loc)
           (cable_meshes : list loc) (placements : list (PendantPlacement F))
  : list MeshGroup :=
  [mkMeshGroup bottom_mesh (canopy_appearance (canopy config));
   mkMeshGroup top_mesh (canopy_appearance (canopy config))]
  ++ ((λ cm, mkMeshGroup cm (cable_appearance (cable config))) <$> cable_meshes)
  ++ flat_map (λ pl, (λ pm, mkMeshGroup pm (appearance (pendant pl))) <$> meshes pl)
              placements.

Lemma pendant_loop (placements : list (PendantPlacement F)) (acc : list MeshGroup) :
  fold_left (λ gs pl,
               fold_left (λ gs' pm, gs' ++ [mkMeshGroup pm (appearance (pendant pl))])
                         (meshes pl) gs)
            placements acc
  = acc ++ flat_map (λ pl, (λ pm, mkMeshGroup pm (appearance (pendant pl))) <$> meshes pl)
                    placements.
Proof.
  revert acc. induction placements as [|pl pls IH]; intros acc; cbn [fold_left flat_map].
  - by rewrite app_nil_r.
  - by rewrite append_loop, IH, <- app_assoc.
Qed.

Lemma assemble_mesh_groups_order (config : ClusterConfig) (bottom_mesh top_mesh : loc)
      (cable_meshes : list loc) (placements : list (PendantPlacement F)) :
  assemble_mesh_groups config bottom_mesh top_mesh cable_meshes placements
  = scene_order config bottom_mesh top_mesh cable_meshes placements.
Proof.
  unfold assemble_mesh_groups, scene_order. cbv zeta.
  rewrite append_loop, pendant_loop. cbn [app]. done.
Qed.

Lemma unique_material_keys_snoc (gs : list MeshGroup) (g : MeshGroup) :
  unique_material_keys (gs ++ [g])
  = let keys := unique_material_keys gs in
    if bool_decide (material_key g ∈ keys) then keys else keys ++ [material_key g].
Proof. unfold unique_material_keys. by rewrite fold_left_app. Qed.

Lemma unique_material_keys_first_seen (gs : list MeshGroup) :
  first_seen_order (unique_material_keys gs) (material_key <$> gs).
Proof.
  induction gs as [|g gs IH] using rev_ind.
  - split; [constructor|]. split; [done|]. intros i j ki kj Hi. done.
  - destruct IH as (Hnd & Hin & Hord).
    rewrite unique_material_keys_snoc, fmap_app. cbv zeta. cbn [fmap list_fmap].
    case_bool_decide as Hk.
    + split; [done|]. split.
      * intros k. rewrite elem_of_app, list_elem_of_singleton, Hin.
        split; [tauto|]. intros [?| ->]; [done|]. by apply Hin.
      * intros i j ki kj Hi Hj Hij.
        destruct (Hord i j ki kj Hi Hj Hij) as (p & q & Hp & Hq & Hpq).
        exists p, q. split; [by apply first_at_app|]. split; [by apply first_at_app|done].
    + assert (material_key g ∉ material_key <$> gs) as Hk' by (by rewrite <- Hin).
      split; [|split].
      * apply NoDup_app. split; [done|]. split; [|apply NoDup_singleton].
        intros k Hk1 Hk2%list_elem_of_singleton. by subst.
      * intros k. rewrite !elem_of_app, Hin. done.
      * intros i j ki kj Hi Hj Hij.
        assert (i < length (unique_material_keys gs)) as Hilt.
        { apply lookup_lt_Some in Hj. rewrite length_app in Hj. simpl in Hj. lia. }
        rewrite lookup_app_l in Hi by done.
        assert (ki ∈ material_key <$> gs) as Hki
            by (apply Hin; by eapply list_elem_of_lookup_2).
        destruct (decide (j < length (unique_material_keys gs))) as [Hjlt|Hjge].
        -- rewrite lookup_app_l in Hj by done.
           destruct (Hord i j ki kj Hi Hj Hij) as (p & q & Hp & Hq & Hpq).
           exists p, q. split; [by apply first_at_app|].
           split; [by apply first_at_app|done].
        -- rewrite lookup_app_r in Hj by lia.
           apply list_lookup_singleton_Some in Hj as [_ <-].
           destruct (first_at_exists _ _ Hki) as [p Hp].
           exists p, (length (material_key <$> gs)).
           split; [by apply first_at_app|]. split; [by apply first_at_new|].
           by eapply first_at_lt.
Qed.
End AssemblyFacts.

Section SceneOrder.
Context {F : Type} `{Float F, Libm F, Rhino F, Random F}.
Variable disk : gmap string (list (Mesh F)).

(** The three calls of [build_mesh_groups] and the list it assembles. *)
Lemma build_mesh_groups_inv (config : ClusterConfig) (w w' : World F)
      (mesh_groups : list MeshGroup) (material_keys : list string) :
  build_mesh_groups disk config w = (Ok (mesh_groups, material_keys), w') →
  ∃ bottom_mesh top_mesh connection_points placements cable_meshes ends w1 w2,
    build_canopy (size (canopy config)) (num_pendants config)
                 (cluster_type (layout config)) w
    = (Ok (bottom_mesh, top_mesh, connection_points), w1) ∧
    place_pendants_then_plan_cables disk config connection_points w1
    = (Ok placements, w2) ∧
    build_cables_from_placements placements w2 = (Ok (cable_meshes, ends), w') ∧
    mesh_groups = scene_order config bottom_mesh top_mesh cable_meshes placements ∧
    material_keys = unique_material_keys mesh_groups.
Proof.
  unfold build_mesh_groups. cbv zeta. intros Hrun.
  apply bind_Ok in Hrun as ([[bottom_mesh top_mesh] connection_points] & w1 & Hc & Hrun).
  apply bind_Ok in Hrun as (placements & w2 & Hp & Hrun).
  apply bind_Ok in Hrun as ([cable_meshes ends] & w3 & Hb & Hrun).
  apply ret_Ok in Hrun as [[= -> ->] ->].
  exists bottom_mesh, top_mesh, connection_points, placements, cable_meshes, ends, w1, w2.
  split; [done|]. split; [done|]. split; [done|].
  split; [apply assemble_mesh_groups_order|].
  by rewrite assemble_mesh_groups_order.
Qed.


(** C7.  [build_mesh_groups] returns the canopy bottom disc, the canopy top
    disc, the cable meshes in the order the cable builder returned them
    (placement order), then for each placement in order all of its pendant's
    meshes, tagged with the canopy, cable and pendant appearance keys; the
    material-key list holds each distinct key of that list once, in the
    order of first occurrence. *)
Theorem build_mesh_groups_order (config : ClusterConfig) (w w' : World F)
        (mesh_groups : list MeshGroup) (material_keys : list string) :
  build_mesh_groups disk config w = (Ok (mesh_groups, material_keys), w') →
  ∃ bottom_mesh top_mesh connection_points placements cable_meshes ends w1 w2,
    build_canopy (size (canopy config)) (num_pendants config)
                 (cluster_type (layout config)) w
    = (Ok (bottom_mesh, top_mesh, connection_points), w1) ∧
    place_pendants_then_plan_cables disk config connection_points w1
    = (Ok placements, w2) ∧
    build_cables_from_placements placements w2 = (Ok (cable_meshes, ends), w') ∧
    mesh_groups
    = [mkMeshGroup bottom_mesh (canopy_appearance (canopy config));
       mkMeshGroup top_mesh (canopy_appearance (canopy config))]
      ++ ((λ cm, mkMeshGroup cm (cable_appearance (cable config))) <$> cable_meshes)
      ++ flat_map (λ pl, (λ pm, mkMeshGroup pm (appearance (pendant pl))) <$> meshes pl)
                  placements ∧
    first_seen_order material_keys (material_key <$> mesh_groups).
Proof.
  intros Hrun.
  apply build_mesh_groups_inv in Hrun
      as (bottom_mesh & top_mesh & connection_points & placements & cable_meshes & ends
          & w1 & w2 & Hc & Hp & Hb & -> & ->).
  exists bottom_mesh, top_mesh, connection_points, placements, cable_meshes, ends, w1, w2.
  split; [done|]. split; [done|]. split; [done|]. split; [done|].
  apply unique_material_keys_first_seen.
Qed.
End SceneOrder.

(** A run of the pipeline on rationals: two pendants on a ring. *)
Module SceneRun.
Import RationalModel.

(** A tetrahedron hanging 300 below its origin. *)
Definition tetrahedron : Mesh Qc :=
  mkMesh [mkPoint3d (Q2Qc 0) (Q2Qc 0) (Q2Qc 0);
          mkPoint3d (Q2Qc 50) (Q2Qc 0) (Q2Qc (-300));
          mkPoint3d (Q2Qc (-50)) (Q2Qc 50) (Q2Qc (-300));
          mkPoint3d (Q2Qc (-50)) (Q2Qc (-50)) (Q2Qc (-300))]
         [Tri 0 1 2; Tri 0 2 3; Tri 0 3 1; Tri 1 3 2].

Definition pendant_disk : gmap string (list (Mesh Qc)) := {[ "denny" := [tetrahedron] ]}.

Definition fresh_world : World Qc := mkWorld (F:=Qc) [] ∅ ∅ 0%Z.

Definition two_pendants (first total : Z) : ClusterConfig :=
  mkClusterConfig (mkCanopyConfig size_s "canopy_black") (mkCableConfig "cable_black")
                  (mkLayoutConfig RING first total)
                  [mkPendantConfig "denny" "shade_natural";
                   mkPendantConfig "denny" "shade_white"] 7.

Definition two_pendants_scene : result (list MeshGroup * list string) :=
  Eval vm_compute in fst (build_mesh_groups pendant_disk (two_pendants 1400 2000) fresh_world).

Lemma two_pendants_run :
  ∃ w', build_mesh_groups pendant_disk (two_pendants 1400 2000) fresh_world
        = (two_pendants_scene, w').
Proof.
  destruct (build_mesh_groups pendant_disk (two_pendants 1400 2000) fresh_world)
    as [r w'] eqn:E.
  exists w'. f_equal. change r with (fst (r, w')). rewrite <- E.
  vm_compute. reflexivity.
Qed.

Lemma build_mesh_groups_order_witness :
  ∃ mesh_groups material_keys,
    two_pendants_scene = Ok (mesh_groups, material_keys) ∧
    material_keys = ["canopy_black"; "cable_black"; "shade_natural"; "shade_white"] ∧
    first_seen_order material_keys (material_key <$> mesh_groups).
Proof.
  destruct two_pendants_run as [w' Hrun].
  eexists _, _. split; [reflexivity|]. split; [reflexivity|].
  destruct (build_mesh_groups_order pendant_disk (two_pendants 1400 2000)
              fresh_world w' _ _ Hrun) as (? & ? & ? & ? & ? & ? & ? & ? & _ & _ & _ & _ & Hk).
  exact Hk.
Defined.
End SceneRun.

(** ** Cables *)
Section CableFacts.
Context {F : Type} `{Float F, Libm F, Rhino F, Random F}.

(** The vector from the start to the end of a placement, and its length. *)
Definition segment (pl : PendantPlacement F) : Vector3d F :=
  mkVector3d (ptX (end_ pl) - ptX (start pl))%fl (ptY (end_ pl) - ptY (start pl))%fl
             (ptZ (end_ pl) - ptZ (start pl))%fl.

Definition segment_length (pl : PendantPlacement F) : F := Length (segment pl).

(** [length < 1e-6]. *)
Definition degenerate (pl : PendantPlacement F) : bool :=
  (segment_length pl <? of_frac 1 1000000)%fl.

(** Whether [_rotation_from_z] returns the method [Identity] for the segment
    of a placement: the segment points straight up, to within 1e-8. *)
Definition points_up (pl : PendantPlacement F) : bool :=
  match _rotation_from_z (segment pl) with
  | IdentityMethod => true
  | AsTransform _ => false
  end.

(** The mesh object made for a placement, as the loop leaves it: a cylinder
    of the cable radius and of the segment's length, rotated from the
    vertical to the segment's direction, then translated to the start
    point; or, where [Transform] raises, the cylinder as it was created. *)
Definition cable_value (pl : PendantPlacement F) : Mesh F :=
  let cyl := cylinder_value CABLE_RADIUS_MM (segment_length pl) 32 in
  match _rotation_from_z (segment pl) with
  | AsTransform xf =>
      transform_mesh (Translation (ptX (start pl)) (ptY (start pl)) (ptZ (start pl)))
                     (transform_mesh xf cyl)
  | IdentityMethod => cyl
  end.

Definition with_cable (placements : list (PendantPlacement F))
  : list (PendantPlacement F) :=
  filter (λ pl, degenerate pl = false) placements.

(** The placements the loop makes a cylinder for: those that are not
    skipped, up to and including the first that points up. *)
Fixpoint reached (pls : list (PendantPlacement F)) : list (PendantPlacement F) :=
  match pls with
  | [] => []
  | pl :: rest => if points_up pl then [pl] else pl :: reached rest
  end.

Lemma reached_all (pls : list (PendantPlacement F)) :
  existsb points_up pls = false → reached pls = pls.
Proof.
  induction pls as [|pl pls IH]; [done|]. cbn [existsb reached].
  destruct (points_up pl); [done|]. cbn [orb]. intros Hpls. by rewrite IH.
Qed.

Lemma cable_loop (placements : list (PendantPlacement F)) (cable_meshes : list loc)
      (ends : list (Point3d F)) (w : World F) :
  for_eachM (λ '(cable_meshes, ends) pl,
               let sp := start pl in
               let ep := end_ pl in
               let d := mkVector3d (ptX ep - ptX sp)%fl (ptY ep - ptY sp)%fl
                                   (ptZ ep - ptZ sp)%fl in
               let length := Length d in
               if (length <? of_frac 1 1000000)%fl then ret (cable_meshes, ends)
               else
                 bind (create_cylinder_mesh CABLE_RADIUS_MM length 32) (λ cyl,
                 bind (mesh_Transform_with cyl (_rotation_from_z d)) (λ _,
                 bind (mesh_Transform cyl (Translation (ptX sp) (ptY sp) (ptZ sp))) (λ _,
                 ret (cable_meshes ++ [cyl], ends ++ [ep])))))
            placements (cable_meshes, ends) w
  = (if existsb points_up (with_cable placements) then Raise TypeError
     else Ok (cable_meshes ++ seq (length (heap w)) (length (with_cable placements)),
              ends ++ (end_ <$> with_cable placements)),
     set_heap (heap w ++ (cable_value <$> reached (with_cable placements))) w).
Proof.
  revert cable_meshes ends w.
  induction placements as [|pl pls IH]; intros cable_meshes ends w.
  - cbn [for_eachM with_cable filter list_filter length seq fmap list_fmap existsb reached].
    rewrite !app_nil_r. by destruct w.
  - cbn [for_eachM]. unfold with_cable. rewrite filter_cons.
    fold (with_cable pls). fold (segment pl). fold (segment_length pl).
    fold (degenerate pl).
    destruct (degenerate pl) eqn:Ed.
    + rewrite decide_False by done.
      unfold bind at 1. unfold ret at 1. apply IH.
    + rewrite decide_True by done. cbn [existsb reached].
      unfold cable_value at 1, points_up at 1 3.
      destruct (_rotation_from_z (segment pl)) as [xf|] eqn:Erot.
      * cbn [mesh_Transform_with orb]. unfold bind at 1.
        rewrite create_then_transform.
        unfold bind at 1. rewrite mesh_Transform_last. unfold ret at 1.
        rewrite IH. rewrite heap_set_heap, length_app.
        cbn [length fmap list_fmap seq]. rewrite Nat.add_1_r.
        rewrite <- !app_assoc. cbn [app]. rewrite Erot. reflexivity.
      * cbn [mesh_Transform_with orb fmap list_fmap].
        unfold bind at 1 2. unfold create_cylinder_mesh. rewrite new_mesh_run.
        unfold bind at 1, raise. by rewrite Erot.
Qed.
End CableFacts.

Section CableTheorem.
Context {F : Type} `{Float F, Libm F, Rhino F, Random F}.

Lemma build_cables_from_placements_run
      (placements : list (PendantPlacement F)) (w : World F) :
  build_cables_from_placements placements w
  = (if existsb points_up (with_cable placements) then Raise TypeError
     else Ok (seq (length (heap w)) (length (with_cable placements)),
              end_ <$> with_cable placements),
     set_heap (heap w ++ (cable_value <$> reached (with_cable placements))) w).
Proof. unfold build_cables_from_placements. by rewrite cable_loop. Qed.

(** A run that returns met no placement that points up. *)
Lemma build_cables_from_placements_Ok
      (placements : list (PendantPlacement F)) (w w' : World F)
      (cable_meshes : list loc) (ends : list (Point3d F)) :
  build_cables_from_placements placements w = (Ok (cable_meshes, ends), w') →
  existsb points_up (with_cable placements) = false ∧
  cable_meshes = seq (length (heap w)) (length (with_cable placements)) ∧
  ends = end_ <$> with_cable placements ∧
  w' = set_heap (heap w ++ (cable_value <$> with_cable placements)) w.
Proof.
  rewrite build_cables_from_placements_run.
  destruct (existsb points_up (with_cable placements)) eqn:Hup; [done|].
  intros [= <- <- <-]. by rewrite (reached_all _ Hup).
Qed.

End CableTheorem.


Module DegenerateRun.
Import RationalModel SceneRun.

(** First drop 100, total drop 300, two pendants 300 tall: the second drop
    is 0, so its start and end coincide. *)
Definition config : ClusterConfig := two_pendants 100 300.

Definition canopy_run : result (loc * loc * list (Point3d Qc)) * World Qc :=
  build_canopy (size (canopy config)) (num_pendants config)
               (cluster_type (layout config)) fresh_world.

Definition canopy_run_points : list (Point3d Qc) :=
  match fst canopy_run with Ok (_, _, points) => points | Raise _ => [] end.

Definition placements : list (PendantPlacement Qc) :=
  Eval vm_compute in
    match fst (place_pendants_then_plan_cables pendant_disk config canopy_run_points
                                               (snd canopy_run)) with
    | Ok pls => pls
    | Raise _ => []
    end.




End DegenerateRun.

(** ** Placement *)
Section PlacementFacts.
Context {F : Type} `{Float F, Libm F, Rhino F, Random F}.
Variable disk : gmap string (list (Mesh F)).

Lemma index_Some {A} (xs : list A) (i : nat) (x : A) :
  index xs i = Ok x → xs !! i = Some x.
Proof. unfold index. destruct (xs !! i); [by intros [= ->]|done]. Qed.

Lemma run_split {A} (m : M F A) (w : World F) (a : A) :
  fst (m w) = Ok a → m w = (Ok a, snd (m w)).
Proof. destruct (m w) as [r w']. cbn [fst snd]. by intros ->. Qed.

(** What one round of the second loop appends. *)
Lemma place_one_inv (config : ClusterConfig) (connection_points : list (Point3d F))
      (indices : list nat) (drops : list F) (meshes_by_index : list (list loc))
      (rng rng' : Gen) (pls pls' : list (PendantPlacement F)) (i : nat) (w w' : World F) :
  place_one config connection_points indices drops meshes_by_index (rng, pls) i w
  = (Ok (rng', pls'), w') →
  ∃ k sp drop p placed,
    indices !! i = Some k ∧ connection_points !! k = Some sp ∧
    drops !! i = Some drop ∧ pendants config !! i = Some p ∧
    rng' = snd (gen_random rng) ∧
    pls' = pls ++ [mkPendantPlacement p sp
                     (mkPoint3d (ptX sp) (ptY sp) (ptZ sp - drop)%fl) placed].
Proof.
  unfold place_one. intros Hrun.
  apply bind_Ok in Hrun as (k & w1 & Hk & Hrun). apply lift_Ok in Hk as [Hk ->].
  apply bind_Ok in Hrun as (sp & w1 & Hsp & Hrun). apply lift_Ok in Hsp as [Hsp ->].
  apply bind_Ok in Hrun as (drop & w1 & Hdrop & Hrun). apply lift_Ok in Hdrop as [Hdrop ->].
  destruct (gen_random rng) as [r rng1] eqn:Er.
  apply bind_Ok in Hrun as (ms & w1 & Hms & Hrun). apply lift_Ok in Hms as [Hms ->].
  apply bind_Ok in Hrun as (placed & w1 & Hplaced & Hrun).
  apply bind_Ok in Hrun as (p & w2 & Hp & Hrun). apply lift_Ok in Hp as [Hp ->].
  apply ret_Ok in Hrun as [[= -> ->] ->].
  exists k, sp, drop, p, placed.
  split; [by apply index_Some|]. split; [by apply index_Some|].
  split; [by apply index_Some|]. split; [by apply index_Some|]. done.
Qed.

(** Placement [i] hangs pendant [i] below attachment point [indices[i]] by
    [drops[i]]. *)
Definition placed_at (config : ClusterConfig) (connection_points : list (Point3d F))
           (indices : list nat) (drops : list F) (i : nat) (pl : PendantPlacement F)
  : Prop :=
  ∃ k drop,
    indices !! i = Some k ∧ connection_points !! k = Some (start pl) ∧
    drops !! i = Some drop ∧ pendants config !! i = Some (pendant pl) ∧
    end_ pl = mkPoint3d (ptX (start pl)) (ptY (start pl)) (ptZ (start pl) - drop)%fl.

Lemma place_loop_inv (config : ClusterConfig) (connection_points : list (Point3d F))
      (indices : list nat) (drops : list F) (meshes_by_index : list (list loc))
      (n : nat) (rng rng' : Gen) (pls : list (PendantPlacement F)) (w w' : World F) :
  for_eachM (place_one config connection_points indices drops meshes_by_index)
            (seq 0 n) (rng, []) w
  = (Ok (rng', pls), w') →
  length pls = n ∧
  ∀ i pl, pls !! i = Some pl → placed_at config connection_points indices drops i pl.
Proof.
  assert (∀ k a rng0 pls0 w0,
            for_eachM (place_one config connection_points indices drops meshes_by_index)
                      (seq a k) (rng0, pls0) w0
            = (Ok (rng', pls), w') →
            length pls0 = a →
            (∀ i pl, pls0 !! i = Some pl →
                     placed_at config connection_points indices drops i pl) →
            length pls = a + k ∧
            ∀ i pl, pls !! i = Some pl →
                    placed_at config connection_points indices drops i pl) as Hgen.
  { induction k as [|k IH]; intros a rng0 pls0 w0 Hrun Hlen Hpls.
    - cbn [seq for_eachM] in Hrun. apply ret_Ok in Hrun as [[= -> ->] ->].
      split; [lia|done].
    - cbn [seq for_eachM] in Hrun.
      apply bind_Ok in Hrun as ([rng1 pls1] & w1 & Hone & Hrun).
      apply place_one_inv in Hone
          as (j & sp & drop & p & placed & Hj & Hsp & Hdrop & Hp & _ & ->).
      apply IH in Hrun as [Hlen' Hall].
      + split; [lia|done].
      + rewrite length_app. cbn [length]. lia.
      + intros i pl Hi. destruct (decide (i < length pls0)) as [Hlt|Hge].
        * rewrite lookup_app_l in Hi by done. by apply Hpls.
        * rewrite lookup_app_r in Hi by lia.
          apply list_lookup_singleton_Some in Hi as [Hi <-].
          assert (i = a) as -> by lia.
          exists j, drop. done. }
  intros Hrun. apply (Hgen n 0 rng [] w Hrun); [done|]. intros i pl Hi. done.
Qed.

(** The four stages of [place_pendants_then_plan_cables]. *)
Lemma place_pendants_inv (config : ClusterConfig) (connection_points : list (Point3d F))
      (placements : list (PendantPlacement F)) (w w' : World F) :
  place_pendants_then_plan_cables disk config connection_points w = (Ok placements, w') →
  ∃ tops bottoms meshes_by_index w1 gap drops indices rng rng',
    load_pendants disk (pendants config) w = (Ok (tops, bottoms, meshes_by_index), w1) ∧
    solve_drops (of_Z (first_drop_mm (layout config)))
                (of_Z (total_drop_mm (layout config)))
                tops bottoms (length (pendants config)) = Ok (gap, drops) ∧
    assign_indices (cluster_type (layout config)) (length (pendants config))
                   connection_points (Random_new (random_seed config))
    = Ok (indices, rng) ∧
    for_eachM (place_one config connection_points indices drops meshes_by_index)
              (seq 0 (length (pendants config))) (rng, []) w1
    = (Ok (rng', placements), w').
Proof.
  unfold place_pendants_then_plan_cables. cbv zeta. intros Hrun.
  apply bind_Ok in Hrun as ([[tops bottoms] meshes_by_index] & w1 & Hload & Hrun).
  apply bind_Ok in Hrun as ([gap drops] & w2 & Hsolve & Hrun).
  apply lift_Ok in Hsolve as [Hsolve ->].
  apply bind_Ok in Hrun as ([indices rng] & w2 & Hassign & Hrun).
  apply lift_Ok in Hassign as [Hassign ->].
  apply bind_Ok in Hrun as ([rng' pls] & w2 & Hloop & Hrun).
  apply ret_Ok in Hrun as [-> ->].
  by exists tops, bottoms, meshes_by_index, w1, gap, drops, indices, rng, rng'.
Qed.

End PlacementFacts.

(** ** Placements over the reals: vertical cables *)
Module PlacementReal.
Import RealModel RealFacts.
Local Open Scope R_scope.

Lemma vertical_segment (pl : PendantPlacement R) (drop : R) :
  end_ pl = mkPoint3d (ptX (start pl)) (ptY (start pl)) (ptZ (start pl) - drop) →
  vecX (segment pl) = 0 ∧ vecY (segment pl) = 0 ∧ vecZ (segment pl) = - drop ∧
  segment_length pl = Rabs drop.
Proof.
  intros Hend. unfold segment_length, segment. rewrite Hend.
  cbn [ptX ptY ptZ vecX vecY vecZ fsub float_R].
  split; [lra|]. split; [lra|]. split; [lra|].
  cbn [Length rhino_R euclid_rhino]. unfold euclid_length.
  cbn [vecX vecY vecZ fadd fmul float_R].
  rewrite <- sqrt_Rsqr_abs. f_equal. unfold Rsqr. ring.
Qed.


(** One pendant below one attachment point. *)
Definition real_tetrahedron : Mesh R :=
  mkMesh [mkPoint3d 0 0 0; mkPoint3d 50 0 (-300); mkPoint3d (-50) 50 (-300)]
         [Tri 0 1 2].

Definition real_disk : gmap string (list (Mesh R)) := {[ "denny" := [real_tetrahedron] ]}.

Definition real_world : World R := mkWorld (F:=R) [] ∅ ∅ 0%Z.

Definition one_pendant : ClusterConfig :=
  mkClusterConfig (mkCanopyConfig size_s "canopy_black") (mkCableConfig "cable_black")
                  (mkLayoutConfig RING 1400 2000)
                  [mkPendantConfig "denny" "shade_natural"] 7.

Lemma one_pendant_run :
  ∃ placements w',
    place_pendants_then_plan_cables real_disk one_pendant [mkPoint3d 110 0 (-40)] real_world
    = (Ok placements, w').
Proof.
  assert (∃ placements,
            fst (place_pendants_then_plan_cables real_disk one_pendant
                   [mkPoint3d 110 0 (-40)] real_world) = Ok placements) as [pls Hpls]
      by (eexists; vm_compute; reflexivity).
  exists pls. eexists. by apply run_split.
Qed.

End PlacementReal.

(** The claim as first stated: the length of every planned segment is the
    drop of its pendant. *)
Definition segment_length_is_drop {F : Type} `{Float F, Libm F, Rhino F, Random F}
           (disk : gmap string (list (Mesh F))) (config : ClusterConfig)
           (connection_points : list (Point3d F)) (w : World F) : Prop :=
  ∀ placements w' tops bottoms meshes_by_index w1 g drops,
    place_pendants_then_plan_cables disk config connection_points w = (Ok placements, w') →
    load_pendants disk (pendants config) w = (Ok (tops, bottoms, meshes_by_index), w1) →
    solve_drops (of_Z (first_drop_mm (layout config)))
                (of_Z (total_drop_mm (layout config)))
                tops bottoms (length (pendants config)) = Ok (g, drops) →
    ∀ i pl drop, placements !! i = Some pl → drops !! i = Some drop →
                 segment_length pl = drop.

(** A run with negative slack: first drop 100, total drop 200, two pendants
    300 tall. *)
Module NegativeDropRun.
Import RationalModel SceneRun.

Definition config : ClusterConfig := two_pendants 100 200.

Definition attachment_points : list (Point3d Qc) :=
  [mkPoint3d (Q2Qc 110) (Q2Qc 0) (Q2Qc (-40));
   mkPoint3d (Q2Qc (-110)) (Q2Qc 0) (Q2Qc (-40))].

Definition placements : list (PendantPlacement Qc) :=
  Eval vm_compute in
    match fst (place_pendants_then_plan_cables pendant_disk config attachment_points
                                               fresh_world) with
    | Ok pls => pls
    | Raise _ => []
    end.

Definition extents : list Qc * list Qc * list (list loc) :=
  Eval vm_compute in
    match fst (load_pendants pendant_disk (pendants config) fresh_world) with
    | Ok r => r
    | Raise _ => ([], [], [])
    end.

Definition drops : list Qc :=
  Eval vm_compute in
    match solve_drops (of_Z 100) (of_Z 200) (fst (fst extents)) (snd (fst extents)) 2 with
    | Ok (_, ds) => ds
    | Raise _ => []
    end.

Lemma negative_placements_run :
  fst (place_pendants_then_plan_cables pendant_disk config attachment_points fresh_world)
  = Ok placements.
Proof. vm_compute. reflexivity. Qed.

Lemma extents_run :
  fst (load_pendants pendant_disk (pendants config) fresh_world) = Ok extents.
Proof. vm_compute. reflexivity. Qed.

Lemma drops_run :
  ∃ g, solve_drops (of_Z (first_drop_mm (layout config)))
                   (of_Z (total_drop_mm (layout config)))
                   (fst (fst extents)) (snd (fst extents)) (length (pendants config))
       = Ok (g, drops).
Proof. eexists. vm_compute. reflexivity. Qed.

(** The second pendant is placed 100 above its attachment point: its drop
    is -100 and its segment has length 100. *)
Lemma second_placement :
  ∃ pl, placements !! 1 = Some pl ∧ drops !! 1 = Some (Q2Qc (-100)) ∧
        segment_length pl = Q2Qc 100.
Proof.
  eexists. split; [vm_compute; reflexivity|].
  split; vm_compute; reflexivity.
Qed.

(** C10, counterexample: with two pendants 300 tall, first drop 100 and
    total drop 200, the second drop is -100 and its segment is 100 long. *)
Lemma negative_drop_length :
  ¬ segment_length_is_drop pendant_disk config attachment_points fresh_world.
Proof.
  intros Hclaim.
  destruct drops_run as [g Hdrops].
  destruct second_placement as (pl & Hpl & Hdrop & Hlen).
  pose proof extents_run as Hext.
  destruct extents as [[tops bottoms] meshes_by_index].
  pose proof (Hclaim placements _ tops bottoms meshes_by_index _ g drops
                (run_split _ _ _ negative_placements_run)
                (run_split _ _ _ Hext)
                Hdrops 1 pl (Q2Qc (-100)) Hpl Hdrop) as Heq.
  rewrite Hlen in Heq. apply (f_equal this) in Heq. discriminate Heq.
Qed.

(** The segment of that second placement points straight up, and the
    request for the scene ends in [TypeError]: no mesh group is returned. *)
Lemma negative_slack_scene_raises :
  existsb points_up (with_cable placements) = true ∧
  fst (build_cables_from_placements placements fresh_world) = Raise TypeError ∧
  fst (build_mesh_groups pendant_disk config fresh_world) = Raise TypeError.
Proof. repeat split; vm_compute; reflexivity. Qed.
End NegativeDropRun.

(** ** The template store: frame and consistency *)
Section StoreFacts.
Context {F : Type} `{Float F, Libm F, Rhino F, Random F}.
Variable disk : gmap string (list (Mesh F)).

(** [w'] keeps every object of [w] as it was, keeps every memoized entry,
    and leaves the module-level generator alone. *)
Definition stable (w w' : World F) : Prop :=
  length (heap w) ≤ length (heap w') ∧
  (∀ l, l < length (heap w) → heap w' !! l = heap w !! l) ∧
  (∀ key tuple, load_cache w !! key = Some tuple → load_cache w' !! key = Some tuple) ∧
  (∀ key e, extents_cache w !! key = Some e → extents_cache w' !! key = Some e) ∧
  global_rng w' = global_rng w.

(** The mesh values of a model's file, and the extents computed from them. *)
Definition template_values (model_key : string) : result (list (Mesh F)) :=
  (let? path := get_pendant_path model_key in
   match disk !! path with
   | Some geometries => Ok geometries
   | None => Raise AttributeError
   end)%res.

Definition bbox_of_values (ms : list (Mesh F)) : option (BoundingBox F) :=
  fold_left (λ bbox m,
               Some (match bbox with
                     | None => GetBoundingBox m
                     | Some bb => Union bb (GetBoundingBox m)
                     end))
            ms None.

Definition extents_value (model_key : string) : result (F * F) :=
  (let? ms := template_values model_key in
   match bbox_of_values ms with
   | None => Raise AttributeError
   | Some bb => Ok (ptZ (bbMax bb), (- ptZ (bbMin bb))%fl)
   end)%res.

(** The locations [ls] hold the values [ms]. *)
Definition holds (w : World F) (ls : list loc) (ms : list (Mesh F)) : Prop :=
  Forall2 (λ l m, heap w !! l = Some m) ls ms.

(** Every memoized tuple still holds the meshes of its file, and every
    memoized extent is the one of its file. *)
Definition store_consistent (w : World F) : Prop :=
  (∀ key tuple, load_cache w !! key = Some tuple →
     ∃ ms, template_values key = Ok ms ∧ holds w tuple ms) ∧
  (∀ key e, extents_cache w !! key = Some e → extents_value key = Ok e).

(** What the store returns for a key: the values of the memoized objects. *)
Definition template_contents (w : World F) (key : string)
  : option (list (option (Mesh F))) :=
  match load_cache w !! key with
  | Some tuple => Some ((λ l : loc, heap w !! l) <$> tuple)
  | None => None
  end.

Lemma stable_refl (w : World F) : stable w w.
Proof. unfold stable. naive_solver. Qed.

Lemma stable_trans (w1 w2 w3 : World F) : stable w1 w2 → stable w2 w3 → stable w1 w3.
Proof.
  intros (Hl1 & Hh1 & Hc1 & He1 & Hg1) (Hl2 & Hh2 & Hc2 & He2 & Hg2).
  split; [lia|]. split.
  { intros l Hl. rewrite Hh2 by lia. by apply Hh1. }
  split; [naive_solver|]. split; [naive_solver|]. congruence.
Qed.

Lemma holds_stable (w w' : World F) (ls : list loc) (ms : list (Mesh F)) :
  stable w w' → holds w ls ms → holds w' ls ms.
Proof.
  intros (_ & Hh & _) Hls. unfold holds in *.
  eapply Forall2_impl; [exact Hls|]. intros l m Hl. cbv beta in *.
  rewrite Hh; [done|]. by eapply lookup_lt_Some.
Qed.

(** A step that leaves both tables as they are keeps the store consistent. *)
Lemma store_consistent_stable (w w' : World F) :
  stable w w' → load_cache w' = load_cache w → extents_cache w' = extents_cache w →
  store_consistent w → store_consistent w'.
Proof.
  intros Hst Hc He [Hload Hext]. split.
  - intros key tuple Hk. rewrite Hc in Hk.
    destruct (Hload key tuple Hk) as (ms & Hms & Hholds).
    exists ms. split; [done|]. by eapply holds_stable.
  - intros key e Hk. rewrite He in Hk. by apply Hext.
Qed.

(** [m] is a safe step: from any state it leaves a stable one, and a
    consistent store consistent, whether it returns or raises. *)
Definition safe {A} (m : M F A) : Prop :=
  ∀ w, stable w (snd (m w)) ∧ (store_consistent w → store_consistent (snd (m w))).

Lemma safe_ret {A} (a : A) : safe (ret a).
Proof. intros w. split; [apply stable_refl|done]. Qed.

Lemma safe_raise {A} (e : exn) : safe (raise (A:=A) e).
Proof. intros w. split; [apply stable_refl|done]. Qed.

Lemma safe_lift {A} (r : result A) : safe (lift r).
Proof. intros w. split; [apply stable_refl|done]. Qed.

Lemma safe_bind {A B} (m : M F A) (f : A → M F B) :
  safe m → (∀ a, safe (f a)) → safe (bind m f).
Proof.
  intros Hm Hf w. unfold bind. destruct (Hm w) as [Hst Hcons].
  destruct (m w) as [[a|e] w1]; cbn [snd] in *; [|done].
  destruct (Hf a w1) as [Hst' Hcons']. split.
  - by eapply stable_trans.
  - intros Hw. by apply Hcons', Hcons.
Qed.

Lemma safe_mapM {A B} (f : A → M F B) (xs : list A) :
  (∀ x, safe (f x)) → safe (mapM f xs).
Proof.
  intros Hf. induction xs as [|x xs IH]; cbn [mapM]; [apply safe_ret|].
  apply safe_bind; [done|]. intros y. apply safe_bind; [done|]. intros ys. apply safe_ret.
Qed.

Lemma safe_for_eachM {A B} (f : B → A → M F B) (xs : list A) (acc : B) :
  (∀ b x, safe (f b x)) → safe (for_eachM f xs acc).
Proof.
  intros Hf. revert acc. induction xs as [|x xs IH]; intros acc; cbn [for_eachM].
  - apply safe_ret.
  - apply safe_bind; [done|]. intros acc'. apply IH.
Qed.

(** A step that only appends objects to the heap. *)
Lemma safe_append (w : World F) (ms : list (Mesh F)) :
  stable w (set_heap (heap w ++ ms) w) ∧
  (store_consistent w → store_consistent (set_heap (heap w ++ ms) w)).
Proof.
  assert (stable w (set_heap (heap w ++ ms) w)) as Hst.
  { split; [rewrite heap_set_heap, length_app; lia|].
    split; [|done]. intros l Hl. rewrite heap_set_heap. by apply lookup_app_l. }
  split; [done|]. by apply store_consistent_stable.
Qed.

Lemma safe_new_mesh (m : Mesh F) : safe (new_mesh m).
Proof. intros w. rewrite new_mesh_run. apply safe_append. Qed.

Lemma safe_read_mesh (l : loc) : safe (read_mesh l).
Proof.
  intros w. unfold read_mesh. destruct (heap w !! l); (split; [apply stable_refl|done]).
Qed.

Lemma safe_mesh_Duplicate (l : loc) : safe (mesh_Duplicate l).
Proof.
  unfold mesh_Duplicate. apply safe_bind; [apply safe_read_mesh|].
  intros m. apply safe_new_mesh.
Qed.

(** The body of the placing loop: a copy is made, and only the copy is
    rotated and translated. *)
Lemma placed_copy_run (m : loc) (rot trans : Transform F) (w : World F) :
  bind (mesh_Duplicate m) (λ mm,
    bind (mesh_Transform mm rot) (λ _,
      bind (mesh_Transform mm trans) (λ _, ret mm))) w
  = match heap w !! m with
    | Some v => (Ok (length (heap w)),
                 set_heap (heap w ++ [transform_mesh trans (transform_mesh rot v)]) w)
    | None => (Raise DanglingReference, w)
    end.
Proof.
  unfold mesh_Duplicate, read_mesh. unfold bind at 1 2.
  destruct (heap w !! m) as [v|]; [|done].
  rewrite new_mesh_run. unfold bind at 1. rewrite mesh_Transform_last.
  unfold bind at 1. by rewrite mesh_Transform_last.
Qed.

Lemma safe_placed_copy (m : loc) (rot trans : Transform F) :
  safe (bind (mesh_Duplicate m) (λ mm,
          bind (mesh_Transform mm rot) (λ _,
            bind (mesh_Transform mm trans) (λ _, ret mm)))).
Proof.
  intros w. rewrite placed_copy_run. destruct (heap w !! m).
  - apply safe_append.
  - split; [apply stable_refl|done].
Qed.
End StoreFacts.

(** ** Runs and the values they compute *)
Section Refinement.
Context {F : Type} `{Float F, Libm F, Rhino F, Random F}.
Variable disk : gmap string (list (Mesh F)).

(** From a consistent state satisfying [P], the run of [m] is stable, keeps
    the store consistent, and ends as the pure computation [v] does: with
    the same exception, or with results related by [R] in the final state. *)
Definition refines {A B} (P : World F → Prop) (m : M F A) (v : result B)
           (R : World F → A → B → Prop) : Prop :=
  ∀ w, store_consistent disk w → P w →
       stable w (snd (m w)) ∧ store_consistent disk (snd (m w)) ∧
       match fst (m w), v with
       | Ok a, Ok b => R (snd (m w)) a b
       | Raise e, Raise e' => e = e'
       | _, _ => False
       end.

Lemma refines_ret {A B} (R : World F → A → B → Prop) (a : A) (b : B) :
  refines (λ w, R w a b) (ret a) (Ok b) R.
Proof. intros w Hw HP. split; [apply stable_refl|]. split; [done|]. done. Qed.

Lemma refines_lift {A} (P : World F → Prop) (r : result A) :
  refines P (lift r) r (λ _ a b, a = b).
Proof.
  intros w Hw HP. split; [apply stable_refl|]. split; [done|].
  cbn [lift fst]. by destruct r.
Qed.

Lemma refines_bind {A A' B B'} (P : World F → Prop) (m : M F A) (v : result A')
      (R : World F → A → A' → Prop) (f : A → M F B) (g : A' → result B')
      (R' : World F → B → B' → Prop) :
  refines P m v R →
  (∀ a a', refines (λ w, R w a a') (f a) (g a') R') →
  refines P (bind m f) (rbind v g) R'.
Proof.
  intros Hm Hf w Hw HP. destruct (Hm w Hw HP) as (Hst & Hcons & Hres).
  unfold bind. destruct (m w) as [[a|e] w1]; cbn [fst snd] in *.
  - destruct v as [a'|e']; [|done]. cbn [rbind].
    destruct (Hf a a' w1 Hcons Hres) as (Hst' & Hcons' & Hres').
    split; [by eapply stable_trans|]. done.
  - destruct v as [a'|e']; [done|]. cbn [rbind fst snd]. done.
Qed.

Lemma refines_weaken {A B} (P P' : World F → Prop) (m : M F A) (v : result B)
      (R R' : World F → A → B → Prop) :
  (∀ w, P' w → P w) → (∀ w a b, R w a b → R' w a b) →
  refines P m v R → refines P' m v R'.
Proof.
  intros HP HR Hm w Hw HP'. destruct (Hm w Hw (HP w HP')) as (Hst & Hcons & Hres).
  split; [done|]. split; [done|].
  destruct (fst (m w)), v; try done. by apply HR.
Qed.

(** A fact that survives stable steps can be carried across a run. *)
Lemma refines_frame {A B} (P Q : World F → Prop) (m : M F A) (v : result B)
      (R : World F → A → B → Prop) :
  (∀ w w', stable w w' → Q w → Q w') →
  refines P m v R →
  refines (λ w, P w ∧ Q w) m v (λ w a b, R w a b ∧ Q w).
Proof.
  intros HQ Hm w Hw [HP HQw]. destruct (Hm w Hw HP) as (Hst & Hcons & Hres).
  split; [done|]. split; [done|].
  destruct (fst (m w)), v; try done. split; [done|]. by eapply HQ.
Qed.

Lemma refines_for_eachM {A B B'} (f : B → A → M F B) (g : B' → A → result B')
      (I : World F → B → B' → Prop) (xs : list A) (b : B) (b' : B') :
  (∀ x c c', x ∈ xs → refines (λ w, I w c c') (f c x) (g c' x) I) →
  refines (λ w, I w b b') (for_eachM f xs b) (for_each g xs b') I.
Proof.
  revert b b'. induction xs as [|x xs IH]; intros b b' Hf; cbn [for_eachM for_each].
  - apply refines_ret.
  - eapply refines_bind; [apply Hf; left|].
    intros c c'. apply IH. intros y d d' Hy. apply Hf. by right.
Qed.

(** Allocating one object per value. *)
Lemma alloc_all_run (ms : list (Mesh F)) (w : World F) :
  mapM new_mesh ms w
  = (Ok (seq (length (heap w)) (length ms)), set_heap (heap w ++ ms) w).
Proof.
  revert w. induction ms as [|m ms IH]; intros w; cbn [mapM].
  - unfold ret. rewrite app_nil_r. by destruct w.
  - unfold bind at 1. rewrite new_mesh_run. unfold bind at 1. rewrite IH.
    unfold ret. rewrite heap_set_heap, length_app. cbn [length seq].
    rewrite Nat.add_1_r, <- app_assoc. done.
Qed.

Lemma holds_fresh (w : World F) (ms : list (Mesh F)) :
  holds (set_heap (heap w ++ ms) w) (seq (length (heap w)) (length ms)) ms.
Proof.
  unfold holds. apply Forall2_lookup. intros i.
  destruct (ms !! i) as [m|] eqn:Ei.
  - rewrite lookup_seq_lt by (by eapply lookup_lt_Some).
    constructor. rewrite heap_set_heap, lookup_app_r by lia.
    by replace (length (heap w) + i - length (heap w)) with i by lia.
  - rewrite lookup_seq_ge by (by apply lookup_ge_None). constructor.
Qed.

(** Copying the objects [ls]: new objects with the same values. *)
Lemma mesh_Duplicate_run (l : loc) (m : Mesh F) (w : World F) :
  heap w !! l = Some m →
  mesh_Duplicate l w = (Ok (length (heap w)), set_heap (heap w ++ [m]) w).
Proof.
  intros Hl. unfold mesh_Duplicate, bind, read_mesh. rewrite Hl. apply new_mesh_run.
Qed.

Lemma duplicate_all_run (ls : list loc) (ms : list (Mesh F)) (w : World F) :
  holds w ls ms →
  mapM mesh_Duplicate ls w
  = (Ok (seq (length (heap w)) (length ms)), set_heap (heap w ++ ms) w).
Proof.
  revert ms w. induction ls as [|l ls IH]; intros ms w Hls.
  - apply Forall2_nil_inv_l in Hls as ->. cbn [mapM length seq]. unfold ret.
    rewrite app_nil_r. by destruct w.
  - apply Forall2_cons_inv_l in Hls as (m & ms' & Hl & Hls & ->).
    cbn [mapM]. unfold bind at 1. rewrite (mesh_Duplicate_run l m w Hl).
    unfold bind at 1.
    rewrite (IH ms' (set_heap (heap w ++ [m]) w)).
    + unfold ret. rewrite heap_set_heap, length_app. cbn [length seq].
      rewrite Nat.add_1_r, <- app_assoc. done.
    + eapply holds_stable; [|exact Hls]. apply (proj1 (safe_append disk w [m])).
Qed.
End Refinement.

(** ** The two memoized functions *)
Section StoreOps.
Context {F : Type} `{Float F, Libm F, Rhino F, Random F}.
Variable disk : gmap string (list (Mesh F)).

Lemma get_pendant_path_Ok (key path : string) :
  get_pendant_path key = Ok path → path = key.
Proof. unfold get_pendant_path. case_decide; [by intros [= <-]|done]. Qed.

(** A miss reads the file, allocates its meshes and stores the tuple; a hit
    and a failure change nothing. *)
Lemma load_run (key : string) (w : World F) :
  _load_pendant_meshes disk key w
  = match load_cache w !! key with
    | Some tuple => (Ok tuple, w)
    | None =>
        match template_values disk key with
        | Ok ms =>
            let tuple := seq (length (heap w)) (length ms) in
            (Ok tuple,
             set_load_cache (<[key := tuple]> (load_cache w))
                            (set_heap (heap w ++ ms) w))
        | Raise e => (Raise e, w)
        end
    end.
Proof.
  unfold _load_pendant_meshes. destruct (load_cache w !! key); [done|].
  unfold template_values, bind at 1, lift.
  destruct (get_pendant_path key) as [path|e] eqn:Ep; [|done].
  cbn [rbind]. unfold bind, read_pendant_file.
  destruct (disk !! path) as [ms|]; [|done].
  by rewrite alloc_all_run.
Qed.

Lemma stable_load_miss (key : string) (ms : list (Mesh F)) (tuple : list loc)
      (w : World F) :
  load_cache w !! key = None →
  stable w (set_load_cache (<[key := tuple]> (load_cache w)) (set_heap (heap w ++ ms) w)).
Proof.
  intros Hmiss. split; [cbn; rewrite length_app; lia|].
  split; [intros l Hl; cbn; by apply lookup_app_l|].
  split; [|done]. intros key' tuple' Hk. cbn.
  rewrite lookup_insert_ne; [done|]. intros ->. congruence.
Qed.

(** [_load_pendant_meshes] is stable; from a consistent store it stays
    consistent and returns objects holding the file's meshes, or raises as
    reading the file does. *)
Lemma load_spec (key : string) (w : World F) :
  stable w (snd (_load_pendant_meshes disk key w)) ∧
  extents_cache (snd (_load_pendant_meshes disk key w)) = extents_cache w ∧
  (store_consistent disk w →
   store_consistent disk (snd (_load_pendant_meshes disk key w)) ∧
   match fst (_load_pendant_meshes disk key w) with
   | Ok tuple => ∃ ms, template_values disk key = Ok ms ∧
                       holds (snd (_load_pendant_meshes disk key w)) tuple ms
   | Raise e => template_values disk key = Raise e
   end).
Proof.
  rewrite load_run. destruct (load_cache w !! key) as [tuple|] eqn:Ek.
  - cbn [fst snd]. split; [apply stable_refl|]. split; [done|].
    intros Hw. split; [done|]. by apply Hw.
  - destruct (template_values disk key) as [ms|e] eqn:Et; cbn [fst snd].
    + split; [by apply stable_load_miss|]. split; [done|].
      intros [Hload Hext].
      assert (holds (set_load_cache (<[key := seq (length (heap w)) (length ms)]>
                                       (load_cache w))
                                    (set_heap (heap w ++ ms) w))
                    (seq (length (heap w)) (length ms)) ms) as Hnew
          by apply holds_fresh.
      split; [|by exists ms]. split.
      * intros key' tuple' Hk. cbn [load_cache set_load_cache] in Hk.
        destruct (decide (key' = key)) as [->|Hne].
        -- rewrite lookup_insert_eq in Hk. injection Hk as <-. by exists ms.
        -- rewrite lookup_insert_ne in Hk by done.
           destruct (Hload key' tuple' Hk) as (ms' & Hms' & Hholds).
           exists ms'. split; [done|].
           eapply holds_stable; [|exact Hholds]. by apply stable_load_miss.
      * intros key' e Hk. by apply Hext.
    + split; [apply stable_refl|]. split; [done|]. intros Hw. done.
Qed.

Lemma union_bboxes_loop (ls : list loc) (ms : list (Mesh F))
      (acc : option (BoundingBox F)) (w : World F) :
  holds w ls ms →
  for_eachM (λ bbox l,
               bind (read_mesh l) (λ m,
                 let b := GetBoundingBox m in
                 ret (Some (match bbox with None => b | Some bb => Union bb b end))))
            ls acc w
  = (Ok (fold_left (λ bbox m,
                      Some (match bbox with
                            | None => GetBoundingBox m
                            | Some bb => Union bb (GetBoundingBox m)
                            end)) ms acc), w).
Proof.
  revert ms acc. induction ls as [|l ls IH]; intros ms acc Hls.
  - by apply Forall2_nil_inv_l in Hls as ->.
  - apply Forall2_cons_inv_l in Hls as (m & ms' & Hl & Hls & ->).
    cbn [for_eachM fold_left]. unfold bind at 1 2, read_mesh. rewrite Hl.
    unfold ret at 1. by apply IH.
Qed.

Lemma union_bboxes_run (ls : list loc) (ms : list (Mesh F)) (w : World F) :
  holds w ls ms → union_bboxes ls w = (Ok (bbox_of_values ms), w).
Proof. intros Hls. unfold union_bboxes, bbox_of_values. by apply union_bboxes_loop. Qed.

(** The loop only reads: whatever happens, the state is the same. *)
Lemma union_bboxes_world (ls : list loc) (w : World F) : snd (union_bboxes ls w) = w.
Proof.
  unfold union_bboxes. generalize (@None (BoundingBox F)).
  induction ls as [|l ls IH]; intros acc; cbn [for_eachM]; [done|].
  unfold bind at 1 2, read_mesh. destruct (heap w !! l); [|done].
  unfold ret at 1. apply IH.
Qed.

(** [_pendant_extents] is stable; from a consistent store it stays
    consistent and returns, or raises, as the extents of the file do. *)
Lemma extents_spec (key : string) (w : World F) :
  stable w (snd (_pendant_extents disk key w)) ∧
  (store_consistent disk w →
   store_consistent disk (snd (_pendant_extents disk key w)) ∧
   fst (_pendant_extents disk key w) = extents_value disk key).
Proof.
  unfold _pendant_extents. destruct (extents_cache w !! key) as [e|] eqn:Ek.
  { cbn [fst snd]. split; [apply stable_refl|]. intros Hw. split; [done|].
    symmetry. by apply Hw. }
  destruct (load_spec key w) as (Hst & Hec & Hload).
  unfold bind.
  destruct (_load_pendant_meshes disk key w) as [[tuple|e] w1] eqn:El;
    cbn [fst snd] in *.
  2:{ split; [done|]. intros Hw. destruct (Hload Hw) as [Hw1 Hv].
      split; [done|]. unfold extents_value. by rewrite Hv. }
  pose proof (union_bboxes_world tuple w1) as Hsame.
  destruct (union_bboxes tuple w1) as [[bbox|e] w2] eqn:Eu; cbn [snd] in Hsame;
    subst w2.
  2:{ cbn [fst snd]. split; [done|]. intros Hw. destruct (Hload Hw) as [Hw1 Hv].
      destruct Hv as (ms & Hms & Hholds).
      rewrite (union_bboxes_run tuple ms w1 Hholds) in Eu. done. }
  destruct bbox as [bb|].
  - cbn [fst snd].
    assert (stable w1 (set_extents_cache
                         (<[key := (ptZ (bbMax bb), (- ptZ (bbMin bb))%fl)]>
                            (extents_cache w1)) w1)) as Hst1.
    { split; [done|]. split; [done|]. split; [done|]. split; [|done].
      intros key' e' Hk. cbn. rewrite lookup_insert_ne; [done|].
      intros ->. congruence. }
    split; [by eapply stable_trans|].
    intros Hw. destruct (Hload Hw) as [[Hl1 He1] (ms & Hms & Hholds)].
    rewrite (union_bboxes_run tuple ms w1 Hholds) in Eu. injection Eu as Hbb.
    assert (extents_value disk key = Ok (ptZ (bbMax bb), (- ptZ (bbMin bb))%fl)) as Hv.
    { unfold extents_value. rewrite Hms. cbn [rbind]. by rewrite Hbb. }
    split; [|done]. split.
    + intros key' tuple' Hk. cbn in Hk.
      destruct (Hl1 key' tuple' Hk) as (ms' & Hms' & Hholds').
      by exists ms'.
    + intros key' e' Hk. cbn in Hk.
      destruct (decide (key' = key)) as [->|Hne].
      * rewrite lookup_insert_eq in Hk. by injection Hk as <-.
      * rewrite lookup_insert_ne in Hk by done. by apply He1.
  - cbn [fst snd]. unfold raise. cbn [fst snd]. split; [done|].
    intros Hw. destruct (Hload Hw) as [Hw1 (ms & Hms & Hholds)].
    rewrite (union_bboxes_run tuple ms w1 Hholds) in Eu. injection Eu as Hbb.
    split; [done|]. unfold extents_value. rewrite Hms. cbn [rbind].
    by rewrite Hbb.
Qed.

Lemma safe_load (key : string) : safe disk (_load_pendant_meshes disk key).
Proof.
  intros w. destruct (load_spec key w) as (Hst & _ & Hload).
  split; [done|]. intros Hw. by apply Hload.
Qed.

Lemma safe_extents (key : string) : safe disk (_pendant_extents disk key).
Proof.
  intros w. destruct (extents_spec key w) as (Hst & Hext).
  split; [done|]. intros Hw. by apply Hext.
Qed.
End StoreOps.

(** ** The planner leaves the templates alone *)
Section TemplateFrame.
Context {F : Type} `{Float F, Libm F, Rhino F, Random F}.
Variable disk : gmap string (list (Mesh F)).

Lemma safe_load_pendants (ps : list PendantConfig) : safe disk (load_pendants disk ps).
Proof.
  unfold load_pendants. apply safe_for_eachM. intros [[tops bottoms] mbi] p.
  apply safe_bind; [apply safe_extents|]. intros [t b].
  apply safe_bind; [apply safe_load|]. intros templates.
  apply safe_bind; [apply safe_mapM; intros l; apply safe_mesh_Duplicate|].
  intros copies. apply safe_ret.
Qed.

Lemma safe_place_one (config : ClusterConfig) (connection_points : list (Point3d F))
      (indices : list nat) (drops : list F) (meshes_by_index : list (list loc))
      (acc : Gen * list (PendantPlacement F)) (i : nat) :
  safe disk (place_one config connection_points indices drops meshes_by_index acc i).
Proof.
  unfold place_one. destruct acc as [rng pls].
  apply safe_bind; [apply safe_lift|]. intros k.
  apply safe_bind; [apply safe_lift|]. intros sp.
  apply safe_bind; [apply safe_lift|]. intros drop.
  destruct (gen_random rng) as [r rng'].
  apply safe_bind; [apply safe_lift|]. intros ms.
  apply safe_bind; [apply safe_mapM; intros m; apply safe_placed_copy|]. intros placed.
  apply safe_bind; [apply safe_lift|]. intros p. apply safe_ret.
Qed.

Lemma safe_place_pendants (config : ClusterConfig) (connection_points : list (Point3d F)) :
  safe disk (place_pendants_then_plan_cables disk config connection_points).
Proof.
  unfold place_pendants_then_plan_cables. cbv zeta.
  apply safe_bind; [apply safe_load_pendants|]. intros [[tops bottoms] mbi].
  apply safe_bind; [apply safe_lift|]. intros [gap drops].
  apply safe_bind; [apply safe_lift|]. intros [indices rng].
  apply safe_bind; [apply safe_for_eachM; intros acc i; apply safe_place_one|].
  intros [rng' pls]. apply safe_ret.
Qed.

Lemma template_contents_stable (w w' : World F) (key : string) (tuple : list loc) :
  stable w w' → load_cache w !! key = Some tuple →
  (∀ l, l ∈ tuple → l < length (heap w)) →
  template_contents w' key = template_contents w key.
Proof.
  intros (_ & Hh & Hc & _) Hk Hvalid. unfold template_contents.
  rewrite (Hc key tuple Hk), Hk. f_equal.
  apply list_fmap_ext. intros i l Hl. apply Hh, Hvalid.
  by eapply list_elem_of_lookup_2.
Qed.

(** C9.  Whatever the configuration and the attachment points, and whether
    the call returns or raises, the state [w'] that
    [place_pendants_then_plan_cables] leaves has every mesh object that
    existed before with its value unchanged, every memoized template tuple
    still in the table, hence the same template contents for every memoized
    key; and if every memoized tuple held the meshes of its file before the
    call, so does every memoized tuple after it, those loaded during the
    call included. *)
Theorem place_pendants_preserves_templates
        (config : ClusterConfig) (connection_points : list (Point3d F)) (w : World F) :
  let w' := snd (place_pendants_then_plan_cables disk config connection_points w) in
  (∀ l, l < length (heap w) → heap w' !! l = heap w !! l) ∧
  (∀ key tuple, load_cache w !! key = Some tuple → load_cache w' !! key = Some tuple) ∧
  (∀ key tuple, load_cache w !! key = Some tuple →
                (∀ l, l ∈ tuple → l < length (heap w)) →
                template_contents w' key = template_contents w key) ∧
  (store_consistent disk w → store_consistent disk w').
Proof.
  cbv zeta. destruct (safe_place_pendants config connection_points w) as [Hst Hcons].
  split; [apply Hst|]. split; [apply Hst|]. split; [|done].
  intros key tuple Hk Hvalid. by eapply template_contents_stable.
Qed.
End TemplateFrame.

(** ** The values the planner computes

    The same computations on mesh values instead of mesh objects: functions
    of the pendant files, the configuration and the attachment points
    alone. *)
Record PlacementValue (F : Type) := mkPlacementValue {
  value_pendant : PendantConfig;
  value_start : Point3d F;
  value_end : Point3d F;
  value_meshes : list (Mesh F);
}.
Arguments mkPlacementValue {F}.
Arguments value_pendant {F}.
Arguments value_start {F}.
Arguments value_end {F}.
Arguments value_meshes {F}.

Section PlannerValues.
Context {F : Type} `{Float F, Libm F, Rhino F, Random F}.
Variable disk : gmap string (list (Mesh F)).

Definition load_values (ps : list PendantConfig)
  : result (list F * list F * list (list (Mesh F))) :=
  for_each (λ '(tops, bottoms, values_by_index) p,
              (let? (t, b) := extents_value disk (model p) in
               let? ms := template_values disk (model p) in
               Ok (tops ++ [t], bottoms ++ [b], values_by_index ++ [ms]))%res)
           ps ([], [], []).

Definition place_one_value (config : ClusterConfig) (connection_points : list (Point3d F))
           (indices : list nat) (drops : list F) (values_by_index : list (list (Mesh F)))
           (acc : Gen * list (PlacementValue F)) (i : nat)
  : result (Gen * list (PlacementValue F)) :=
  let '(rng, placements) := acc in
  (let? k := index indices i in
   let? sp := index connection_points k in
   let? drop := index drops i in
   let endp := mkPoint3d (ptX sp) (ptY sp) (ptZ sp - drop)%fl in
   let '(r, rng') := gen_random rng in
   let twist := (r * (of_frac 2 1 * pi))%fl in
   let rot := Rotation twist (mkVector3d (of_Z 0) (of_Z 0) (of_Z 1))
                       (mkPoint3d (of_Z 0) (of_Z 0) (of_Z 0)) in
   let? ms := index values_by_index i in
   let placed :=
     (λ m, transform_mesh (Translation (ptX endp) (ptY endp) (ptZ endp))
                          (transform_mesh rot m)) <$> ms in
   let? p := index (pendants config) i in
   Ok (rng', placements ++ [mkPlacementValue p sp endp placed]))%res.

Definition place_values (config : ClusterConfig) (connection_points : list (Point3d F))
  : result (list (PlacementValue F)) :=
  let n := length (pendants config) in
  let rng := Random_new (random_seed config) in
  (let? (tops, bottoms, values_by_index) := load_values (pendants config) in
   let first := of_Z (first_drop_mm (layout config)) in
   let total := of_Z (total_drop_mm (layout config)) in
   let? (gap, drops) := solve_drops first total tops bottoms n in
   let? (indices, rng) :=
     assign_indices (cluster_type (layout config)) n connection_points rng in
   let? (_, placements) :=
     for_each (place_one_value config connection_points indices drops values_by_index)
              (seq 0 n) (rng, []) in
   Ok placements)%res.

(** The placement [pl] in state [w] is the value [pv]: same pendant, same
    points, and its objects hold the value's meshes. *)
Definition represents (w : World F) (pl : PendantPlacement F) (pv : PlacementValue F)
  : Prop :=
  pendant pl = value_pendant pv ∧ start pl = value_start pv ∧
  end_ pl = value_end pv ∧ holds w (meshes pl) (value_meshes pv).

Definition as_placement (pv : PlacementValue F) : PendantPlacement F :=
  mkPendantPlacement (value_pendant pv) (value_start pv) (value_end pv) [].

(** The scene as values: each mesh with its material key; [TypeError] when
    the segment of a placement that gets a cable points up. *)
Definition scene_values (config : ClusterConfig) : result (list (Mesh F * string)) :=
  let size_key := size (canopy config) in
  let points := canopy_points (connection_radius size_key) (canopy_base_z size_key)
                              (num_pendants config) (cluster_type (layout config)) in
  (let? pvs := place_values config points in
   let cabled := with_cable (as_placement <$> pvs) in
   let cables := cable_value <$> cabled in
   if existsb points_up cabled then Raise TypeError
   else
     Ok ([(canopy_bottom_value size_key, canopy_appearance (canopy config));
          (canopy_top_value size_key, canopy_appearance (canopy config))]
         ++ ((λ c, (c, cable_appearance (cable config))) <$> cables)
         ++ flat_map (λ pv, (λ m, (m, appearance (value_pendant pv))) <$> value_meshes pv)
                     pvs))%res.

(** The mesh groups [gs] in state [w] are the scene [vs]. *)
Definition denotes (w : World F) (gs : list MeshGroup) (vs : list (Mesh F * string))
  : Prop :=
  Forall2 (λ g v, heap w !! mesh g = Some (fst v) ∧ material_key g = snd v) gs vs.
End PlannerValues.

(** The whole request (api.py): the mesh groups are built, then exported
    from the state the build left. *)
Definition generate {F : Type} `{Float F, Libm F, Rhino F, Random F, Codec F}
           (disk : gmap string (list (Mesh F))) (config : ClusterConfig) (w : World F)
  : result (list byte) * World F :=
  match build_mesh_groups disk config w with
  | (Ok (mesh_groups, material_keys), w') =>
      (save_mesh_groups_as_glb (heap w') mesh_groups material_keys, w')
  | (Raise e, w') => (Raise e, w')
  end.

(** ** The planner computes its values *)
Section PlannerRefines.
Context {F : Type} `{Float F, Libm F, Rhino F, Random F}.
Variable disk : gmap string (list (Mesh F)).

Lemma refines_pre {A B} (P : World F → Prop) (Q : Prop) (m : M F A) (v : result B)
      (R : World F → A → B → Prop) :
  (∀ w, P w → Q) → (Q → refines disk P m v R) → refines disk P m v R.
Proof. intros HQ Hm w Hw HP. by apply (Hm (HQ w HP)). Qed.

Lemma refines_bind_lift {A B B'} (P : World F → Prop) (r : result A)
      (f : A → M F B) (g : A → result B') (R : World F → B → B' → Prop) :
  (∀ a, refines disk P (f a) (g a) R) →
  refines disk P (bind (lift r) f) (rbind r g) R.
Proof.
  intros Hf w Hw HP. unfold bind, lift. destruct r as [a|e]; cbn [rbind].
  - by apply Hf.
  - cbn [fst snd]. split; [apply stable_refl|done].
Qed.

(** Indexing two lists related element by element. *)
Lemma refines_bind_index {A A' B B'} (P : World F → Prop) (T : World F → A → A' → Prop)
      (xs : list A) (ys : list A') (i : nat)
      (f : A → M F B) (g : A' → result B') (R : World F → B → B' → Prop) :
  (∀ w, P w → Forall2 (T w) xs ys) →
  (∀ a a', refines disk (λ w, P w ∧ T w a a') (f a) (g a') R) →
  refines disk P (bind (lift (index xs i)) f) (rbind (index ys i) g) R.
Proof.
  intros HT Hf w Hw HP. pose proof (HT w HP) as Hxy.
  unfold bind, lift, index.
  destruct (xs !! i) as [a|] eqn:Ea.
  - destruct (Forall2_lookup_l _ _ _ _ _ Hxy Ea) as (a' & -> & Haa').
    cbn [rbind]. by apply Hf.
  - assert (ys !! i = None) as ->.
    { apply lookup_ge_None. rewrite <- (Forall2_length _ _ _ Hxy).
      by apply lookup_ge_None. }
    cbn [rbind fst snd]. split; [apply stable_refl|done].
Qed.

Lemma refines_extents (P : World F → Prop) (key : string) :
  refines disk P (_pendant_extents disk key) (extents_value disk key) (λ _ a b, a = b).
Proof.
  intros w Hw HP. destruct (extents_spec disk key w) as [Hst Hext].
  destruct (Hext Hw) as [Hc Hr]. split; [done|]. split; [done|].
  rewrite Hr. by destruct (extents_value disk key).
Qed.

Lemma refines_load (P : World F → Prop) (key : string) :
  refines disk P (_load_pendant_meshes disk key) (template_values disk key)
          (λ w tuple ms, holds w tuple ms).
Proof.
  intros w Hw HP. destruct (load_spec disk key w) as (Hst & _ & Hload).
  destruct (Hload Hw) as [Hc Hr]. split; [done|]. split; [done|].
  destruct (fst (_load_pendant_meshes disk key w)) as [tuple|e].
  - destruct Hr as (ms & -> & Hholds). done.
  - by rewrite Hr.
Qed.

Lemma refines_duplicate_all (ls : list loc) (ms : list (Mesh F)) :
  refines disk (λ w, holds w ls ms) (mapM mesh_Duplicate ls) (Ok ms)
          (λ w copies vals, holds w copies vals).
Proof.
  intros w Hw Hls. rewrite (duplicate_all_run disk ls ms w Hls). cbn [fst snd].
  destruct (safe_append disk w ms) as [Hst Hc].
  split; [done|]. split; [by apply Hc|]. apply holds_fresh.
Qed.

Lemma Forall2_holds_stable (w w' : World F) (lss : list (list loc))
      (mss : list (list (Mesh F))) :
  stable w w' → Forall2 (holds w) lss mss → Forall2 (holds w') lss mss.
Proof.
  intros Hst Hall. eapply Forall2_impl; [exact Hall|].
  intros ls ms. by apply holds_stable.
Qed.

(** The loaded extents are those of the files, and the copies hold the
    files' meshes. *)
Definition loaded (w : World F) (a : list F * list F * list (list loc))
           (b : list F * list F * list (list (Mesh F))) : Prop :=
  fst (fst a) = fst (fst b) ∧ snd (fst a) = snd (fst b) ∧
  Forall2 (holds w) (snd a) (snd b).

Lemma refines_load_pendants (ps : list PendantConfig) :
  refines disk (λ _, True) (load_pendants disk ps) (load_values disk ps) loaded.
Proof.
  unfold load_pendants, load_values.
  eapply refines_weaken;
    [| |apply (refines_for_eachM disk _ _ loaded ps ([], [], []) ([], [], []))].
  { intros w _. split; [done|]. split; [done|]. constructor. }
  { done. }
  intros p [[tops bottoms] mbi] [[tops' bottoms'] vals] _.
  apply (refines_pre _ (tops = tops' ∧ bottoms = bottoms')).
  { intros w (Ht & Hb & _). done. }
  intros [<- <-].
  eapply refines_bind.
  { eapply refines_weaken;
      [| |apply (refines_frame disk (λ _, True) (λ w, Forall2 (holds w) mbi vals));
          [intros w w'; apply Forall2_holds_stable|apply refines_extents]].
    - intros w (_ & _ & Hall). done.
    - intros w x y HR. exact HR. }
  intros [t b] [t' b']. cbv beta iota.
  apply (refines_pre _ ((t, b) = (t', b'))).
  { intros w [Heq _]. done. }
  intros [= <- <-].
  eapply refines_bind.
  { eapply refines_weaken;
      [| |apply (refines_frame disk (λ _, True) (λ w, Forall2 (holds w) mbi vals));
          [intros w w'; apply Forall2_holds_stable|apply refines_load]].
    - intros w [_ Hall]. done.
    - intros w x y HR. exact HR. }
  intros templates ms.
  change (Ok (tops ++ [t], bottoms ++ [b], vals ++ [ms]))
    with (rbind (Ok ms) (λ ms', Ok (tops ++ [t], bottoms ++ [b], vals ++ [ms']))).
  eapply refines_bind.
  { apply (refines_frame disk _ (λ w, Forall2 (holds w) mbi vals));
      [intros w w'; apply Forall2_holds_stable|apply refines_duplicate_all]. }
  intros copies ms'.
  eapply refines_weaken; [| |apply (refines_ret disk loaded)].
  - intros w [Hc Hall]. split; [done|]. split; [done|].
    apply Forall2_app; [done|]. by constructor.
  - done.
Qed.
End PlannerRefines.

Section PlaceRefines.
Context {F : Type} `{Float F, Libm F, Rhino F, Random F}.
Variable disk : gmap string (list (Mesh F)).

(** The copies placed for one pendant: new objects holding the rotated and
    translated values. *)
Lemma placed_copies_run (rot trans : Transform F) (ms : list loc) (vms : list (Mesh F))
      (w : World F) :
  holds w ms vms →
  mapM (λ m, bind (mesh_Duplicate m) (λ mm,
               bind (mesh_Transform mm rot) (λ _,
                 bind (mesh_Transform mm trans) (λ _, ret mm)))) ms w
  = (Ok (seq (length (heap w)) (length vms)),
     set_heap (heap w ++ ((λ v, transform_mesh trans (transform_mesh rot v)) <$> vms)) w).
Proof.
  revert vms w. induction ms as [|m ms IH]; intros vms w Hms.
  - apply Forall2_nil_inv_l in Hms as ->. cbn [mapM length seq fmap list_fmap].
    unfold ret. rewrite app_nil_r. by destruct w.
  - apply Forall2_cons_inv_l in Hms as (v & vms' & Hm & Hms & ->).
    cbn [mapM]. unfold bind at 1. rewrite placed_copy_run, Hm.
    unfold bind at 1.
    rewrite (IH vms' (set_heap (heap w ++ [transform_mesh trans (transform_mesh rot v)]) w)).
    + unfold ret. rewrite heap_set_heap, length_app. cbn [length seq fmap list_fmap].
      rewrite Nat.add_1_r, <- app_assoc. done.
    + eapply holds_stable; [|exact Hms].
      apply (proj1 (safe_append disk w [transform_mesh trans (transform_mesh rot v)])).
Qed.

Lemma refines_placed_copies (rot trans : Transform F) (ms : list loc)
      (vms : list (Mesh F)) :
  refines disk (λ w, holds w ms vms)
          (mapM (λ m, bind (mesh_Duplicate m) (λ mm,
                        bind (mesh_Transform mm rot) (λ _,
                          bind (mesh_Transform mm trans) (λ _, ret mm)))) ms)
          (Ok ((λ v, transform_mesh trans (transform_mesh rot v)) <$> vms))
          (λ w placed pvals, holds w placed pvals).
Proof.
  intros w Hw Hms. rewrite (placed_copies_run rot trans ms vms w Hms). cbn [fst snd].
  destruct (safe_append disk w
              ((λ v, transform_mesh trans (transform_mesh rot v)) <$> vms)) as [Hst Hc].
  split; [exact Hst|]. split; [by apply Hc|].
  pose proof (holds_fresh w ((λ v, transform_mesh trans (transform_mesh rot v)) <$> vms))
    as Hf.
  rewrite length_fmap in Hf. exact Hf.
Qed.

Lemma represents_stable (w w' : World F) (pls : list (PendantPlacement F))
      (pvs : list (PlacementValue F)) :
  stable w w' → Forall2 (represents w) pls pvs → Forall2 (represents w') pls pvs.
Proof.
  intros Hst Hall. eapply Forall2_impl; [exact Hall|].
  intros pl pv (Hp & Hs & He & Hm). split; [done|]. split; [done|]. split; [done|].
  by eapply holds_stable.
Qed.

(** The state of the placing loop: the same generator, the placements made
    so far, and the copies waiting to be placed. *)
Definition placing (meshes_by_index : list (list loc)) (values_by_index : list (list (Mesh F)))
           (w : World F) (a : Gen * list (PendantPlacement F))
           (b : Gen * list (PlacementValue F)) : Prop :=
  fst a = fst b ∧ Forall2 (represents w) (snd a) (snd b) ∧
  Forall2 (holds w) meshes_by_index values_by_index.

Lemma placing_stable (mbi : list (list loc)) (vals : list (list (Mesh F)))
      (w w' : World F) (a : Gen * list (PendantPlacement F))
      (b : Gen * list (PlacementValue F)) :
  stable w w' → placing mbi vals w a b → placing mbi vals w' a b.
Proof.
  intros Hst (Hg & Hp & Hm). split; [done|].
  split; [by eapply represents_stable|by eapply Forall2_holds_stable].
Qed.

Lemma refines_place_one (config : ClusterConfig) (connection_points : list (Point3d F))
      (indices : list nat) (drops : list F) (mbi : list (list loc))
      (vals : list (list (Mesh F))) (a : Gen * list (PendantPlacement F))
      (b : Gen * list (PlacementValue F)) (i : nat) :
  refines disk (λ w, placing mbi vals w a b)
          (place_one config connection_points indices drops mbi a i)
          (place_one_value config connection_points indices drops vals b i)
          (placing mbi vals).
Proof.
  destruct a as [rng pls], b as [rng' pvs].
  apply (refines_pre _ _ (rng = rng')). { intros w [Hg _]. exact Hg. }
  intros <-. unfold place_one, place_one_value.
  apply refines_bind_lift. intros k.
  apply refines_bind_lift. intros sp.
  apply refines_bind_lift. intros drop. cbv zeta.
  destruct (gen_random rng) as [r rng1].
  apply (refines_bind_index _ _ (λ w, holds w) mbi vals).
  { intros w (_ & _ & Hm). exact Hm. }
  intros ms vms.
  match goal with
  | |- refines _ _ _ (rbind (index (pendants config) i) ?g) _ =>
      change (rbind (index (pendants config) i) g)
        with (rbind (Ok ((λ m, transform_mesh
                                 (Translation (ptX sp) (ptY sp) (ptZ sp - drop)%fl)
                                 (transform_mesh
                                    (Rotation (r * (of_frac 2 1 * pi))%fl
                                              (mkVector3d (of_Z 0) (of_Z 0) (of_Z 1))
                                              (mkPoint3d (of_Z 0) (of_Z 0) (of_Z 0))) m))
                           <$> vms))
                    (λ placed, rbind (index (pendants config) i)
                                     (λ p, Ok (rng1, pvs ++ [mkPlacementValue p sp
                                                 (mkPoint3d (ptX sp) (ptY sp)
                                                            (ptZ sp - drop)%fl) placed]))))
  end.
  eapply refines_bind.
  { eapply refines_weaken;
      [| |apply (refines_frame disk (λ w, holds w ms vms)
                   (λ w, placing mbi vals w (rng, pls) (rng, pvs)));
          [intros w w'; apply placing_stable|apply refines_placed_copies]].
    - intros w [Hpl Hms]. split; [exact Hms|exact Hpl].
    - intros w x y HR. exact HR. }
  intros placed pvals.
  apply refines_bind_lift. intros p.
  eapply refines_weaken; [| |apply (refines_ret disk (placing mbi vals))].
  - intros w (Hplaced & _ & Hpls & Hm). split; [done|]. split; [|exact Hm].
    apply Forall2_app; [exact Hpls|]. constructor; [|constructor].
    split; [done|]. split; [done|]. split; [done|]. exact Hplaced.
  - done.
Qed.

(** The planner's placements are the values [place_values] computes. *)
Lemma refines_place_pendants (config : ClusterConfig)
      (connection_points : list (Point3d F)) :
  refines disk (λ _, True)
          (place_pendants_then_plan_cables disk config connection_points)
          (place_values disk config connection_points)
          (λ w pls pvs, Forall2 (represents w) pls pvs).
Proof.
  unfold place_pendants_then_plan_cables, place_values. cbv zeta.
  eapply refines_bind; [apply refines_load_pendants|].
  intros [[tops bottoms] mbi] [[tops' bottoms'] vals]. cbv beta iota.
  apply (refines_pre _ _ (tops = tops' ∧ bottoms = bottoms')).
  { intros w (Ht & Hb & _). done. }
  intros [<- <-].
  apply refines_bind_lift. intros [gap drops].
  apply refines_bind_lift. intros [indices rng].
  eapply refines_bind.
  { eapply refines_weaken;
      [| |apply (refines_for_eachM disk _ _ (placing mbi vals)
                   (seq 0 (length (pendants config))) (rng, []) (rng, []))].
    - intros w (_ & _ & Hm). split; [done|]. split; [constructor|exact Hm].
    - intros w x y HR. exact HR.
    - intros i c c' _. apply refines_place_one. }
  intros [rng1 pls] [rng1' pvs].
  eapply refines_weaken;
    [| |apply (refines_ret disk (λ w pls pvs, Forall2 (represents w) pls pvs))].
  - intros w (_ & Hpls & _). exact Hpls.
  - done.
Qed.
End PlaceRefines.

(** ** The scene a request builds *)
Section SceneRefines.
Context {F : Type} `{Float F, Libm F, Rhino F, Random F}.
Variable disk : gmap string (list (Mesh F)).

(** Whether a placement gets a cable, and which, depends on its start and
    end only. *)
Lemma cable_values_agree (w : World F) (pls : list (PendantPlacement F))
      (pvs : list (PlacementValue F)) :
  Forall2 (represents w) pls pvs →
  cable_value <$> with_cable pls = cable_value <$> with_cable (as_placement <$> pvs).
Proof.
  induction 1 as [|pl pv pls pvs (Hp & Hs & He & Hm) Hall IH]; [done|].
  cbn [fmap list_fmap]. unfold with_cable. rewrite !filter_cons.
  fold (with_cable pls). fold (with_cable (as_placement <$> pvs)).
  assert (segment pl = segment (as_placement pv)) as Hseg.
  { unfold segment, as_placement. cbn [start end_]. by rewrite Hs, He. }
  assert (degenerate pl = degenerate (as_placement pv)) as Hdeg.
  { unfold degenerate, segment_length. by rewrite Hseg. }
  assert (cable_value pl = cable_value (as_placement pv)) as Hcv.
  { unfold cable_value, segment_length. rewrite Hseg.
    unfold as_placement at 1 2 3. cbn [start]. by rewrite Hs. }
  rewrite <- Hdeg. destruct (decide (degenerate pl = false)).
  - cbn [fmap list_fmap]. by rewrite Hcv, IH.
  - exact IH.
Qed.

Lemma points_up_agree (w : World F) (pls : list (PendantPlacement F))
      (pvs : list (PlacementValue F)) :
  Forall2 (represents w) pls pvs →
  existsb points_up (with_cable pls)
  = existsb points_up (with_cable (as_placement <$> pvs)).
Proof.
  induction 1 as [|pl pv pls pvs (Hp & Hs & He & Hm) Hall IH]; [done|].
  cbn [fmap list_fmap]. unfold with_cable. rewrite !filter_cons.
  fold (with_cable pls). fold (with_cable (as_placement <$> pvs)).
  assert (segment pl = segment (as_placement pv)) as Hseg.
  { unfold segment, as_placement. cbn [start end_]. by rewrite Hs, He. }
  assert (degenerate pl = degenerate (as_placement pv)) as Hdeg.
  { unfold degenerate, segment_length. by rewrite Hseg. }
  assert (points_up pl = points_up (as_placement pv)) as Hup.
  { unfold points_up. by rewrite Hseg. }
  rewrite <- Hdeg. destruct (decide (degenerate pl = false)).
  - cbn [existsb]. by rewrite Hup, IH.
  - exact IH.
Qed.

Lemma denotes_pendants (w : World F) (pls : list (PendantPlacement F))
      (pvs : list (PlacementValue F)) :
  Forall2 (represents w) pls pvs →
  denotes w
    (flat_map (λ pl, (λ pm, mkMeshGroup pm (appearance (pendant pl))) <$> meshes pl) pls)
    (flat_map (λ pv, (λ m, (m, appearance (value_pendant pv))) <$> value_meshes pv) pvs).
Proof.
  unfold denotes.
  induction 1 as [|pl pv pls pvs (Hp & Hs & He & Hm) Hall IH]; [constructor|].
  cbn [flat_map]. apply Forall2_app; [|exact IH].
  apply Forall2_fmap. eapply Forall2_impl; [exact Hm|].
  intros l m Hl. cbn [mesh material_key fst snd]. by rewrite Hp.
Qed.

Lemma denotes_fresh (w : World F) (ms : list (Mesh F)) (key : string) :
  denotes (set_heap (heap w ++ ms) w)
          ((λ l, mkMeshGroup l key) <$> seq (length (heap w)) (length ms))
          ((λ m, (m, key)) <$> ms).
Proof.
  unfold denotes. apply Forall2_fmap.
  eapply Forall2_impl; [apply (holds_fresh w ms)|].
  intros l m Hl. done.
Qed.

(** The groups a request builds denote [scene_values], and the key list is
    computed from the groups. *)
Definition scene_built (w : World F) (a : list MeshGroup * list string)
           (vs : list (Mesh F * string)) : Prop :=
  denotes w (fst a) vs ∧ snd a = unique_material_keys (fst a).

(** [build_mesh_groups] in terms of the planner's run. *)
Lemma build_mesh_groups_run (config : ClusterConfig) (w : World F) :
  build_mesh_groups disk config w
  = match place_pendants_then_plan_cables
            disk config
            (canopy_points (connection_radius (size (canopy config)))
                           (canopy_base_z (size (canopy config)))
                           (num_pendants config) (cluster_type (layout config)))
            (set_heap (heap w ++ [canopy_bottom_value (size (canopy config));
                                  canopy_top_value (size (canopy config))]) w) with
    | (Ok pls, w2) =>
        let mesh_groups :=
          assemble_mesh_groups config (length (heap w)) (S (length (heap w)))
            (seq (length (heap w2)) (length (with_cable pls))) pls in
        (if existsb points_up (with_cable pls) then Raise TypeError
         else Ok (mesh_groups, unique_material_keys mesh_groups),
         set_heap (heap w2 ++ (cable_value <$> reached (with_cable pls))) w2)
    | (Raise e, w2) => (Raise e, w2)
    end.
Proof.
  unfold build_mesh_groups. cbv zeta. unfold bind at 1. rewrite build_canopy_run.
  unfold bind at 1.
  destruct (place_pendants_then_plan_cables _ _ _ _) as [[pls|e] w2]; [|done].
  unfold bind at 1. rewrite build_cables_from_placements_run.
  by destruct (existsb points_up (with_cable pls)).
Qed.

Lemma refines_build_mesh_groups (config : ClusterConfig) :
  refines disk (λ _, True) (build_mesh_groups disk config) (scene_values disk config)
          scene_built.
Proof.
  intros w Hw _. rewrite build_mesh_groups_run. unfold scene_values. cbv zeta.
  set (w1 := set_heap (heap w ++ [canopy_bottom_value (size (canopy config));
                                  canopy_top_value (size (canopy config))]) w).
  set (points := canopy_points (connection_radius (size (canopy config)))
                               (canopy_base_z (size (canopy config)))
                               (num_pendants config) (cluster_type (layout config))).
  destruct (safe_append disk w [canopy_bottom_value (size (canopy config));
                                canopy_top_value (size (canopy config))]) as [Hst1 Hc1].
  fold w1 in Hst1, Hc1. specialize (Hc1 Hw).
  destruct (refines_place_pendants disk config points w1 Hc1 I) as (Hst2 & Hc2 & Hres).
  destruct (place_pendants_then_plan_cables disk config points w1) as [[pls|e] w2];
    cbn [fst snd] in *.
  2:{ destruct (place_values disk config points) as [pvs|e']; [done|]. subst e'.
      cbn [rbind]. split; [by eapply stable_trans|done]. }
  destruct (place_values disk config points) as [pvs|e']; [|done]. cbn [rbind].
  cbn [fst snd]. rewrite <- (points_up_agree w2 pls pvs Hres).
  destruct (safe_append disk w2 (cable_value <$> reached (with_cable pls))) as [Hst3 Hc3].
  destruct (existsb points_up (with_cable pls)) eqn:Hup.
  { split; [|by split; [apply Hc3|]].
    eapply stable_trans; [|exact Hst3]. by eapply stable_trans. }
  rewrite (reached_all _ Hup) in *.
  set (w3 := set_heap (heap w2 ++ (cable_value <$> with_cable pls)) w2).
  fold w3 in Hst3, Hc3.
  assert (stable w1 w3) as Hst13 by (by eapply stable_trans).
  split; [by eapply stable_trans|]. split; [by apply Hc3|].
  split; [|done]. cbn [fst].
  rewrite assemble_mesh_groups_order. unfold scene_order, denotes.
  apply Forall2_app; [|apply Forall2_app].
  - destruct Hst13 as (_ & Hh & _).
    constructor; [|constructor; [|constructor]]; cbn [mesh material_key fst snd].
    + split; [|done]. rewrite Hh.
      * unfold w1. rewrite heap_set_heap. by rewrite list_lookup_middle.
      * unfold w1. rewrite heap_set_heap, length_app. cbn [length]. lia.
    + split; [|done]. rewrite Hh.
      * unfold w1. rewrite heap_set_heap.
        rewrite (lookup_app_r (heap w)) by lia.
        by replace (S (length (heap w)) - length (heap w)) with 1 by lia.
      * unfold w1. rewrite heap_set_heap, length_app. cbn [length]. lia.
  - rewrite <- (cable_values_agree w2 pls pvs Hres).
    rewrite <- (length_fmap cable_value (with_cable pls)).
    apply (denotes_fresh w2 (cable_value <$> with_cable pls)).
  - apply (denotes_pendants w3 pls pvs).
    eapply represents_stable; [exact Hst3|exact Hres].
Qed.
End SceneRefines.

(** ** Determinism of a request *)
Section Determinism.
Context {F : Type} `{Float F, Libm F, Rhino F, Random F, Codec F}.
Variable disk : gmap string (list (Mesh F)).

(** Two lists of mesh groups with the same keys whose objects have the same
    values, each in its own heap. *)
Definition same_scene (h h' : list (Mesh F)) (gs gs' : list MeshGroup) : Prop :=
  Forall2 (λ g g', material_key g = material_key g' ∧ h !! mesh g = h' !! mesh g') gs gs'.

Lemma export_group_agree (h h' : list (Mesh F)) (mim : gmap string nat)
      (st : ExportState) (g g' : MeshGroup) :
  material_key g = material_key g' → h !! mesh g = h' !! mesh g' →
  export_group h mim st g = export_group h' mim st g'.
Proof. intros Hk Hm. unfold export_group. by rewrite Hk, Hm. Qed.

Lemma export_loop_agree (h h' : list (Mesh F)) (mim : gmap string nat)
      (gs gs' : list MeshGroup) (st : ExportState) :
  same_scene h h' gs gs' →
  for_each (export_group h mim) gs st = for_each (export_group h' mim) gs' st.
Proof.
  intros Hs. revert st. induction Hs as [|g g' gs gs' [Hk Hm] Hs IH]; intros st; [done|].
  cbn [for_each]. rewrite (export_group_agree h h' mim st g g' Hk Hm).
  destruct (export_group h' mim st g') as [st'|e]; cbn [rbind]; [apply IH|done].
Qed.

Lemma save_agree (h h' : list (Mesh F)) (gs gs' : list MeshGroup) (keys : list string) :
  same_scene h h' gs gs' →
  save_mesh_groups_as_glb h gs keys = save_mesh_groups_as_glb h' gs' keys.
Proof.
  intros Hs. unfold save_mesh_groups_as_glb.
  destruct (material_records keys) as [[materials mim]|e]; cbn [rbind]; [|done].
  by rewrite (export_loop_agree h h' mim gs gs' _ Hs).
Qed.

Lemma unique_material_keys_fold (gs : list MeshGroup) (acc : list string) :
  fold_left (λ material_keys mg,
               let k := material_key mg in
               if bool_decide (k ∈ material_keys) then material_keys
               else material_keys ++ [k]) gs acc
  = fold_left (λ material_keys k,
                 if bool_decide (k ∈ material_keys) then material_keys
                 else material_keys ++ [k]) (material_key <$> gs) acc.
Proof.
  revert acc. induction gs as [|g gs IH]; intros acc; [done|].
  cbn [fold_left fmap list_fmap]. apply IH.
Qed.

Lemma unique_material_keys_agree (h h' : list (Mesh F)) (gs gs' : list MeshGroup) :
  same_scene h h' gs gs' → unique_material_keys gs = unique_material_keys gs'.
Proof.
  intros Hs. unfold unique_material_keys. rewrite !unique_material_keys_fold.
  f_equal. induction Hs as [|g g' gs gs' [Hk _] Hs IH]; [done|].
  cbn [fmap list_fmap]. by rewrite Hk, IH.
Qed.

Lemma denotes_agree (w w' : World F) (gs gs' : list MeshGroup)
      (vs : list (Mesh F * string)) :
  denotes w gs vs → denotes w' gs' vs → same_scene (heap w) (heap w') gs gs'.
Proof.
  unfold denotes, same_scene. intros Hgs. revert gs'.
  induction Hgs as [|g v gs vs [Hm Hk] Hgs IH]; intros gs' Hgs'.
  - inversion Hgs'. constructor.
  - inversion Hgs' as [|g' v' gs'' vs' [Hm' Hk'] Hrest]; subst.
    constructor; [split; congruence|by apply IH].
Qed.

Lemma store_consistent_empty (w : World F) :
  load_cache w = ∅ → extents_cache w = ∅ → store_consistent disk w.
Proof.
  intros Hl He. split.
  - intros key tuple Hk. rewrite Hl, lookup_empty in Hk. done.
  - intros key e Hk. rewrite He, lookup_empty in Hk. done.
Qed.

Lemma generate_agree (config : ClusterConfig) (w1 w2 : World F) :
  store_consistent disk w1 → store_consistent disk w2 →
  fst (generate disk config w1) = fst (generate disk config w2).
Proof.
  intros Hw1 Hw2.
  destruct (refines_build_mesh_groups disk config w1 Hw1 I) as (_ & _ & Hr1).
  destruct (refines_build_mesh_groups disk config w2 Hw2 I) as (_ & _ & Hr2).
  unfold generate.
  destruct (build_mesh_groups disk config w1) as [[[gs1 ks1]|e1] w1'];
    destruct (build_mesh_groups disk config w2) as [[[gs2 ks2]|e2] w2'];
    destruct (scene_values disk config) as [vs|e]; cbn [fst snd] in *; try done.
  - destruct Hr1 as [Hd1 Hk1], Hr2 as [Hd2 Hk2]. cbn [fst snd] in *.
    pose proof (denotes_agree w1' w2' gs1 gs2 vs Hd1 Hd2) as Hs.
    rewrite Hk1, Hk2, (unique_material_keys_agree _ _ _ _ Hs).
    by apply save_agree.
  - congruence.
Qed.

Lemma generate_consistent (config : ClusterConfig) (w : World F) :
  store_consistent disk w →
  store_consistent disk (snd (generate disk config w)) ∧
  stable w (snd (generate disk config w)).
Proof.
  intros Hw.
  destruct (refines_build_mesh_groups disk config w Hw I) as (Hst & Hc & _).
  unfold generate.
  destruct (build_mesh_groups disk config w) as [[[gs ks]|e] w']; by cbn [fst snd] in *.
Qed.

(** C1.  From any two states whose template stores are consistent with the
    same pendant files, a request for the same configuration (seed
    included) gives the same result: the same bytes, or the same exception.
    In particular a second request right after the first gives what the
    first gave.  The planner's placements are, from either state, the
    values of [place_values], a function of the files, the configuration
    and the attachment points whose only generator is the one made from
    [random_seed]; the module-level generator is not touched. *)
Theorem generate_deterministic (config : ClusterConfig) (w1 w2 : World F) :
  store_consistent disk w1 → store_consistent disk w2 →
  fst (generate disk config w1) = fst (generate disk config w2) ∧
  fst (generate disk config (snd (generate disk config w1)))
  = fst (generate disk config w1) ∧
  global_rng (snd (generate disk config w1)) = global_rng w1 ∧
  ∀ connection_points,
    let run1 := place_pendants_then_plan_cables disk config connection_points w1 in
    let run2 := place_pendants_then_plan_cables disk config connection_points w2 in
    match fst run1, fst run2, place_values disk config connection_points with
    | Ok pls1, Ok pls2, Ok pvs =>
        Forall2 (represents (snd run1)) pls1 pvs ∧ Forall2 (represents (snd run2)) pls2 pvs
    | Raise e1, Raise e2, Raise e => e1 = e ∧ e2 = e
    | _, _, _ => False
    end.
Proof.
  intros Hw1 Hw2. destruct (generate_consistent config w1 Hw1) as [Hc Hst].
  split; [by apply generate_agree|].
  split; [by apply generate_agree|].
  split; [apply Hst|].
  intros cps. cbv zeta.
  destruct (refines_place_pendants disk config cps w1 Hw1 I) as (_ & _ & Hr1).
  destruct (refines_place_pendants disk config cps w2 Hw2 I) as (_ & _ & Hr2).
  destruct (fst (place_pendants_then_plan_cables disk config cps w1));
    destruct (fst (place_pendants_then_plan_cables disk config cps w2));
    destruct (place_values disk config cps); done.
Qed.
End Determinism.

Module DeterminismRun.
Import RationalModel SceneRun.

Lemma generate_deterministic_witness :
  fst (generate pendant_disk (two_pendants 1400 2000)
                (snd (generate pendant_disk (two_pendants 1400 2000) fresh_world)))
  = fst (generate pendant_disk (two_pendants 1400 2000) fresh_world).
Proof.
  exact (proj1 (proj2 (generate_deterministic
                         pendant_disk (two_pendants 1400 2000) fresh_world fresh_world
                         (store_consistent_empty pendant_disk fresh_world eq_refl eq_refl)
                         (store_consistent_empty pendant_disk fresh_world eq_refl eq_refl)))).
Defined.
End DeterminismRun.

(** * Further properties of the code *)

(** ** The cylinder mesh is well formed *)

(** The vertex indices a face names. *)
Definition face_vertices (f : Face) : list nat :=
  match f with
  | Quad a b c d => [a; b; c; d]
  end.

(** Every face names existing vertices, and every vertex is named by a
    face (so [Compact] has nothing to remove). *)
Definition well_formed {F : Type} (m : Mesh F) : Prop :=
  Forall (λ f, Forall (λ i, i < length (Vertices m)) (face_vertices f)) (Faces m) ∧
  ∀ i, i < length (Vertices m) → ∃ f, f ∈ Faces m ∧ i ∈ face_vertices f.

Section CylinderFacts.
Context {F : Type} `{Float F, Libm F, Rhino F, Random F}.

Lemma length_flat_map_const {A B} (f : A → list B) (k : nat) (xs : list A) :
  (∀ x, length (f x) = k) → length (flat_map f xs) = k * length xs.
Proof.
  intros Hk. induction xs as [|x xs IH]; cbn [flat_map length]; [lia|].
  rewrite length_app, Hk, IH. lia.
Qed.

Lemma cylinder_vertices (radius height : F) (segments : nat) :
  length (Vertices (cylinder_value radius height segments)) = 2 * segments + 2.
Proof.
  unfold cylinder_value. cbn [Vertices]. rewrite length_app.
  rewrite (length_flat_map_const _ 2) by done. rewrite length_seq. cbn [length]. lia.
Qed.

Lemma cylinder_faces (radius height : F) (segments : nat) :
  length (Faces (cylinder_value radius height segments)) = 3 * segments.
Proof.
  unfold cylinder_value. cbn [Faces]. rewrite length_app, length_fmap.
  rewrite (length_flat_map_const _ 2) by done. rewrite length_seq. lia.
Qed.

Lemma cylinder_well_formed (radius height : F) (segments : nat) :
  1 ≤ segments → well_formed (cylinder_value radius height segments).
Proof.
  intros Hs. split.
  - rewrite cylinder_vertices. unfold cylinder_value. cbn [Faces].
    apply Forall_app. split.
    + apply Forall_fmap, Forall_forall. intros i Hi%elem_of_seq.
      cbn [face_vertices]. pose proof (Nat.mod_upper_bound (i + 1) segments).
      repeat constructor; lia.
    + apply Forall_flat_map, Forall_forall. intros i Hi%elem_of_seq.
      pose proof (Nat.mod_upper_bound (i + 1) segments).
      repeat constructor; cbn [face_vertices]; repeat constructor; lia.
  - rewrite cylinder_vertices. intros j Hj. unfold cylinder_value. cbn [Faces].
    destruct (decide (j < 2 * segments)) as [Hlt|Hge].
    + pose proof (Nat.div_mod_eq j 2) as Hj2.
      pose proof (Nat.mod_upper_bound j 2) as Hr.
      set (q := j `div` 2) in *. set (r := j `mod` 2) in *.
      exists (Quad (2 * q) (2 * ((q + 1) `mod` segments))
                   (2 * ((q + 1) `mod` segments) + 1) (2 * q + 1)).
      split.
      * apply elem_of_app. left. apply list_elem_of_fmap.
        exists q. split; [reflexivity|]. apply elem_of_seq. lia.
      * cbn [face_vertices].
        destruct (decide (r = 0)) as [Hr0|Hr1].
        { replace j with (2 * q) by lia. apply list_elem_of_here. }
        { replace j with (2 * q + 1) by lia. do 3 apply list_elem_of_further.
          apply list_elem_of_here. }
    + destruct (decide (j = 2 * segments)) as [->|Hne].
      * exists (Tri (2 * segments) (2 * ((0 + 1) `mod` segments)) (2 * 0)). split.
        { apply elem_of_app. right. apply list_elem_of_In, in_flat_map.
          exists 0. split; [apply in_seq; lia|]. left. reflexivity. }
        { apply list_elem_of_here. }
      * exists (Tri (2 * segments + 1) (2 * 0 + 1) (2 * ((0 + 1) `mod` segments) + 1)). split.
        { apply elem_of_app. right. apply list_elem_of_In, in_flat_map.
          exists 0. split; [apply in_seq; lia|]. right. left. reflexivity. }
        { replace j with (2 * segments + 1) by lia. apply list_elem_of_here. }
Qed.

(** X4 (create_cylinder_mesh).  For at least one segment, the call allocates
    one new object whose mesh has [2 * segments + 2] vertices and
    [3 * segments] faces; every face names existing vertices and every
    vertex is named by some face. *)
Theorem create_cylinder_mesh_well_formed (radius height : F) (segments : nat) (w : World F) :
  1 ≤ segments →
  ∃ m, create_cylinder_mesh radius height segments w
       = (Ok (length (heap w)), set_heap (heap w ++ [m]) w) ∧
       length (Vertices m) = 2 * segments + 2 ∧
       length (Faces m) = 3 * segments ∧
       well_formed m.
Proof.
  intros Hs. exists (cylinder_value radius height segments).
  split; [apply new_mesh_run|].
  split; [apply cylinder_vertices|].
  split; [apply cylinder_faces|].
  by apply cylinder_well_formed.
Qed.
End CylinderFacts.

(** ** The export state stays well laid out *)
Section ExportFacts.
Context {F : Type} `{Float F, Libm F, Codec F}.

Lemma pad_to_4_aligned (data : list byte) : length (pad_to_4 data) `mod` 4 = 0.
Proof. destruct (pad_loop_spec Byte.x00 data) as (k & _ & _ & Hk). exact Hk. Qed.

Lemma pad_to_4_id (data : list byte) : length data `mod` 4 = 0 → pad_to_4 data = data.
Proof.
  intros Hd. unfold pad_to_4. cbn [pad_loop].
  destruct (decide (length data `mod` 4 ≠ 0)); [done|reflexivity].
Qed.

Lemma total_length_app (xs ys : list (list byte)) :
  total_length (xs ++ ys) = total_length xs + total_length ys.
Proof. unfold total_length. rewrite fmap_app. apply sum_list_with_app. Qed.

Lemma total_length_concat (xs : list (list byte)) :
  length (concat xs) = total_length xs.
Proof.
  unfold total_length. induction xs as [|x xs IH]; [done|].
  cbn [concat fmap list_fmap sum_list sum_list_with]. rewrite length_app, IH. done.
Qed.

Lemma total_length_aligned (xs : list (list byte)) :
  Forall (λ b, length b `mod` 4 = 0) xs → total_length xs `mod` 4 = 0.
Proof.
  unfold total_length. induction 1 as [|x xs Hx _ IH]; [done|].
  change (sum_list (length <$> x :: xs)) with (length x + sum_list (length <$> xs)).
  revert Hx IH. generalize (sum_list (length <$> xs)) (length x). intros a b Hb Ha.
  div_lia.
Qed.

(** The target of the buffer view of index [j]: positions and texture
    coordinates are vertex data, every third view holds indices. *)
Definition view_target (j : nat) : Z :=
  if decide (j `mod` 3 = 2) then 34963%Z else 34962%Z.

(** The view that covers buffer [j] when the buffers are laid end to end. *)
Definition view_of (bufs : list (list byte)) (j : nat) : json F :=
  buffer_view (total_length (take j bufs)) (length (default [] (bufs !! j)))
              (view_target j).

Record export_invariant (st : ExportState) : Prop := mkExportInvariant {
  inv_aligned : Forall (λ b, length b `mod` 4 = 0) (buffers st);
  inv_views : buffer_views st = view_of (buffers st) <$> seq 0 (length (buffers st));
  inv_buffers : length (buffers st) = 3 * length (meshes_out st);
  inv_accessors : length (accessors st) = 3 * length (meshes_out st);
  inv_nodes : nodes st
              = (λ i, JObj [("mesh", json_int i)]) <$> seq 0 (length (meshes_out st));
}.

Lemma view_of_app_l (bufs more : list (list byte)) (j : nat) :
  j < length bufs → view_of (bufs ++ more) j = view_of bufs j.
Proof.
  intros Hj. unfold view_of. rewrite take_app_le by lia.
  by rewrite lookup_app_l by lia.
Qed.

Lemma export_invariant_init : export_invariant (mkExportState [] [] [] [] []).
Proof. by constructor. Qed.

Lemma export_group_Ok (h : list (Mesh F)) (mim : gmap string nat)
      (st st' : ExportState) (mg : MeshGroup) :
  export_group h mim st mg = Ok st' →
  ∃ m mat_index,
    h !! mesh mg = Some m ∧ mim !! material_key mg = Some mat_index ∧
    let mapping := mapping_type_from_material_key (material_key mg) in
    let positions := flat_map vertex_position (Vertices m) in
    let uvs := flat_map (vertex_uv mapping) (Vertices m) in
    let indices := flat_map face_indices (Faces m) in
    (indices = [] ∧ st' = st) ∨
    (indices ≠ [] ∧
     ∃ pos uv idx,
       pack_floats positions = Ok pos ∧ pack_floats uvs = Ok uv ∧
       pack_uints indices = Ok idx ∧
       let bufs := buffers st in
       let bvs := buffer_views st in
       let accs := accessors st in
       st' = mkExportState
               (bufs ++ [pad_to_4 pos] ++ [pad_to_4 uv] ++ [pad_to_4 idx])
               (bvs ++ [buffer_view (total_length bufs) (length (pad_to_4 pos)) 34962%Z]
                    ++ [buffer_view (total_length (bufs ++ [pad_to_4 pos]))
                                    (length (pad_to_4 uv)) 34962%Z]
                    ++ [buffer_view (total_length (bufs ++ [pad_to_4 pos] ++ [pad_to_4 uv]))
                                    (length (pad_to_4 idx)) 34963%Z])
               (accs ++ [accessor (length bvs) 5126%Z (length positions `div` 3) "VEC3"]
                     ++ [accessor (length bvs + 1) 5126%Z (length uvs `div` 2) "VEC2"]
                     ++ [accessor (length bvs + 2) 5125%Z (length indices) "SCALAR"])
               (meshes_out st ++
                [JObj [("primitives",
                        JArr [JObj [("attributes",
                                     JObj [("POSITION", json_int (length accs));
                                           ("TEXCOORD_0", json_int (length accs + 1))]);
                                    ("indices", json_int (length accs + 2));
                                    ("material", json_int mat_index)]])]])
               (nodes st ++ [JObj [("mesh", json_int (length (meshes_out st)))]])).
Proof.
  unfold export_group. intros Hrun.
  apply rbind_Ok in Hrun as (m & Hm & Hrun).
  apply rbind_Ok in Hrun as (mat_index & Hmat & Hrun).
  exists m, mat_index.
  split; [by destruct (h !! mesh mg); simplify_eq|].
  split; [by destruct (mim !! material_key mg); simplify_eq|].
  rewrite mesh_to_arrays_spec in Hrun. cbv zeta.
  destruct (flat_map face_indices (Faces m)) as [|i0 indices] eqn:Hidx.
  { left. by simplify_eq. }
  right. split; [done|].
  apply rbind_Ok in Hrun as (pos & Hpos & Hrun).
  apply rbind_Ok in Hrun as (uv & Huv & Hrun).
  apply rbind_Ok in Hrun as (idx & Hi & Hrun).
  exists pos, uv, idx. repeat split; try done.
  injection Hrun as <-. rewrite !length_app. cbn [length].
  rewrite <- !(assoc_L (++)). cbn [app].
  replace (length (buffer_views st) + 1 + 1) with (length (buffer_views st) + 2) by lia.
  replace (length (accessors st) + 1 + 1) with (length (accessors st) + 2) by lia.
  replace (length (meshes_out st) + 1 - 1) with (length (meshes_out st)) by lia.
  reflexivity.
Qed.

Lemma view_of_app_r (bufs more : list (list byte)) (k : nat) (b : list byte) :
  more !! k = Some b →
  view_of (bufs ++ more) (length bufs + k)
  = buffer_view (total_length (bufs ++ take k more)) (length b)
                (view_target (length bufs + k)).
Proof.
  intros Hk. unfold view_of. rewrite take_app_add.
  rewrite lookup_app_r by lia.
  replace (length bufs + k - length bufs) with k by lia. by rewrite Hk.
Qed.

Lemma view_target_step (n k : nat) :
  k < 3 → view_target (3 * n + k) = if decide (k = 2) then 34963%Z else 34962%Z.
Proof.
  intros Hk. unfold view_target.
  destruct (decide (k = 2)) as [->|Hne];
    destruct (decide ((3 * n + _) `mod` 3 = 2)) as [Hm|Hm];
    try reflexivity; exfalso; revert Hm; div_lia.
Qed.

Lemma export_group_invariant (h : list (Mesh F)) (mim : gmap string nat)
      (st st' : ExportState) (mg : MeshGroup) :
  export_invariant st → export_group h mim st mg = Ok st' → export_invariant st'.
Proof.
  intros [Hal Hv Hb Ha Hn] Hrun.
  apply export_group_Ok in Hrun as (m & mat_index & _ & _ & Hrun). cbv zeta in Hrun.
  destruct Hrun as [[_ ->]|(_ & pos & uv & idx & _ & _ & _ & ->)]; [by constructor|].
  constructor; cbn [buffers buffer_views accessors meshes_out nodes].
  - apply Forall_app. split; [done|].
    repeat constructor; apply pad_to_4_aligned.
  - rewrite length_app. cbn [length app].
    replace (length (buffers st) + 3) with (length (buffers st) + 1 + 1 + 1) by lia.
    rewrite !seq_app, !fmap_app, <- !(assoc_L (++)). cbn [seq fmap list_fmap app].
    f_equal.
    + rewrite Hv. apply list_fmap_ext. intros i j Hj.
      apply lookup_seq in Hj as [-> Hj]. symmetry. by apply view_of_app_l.
    + rewrite !Nat.add_0_l.
      replace (length (buffers st)) with (length (buffers st) + 0) at 1 by lia.
      replace (length (buffers st) + 1 + 1) with (length (buffers st) + 2) by lia.
      rewrite (view_of_app_r _ _ 0 (pad_to_4 pos)) by reflexivity.
      rewrite (view_of_app_r _ _ 1 (pad_to_4 uv)) by reflexivity.
      rewrite (view_of_app_r _ _ 2 (pad_to_4 idx)) by reflexivity.
      rewrite Hb, !view_target_step by lia. cbn [take]. rewrite app_nil_r.
      reflexivity.
  - rewrite !length_app. cbn [length]. lia.
  - rewrite !length_app. cbn [length]. lia.
  - rewrite length_app. cbn [length]. rewrite seq_app, fmap_app, Hn. reflexivity.
Qed.

Lemma export_loop_invariant (h : list (Mesh F)) (mim : gmap string nat)
      (mesh_groups : list MeshGroup) (st st' : ExportState) :
  export_invariant st → for_each (export_group h mim) mesh_groups st = Ok st' →
  export_invariant st'.
Proof.
  revert st. induction mesh_groups as [|mg gs IH]; intros st Hinv Hrun.
  - cbn [for_each] in Hrun. by simplify_eq.
  - cbn [for_each] in Hrun. apply rbind_Ok in Hrun as (st1 & Hst1 & Hrun).
    eapply IH; [|exact Hrun]. by eapply export_group_invariant.
Qed.

(** X5 (save_mesh_groups_as_glb, meshes loop).  After the meshes loop of a
    successful export every buffer has a length that is a multiple of 4;
    the buffer view of index [j] starts where the buffers before [j] end
    and has the length of buffer [j], so the views tile the binary data
    without gap or overlap and every offset is a multiple of 4; there are
    three buffers, three views and three accessors per exported mesh; node
    [i] refers to mesh [i]; and the binary chunk is the buffers laid end to
    end, to which [pad_to_4] adds nothing, so its length is the
    [byteLength] the JSON declares. *)
Theorem export_layout (h : list (Mesh F)) (mim : gmap string nat)
        (mesh_groups : list MeshGroup) (st : ExportState) :
  for_each (export_group h mim) mesh_groups (mkExportState [] [] [] [] []) = Ok st →
  export_invariant st ∧
  Forall (λ j, ∃ off len, buffer_views st !! j
                          = Some (buffer_view off len (view_target j)) ∧
                          off `mod` 4 = 0 ∧ len `mod` 4 = 0)
         (seq 0 (length (buffer_views st))) ∧
  pad_to_4 (concat (buffers st)) = concat (buffers st) ∧
  length (pad_to_4 (concat (buffers st))) = total_length (buffers st).
Proof.
  intros Hrun.
  pose proof (export_loop_invariant _ _ _ _ _ export_invariant_init Hrun) as Hinv.
  assert (Hpad : pad_to_4 (concat (buffers st)) = concat (buffers st)).
  { apply pad_to_4_id. rewrite total_length_concat.
    apply total_length_aligned, Hinv. }
  split; [exact Hinv|]. split; [|split; [exact Hpad|by rewrite Hpad, total_length_concat]].
  destruct Hinv as [Hal Hv _ _ _]. rewrite Hv, length_fmap, length_seq.
  apply Forall_forall. intros j Hj%elem_of_seq.
  exists (total_length (take j (buffers st))), (length (default [] (buffers st !! j))).
  split.
  - rewrite list_lookup_fmap, lookup_seq_lt by lia. reflexivity.
  - split.
    + apply total_length_aligned, Forall_take, Hal.
    + destruct (buffers st !! j) as [b|] eqn:Hb; [|reflexivity].
      cbn [default]. eapply Forall_lookup_1 in Hal; [exact Hal|exact Hb].
Qed.


End ExportFacts.

(** ** Materials *)
Section MaterialFacts.
Context {F : Type} `{Float F}.

(** The keys of [MATERIAL_PRESETS]. *)
Definition preset_keys : list string := fst <$> MATERIAL_PRESETS (F:=F).

Lemma preset_lookup_Some (key : string) (table : list (string * MaterialPreset F))
      (p : MaterialPreset F) :
  preset_lookup key table = Some p → (key, p) ∈ table.
Proof.
  induction table as [|[k v] rest IH]; cbn [preset_lookup]; [done|].
  destruct (decide (k = key)) as [->|Hne]; intros Hp.
  - simplify_eq. apply list_elem_of_here.
  - apply list_elem_of_further, IH, Hp.
Qed.

Lemma preset_lookup_None (key : string) (table : list (string * MaterialPreset F)) :
  preset_lookup key table = None ↔ key ∉ fst <$> table.
Proof.
  induction table as [|[k v] rest IH]; cbn [preset_lookup fmap list_fmap fst].
  - split; [intros _; apply not_elem_of_nil|done].
  - rewrite not_elem_of_cons. destruct (decide (k = key)) as [->|Hne].
    + split; [done|]. by intros [? _].
    + rewrite IH. split; [by intros ?; split|by intros [_ ?]].
Qed.

(** The lookup has a preset to return for every key. *)
Lemma get_material_preset_Ok (key fallback : string) :
  ∃ p, get_material_preset (F:=F) key fallback = Ok p.
Proof.
  unfold get_material_preset.
  destruct (preset_lookup (strip key) MATERIAL_PRESETS) as [p|]; [by exists p|].
  destruct (preset_lookup fallback MATERIAL_PRESETS) as [p|]; [by exists p|].
  eexists. reflexivity.
Qed.

(** X7 (get_material_preset).  The lookup never raises.  It returns the
    preset stored under the stripped key when that is a preset key;
    otherwise the one under [fallback] (taken as given, not stripped) when
    that is a preset key; otherwise the one under ["shade_natural"]. *)
Theorem get_material_preset_total (key fallback : string) :
  ∃ k p, get_material_preset key fallback = Ok p ∧
         (k, p) ∈ MATERIAL_PRESETS (F:=F) ∧
         k = if decide (strip key ∈ preset_keys) then strip key
             else if decide (fallback ∈ preset_keys) then fallback
                  else "shade_natural".
Proof.
  unfold get_material_preset.
  destruct (preset_lookup (strip key) MATERIAL_PRESETS) as [p|] eqn:Hk.
  { exists (strip key), p. split; [done|]. split; [by apply preset_lookup_Some|].
    rewrite decide_True; [done|].
    apply dec_stable. intros Hn. apply preset_lookup_None in Hn. congruence. }
  apply preset_lookup_None in Hk. rewrite (decide_False (P:=strip key ∈ preset_keys)) by done.
  destruct (preset_lookup fallback MATERIAL_PRESETS) as [p|] eqn:Hf.
  { exists fallback, p. split; [done|]. split; [by apply preset_lookup_Some|].
    rewrite decide_True; [done|].
    apply dec_stable. intros Hn. apply preset_lookup_None in Hn. congruence. }
  apply preset_lookup_None in Hf. rewrite (decide_False (P:=fallback ∈ preset_keys)) by done.
  eexists "shade_natural", _. split; [reflexivity|]. split; [|done].
  do 6 apply list_elem_of_further. apply list_elem_of_here.
Qed.
End MaterialFacts.

Section MaterialRecords.
Context {F : Type} `{Float F, Libm F, Codec F}.

(** The record the materials loop appends for a preset: [mat_def]. *)
Definition material_def (p : MaterialPreset F) : json F :=
  JObj [("name", JStr (name p));
        ("pbrMetallicRoughness",
         JObj [("baseColorFactor", JArr (JFloat <$> baseColorFactor p));
               ("metallicFactor", JFloat (metallicFactor p));
               ("roughnessFactor", JFloat (roughnessFactor p))]);
        ("doubleSided", JBool true)].

(** What [material_index_map] holds after the loop over [keys]: every key
    maps to its last position. *)
Definition indexes_last (keys : list string) (mim : gmap string nat) : Prop :=
  ∀ key i, mim !! key = Some i ↔
           keys !! i = Some key ∧ ∀ j, i < j → keys !! j ≠ Some key.

Lemma material_records_spec (material_keys : list string) :
  ∃ materials mim,
    material_records material_keys = Ok (materials, mim) ∧
    Forall2 (λ key mat, ∃ p, get_material_preset key "shade_natural" = Ok p ∧
                             mat = material_def p) material_keys materials ∧
    indexes_last material_keys mim.
Proof.
  unfold material_records.
  induction material_keys as [|key keys IH] using rev_ind.
  - exists [], ∅. split; [done|]. split; [constructor|].
    intros key i. rewrite lookup_empty, lookup_nil. split; [done|by intros [? _]].
  - destruct IH as (mats & mim & Hrun & Hall & Hidx).
    rewrite for_each_app, Hrun. cbn [rbind for_each].
    destruct (get_material_preset_Ok key "shade_natural") as (p & Hp).
    rewrite Hp. cbn [rbind].
    eexists _, _. split; [reflexivity|].
    pose proof (Forall2_length _ _ _ Hall) as Hlen.
    split.
    + apply Forall2_app; [done|]. constructor; [|constructor]. by exists p.
    + intros key' i. destruct (decide (key' = key)) as [->|Hne].
      * rewrite lookup_insert_eq. split.
        { intros [= <-]. rewrite <- Hlen. split.
          - by rewrite lookup_app_r, Nat.sub_diag by lia.
          - intros j Hj. rewrite lookup_ge_None_2; [done|].
            rewrite length_app. cbn [length]. lia. }
        { intros [Hi Hlast]. f_equal.
          destruct (decide (i < length keys)) as [Hlt|Hge].
          - exfalso. apply (Hlast (length keys) Hlt).
            by rewrite lookup_app_r, Nat.sub_diag by lia.
          - apply lookup_lt_Some in Hi. rewrite length_app in Hi. cbn [length] in Hi. lia. }
      * rewrite lookup_insert_ne by done. rewrite (Hidx key' i). split.
        { intros [Hi Hlast]. split.
          - by apply lookup_app_l_Some.
          - intros j Hj Hkj. apply lookup_app_Some in Hkj as [Hkj|[_ Hkj]].
            + by apply (Hlast j).
            + apply list_lookup_singleton_Some in Hkj as [_ ?]. congruence. }
        { intros [Hi Hlast]. apply lookup_app_Some in Hi as [Hi|[_ Hi]].
          - split; [done|]. intros j Hj Hkj. apply (Hlast j Hj).
            by apply lookup_app_l_Some.
          - apply list_lookup_singleton_Some in Hi as [_ ?]. congruence. }
Qed.

(** X8 (build_mesh_groups with save_mesh_groups_as_glb, materials loop).
    For the key list [build_mesh_groups] computes from any list of mesh
    groups, the materials loop never raises and makes one record per key;
    and for every mesh group, [material_index_map] holds the position of
    the group's key in the key list, where the record made from the preset
    of that very key stands: the lookup in the meshes loop cannot raise
    [KeyError] and every primitive names the material of its own key. *)
Theorem scene_materials_resolve (mesh_groups : list MeshGroup) :
  let material_keys := unique_material_keys mesh_groups in
  ∃ materials mim,
    material_records material_keys = Ok (materials, mim) ∧
    length materials = length material_keys ∧
    ∀ g, g ∈ mesh_groups →
         ∃ i p, mim !! material_key g = Some i ∧
                material_keys !! i = Some (material_key g) ∧
                get_material_preset (material_key g) "shade_natural" = Ok p ∧
                materials !! i = Some (material_def p).
Proof.
  cbv zeta.
  destruct (material_records_spec (unique_material_keys mesh_groups))
    as (mats & mim & Hrun & Hall & Hidx).
  exists mats, mim. split; [exact Hrun|].
  split; [symmetry; by eapply Forall2_length|].
  intros g Hg.
  destruct (unique_material_keys_first_seen mesh_groups) as (Hnd & Hin & _).
  assert (Hk : material_key g ∈ unique_material_keys mesh_groups).
  { apply Hin. by apply list_elem_of_fmap_2. }
  apply list_elem_of_lookup in Hk as [i Hi].
  destruct (Forall2_lookup_l _ _ _ _ _ Hall Hi) as (mat & Hmat & p & Hp & ->).
  exists i, p. split; [|done].
  apply Hidx. split; [done|]. intros j Hj Hkj.
  pose proof (NoDup_lookup _ _ _ _ Hnd Hi Hkj). lia.
Qed.
End MaterialRecords.

(** ** The memo tables *)
Section MemoFacts.
Context {F : Type} `{Float F, Libm F, Rhino F, Random F}.

Lemma load_stores (disk : gmap string (list (Mesh F))) (key : string)
      (w w' : World F) (tuple : list loc) :
  _load_pendant_meshes disk key w = (Ok tuple, w') →
  load_cache w' !! key = Some tuple ∧ extents_cache w' = extents_cache w.
Proof.
  rewrite load_run.
  destruct (load_cache w !! key) as [t|] eqn:Hc.
  { intros [= <- <-]. done. }
  destruct (template_values disk key) as [ms|e]; [|done].
  cbv zeta. intros [= <- <-]. cbn [load_cache set_load_cache extents_cache set_heap].
  by rewrite lookup_insert_eq.
Qed.

Lemma load_hit (disk : gmap string (list (Mesh F))) (key : string)
      (w : World F) (tuple : list loc) :
  load_cache w !! key = Some tuple → _load_pendant_meshes disk key w = (Ok tuple, w).
Proof. intros Hc. unfold _load_pendant_meshes. by rewrite Hc. Qed.

Lemma extents_hit (disk : gmap string (list (Mesh F))) (key : string)
      (w : World F) (e : F * F) :
  extents_cache w !! key = Some e → _pendant_extents disk key w = (Ok e, w).
Proof. intros Hc. unfold _pendant_extents. by rewrite Hc. Qed.

Lemma union_bboxes_keeps (ms : list loc) (acc : option (BoundingBox F)) (w w' : World F)
      (r : result (option (BoundingBox F))) :
  for_eachM (λ bbox l,
               bind (read_mesh l) (λ m,
               let b := GetBoundingBox m in
               ret (Some (match bbox with None => b | Some bb => Union bb b end))))
            ms acc w = (r, w') → w' = w.
Proof.
  revert acc. induction ms as [|l ms IH]; intros acc; cbn [for_eachM].
  - by intros [= _ <-].
  - unfold bind at 1. unfold bind at 1. unfold read_mesh at 1.
    destruct (heap w !! l) as [m|]; [|by intros [= _ <-]].
    unfold ret at 1. apply IH.
Qed.

(** X9 (_load_pendant_meshes and _pendant_extents, the two lru_cache
    tables).  After a call of [_pendant_extents] that returned, a later
    call with the same key returns the same pair and leaves the state as it
    is, whatever the pendant files hold by then: nothing is read and no
    object is allocated.  When the first call was a miss, the table of
    [_load_pendant_meshes] holds the key as well, so that function too
    returns at once. *)
Theorem pendant_tables_memoize (disk disk' : gmap string (list (Mesh F))) (key : string)
        (w w' : World F) (e : F * F) :
  _pendant_extents disk key w = (Ok e, w') →
  _pendant_extents disk' key w' = (Ok e, w') ∧
  (extents_cache w !! key = None →
   ∃ tuple, _load_pendant_meshes disk' key w' = (Ok tuple, w')).
Proof.
  unfold _pendant_extents at 1.
  destruct (extents_cache w !! key) as [e0|] eqn:He.
  { intros [= <- <-]. split; [by apply extents_hit|done]. }
  intros Hrun. apply bind_Ok in Hrun as (ms & w1 & Hload & Hrun).
  apply bind_Ok in Hrun as (bbox & w2 & Hbox & Hrun).
  apply union_bboxes_keeps in Hbox as ->.
  destruct bbox as [bb|]; [|done]. injection Hrun as <- <-.
  apply load_stores in Hload as [Hl _].
  split.
  - apply extents_hit. cbn [extents_cache set_extents_cache]. by rewrite lookup_insert_eq.
  - intros _. exists ms. by apply load_hit.
Qed.
End MemoFacts.

(** ** The assignment of attachment points *)
Section AssignFacts.
Context {F : Type} `{Float F, Libm F, Rhino F, Random F}.

Lemma insert_by_key_perm (key : nat → F) (x : nat) (sorted : list nat) :
  insert_by_key key x sorted ≡ₚ x :: sorted.
Proof.
  induction sorted as [|y rest IH]; cbn [insert_by_key]; [done|].
  destruct (key x <? key y)%fl; [done|].
  rewrite IH. apply perm_swap.
Qed.

Lemma sorted_by_key_fold_perm (key : nat → F) (xs acc : list nat) :
  fold_left (λ acc x, insert_by_key key x acc) xs acc ≡ₚ acc ++ xs.
Proof.
  revert acc. induction xs as [|x xs IH]; intros acc; cbn [fold_left].
  - by rewrite app_nil_r.
  - rewrite IH, insert_by_key_perm. cbn [app]. apply Permutation_middle.
Qed.

Lemma sorted_by_key_perm (key : nat → F) (xs : list nat) :
  sorted_by_key key xs ≡ₚ xs.
Proof. unfold sorted_by_key. by rewrite sorted_by_key_fold_perm. Qed.


Lemma assign_indices_perm (cluster : ClusterType) (n : nat)
      (connection_points : list (Point3d F)) (rng rng' : Gen) (indices : list nat) :
  cluster ≠ RANDOM_RING ∨ (∀ xs g, (gen_shuffle xs g).1 ≡ₚ xs) →
  assign_indices cluster n connection_points rng = Ok (indices, rng') →
  indices ≡ₚ seq 0 n.
Proof.
  intros Hshuffle. unfold assign_indices.
  destruct (bool_decide (1 < n) && bool_decide (cluster ∈ ring_types)).
  - intros Hrun. apply rbind_Ok in Hrun as (keys & _ & Hrun).
    destruct (decide (cluster = RANDOM_RING)) as [Hr|Hr].
    + destruct Hshuffle as [?|Hshuffle]; [done|].
      injection Hrun as Hrun. 
      assert (indices = (gen_shuffle (sorted_by_key (λ i, default (of_Z 0) (keys !! i))
                                                    (seq 0 n)) rng).1) as ->.
      { by rewrite Hrun. }
      rewrite Hshuffle. apply sorted_by_key_perm.
    + injection Hrun as <- _. apply sorted_by_key_perm.
  - by intros [= <- _].
Qed.

Lemma lookups_perm {A} (d : A) (xs ys : list A) (indices : list nat) :
  Forall2 (λ y k, xs !! k = Some y) ys indices →
  indices ≡ₚ seq 0 (length xs) → ys ≡ₚ xs.
Proof.
  intros Hall Hperm.
  assert (Hys : ys = (λ k, default d (xs !! k)) <$> indices).
  { clear Hperm. induction Hall as [|y k ys ks Hy _ IH]; [done|].
    cbn [fmap list_fmap]. rewrite Hy. cbn [default]. f_equal. exact IH. }
  assert (Hxs : xs = (λ k, default d (xs !! k)) <$> seq 0 (length xs)).
  { apply list_eq. intros i. rewrite list_lookup_fmap.
    destruct (decide (i < length xs)) as [Hlt|Hge].
    - rewrite lookup_seq_lt by done. cbn.
      destruct (lookup_lt_is_Some_2 xs i Hlt) as [x Hx]. by rewrite Hx.
    - rewrite lookup_seq_ge by lia. cbn. apply lookup_ge_None_2. lia. }
  rewrite Hys. etrans; [apply fmap_Permutation, Hperm|]. by rewrite <- Hxs.
Qed.

Lemma placed_starts (config : ClusterConfig) (connection_points : list (Point3d F))
      (indices : list nat) (drops : list F) (placements : list (PendantPlacement F)) :
  length placements = length indices →
  (∀ i pl, placements !! i = Some pl →
           placed_at config connection_points indices drops i pl) →
  Forall2 (λ sp k, connection_points !! k = Some sp) (start <$> placements) indices.
Proof.
  intros Hlen Hat. apply Forall2_fmap_l.
  apply Forall2_same_length_lookup. split; [done|].
  intros i pl k Hpl Hk.
  destruct (Hat i pl Hpl) as (k' & drop & Hk' & Hsp & _). congruence.
Qed.

(** X10 (place_pendants_then_plan_cables, the choice of attachment points).
    When there are as many attachment points as pendants, the start points
    of the placements are a rearrangement of the attachment points: every
    point carries exactly one pendant.  For [RANDOM_RING] this needs that
    [shuffle] returns a rearrangement of its argument. *)
Theorem starts_permute_connection_points
        (disk : gmap string (list (Mesh F))) (config : ClusterConfig)
        (connection_points : list (Point3d F))
        (placements : list (PendantPlacement F)) (w w' : World F) :
  cluster_type (layout config) ≠ RANDOM_RING ∨ (∀ xs g, (gen_shuffle xs g).1 ≡ₚ xs) →
  length connection_points = length (pendants config) →
  place_pendants_then_plan_cables disk config connection_points w = (Ok placements, w') →
  start <$> placements ≡ₚ connection_points.
Proof.
  intros Hshuffle Hlen Hrun.
  apply place_pendants_inv in Hrun
    as (tops & bottoms & mbi & w1 & gap & drops & indices & rng & rng'
        & _ & _ & Hidx & Hloop).
  apply place_loop_inv in Hloop as [Hn Hat].
  apply (assign_indices_perm _ _ _ _ _ _ Hshuffle) in Hidx.
  apply (lookups_perm (mkPoint3d (of_Z 0) (of_Z 0) (of_Z 0)) _ _ indices).
  - eapply placed_starts; [|exact Hat].
    rewrite Hn. apply Permutation_length in Hidx. by rewrite Hidx, length_seq.
  - by rewrite Hlen.
Qed.
End AssignFacts.

Module AssignReal.
Import RealModel.
Local Open Scope R_scope.





(** The angle [assign_indices] sorts by. *)
Definition angle (p : Point3d R) : R := atan2 (ptY p) (ptX p).

End AssignReal.

(** ** Requests that cannot be built *)
Section FailureFacts.
Context {F : Type} `{Float F, Libm F, Rhino F, Random F}.
Variable disk : gmap string (list (Mesh F)).

(** X12 (build_mesh_groups, empty pendant list).  With no pendants the
    canopy is still built, then [tops[0]] raises [IndexError]: no scene
    comes back, and the two canopy objects stay allocated. *)
Theorem build_mesh_groups_no_pendants (config : ClusterConfig) (w : World F) :
  pendants config = [] →
  (build_mesh_groups disk config w).1 = Raise IndexError ∧
  length (heap (build_mesh_groups disk config w).2) = length (heap w) + 2.
Proof.
  intros Hp.
  assert (Hrun : build_mesh_groups disk config w
                 = (Raise IndexError,
                    set_heap (heap w ++ [canopy_bottom_value (size (canopy config));
                                         canopy_top_value (size (canopy config))]) w)).
  { unfold build_mesh_groups, num_pendants. rewrite Hp. cbn [length].
    unfold bind at 1. rewrite build_canopy_run.
    unfold bind at 1. unfold place_pendants_then_plan_cables. rewrite Hp.
    reflexivity. }
  rewrite Hrun. cbn [fst snd heap set_heap]. split; [reflexivity|].
  rewrite length_app. reflexivity.
Qed.

Lemma for_each_Ok_elem {A B} (f : B → A → result B) (xs : list A) (acc acc' : B) (x : A) :
  for_each f xs acc = Ok acc' → x ∈ xs → ∃ b b', f b x = Ok b'.
Proof.
  revert acc. induction xs as [|y xs IH]; intros acc Hrun Hx; [by apply elem_of_nil in Hx|].
  cbn [for_each] in Hrun. apply rbind_Ok in Hrun as (b' & Hy & Hrun).
  apply elem_of_cons in Hx as [->|Hx]; [by exists acc, b'|]. by eapply IH.
Qed.

Lemma for_each_Raise {A B} (f : B → A → result B) (P : exn → Prop)
      (xs : list A) (acc : B) (e : exn) :
  (∀ b x e, f b x = Raise e → P e) → for_each f xs acc = Raise e → P e.
Proof.
  intros Hf. revert acc. induction xs as [|y xs IH]; intros acc; cbn [for_each]; [done|].
  destruct (f acc y) as [b|e'] eqn:Hy; cbn [rbind].
  - apply IH.
  - intros [= <-]. by eapply Hf.
Qed.

Lemma load_values_unknown (ps : list PendantConfig) (p : PendantConfig) :
  p ∈ ps → model p ∉ PENDANT_LIBRARY →
  ∃ e, load_values disk ps = Raise e ∧ (e = ValueError ∨ e = AttributeError).
Proof.
  intros Hp Hm. unfold load_values.
  destruct (for_each _ ps ([], [], [])) as [r|e] eqn:Hrun.
  - exfalso. destruct (for_each_Ok_elem _ _ _ _ p Hrun Hp) as ([[ts bs] vs] & b' & Hstep).
    apply rbind_Ok in Hstep as ([t b] & He & _).
    unfold extents_value, template_values in He.
    apply rbind_Ok in He as (ms & Hms & _). apply rbind_Ok in Hms as (path & Hpath & _).
    unfold get_pendant_path in Hpath. by rewrite decide_False in Hpath.
  - exists e. split; [done|].
    eapply (for_each_Raise _ (λ e, e = ValueError ∨ e = AttributeError)); [|exact Hrun].
    intros [[ts bs] vs] q e' Hstep.
    unfold extents_value, template_values, get_pendant_path in Hstep.
    destruct (decide (model q ∈ PENDANT_LIBRARY)); cbn [rbind] in Hstep; [|left; congruence].
    destruct (disk !! model q) as [ms|]; cbn [rbind] in Hstep; [|right; congruence].
    destruct (bbox_of_values ms); cbn [rbind] in Hstep; [done|right; congruence].
Qed.

(** X13 (build_mesh_groups, a model key outside the library).  From a
    state whose memo tables agree with the pendant files, a configuration
    that names a pendant model which is not a key of [PENDANT_LIBRARY]
    builds no scene: the call raises, and what it raises is the
    [ValueError] of [get_pendant_path] or, when an earlier pendant's file
    is missing or holds no mesh, an [AttributeError]. *)
Theorem build_mesh_groups_unknown_model (config : ClusterConfig) (w : World F)
        (p : PendantConfig) :
  store_consistent disk w →
  p ∈ pendants config → model p ∉ PENDANT_LIBRARY →
  (build_mesh_groups disk config w).1 = Raise ValueError ∨
  (build_mesh_groups disk config w).1 = Raise AttributeError.
Proof.
  intros Hw Hp Hm.
  destruct (refines_build_mesh_groups disk config w Hw I) as (_ & _ & Hr).
  destruct (load_values_unknown _ p Hp Hm) as (e & He & Hcase).
  unfold scene_values, place_values in Hr. rewrite He in Hr. cbn [rbind] in Hr.
  destruct (build_mesh_groups disk config w).1 as [a|e']; [done|].
  destruct Hcase; subst; [by left|by right].
Qed.
End FailureFacts.

(** ** Concrete runs of the properties above *)
Module CoverageRun.
Import RationalModel SceneRun.

Lemma create_cylinder_mesh_well_formed_witness :
  ∃ m, create_cylinder_mesh (Q2Qc 1) (Q2Qc 1) 3 fresh_world
       = (Ok 0, set_heap ([] ++ [m]) fresh_world) ∧
       length (Vertices m) = 8 ∧ length (Faces m) = 9 ∧ well_formed m.
Proof. apply (create_cylinder_mesh_well_formed (Q2Qc 1) (Q2Qc 1) 3 fresh_world). lia. Defined.

Definition shade_map : gmap string nat := {[ "shade_natural" := 0 ]}.

(** The export state after the one-triangle scene. *)
Definition triangle_state : ExportState :=
  Eval vm_compute in
    match export_group [ContainerRun.triangle] shade_map (mkExportState [] [] [] [] [])
                       (mkMeshGroup 0 "shade_natural") with
    | Ok st => st
    | Raise _ => mkExportState [] [] [] [] []
    end.

Lemma triangle_state_run :
  export_group [ContainerRun.triangle] shade_map (mkExportState [] [] [] [] [])
               (mkMeshGroup 0 "shade_natural") = Ok triangle_state.
Proof. vm_compute. reflexivity. Qed.

Lemma triangle_loop_run :
  for_each (export_group [ContainerRun.triangle] shade_map) [mkMeshGroup 0 "shade_natural"]
           (mkExportState [] [] [] [] []) = Ok triangle_state.
Proof. cbn [for_each]. rewrite triangle_state_run. reflexivity. Qed.

Lemma export_layout_witness :
  export_invariant triangle_state ∧
  pad_to_4 (concat (buffers triangle_state)) = concat (buffers triangle_state).
Proof.
  destruct (export_layout [ContainerRun.triangle] shade_map [mkMeshGroup 0 "shade_natural"]
                          triangle_state triangle_loop_run) as (Hinv & _ & Hpad & _).
  split; [exact Hinv|exact Hpad].
Defined.


Lemma denny_extents_run :
  ∃ e w', _pendant_extents pendant_disk "denny" fresh_world = (Ok e, w').
Proof.
  assert (∃ e, (_pendant_extents pendant_disk "denny" fresh_world).1 = Ok e) as [e He]
      by (eexists; vm_compute; reflexivity).
  exists e. eexists. by apply run_split.
Qed.

Lemma pendant_tables_memoize_witness :
  ∃ e w', _pendant_extents pendant_disk "denny" fresh_world = (Ok e, w') ∧
          _pendant_extents ∅ "denny" w' = (Ok e, w').
Proof.
  destruct denny_extents_run as (e & w' & Hrun).
  exists e, w'. split; [exact Hrun|].
  exact (proj1 (pendant_tables_memoize pendant_disk ∅ "denny" fresh_world w' e Hrun)).
Defined.

Definition two_points : list (Point3d Qc) :=
  [mkPoint3d (Q2Qc 110) (Q2Qc 0) (Q2Qc (-40)); mkPoint3d (Q2Qc (-110)) (Q2Qc 0) (Q2Qc (-40))].

Lemma two_points_run :
  ∃ placements w',
    place_pendants_then_plan_cables pendant_disk (two_pendants 1400 2000) two_points
                                    fresh_world = (Ok placements, w').
Proof.
  assert (∃ placements,
            (place_pendants_then_plan_cables pendant_disk (two_pendants 1400 2000)
               two_points fresh_world).1 = Ok placements) as [pls Hpls]
      by (eexists; vm_compute; reflexivity).
  exists pls. eexists. by apply run_split.
Qed.

Lemma starts_permute_connection_points_witness :
  ∃ placements w',
    place_pendants_then_plan_cables pendant_disk (two_pendants 1400 2000) two_points
                                    fresh_world = (Ok placements, w') ∧
    start <$> placements ≡ₚ two_points.
Proof.
  destruct two_points_run as (placements & w' & Hrun).
  exists placements, w'. split; [exact Hrun|].
  apply (starts_permute_connection_points pendant_disk (two_pendants 1400 2000) two_points
           placements fresh_world w'); [left; discriminate|reflexivity|exact Hrun].
Defined.

Definition no_pendants : ClusterConfig :=
  mkClusterConfig (mkCanopyConfig size_s "canopy_black") (mkCableConfig "cable_black")
                  (mkLayoutConfig RING 1400 2000) [] 7.

Lemma build_mesh_groups_no_pendants_witness :
  (build_mesh_groups pendant_disk no_pendants fresh_world).1 = Raise IndexError.
Proof.
  exact (proj1 (build_mesh_groups_no_pendants pendant_disk no_pendants fresh_world eq_refl)).
Defined.

Definition oliv_pendant : ClusterConfig :=
  mkClusterConfig (mkCanopyConfig size_s "canopy_black") (mkCableConfig "cable_black")
                  (mkLayoutConfig RING 1400 2000)
                  [mkPendantConfig "oliv" "shade_natural"] 7.

Lemma oliv_not_in_library : "oliv" ∉ PENDANT_LIBRARY.
Proof. apply (bool_decide_eq_false_1 _). vm_compute. reflexivity. Qed.

Lemma build_mesh_groups_unknown_model_witness :
  (build_mesh_groups pendant_disk oliv_pendant fresh_world).1 = Raise ValueError ∨
  (build_mesh_groups pendant_disk oliv_pendant fresh_world).1 = Raise AttributeError.
Proof.
  apply (build_mesh_groups_unknown_model pendant_disk oliv_pendant fresh_world
           (mkPendantConfig "oliv" "shade_natural")).
  - apply store_consistent_empty; reflexivity.
  - apply list_elem_of_here.
  - exact oliv_not_in_library.
Defined.
End CoverageRun.

Module AssignRealRun.
Import RealModel PlacementReal AssignReal.
Local Open Scope R_scope.

End AssignRealRun.

(** ** Facts about the configuration code *)

(** *** Strings *)

(** Every character of [s] satisfies [p]. *)
Fixpoint str_forall (p : ascii → bool) (s : string) : bool :=
  match s with
  | EmptyString => true
  | String c s' => p c && str_forall p s'
  end.

(** [sep] does not occur in [s]. *)
Definition free_of (sep : ascii) (s : string) : bool :=
  str_forall (λ c, bool_decide (c ≠ sep)) s.

Definition is_digit (c : ascii) : bool := bool_decide (is_Some (digit_value c)).

Lemma str_forall_app (p : ascii → bool) (a b : string) :
  str_forall p (a +:+ b) = str_forall p a && str_forall p b.
Proof.
  induction a as [|c a IH]; [done|]. simpl. by rewrite IH, andb_assoc.
Qed.

Lemma str_forall_impl (p q : ascii → bool) (s : string) :
  (∀ c, p c = true → q c = true) → str_forall p s = true → str_forall q s = true.
Proof.
  intros Hpq. induction s as [|c s IH]; [done|]. cbn [str_forall].
  intros [Hc Hs]%andb_prop. by rewrite (Hpq c Hc), IH.
Qed.

Lemma app_length_str (a b : string) :
  String.length (a +:+ b) = String.length a + String.length b.
Proof. induction a as [|c a IH]; [done|]. simpl. f_equal. exact IH. Qed.

Lemma split_pieces_free (sep : ascii) (a : string) :
  free_of sep a = true → split_pieces sep a = (a, []).
Proof.
  induction a as [|c a IH]; [done|]. cbn [free_of str_forall split_pieces].
  intros [Hc Ha]%andb_prop. rewrite (IH Ha).
  apply bool_decide_eq_true in Hc. by rewrite decide_False.
Qed.

Lemma split_on_free (sep : ascii) (a : string) :
  free_of sep a = true → split_on sep a = [a].
Proof. intros Ha. unfold split_on. by rewrite split_pieces_free. Qed.

Lemma split_on_app (sep : ascii) (a b : string) :
  free_of sep a = true → split_on sep (a +:+ String sep b) = a :: split_on sep b.
Proof.
  unfold split_on. induction a as [|c a IH]; simpl.
  - intros _. destruct (split_pieces sep b) as [piece rest]. by rewrite decide_True.
  - intros [Hc Ha]%andb_prop. specialize (IH Ha).
    destruct (split_pieces sep (a +:+ String sep b)) as [piece rest].
    destruct (split_pieces sep b) as [piece' rest'].
    apply bool_decide_eq_true in Hc. rewrite decide_False by done. by simplify_eq.
Qed.

Lemma cut_free (sep : ascii) (a : string) :
  free_of sep a = true → cut sep a = (a, None).
Proof.
  induction a as [|c a IH]; [done|]. cbn [free_of str_forall cut].
  intros [Hc Ha]%andb_prop. apply bool_decide_eq_true in Hc.
  by rewrite decide_False, (IH Ha) by done.
Qed.

Lemma cut_app (sep : ascii) (a b : string) :
  free_of sep a = true → cut sep (a +:+ String sep b) = (a, Some b).
Proof.
  induction a as [|c a IH]; simpl.
  - intros _. by rewrite decide_True.
  - intros [Hc Ha]%andb_prop. apply bool_decide_eq_true in Hc.
    by rewrite decide_False, (IH Ha) by done.
Qed.

Lemma split_once_app (sep : ascii) (a b : string) :
  free_of sep a = true → split_once sep (a +:+ String sep b) = [a; b].
Proof. intros Ha. unfold split_once. by rewrite cut_app. Qed.

Lemma append_cons (c : ascii) (a b : string) : String c a +:+ b = String c (a +:+ b).
Proof. reflexivity. Qed.

Lemma append_nil_l (a : string) : EmptyString +:+ a = a.
Proof. reflexivity. Qed.

Lemma append_assoc (a b c : string) : (a +:+ b) +:+ c = a +:+ (b +:+ c).
Proof. induction a as [|x a IH]; [done|]. rewrite !append_cons. by rewrite IH. Qed.

Lemma join_fold_prefix (sep a b : string) (parts : list string) :
  fold_left (λ acc q, acc +:+ sep +:+ q) parts (a +:+ b)
  = a +:+ fold_left (λ acc q, acc +:+ sep +:+ q) parts b.
Proof.
  revert b. induction parts as [|p parts IH]; intros b; [done|].
  cbn [fold_left]. rewrite <- IH. f_equal. by rewrite !append_assoc.
Qed.

Lemma join_cons (sep p q : string) (parts : list string) :
  join sep (p :: q :: parts) = p +:+ sep +:+ join sep (q :: parts).
Proof.
  unfold join. cbn [fold_left]. by rewrite <- !join_fold_prefix.
Qed.

Lemma split_on_join (sep : ascii) (parts : list string) :
  parts ≠ [] → Forall (λ p, free_of sep p = true) parts →
  split_on sep (join (String sep EmptyString) parts) = parts.
Proof.
  intros Hne Hall. induction Hall as [|p parts Hp Hall IH]; [done|].
  destruct parts as [|q parts].
  - cbn [join fold_left]. by apply split_on_free.
  - rewrite join_cons, append_cons, append_nil_l. rewrite split_on_app by done.
    f_equal. by apply IH.
Qed.

Lemma join_nonempty (sep : string) (parts : list string) (p : string) :
  p ∈ parts → p ≠ EmptyString → join sep parts ≠ EmptyString.
Proof.
  intros Hin Hp. induction parts as [|q parts IH]; [by apply elem_of_nil in Hin|].
  destruct parts as [|q' parts].
  - apply list_elem_of_singleton in Hin as ->. done.
  - rewrite join_cons. destruct q as [|c q]; [|done].
    destruct sep; [|done]. rewrite !append_nil_l.
    apply IH. apply elem_of_cons in Hin as [->|Hin]; done.
Qed.

(** *** Integers *)

(** The number a string of digits denotes, read after [value]. *)
Fixpoint digits_value (s : string) (value : Z) : Z :=
  match s with
  | EmptyString => value
  | String c s' => digits_value s' (10 * value + default 0 (digit_value c))%Z
  end.

Lemma parse_digits_digits (s : string) (value : Z) (count : nat) (after_digit : bool) :
  str_forall is_digit s = true → s ≠ EmptyString ∨ after_digit = true →
  parse_digits s value count after_digit
  = Some (digits_value s value, count + String.length s).
Proof.
  revert value count after_digit. induction s as [|c s IH]; intros value count after Hd Hne.
  - destruct Hne as [?| ->]; [done|]. cbn. by rewrite Nat.add_0_r.
  - cbn [str_forall] in Hd. apply andb_prop in Hd as [Hc Hs].
    apply bool_decide_eq_true in Hc as [d Hc]. cbn [parse_digits digits_value].
    rewrite Hc. cbn [default]. rewrite IH by (done || by right).
    cbn [String.length]. do 2 f_equal. lia.
Qed.

Lemma digits_value_shift (s : string) (value : Z) :
  digits_value s value = (value * 10 ^ Z.of_nat (String.length s) + digits_value s 0)%Z.
Proof.
  revert value. induction s as [|c s IH]; intros value.
  - cbn. lia.
  - cbn [digits_value String.length]. rewrite IH, (IH (10 * 0 + _)%Z).
    rewrite Nat2Z.inj_succ, Z.pow_succ_r by lia. lia.
Qed.

Lemma digit_value_char (d : N) :
  (d < 10)%N → digit_value (pretty_N_char d) = Some (Z.of_N d).
Proof.
  intros Hd.
  assert (d = 0 ∨ d = 1 ∨ d = 2 ∨ d = 3 ∨ d = 4 ∨ d = 5 ∨ d = 6 ∨ d = 7 ∨ d = 8 ∨ d = 9)%N
    as Hcases by lia.
  repeat (destruct Hcases as [->|Hcases]; [reflexivity|]). by subst.
Qed.

Lemma pretty_N_go_digits (x : N) (acc : string) :
  str_forall is_digit acc = true → str_forall is_digit (pretty_N_go x acc) = true.
Proof.
  revert acc. induction (N.lt_wf_0 x) as [x _ IH]; intros acc Hacc.
  destruct (decide (x = 0)%N) as [->|Hx]; [by rewrite pretty_N_go_0|].
  rewrite pretty_N_go_step by lia. apply IH.
  - apply N.div_lt; lia.
  - cbn [str_forall]. rewrite Hacc, andb_true_r. apply bool_decide_eq_true.
    rewrite digit_value_char; [done|]. apply N.mod_lt. lia.
Qed.

Lemma pretty_N_go_value (x : N) (acc : string) :
  digits_value (pretty_N_go x acc) 0
  = (Z.of_N x * 10 ^ Z.of_nat (String.length acc) + digits_value acc 0)%Z.
Proof.
  revert acc. induction (N.lt_wf_0 x) as [x _ IH]; intros acc.
  destruct (decide (x = 0)%N) as [->|Hx]; [rewrite pretty_N_go_0; lia|].
  rewrite pretty_N_go_step by lia. rewrite IH by (apply N.div_lt; lia).
  cbn [digits_value String.length].
  rewrite (digits_value_shift acc (10 * 0 + _)%Z).
  rewrite digit_value_char by (apply N.mod_lt; lia). cbn [default].
  rewrite Nat2Z.inj_succ, Z.pow_succ_r by lia.
  assert (Hx10 : Z.of_N x = (10 * Z.of_N (x `div` 10) + Z.of_N (x `mod` 10))%Z).
  { pose proof (N.div_mod x 10). lia. }
  rewrite Hx10. unfold Datatypes.id.
  generalize (10 ^ Z.of_nat (String.length acc))%Z (digits_value acc 0). intros p v. ring.
Qed.

Lemma pretty_N_go_length (x : N) (acc : string) :
  (0 < x)%N → String.length acc < String.length (pretty_N_go x acc).
Proof.
  revert acc. induction (N.lt_wf_0 x) as [x _ IH]; intros acc Hx.
  rewrite pretty_N_go_step by lia.
  destruct (decide (x `div` 10 = 0)%N) as [->|Hd].
  - rewrite pretty_N_go_0. cbn. lia.
  - etrans; [|apply IH; [apply N.div_lt; lia|lia]]. cbn. lia.
Qed.

Lemma pretty_N_spec (x : N) :
  str_forall is_digit (pretty x) = true ∧
  digits_value (pretty x) 0 = Z.of_N x ∧
  pretty x ≠ EmptyString.
Proof.
  unfold pretty, pretty_N. destruct (decide (x = 0)%N) as [->|Hx]; [done|].
  split; [by apply pretty_N_go_digits|]. split.
  - rewrite pretty_N_go_value. cbn. lia.
  - intros Hnil. pose proof (pretty_N_go_length x "" ltac:(lia)) as Hlen.
    rewrite Hnil in Hlen. cbn in Hlen. lia.
Qed.

Lemma digit_not_space (c : ascii) : is_digit c = true → is_int_space c = false.
Proof.
  unfold is_digit, digit_value, is_int_space. intros Hc%bool_decide_eq_true.
  destruct (bool_decide (48 ≤ nat_of_ascii c) && bool_decide (nat_of_ascii c ≤ 57)) eqn:Hr;
    [|by destruct Hc].
  apply andb_prop in Hr as [H1%bool_decide_eq_true H2%bool_decide_eq_true].
  rewrite bool_decide_eq_false_2 by lia. cbn [orb].
  rewrite (bool_decide_eq_false_2 (nat_of_ascii c ≤ 13)) by lia. by rewrite andb_false_r.
Qed.

Lemma digit_not (c x : ascii) :
  is_digit c = true → is_digit x = false → c ≠ x.
Proof. intros Hc Hx ->. congruence. Qed.

Lemma int_rstrip_id (s : string) :
  str_forall (λ c, negb (is_int_space c)) s = true → int_rstrip s = s.
Proof.
  induction s as [|c s IH]; [done|]. cbn [str_forall int_rstrip].
  intros [Hc Hs]%andb_prop. rewrite (IH Hs). apply negb_true_iff in Hc. rewrite Hc.
  by destruct s.
Qed.

Lemma digits_no_space (s : string) :
  str_forall is_digit s = true → str_forall (λ c, negb (is_int_space c)) s = true.
Proof.
  apply str_forall_impl. intros c Hc. by rewrite digit_not_space.
Qed.

Section IntFacts.
Variable limit : nat.

Lemma exceeds_limit_small (digits : nat) : digits ≤ 640 → exceeds_limit limit digits = false.
Proof. intros Hd. unfold exceeds_limit. by rewrite bool_decide_eq_false_2 by lia. Qed.

Lemma exceeds_limit_mono (m n : nat) :
  m ≤ n → exceeds_limit limit n = false → exceeds_limit limit m = false.
Proof.
  unfold exceeds_limit. intros Hmn Hn.
  apply andb_false_iff in Hn as [Hn|Hn%bool_decide_eq_false].
  - apply andb_false_iff in Hn as [Hn%bool_decide_eq_false|Hn].
    + by rewrite bool_decide_eq_false_2 by lia.
    + by rewrite Hn, andb_false_r.
  - rewrite (bool_decide_eq_false_2 (limit < m)) by lia.
    by rewrite andb_false_r.
Qed.

(** [int] reads a string of digits as the number it denotes. *)
Lemma py_int_digits (s : string) :
  str_forall is_digit s = true → s ≠ EmptyString →
  exceeds_limit limit (String.length s) = false →
  py_int limit s = Ok (digits_value s 0).
Proof.
  intros Hd Hne Hlim. unfold py_int.
  destruct s as [|c s]; [done|].
  pose proof Hd as Hd'. cbn [str_forall] in Hd'. apply andb_prop in Hd' as [Hc _].
  cbn [int_lstrip]. rewrite (digit_not_space c Hc).
  rewrite int_rstrip_id by by apply digits_no_space.
  rewrite (decide_False (P:=c = "-"%char)) by by apply digit_not.
  rewrite (decide_False (P:=c = "+"%char)) by by apply digit_not.
  rewrite parse_digits_digits by (done || by left).
  cbn [Nat.add]. by rewrite Hlim.
Qed.

Lemma py_int_negative (s : string) :
  str_forall is_digit s = true → s ≠ EmptyString →
  exceeds_limit limit (String.length s) = false →
  py_int limit ("-" +:+ s) = Ok (- digits_value s 0)%Z.
Proof.
  intros Hd Hne Hlim. unfold py_int.
  rewrite append_cons, append_nil_l. cbn [int_lstrip].
  change (is_int_space "-") with false. cbv iota.
  rewrite int_rstrip_id.
  2:{ cbn [str_forall]. by rewrite digits_no_space. }
  rewrite decide_True by done.
  rewrite parse_digits_digits by (done || by left).
  cbn [Nat.add]. by rewrite Hlim.
Qed.

(** [int(str(z)) == z]. *)
Lemma py_int_format (z : Z) (s : string) : format_d limit 0 z = Ok s → py_int limit s = Ok z.
Proof.
  unfold format_d.
  destruct (pretty_N_spec (Z.abs_N z)) as (Hd & Hv & Hne).
  destruct (exceeds_limit limit (String.length (pretty (Z.abs_N z)))) eqn:Hlim; [done|].
  intros [= <-]. cbn [Nat.sub replicate string_of_list_ascii]. rewrite append_nil_l.
  destruct (z <? 0)%Z eqn:Hz.
  - rewrite py_int_negative by done. rewrite Hv. f_equal. lia.
  - rewrite append_nil_l, py_int_digits by done. rewrite Hv. f_equal. lia.
Qed.
End IntFacts.

(** *** Tables *)

Lemma dict_of_lookup {K V} `{Countable K} (items : list (K * V)) (k : K) (v : V) :
  dict_of items !! k = Some v → (k, v) ∈ items.
Proof.
  unfold dict_of. induction items as [|[k' v'] items IH] using rev_ind.
  - cbn. by rewrite lookup_empty.
  - rewrite fold_left_app. cbn [fold_left fst snd].
    destruct (decide (k' = k)) as [->|Hne].
    + rewrite lookup_insert_eq. intros [= ->]. apply elem_of_app. right. apply list_elem_of_here.
    + rewrite lookup_insert_ne by done. intros Hk. apply elem_of_app. left. by apply IH.
Qed.

Lemma getitem_Ok {K V} `{Countable K} (items : list (K * V)) (k : K) (v : V) :
  getitem (dict_of items) k = Ok v → (k, v) ∈ items.
Proof.
  unfold getitem. destruct (dict_of items !! k) as [v'|] eqn:Hk; [|done].
  intros [= <-]. by apply dict_of_lookup.
Qed.

(** The model keys the codec knows. *)
Definition codec_models : list string := snd <$> PENDANT_MODEL_ITEMS.

(** *** What a decoded configuration satisfies *)

Lemma for_each_invariant {A B} (f : B → A → result B) (P : B → Prop)
      (xs : list A) (acc r : B) :
  (∀ b x b', P b → f b x = Ok b' → P b') → P acc → for_each f xs acc = Ok r → P r.
Proof.
  intros Hf. revert acc. induction xs as [|x xs IH]; intros acc Hacc; cbn [for_each].
  - by intros [= <-].
  - intros Hrun. apply rbind_Ok in Hrun as (b & Hb & Hrun). eapply IH; [|exact Hrun]. eauto.
Qed.

Section DecodeFacts.
Variable limit : nat.

Definition layout_ok (l : LayoutFields) : Prop :=
  (100 ≤ given_first_drop_mm l ≤ 6000)%Z ∧ (200 ≤ given_total_drop_mm l ≤ 8000)%Z ∧
  (given_first_drop_mm l ≤ given_total_drop_mm l)%Z ∧
  (100 | given_first_drop_mm l)%Z ∧ (100 | given_total_drop_mm l)%Z.

Definition pendant_ok (p : PendantConfig) : Prop :=
  model p ∈ codec_models ∧ appearance p ∈ ShadeAppearance.

Definition decoding_ok (st : Decoding) : Prop :=
  (∀ c, decoded_canopy st = Some c → canopy_appearance c ∈ CanopyAppearance) ∧
  (∀ l, decoded_layout st = Some l → layout_ok l) ∧
  (∀ c, decoded_cable st = Some c → cable_appearance c ∈ CableAppearance) ∧
  Forall pendant_ok (decoded_pendants st).

Lemma new_LayoutConfig_Ok (t : option ClusterType) (f d : Z) (l : LayoutFields) :
  new_LayoutConfig t f d = Ok l →
  l = mkLayoutFields t f d ∧ (100 ≤ f ≤ 6000)%Z ∧ (200 ≤ d ≤ 8000)%Z ∧ (f ≤ d)%Z.
Proof.
  unfold new_LayoutConfig.
  destruct (bool_decide (100 ≤ f ≤ 6000)%Z) eqn:Hf; [|done].
  destruct (bool_decide (200 ≤ d ≤ 8000)%Z) eqn:Hd; [|done]. cbn [andb].
  destruct (bool_decide (d < f)%Z) eqn:Hlt; [done|]. intros [= <-].
  apply bool_decide_eq_true in Hf, Hd. apply bool_decide_eq_false in Hlt.
  repeat split; lia.
Qed.

Lemma decode_pendant_ok (token : string) (p : PendantConfig) :
  decode_pendant limit token = Ok p → pendant_ok p.
Proof.
  unfold decode_pendant. intros Hrun.
  apply rbind_Ok in Hrun as ([ms ss] & _ & Hrun).
  apply rbind_Ok in Hrun as (model_id & _ & Hrun).
  apply rbind_Ok in Hrun as (shade_id & _ & Hrun).
  apply rbind_Ok in Hrun as (m & Hm & Hrun).
  apply rbind_Ok in Hrun as (a & Ha & Hrun).
  unfold new_PendantConfig in Hrun.
  destruct (decide (a ∈ ShadeAppearance)) as [Hin|]; [|done]. injection Hrun as <-.
  split; [|done]. cbn [model]. apply getitem_Ok in Hm.
  apply list_elem_of_fmap. by exists (model_id, m).
Qed.

Lemma decode_pendants_ok (body : string) (ps : list PendantConfig) :
  decode_pendants limit body = Ok ps → Forall pendant_ok ps.
Proof.
  unfold decode_pendants. intros Hrun.
  apply rbind_Ok in Hrun as ([count_part items_part] & _ & Hrun).
  apply rbind_Ok in Hrun as (count & _ & Hrun).
  destruct (decide (count ≠ _)); [done|].
  eapply (for_each_invariant _ (Forall pendant_ok)); [|constructor|exact Hrun].
  intros acc token acc' Hacc Hstep. apply rbind_Ok in Hstep as (p & Hp & [= <-]).
  apply Forall_app. split; [done|]. constructor; [|constructor].
  by eapply decode_pendant_ok.
Qed.

Lemma decode_segment_ok (st st' : Decoding) (seg : string) :
  decoding_ok st → decode_segment limit st seg = Ok st' → decoding_ok st'.
Proof.
  intros (Hc & Hl & Hb & Hp). unfold decode_segment.
  destruct seg as [|prefix body]; [done|].
  repeat case_decide.
  - intros Hrun. apply rbind_Ok in Hrun as (c & Hrun & [= <-]).
    split; [|done]. cbn [decoded_canopy]. intros c' [= <-].
    unfold decode_canopy in Hrun. case_decide; [done|].
    apply rbind_Ok in Hrun as (? & _ & Hrun). apply rbind_Ok in Hrun as (? & _ & Hrun).
    apply rbind_Ok in Hrun as (? & _ & Hrun). apply rbind_Ok in Hrun as (? & _ & Hrun).
    apply rbind_Ok in Hrun as (? & _ & Hrun). unfold new_CanopyConfig in Hrun.
    case_decide; [|done]. by injection Hrun as <-.
  - intros Hrun. apply rbind_Ok in Hrun as (l & Hrun & [= <-]).
    split; [done|]. split; [|done]. cbn [decoded_layout]. intros l' [= <-].
    unfold decode_layout in Hrun. case_decide; [done|].
    apply rbind_Ok in Hrun as (? & _ & Hrun). apply rbind_Ok in Hrun as (t & _ & Hrun).
    apply rbind_Ok in Hrun as (f & _ & Hrun). apply rbind_Ok in Hrun as (d & _ & Hrun).
    apply rbind_Ok in Hrun as (ct & _ & Hrun).
    apply new_LayoutConfig_Ok in Hrun as (-> & ? & ? & ?).
    unfold layout_ok. cbn [given_cluster_type given_first_drop_mm given_total_drop_mm].
    repeat split; try lia; try done.
    + by exists f.
    + by exists d.
  - intros Hrun. apply rbind_Ok in Hrun as (c & Hrun & [= <-]).
    split; [done|]. split; [done|]. split; [|done]. cbn [decoded_cable]. intros c' [= <-].
    unfold decode_cable in Hrun.
    apply rbind_Ok in Hrun as (? & _ & Hrun). apply rbind_Ok in Hrun as (? & _ & Hrun).
    unfold new_CableConfig in Hrun. case_decide; [|done]. by injection Hrun as <-.
  - intros Hrun. apply rbind_Ok in Hrun as (ps & Hrun & [= <-]).
    split; [done|]. split; [done|]. split; [done|]. cbn [decoded_pendants].
    by eapply decode_pendants_ok.
  - intros Hrun. apply rbind_Ok in Hrun as (seed & _ & [= <-]). done.
  - by intros [= <-].
Qed.

(** What the validators and the mapping tables leave of a decoded
    configuration. *)
Lemma decoded_config_ok (code : string) (config : ClusterConfig)
        (defaults_applied : list string) :
  decode_code_to_config limit code = Ok (config, defaults_applied) →
  valid_config config ∧
  pendants config ≠ [] ∧
  Forall (λ p, model p ∈ codec_models) (pendants config) ∧
  (100 | first_drop_mm (layout config))%Z ∧ (100 | total_drop_mm (layout config))%Z.
Proof.
  unfold decode_code_to_config. case_decide; [done|]. intros Hrun.
  apply rbind_Ok in Hrun as (st & Hst & Hrun).
  apply (for_each_invariant _ decoding_ok) in Hst as (Hc & Hl & Hb & Hp).
  2:{ intros. by eapply decode_segment_ok. }
  2:{ repeat split; done. }
  destruct (decoded_canopy st) as [c|]; [|done]. specialize (Hc c eq_refl).
  set (l := match decoded_layout st with Some l => l | None => default_LayoutFields end).
  assert (Hlayout : layout_ok l).
  { subst l. destruct (decoded_layout st) as [l|]; [by apply Hl|].
    unfold layout_ok, default_LayoutFields.
    cbn [given_first_drop_mm given_total_drop_mm].
    repeat split; try lia; [by exists 14%Z|by exists 20%Z]. }
  assert (∃ d0, (match decoded_layout st with
                 | Some layout => (layout, [])
                 | None => (default_LayoutFields, ["layout defaulted"])
                 end) = (l, d0)) as [d0 Hd0].
  { subst l. destruct (decoded_layout st); by eexists. }
  rewrite Hd0 in Hrun. clear Hd0.
  apply rbind_Ok in Hrun as ([cb d1] & Hcable & Hrun).
  assert (Hcb : cable_appearance cb ∈ CableAppearance).
  { destruct (decoded_cable st) as [cb'|] eqn:Hcb.
    - injection Hcable as <- _. by apply Hb.
    - apply rbind_Ok in Hcable as (cb' & Hnew & [= <- _]).
      unfold new_CableConfig in Hnew. case_decide; [|done]. by injection Hnew as <-. }
  destruct (decoded_pendants st) as [|p ps] eqn:Hps; [done|].
  unfold new_ClusterConfig in Hrun.
  destruct (bool_decide (0 ≤ decoded_random_seed st ≤ 2147483647)%Z) eqn:Hseed; [|done].
  apply bool_decide_eq_true in Hseed.
  destruct Hlayout as (Hf & Ht & Hft & Hf100 & Ht100).
  assert (∃ ct, config = mkClusterConfig c cb
                           (mkLayoutConfig ct (given_first_drop_mm l) (given_total_drop_mm l))
                           (p :: ps) (decoded_random_seed st)) as [ct ->].
  { destruct (given_cluster_type l); injection Hrun as <- _; by eexists. }
  unfold valid_config. cbn [layout canopy cable pendants random_seed first_drop_mm
                            total_drop_mm].
  repeat split; try done; try lia.
  - eapply Forall_impl; [exact Hp|]. by intros q [_ ?].
  - eapply Forall_impl; [exact Hp|]. by intros q [? _].
Qed.

(** X14 (decode_code_to_config with the validators of schema.py).  Every
    configuration the decoder returns is valid: the drops are within the
    bounds of [LayoutConfig], [total >= first], both are multiples of 100,
    the seed is within its bounds, every appearance is one of its type's
    literals; there is at least one pendant, and every pendant model is a
    value of [PENDANT_MODEL_MAP]. *)
Theorem decode_code_to_config_valid (code : string) (config : ClusterConfig)
        (defaults_applied : list string) :
  decode_code_to_config limit code = Ok (config, defaults_applied) →
  valid_config config ∧
  pendants config ≠ [] ∧
  Forall (λ p, model p ∈ codec_models) (pendants config) ∧
  (100 | first_drop_mm (layout config))%Z ∧ (100 | total_drop_mm (layout config))%Z.
Proof. apply decoded_config_ok. Qed.
End DecodeFacts.

(** *** Encoding, then decoding *)

Lemma hundreds_near (x : Z) : (100 * hundreds x - 50 ≤ x ≤ 100 * hundreds x + 50)%Z.
Proof.
  unfold hundreds, RationalModel.round_half_even.
  pose proof (Z.div_mod x 100 ltac:(lia)) as Hx.
  pose proof (Z.mod_pos_bound x 100 ltac:(lia)) as Hr.
  destruct (Z.compare_spec (2 * (x `mod` 100)) 100); [destruct (Z.even _)|..]; lia.
Qed.

Lemma hundreds_mono (x y : Z) : (x ≤ y)%Z → (hundreds x ≤ hundreds y)%Z.
Proof.
  intros Hxy. unfold hundreds, RationalModel.round_half_even.
  pose proof (Z.div_mod x 100 ltac:(lia)) as Hx.
  pose proof (Z.mod_pos_bound x 100 ltac:(lia)) as Hrx.
  pose proof (Z.div_mod y 100 ltac:(lia)) as Hy.
  pose proof (Z.mod_pos_bound y 100 ltac:(lia)) as Hry.
  destruct (decide (x `div` 100 = y `div` 100)%Z) as [Hq|Hq].
  - rewrite Hq in *.
    destruct (Z.compare_spec (2 * (x `mod` 100)) 100);
      destruct (Z.compare_spec (2 * (y `mod` 100)) 100);
      destruct (Z.even (y `div` 100)); lia.
  - destruct (Z.compare_spec (2 * (x `mod` 100)) 100);
      destruct (Z.compare_spec (2 * (y `mod` 100)) 100);
      destruct (Z.even (x `div` 100)); destruct (Z.even (y `div` 100)); lia.
Qed.

Lemma hundreds_exact (k : Z) : hundreds (100 * k) = k.
Proof.
  unfold hundreds, RationalModel.round_half_even.
  replace (100 * k)%Z with (k * 100)%Z by lia.
  rewrite Z.div_mul, Z.mod_mul by lia. reflexivity.
Qed.

(** The configuration with both drops rounded to the nearest hundred, as
    the code stores them. *)
Definition rounded (config : ClusterConfig) : ClusterConfig :=
  mkClusterConfig (canopy config) (cable config)
    (mkLayoutConfig (cluster_type (layout config))
                    (hundreds (first_drop_mm (layout config)) * 100)
                    (hundreds (total_drop_mm (layout config)) * 100))
    (pendants config) (random_seed config).

Section RoundTrip.
Variable limit : nat.

Definition two_digit_check (n : Z) : bool :=
  match format_d limit 2 n with
  | Ok (String a (String b EmptyString)) =>
      is_digit a && is_digit b &&
      match py_int limit (String a (String b EmptyString)) with
      | Ok m => (m =? n)%Z
      | Raise _ => false
      end
  | _ => false
  end.

Definition three_digit_check (n : Z) : bool :=
  match format_d limit 3 n with
  | Ok (String a (String b (String c EmptyString))) =>
      is_digit a && is_digit b && is_digit c &&
      match py_int limit (String a (String b (String c EmptyString))) with
      | Ok m => (m =? n)%Z
      | Raise _ => false
      end
  | _ => false
  end.

Lemma two_digit_checks : forallb two_digit_check (Z.of_nat <$> seq 0 100) = true.
Proof. vm_compute. reflexivity. Qed.

Lemma three_digit_checks : forallb three_digit_check (Z.of_nat <$> seq 0 1000) = true.
Proof. vm_compute. reflexivity. Qed.

Lemma in_range (n : Z) (k : nat) :
  (0 ≤ n < Z.of_nat k)%Z → In n (Z.of_nat <$> seq 0 k).
Proof.
  intros Hn. apply list_elem_of_In, list_elem_of_fmap.
  exists (Z.to_nat n). split; [lia|]. apply elem_of_seq. lia.
Qed.

Lemma format_two_digits (n : Z) :
  (0 ≤ n ≤ 99)%Z →
  ∃ a b, format_d limit 2 n = Ok (String a (String b EmptyString)) ∧
         is_digit a = true ∧ is_digit b = true ∧
         py_int limit (String a (String b EmptyString)) = Ok n.
Proof.
  intros Hn. pose proof two_digit_checks as Hall.
  rewrite forallb_forall in Hall. specialize (Hall n (in_range n 100 ltac:(lia))).
  unfold two_digit_check in Hall.
  destruct (format_d limit 2 n) as [[|a [|b [|]]]|]; try discriminate Hall.
  apply andb_prop in Hall as [Hab Hm]. apply andb_prop in Hab as [Ha Hb].
  exists a, b. repeat split; try done.
  destruct (py_int limit (String a (String b EmptyString))) as [m|]; [|done].
  apply Z.eqb_eq in Hm. by subst.
Qed.

Lemma format_three_digits (n : Z) :
  (0 ≤ n ≤ 999)%Z →
  ∃ a b c, format_d limit 3 n = Ok (String a (String b (String c EmptyString))) ∧
           is_digit a = true ∧ is_digit b = true ∧ is_digit c = true ∧
           py_int limit (String a (String b (String c EmptyString))) = Ok n.
Proof.
  intros Hn. pose proof three_digit_checks as Hall.
  rewrite forallb_forall in Hall. specialize (Hall n (in_range n 1000 ltac:(lia))).
  unfold three_digit_check in Hall.
  destruct (format_d limit 3 n) as [[|a [|b [|c [|]]]]|]; try discriminate Hall.
  apply andb_prop in Hall as [Habc Hm]. apply andb_prop in Habc as [Hab Hc].
  apply andb_prop in Hab as [Ha Hb].
  exists a, b, c. repeat split; try done.
  destruct (py_int limit (String a (String b (String c EmptyString)))) as [m|]; [|done].
  apply Z.eqb_eq in Hm. by subst.
Qed.

Lemma digit_free (sep c : ascii) :
  is_digit sep = false → is_digit c = true → bool_decide (c ≠ sep) = true.
Proof. intros Hs Hc. apply bool_decide_eq_true. by apply digit_not. Qed.

Lemma digits_free (sep : ascii) (s : string) :
  is_digit sep = false → str_forall is_digit s = true → free_of sep s = true.
Proof. intros Hs. apply str_forall_impl. intros c. by apply digit_free. Qed.

(** What [format_d] writes holds digits, after a minus sign if any. *)
Lemma format_d_free (sep : ascii) (width : nat) (z : Z) (s : string) :
  is_digit sep = false → sep ≠ "-"%char →
  format_d limit width z = Ok s → free_of sep s = true ∧ s ≠ EmptyString.
Proof.
  intros Hsep Hminus. unfold format_d.
  destruct (pretty_N_spec (Z.abs_N z)) as (Hd & _ & Hne).
  destruct (exceeds_limit limit _); [done|]. intros [= <-]. split.
  - unfold free_of. rewrite !str_forall_app.
    apply andb_true_iff. split; [|apply andb_true_iff; split].
    + destruct (z <? 0)%Z; [|done]. cbn. by rewrite bool_decide_eq_true_2.
    + generalize (width - String.length (if (z <? 0)%Z then "-" else "")
                  - String.length (pretty (Z.abs_N z))).
      intros k. induction k as [|k IH]; [done|]. cbn [replicate string_of_list_ascii str_forall].
      rewrite IH, andb_true_r. by apply digit_free.
    + by apply digits_free.
  - destruct (z <? 0)%Z; [done|]. rewrite append_nil_l.
    destruct (string_of_list_ascii _); [|done]. by rewrite append_nil_l.
Qed.

Lemma format_d_digits (z : Z) (s : string) :
  (0 ≤ z)%Z → format_d limit 0 z = Ok s → str_forall is_digit s = true ∧ s ≠ EmptyString.
Proof.
  intros Hz. unfold format_d.
  destruct (pretty_N_spec (Z.abs_N z)) as (Hd & _ & Hne).
  destruct (exceeds_limit limit _); [done|]. intros [= <-].
  rewrite (proj2 (Z.ltb_ge z 0)) by lia.
  cbn [Nat.sub replicate string_of_list_ascii]. by rewrite !append_nil_l.
Qed.

(** The state of the decoding loop with one local replaced. *)
Definition set_canopy (st : Decoding) (c : CanopyConfig) : Decoding :=
  mkDecoding (Some c) (decoded_layout st) (decoded_cable st) (decoded_pendants st)
             (decoded_random_seed st).
Definition set_layout (st : Decoding) (l : LayoutFields) : Decoding :=
  mkDecoding (decoded_canopy st) (Some l) (decoded_cable st) (decoded_pendants st)
             (decoded_random_seed st).
Definition set_cable (st : Decoding) (c : CableConfig) : Decoding :=
  mkDecoding (decoded_canopy st) (decoded_layout st) (Some c) (decoded_pendants st)
             (decoded_random_seed st).
Definition set_pendants (st : Decoding) (ps : list PendantConfig) : Decoding :=
  mkDecoding (decoded_canopy st) (decoded_layout st) (decoded_cable st) ps
             (decoded_random_seed st).
Definition set_random_seed (st : Decoding) (seed : Z) : Decoding :=
  mkDecoding (decoded_canopy st) (decoded_layout st) (decoded_cable st)
             (decoded_pendants st) seed.

(** A segment the splitting at ["."] keeps whole. *)
Definition whole (seg : string) : Prop := free_of "." seg = true ∧ seg ≠ EmptyString.

Lemma canopy_seg_decodes (config : ClusterConfig) (seg : string) (st : Decoding) :
  canopy_appearance (canopy config) ∈ CanopyAppearance →
  canopy_seg limit config = Ok seg →
  decode_segment limit st seg = Ok (set_canopy st (canopy config)) ∧ whole seg.
Proof.
  destruct config as [[sz ca] cb l ps seed]. cbn [canopy canopy_appearance].
  intros Hca Hseg. unfold CanopyAppearance in Hca.
  apply elem_of_cons in Hca as [->|Hca]; [|apply list_elem_of_singleton in Hca as ->];
    destruct sz; vm_compute in Hseg; injection Hseg as <-;
    (split; [vm_compute; reflexivity|split; [reflexivity|discriminate]]).
Qed.

Lemma cable_seg_decodes (config : ClusterConfig) (seg : string) (st : Decoding) :
  cable_appearance (cable config) ∈ CableAppearance →
  cable_seg limit config = Ok seg →
  decode_segment limit st seg = Ok (set_cable st (cable config)) ∧ whole seg.
Proof.
  destruct config as [ca [cb] l ps seed]. cbn [cable cable_appearance].
  intros Hcb Hseg. unfold CableAppearance in Hcb.
  apply elem_of_cons in Hcb as [->|Hcb]; [|apply list_elem_of_singleton in Hcb as ->];
    vm_compute in Hseg; injection Hseg as <-;
    (split; [vm_compute; reflexivity|split; [reflexivity|discriminate]]).
Qed.
Lemma py_int_single (c : ascii) (d : Z) :
  digit_value c = Some d → py_int limit (String c EmptyString) = Ok d.
Proof.
  intros Hc.
  assert (Hd : str_forall is_digit (String c EmptyString) = true).
  { cbn [str_forall]. rewrite andb_true_r. apply bool_decide_eq_true. by exists d. }
  rewrite (py_int_digits limit _ Hd ltac:(done) (exceeds_limit_small limit 1 ltac:(lia))).
  cbn [digits_value]. rewrite Hc. cbn [default]. f_equal.
Qed.

Lemma layout_seg_decodes (config : ClusterConfig) (seg : string) (st : Decoding) :
  (100 ≤ first_drop_mm (layout config) ≤ 6000)%Z →
  (200 ≤ total_drop_mm (layout config) ≤ 8000)%Z →
  (first_drop_mm (layout config) ≤ total_drop_mm (layout config))%Z →
  layout_seg limit config = Ok seg →
  decode_segment limit st seg
  = Ok (set_layout st (mkLayoutFields (Some (cluster_type (layout config)))
                         (hundreds (first_drop_mm (layout config)) * 100)
                         (hundreds (total_drop_mm (layout config)) * 100))) ∧
  whole seg.
Proof.
  destruct config as [ca cb [ct first total] ps seed].
  cbn [layout cluster_type first_drop_mm total_drop_mm].
  intros Hf Ht Hft. unfold layout_seg. cbn [layout cluster_type first_drop_mm total_drop_mm].
  pose proof (hundreds_near first) as Hnf. pose proof (hundreds_near total) as Hnt.
  pose proof (hundreds_mono first total Hft) as Hmono.
  set (first_u := hundreds first) in *. set (total_u := hundreds total) in *.
  intros Hseg. apply rbind_Ok in Hseg as (type_id & Htype & Hseg).
  cbv zeta in Hseg.
  rewrite (bool_decide_eq_true_2 (0 ≤ first_u ≤ 99)%Z) in Hseg by lia.
  rewrite (bool_decide_eq_true_2 (0 ≤ total_u ≤ 999)%Z) in Hseg by lia.
  cbn [negb] in Hseg.
  apply rbind_Ok in Hseg as (type_str & Hts & Hseg).
  apply rbind_Ok in Hseg as (first_str & Hfs & Hseg).
  apply rbind_Ok in Hseg as (total_str & Htots & Hseg). injection Hseg as <-.
  destruct (format_two_digits first_u ltac:(lia)) as (a & b & Hfs' & Ha & Hb & Hpf).
  destruct (format_three_digits total_u ltac:(lia)) as (x & y & z & Htots' & Hx & Hy & Hz & Hpt).
  rewrite Hfs' in Hfs. injection Hfs as <-. rewrite Htots' in Htots. injection Htots as <-.
  assert (∃ t, type_str = String t EmptyString ∧ is_digit t = true ∧
               digit_value t = Some type_id ∧
               getitem CLUSTER_TYPE_MAP type_id = Ok ct) as (t & -> & Hdt & Hvt & Hct).
  { destruct ct; vm_compute in Htype; injection Htype as <-;
      vm_compute in Hts; injection Hts as <-; eexists; repeat split; reflexivity. }
  split.
  - rewrite !append_cons, !append_nil_l. unfold decode_segment.
    rewrite (decide_False (P:="L"%char = "C"%char)) by done.
    rewrite (decide_True (P:="L"%char = "L"%char)) by done.
    unfold decode_layout. cbn [String.length str_head str_drop str_take].
    rewrite decide_False by lia. cbn [rbind].
    rewrite (py_int_single t type_id Hvt). cbn [rbind]. rewrite Hpf. cbn [rbind].
    rewrite Hpt. cbn [rbind]. rewrite Hct. cbn [rbind].
    unfold new_LayoutConfig.
    rewrite (bool_decide_eq_true_2 (100 ≤ first_u * 100 ≤ 6000)%Z) by lia.
    rewrite (bool_decide_eq_true_2 (200 ≤ total_u * 100 ≤ 8000)%Z) by lia.
    rewrite (bool_decide_eq_false_2 (total_u * 100 < first_u * 100)%Z) by lia.
    reflexivity.
  - split; [|done]. rewrite !append_cons, !append_nil_l. unfold free_of.
    cbn [str_forall].
    rewrite (digit_free "." t), (digit_free "." a), (digit_free "." b),
      (digit_free "." x), (digit_free "." y), (digit_free "." z) by done.
    reflexivity.
Qed.

Lemma global_seg_decodes (config : ClusterConfig) (seg : string) (st : Decoding) :
  global_seg limit config = Ok seg →
  decode_segment limit st seg = Ok (set_random_seed st (random_seed config)) ∧ whole seg.
Proof.
  unfold global_seg. intros Hseg. apply rbind_Ok in Hseg as (seed_str & Hs & [= <-]).
  rewrite append_cons, append_nil_l. split.
  - unfold decode_segment. repeat (rewrite decide_False by done).
    rewrite decide_True by done. by rewrite (py_int_format limit _ _ Hs).
  - destruct (format_d_free "." 0 _ _ eq_refl ltac:(done) Hs) as [Hfree _].
    split; [|done]. unfold free_of in *. cbn [str_forall]. by rewrite Hfree.
Qed.
Lemma encode_pendant_decodes (p : PendantConfig) (item : string) :
  appearance p ∈ ShadeAppearance →
  encode_pendant limit p = Ok item →
  decode_pendant limit item = Ok p ∧
  free_of "-" item = true ∧ free_of "." item = true ∧ item ≠ EmptyString.
Proof.
  destruct p as [m a]. cbn [appearance]. intros Ha Hrun.
  unfold encode_pendant in Hrun. cbn [model appearance] in Hrun.
  apply rbind_Ok in Hrun as (model_id & Hm & Hrun). apply getitem_Ok in Hm.
  unfold reversed, PENDANT_MODEL_ITEMS in Hm. cbn [fmap list_fmap fst snd] in Hm.
  unfold ShadeAppearance in Ha.
  repeat (apply elem_of_cons in Ha as [->|Ha]); [..|by apply elem_of_nil in Ha];
    (repeat (apply elem_of_cons in Hm as [[= -> ->]|Hm]); [..|by apply elem_of_nil in Hm];
     vm_compute in Hrun; injection Hrun as <-;
     (split; [vm_compute; reflexivity|]);
     (split; [reflexivity|]); (split; [reflexivity|discriminate])).
Qed.

Lemma encode_items_Ok (ps : list PendantConfig) (acc items : list string) :
  for_each (λ items p, (let? item := encode_pendant limit p in Ok (items ++ [item]))%res)
           ps acc = Ok items →
  ∃ new, items = acc ++ new ∧
         Forall2 (λ p item, encode_pendant limit p = Ok item) ps new.
Proof.
  revert acc. induction ps as [|p ps IH]; intros acc; cbn [for_each].
  - intros [= <-]. exists []. by rewrite app_nil_r.
  - intros Hrun. apply rbind_Ok in Hrun as (acc' & Hstep & Hrun).
    apply rbind_Ok in Hstep as (item & Hitem & [= <-]).
    destruct (IH _ Hrun) as (new & -> & Hall).
    exists (item :: new). split; [by rewrite <- app_assoc|]. by constructor.
Qed.

Lemma decode_items_Ok (tokens : list string) (ps acc : list PendantConfig) :
  Forall2 (λ token p, decode_pendant limit token = Ok p) tokens ps →
  for_each (λ pendants token,
              (let? p := decode_pendant limit token in Ok (pendants ++ [p]))%res)
           tokens acc = Ok (acc ++ ps).
Proof.
  intros Hall. revert acc. induction Hall as [|token p tokens ps Hp _ IH]; intros acc.
  - cbn. by rewrite app_nil_r.
  - cbn [for_each]. rewrite Hp. cbn [rbind]. rewrite IH. by rewrite <- app_assoc.
Qed.

Lemma encoded_items_decode (ps : list PendantConfig) (items : list string) :
  Forall2 (λ p item, encode_pendant limit p = Ok item) ps items →
  Forall (λ p, appearance p ∈ ShadeAppearance) ps →
  Forall2 (λ token p, decode_pendant limit token = Ok p) items ps ∧
  Forall (λ item, free_of "-" item = true) items ∧
  Forall (λ item, free_of "." item = true) items ∧
  Forall (λ item, item ≠ EmptyString) items.
Proof.
  induction 1 as [|p item ps items Hp _ IH]; intros Hshade.
  - repeat split; constructor.
  - apply Forall_cons in Hshade as [Ha Hshade].
    destruct (IH Hshade) as (H1 & H2 & H3 & H4).
    destruct (encode_pendant_decodes p item Ha Hp) as (G1 & G2 & G3 & G4).
    repeat split; by constructor.
Qed.

Lemma free_of_join (sep : ascii) (glue : string) (parts : list string) :
  free_of sep glue = true → Forall (λ p, free_of sep p = true) parts →
  free_of sep (join glue parts) = true.
Proof.
  intros Hglue Hall. induction Hall as [|p parts Hp Hall IH]; [done|].
  destruct parts as [|q parts]; [done|].
  rewrite join_cons. unfold free_of in *. rewrite !str_forall_app.
  by rewrite Hp, Hglue, IH.
Qed.

Lemma pendant_seg_decodes (config : ClusterConfig) (seg : string) (st : Decoding) :
  Forall (λ p, appearance p ∈ ShadeAppearance) (pendants config) →
  pendant_seg limit config = Ok seg →
  decode_segment limit st seg = Ok (set_pendants st (pendants config)) ∧ whole seg.
Proof.
  intros Hshade. unfold pendant_seg. intros Hseg.
  apply rbind_Ok in Hseg as (items & Hitems & Hseg).
  apply rbind_Ok in Hseg as (count_str & Hcount & [= <-]).
  apply encode_items_Ok in Hitems as (new & -> & Hall). rewrite app_nil_l in *.
  destruct (encoded_items_decode _ _ Hall Hshade) as (Hdec & Hdash & Hdot & Hne).
  pose proof (Forall2_length _ _ _ Hall) as Hlen.
  destruct (format_d_digits _ _ (Nat2Z.is_nonneg _) Hcount) as [Hcd Hcne].
  rewrite append_cons, append_nil_l. split.
  - unfold decode_segment. repeat (rewrite decide_False by done).
    rewrite decide_True by done.
    unfold decode_pendants.
    rewrite (append_cons "-"), append_nil_l.
    rewrite split_once_app by by apply digits_free.
    cbn [unpack_pair rbind]. rewrite (py_int_format limit _ _ Hcount). cbn [rbind].
    assert (Htokens : (if decide (join "-" new = EmptyString) then []
                       else split_on "-" (join "-" new)) = new).
    { destruct new as [|item new]; [done|].
      rewrite decide_False.
      - apply (split_on_join "-"); [done|exact Hdash].
      - apply (join_nonempty _ _ item); [apply list_elem_of_here|].
        by apply Forall_cons in Hne as [? _]. }
    rewrite Htokens. rewrite decide_False by (intros Hc; apply Hc; reflexivity).
    rewrite (decode_items_Ok _ _ _ Hdec). reflexivity.
  - split; [|done].
    assert (Hc : free_of "." count_str = true) by by apply digits_free.
    assert (Hj : free_of "." (join "-" new) = true) by by apply (free_of_join "." "-").
    unfold free_of in *. cbn [str_forall]. rewrite !str_forall_app, Hc, Hj. reflexivity.
Qed.
Lemma filter_all {A} (P : A → Prop) `{∀ x, Decision (P x)} (xs : list A) :
  Forall P xs → filter P xs = xs.
Proof.
  induction 1 as [|x xs Hx _ IH]; [done|]. by rewrite filter_cons_True, IH.
Qed.

(** Decoding the five segments the encoder joins. *)
Lemma encoded_config_decodes (config : ClusterConfig) (code : string) :
  valid_config config → pendants config ≠ [] →
  encode_config_to_code limit config = Ok code →
  decode_code_to_config limit code = Ok (rounded config, []) ∧
  ((100 | first_drop_mm (layout config))%Z → (100 | total_drop_mm (layout config))%Z →
   rounded config = config).
Proof.
  intros (Hf & Ht & Hft & Hseed & Hca & Hcb & Hshade) Hps Hcode. split.
  - unfold encode_config_to_code in Hcode.
    apply rbind_Ok in Hcode as (cseg & Hc & Hcode).
    apply rbind_Ok in Hcode as (lseg & Hl & Hcode).
    apply rbind_Ok in Hcode as (bseg & Hb & Hcode).
    apply rbind_Ok in Hcode as (pseg & Hp & Hcode).
    apply rbind_Ok in Hcode as (gseg & Hg & Hcode).
    assert (code = join "." [cseg; lseg; bseg; pseg; gseg]) as ->
        by (injection Hcode as <-; reflexivity).
    clear Hcode.
    set (st0 := mkDecoding None None None [] 0).
    pose proof (λ st, canopy_seg_decodes config cseg st Hca Hc) as H1.
    pose proof (λ st, layout_seg_decodes config lseg st Hf Ht Hft Hl) as H2.
    pose proof (λ st, cable_seg_decodes config bseg st Hcb Hb) as H3.
    pose proof (λ st, pendant_seg_decodes config pseg st Hshade Hp) as H4.
    pose proof (λ st, global_seg_decodes config gseg st Hg) as H5.
    destruct (H1 st0) as [_ [Hw1 Hn1]]. destruct (H2 st0) as [_ [Hw2 Hn2]].
    destruct (H3 st0) as [_ [Hw3 Hn3]]. destruct (H4 st0) as [_ [Hw4 Hn4]].
    destruct (H5 st0) as [_ [Hw5 Hn5]].
    unfold decode_code_to_config.
    rewrite decide_False.
    2:{ apply (join_nonempty _ _ cseg); [apply list_elem_of_here|done]. }
    rewrite (split_on_join "." [cseg; lseg; bseg; pseg; gseg]) by (done || by repeat constructor).
    rewrite filter_all by by repeat constructor.
    cbn [for_each]. rewrite (proj1 (H1 _)). cbn [rbind]. rewrite (proj1 (H2 _)). cbn [rbind].
    rewrite (proj1 (H3 _)). cbn [rbind]. rewrite (proj1 (H4 _)). cbn [rbind].
    rewrite (proj1 (H5 _)). cbn [rbind].
    cbn [set_random_seed set_pendants set_cable set_layout set_canopy decoded_canopy
         decoded_layout decoded_cable decoded_pendants decoded_random_seed].
    destruct (pendants config) as [|p ps] eqn:Hpe; [done|].
    unfold new_ClusterConfig. rewrite bool_decide_eq_true_2 by done.
    cbn [given_cluster_type given_first_drop_mm given_total_drop_mm].
    unfold rounded. by rewrite Hpe.
  - intros [k Hk] [m Hm]. unfold rounded. rewrite Hk, Hm.
    rewrite !(Z.mul_comm _ 100), !hundreds_exact.
    destruct config as [c b [ct ? ?] ps seed]. cbn in *. subst.
    by rewrite (Z.mul_comm 100 k), (Z.mul_comm 100 m).
Qed.

(** X15 (encode_config_to_code, then decode_code_to_config).  The code of a
    valid configuration with at least one pendant decodes to that
    configuration with both drops rounded to the nearest multiple of 100
    (ties to the even hundred), and with no default applied.  A
    configuration whose drops are multiples of 100 is returned unchanged. *)
Theorem encode_then_decode (config : ClusterConfig) (code : string) :
  valid_config config → pendants config ≠ [] →
  encode_config_to_code limit config = Ok code →
  decode_code_to_config limit code = Ok (rounded config, []) ∧
  ((100 | first_drop_mm (layout config))%Z → (100 | total_drop_mm (layout config))%Z →
   rounded config = config).
Proof. apply encoded_config_decodes. Qed.
End RoundTrip.

(** *** The canonical code, unknown segments, and the pendant library *)
Section CanonicalFacts.
Variable limit : nat.

(** X16 (decode_code_to_hash_inputs).  The canonical code is a fixed point:
    when a code decodes and re-encodes to [canonical_code] with
    configuration [config], decoding [canonical_code] gives [config]
    again, with no default applied, and re-encodes to itself. *)
Theorem canonical_code_fixed (code canonical_code : string) (config : ClusterConfig) :
  decode_code_to_hash_inputs limit code = Ok (canonical_code, config) →
  decode_code_to_config limit canonical_code = Ok (config, []) ∧
  decode_code_to_hash_inputs limit canonical_code = Ok (canonical_code, config).
Proof.
  unfold decode_code_to_hash_inputs at 1. intros Hrun.
  apply rbind_Ok in Hrun as ([config' defaults] & Hdec & Hrun).
  apply rbind_Ok in Hrun as (canon & Henc & [= <- <-]).
  destruct (decoded_config_ok limit _ _ _ Hdec) as (Hv & Hne & _ & Hf & Ht).
  destruct (encoded_config_decodes limit _ _ Hv Hne Henc) as [Hback Hsame].
  rewrite (Hsame Hf Ht) in Hback.
  split; [exact Hback|].
  unfold decode_code_to_hash_inputs. rewrite Hback. cbn [rbind]. by rewrite Henc.
Qed.

Lemma split_pieces_app (sep : ascii) (a b : string) :
  split_pieces sep (a +:+ String sep b)
  = ((split_pieces sep a).1, (split_pieces sep a).2 ++ split_on sep b).
Proof.
  induction a as [|c a IH].
  - rewrite append_nil_l. unfold split_on. cbn [split_pieces].
    destruct (split_pieces sep b) as [piece rest]. by rewrite decide_True.
  - rewrite append_cons. cbn [split_pieces]. rewrite IH.
    destruct (split_pieces sep a) as [piece rest]. cbn [fst snd].
    by destruct (decide (c = sep)).
Qed.

(** [(a + sep + b).split(sep) == a.split(sep) + b.split(sep)]. *)
Lemma split_on_app_any (sep : ascii) (a b : string) :
  split_on sep (a +:+ String sep b) = split_on sep a ++ split_on sep b.
Proof.
  unfold split_on at 1 2. rewrite split_pieces_app.
  by destruct (split_pieces sep a) as [piece rest].
Qed.

(** The prefix letters the loop has a branch for. *)
Definition known_prefixes : list ascii := ["C"; "L"; "B"; "P"; "G"]%char.

(** A segment the loop passes over: an empty one, or one whose first
    letter has no branch. *)
Definition passed_over (seg : string) : Prop :=
  match seg with
  | EmptyString => True
  | String prefix _ => prefix ∉ known_prefixes
  end.

Lemma decode_segment_unknown (st : Decoding) (prefix : ascii) (body : string) :
  prefix ∉ known_prefixes → decode_segment limit st (String prefix body) = Ok st.
Proof.
  unfold known_prefixes. intros Hp. cbn [decode_segment].
  repeat (rewrite decide_False; [|intros ->; apply Hp; set_solver]). reflexivity.
Qed.

Lemma decode_segments_passed_over (seg : string) (before after : list string)
      (st : Decoding) :
  free_of "." seg = true → passed_over seg →
  for_each (decode_segment limit)
           (filter (λ s, s ≠ EmptyString) (before ++ split_on "." seg ++ after)) st
  = for_each (decode_segment limit) (filter (λ s, s ≠ EmptyString) (before ++ after)) st.
Proof.
  intros Hfree Hpass. rewrite (split_on_free _ _ Hfree).
  rewrite !filter_app, !for_each_app. destruct (for_each _ _ st) as [st1|e]; [|done].
  cbn [rbind]. destruct seg as [|prefix body].
  - by rewrite filter_cons_False, filter_nil by (by intros ?).
  - rewrite filter_cons_True, filter_nil by done. cbn [app for_each].
    by rewrite decode_segment_unknown.
Qed.

(** X17 (decode_code_to_config, unknown segments).  A segment that is empty
    or starts with a letter other than C, L, B, P, G is passed over: the
    decoder returns the same for a code with such a segment put in front
    of it, after it, or between two of its parts. *)
Theorem unknown_segment_ignored (seg : string) :
  free_of "." seg = true → passed_over seg →
  (∀ code, code ≠ EmptyString →
           decode_code_to_config limit (code +:+ "." +:+ seg)
           = decode_code_to_config limit code) ∧
  (∀ code, code ≠ EmptyString →
           decode_code_to_config limit (seg +:+ "." +:+ code)
           = decode_code_to_config limit code) ∧
  (∀ left right, left ≠ EmptyString →
                 decode_code_to_config limit (left +:+ "." +:+ seg +:+ "." +:+ right)
                 = decode_code_to_config limit (left +:+ "." +:+ right)).
Proof.
  intros Hfree Hpass.
  assert (Hcons : ∀ a b, a ≠ EmptyString → a +:+ b ≠ EmptyString).
  { intros [|c a] b Ha; [done|]. by rewrite append_cons. }
  repeat split.
  - intros code Hcode. unfold decode_code_to_config.
    rewrite !decide_False by (done || by apply Hcons).
    rewrite (append_cons "."), append_nil_l, split_on_app_any. cbv zeta.
    pose proof (decode_segments_passed_over seg (split_on "." code) []
                  (mkDecoding None None None [] 0) Hfree Hpass) as Hskip.
    rewrite !app_nil_r in Hskip. by rewrite Hskip.
  - intros code Hcode. unfold decode_code_to_config.
    rewrite (decide_False (P:=code = EmptyString)) by done.
    rewrite decide_False.
    2:{ rewrite (append_cons "."), append_nil_l. by destruct seg. }
    rewrite (append_cons "."), append_nil_l, split_on_app_any. cbv zeta.
    pose proof (decode_segments_passed_over seg [] (split_on "." code)
                  (mkDecoding None None None [] 0) Hfree Hpass) as Hskip.
    cbn [app] in Hskip. by rewrite Hskip.
  - intros l r Hl. unfold decode_code_to_config.
    rewrite !decide_False by by apply Hcons.
    rewrite !(append_cons "."), !append_nil_l, !split_on_app_any. cbv zeta.
    by rewrite (decode_segments_passed_over seg (split_on "." l) (split_on "." r)
                 (mkDecoding None None None [] 0) Hfree Hpass).
Qed.

(** The model keys the codec accepts and the library does not hold. *)
Definition missing_models : list string := ["oliv"; "moon32"; "disc32"].

Lemma codec_models_in_library :
  forallb (λ m, bool_decide (bool_decide (m ∈ PENDANT_LIBRARY)
                             = negb (bool_decide (m ∈ missing_models))))
          codec_models = true.
Proof. vm_compute. reflexivity. Qed.

(** X18 (decode_code_to_config against get_pendant_path).  In a decoded
    configuration, [get_pendant_path] raises [ValueError] for exactly the
    pendants whose model is "oliv", "moon32" or "disc32" (model ids 4, 9
    and 20): the codec accepts these three keys, the library has no file
    for them; every other decoded model is a library key. *)
Theorem decoded_models_and_library (code : string) (config : ClusterConfig)
        (defaults_applied : list string) :
  decode_code_to_config limit code = Ok (config, defaults_applied) →
  Forall (λ p, (get_pendant_path (model p) = Raise ValueError ↔ model p ∈ missing_models) ∧
               (get_pendant_path (model p) = Ok (model p) ↔ model p ∉ missing_models))
         (pendants config).
Proof.
  intros Hdec.
  destruct (decoded_config_ok limit _ _ _ Hdec) as (_ & _ & Hmodels & _).
  eapply Forall_impl; [exact Hmodels|]. cbv beta. intros p Hp.
  pose proof codec_models_in_library as Hall. rewrite forallb_forall in Hall.
  specialize (Hall (model p) (proj1 (list_elem_of_In _ _) Hp)).
  apply bool_decide_eq_true in Hall. unfold get_pendant_path.
  destruct (decide (model p ∈ PENDANT_LIBRARY)) as [Hin|Hout].
  - rewrite (bool_decide_eq_true_2 _ Hin) in Hall. symmetry in Hall.
    apply negb_true_iff, bool_decide_eq_false in Hall. split; split; done.
  - rewrite (bool_decide_eq_false_2 _ Hout) in Hall. symmetry in Hall.
    apply negb_false_iff, bool_decide_eq_true in Hall. split; split; done.
Qed.
End CanonicalFacts.

(** Concrete runs of the codec, with CPython's default digit limit. *)
Module CodecRun.

Definition sample_config : ClusterConfig :=
  mkClusterConfig (mkCanopyConfig size_s "canopy_white") (mkCableConfig "cable_black")
                  (mkLayoutConfig RING_WITH_CENTER 1400 2000)
                  [mkPendantConfig "denny" "shade_natural";
                   mkPendantConfig "moon10" "shade_white"] 7.

Lemma sample_decodes :
  decode_code_to_config 4300 "C01.L114020.B0.P2-0,0-5,2.G7" = Ok (sample_config, []).
Proof. vm_compute. reflexivity. Qed.

Lemma decode_code_to_config_valid_witness :
  valid_config sample_config ∧ pendants sample_config ≠ [].
Proof.
  destruct (decode_code_to_config_valid 4300 _ _ _ sample_decodes) as (Hv & Hne & _).
  split; [exact Hv|exact Hne].
Defined.

Definition odd_drops : ClusterConfig :=
  mkClusterConfig (mkCanopyConfig size_m "canopy_black") (mkCableConfig "cable_white")
                  (mkLayoutConfig RING 1450 2375)
                  [mkPendantConfig "alki" "shade_blonde"] 12345.

Lemma odd_drops_valid : valid_config odd_drops.
Proof.
  unfold valid_config, odd_drops. cbn.
  repeat split; try lia; repeat constructor.
Qed.

Lemma odd_drops_encodes :
  encode_config_to_code 4300 odd_drops = Ok "C10.L014024.B1.P1-1,1.G12345".
Proof. vm_compute. reflexivity. Qed.

Lemma encode_then_decode_witness :
  decode_code_to_config 4300 "C10.L014024.B1.P1-1,1.G12345" = Ok (rounded odd_drops, []).
Proof.
  exact (proj1 (encode_then_decode 4300 odd_drops _ odd_drops_valid ltac:(discriminate)
                                   odd_drops_encodes)).
Defined.

Definition loose_config : ClusterConfig :=
  mkClusterConfig (mkCanopyConfig size_m "canopy_white") (mkCableConfig "cable_black")
                  (mkLayoutConfig RING 1400 2000)
                  [mkPendantConfig "madison" "shade_blonde"] 5.

Lemma loose_code_canonical :
  decode_code_to_hash_inputs 4300 "P1-3,1.C1 1.G 5 .Zx."
  = Ok ("C11.L014020.B0.P1-3,1.G5", loose_config).
Proof. vm_compute. reflexivity. Qed.

Lemma canonical_code_fixed_witness :
  decode_code_to_hash_inputs 4300 "C11.L014020.B0.P1-3,1.G5"
  = Ok ("C11.L014020.B0.P1-3,1.G5", loose_config).
Proof. exact (proj2 (canonical_code_fixed 4300 _ _ _ loose_code_canonical)). Defined.

Lemma zx_passed_over : passed_over "Zx".
Proof. unfold passed_over. apply (bool_decide_eq_false_1 _). vm_compute. reflexivity. Qed.

Lemma unknown_segment_ignored_witness :
  decode_code_to_config 4300 ("C00.P1-0,0" +:+ "." +:+ "Zx")
  = decode_code_to_config 4300 "C00.P1-0,0".
Proof.
  apply (proj1 (unknown_segment_ignored 4300 "Zx" eq_refl zx_passed_over)).
  discriminate.
Defined.

Definition oliv_config : ClusterConfig :=
  mkClusterConfig (mkCanopyConfig size_s "canopy_black") (mkCableConfig "cable_black")
                  (mkLayoutConfig RING 1400 2000)
                  [mkPendantConfig "oliv" "shade_natural"] 0.

Lemma oliv_decodes :
  decode_code_to_config 4300 "C00.P1-4,0"
  = Ok (oliv_config, ["layout defaulted"; "cable defaulted"; "layout.cluster_type defaulted"]).
Proof. vm_compute. reflexivity. Qed.

Lemma decoded_models_and_library_witness :
  get_pendant_path "oliv" = Raise ValueError ↔ "oliv" ∈ missing_models.
Proof.
  pose proof (decoded_models_and_library 4300 _ _ _ oliv_decodes) as Hall.
  apply Forall_cons in Hall as [[Hiff _] _]. exact Hiff.
Defined.
End CodecRun.

(** ** The container cannot fail half way *)


(** ** Cables over the reals: the cylinder spans the segment *)
Module CableReal.
Import RealModel RealFacts.
Local Open Scope R_scope.

(** The half turn about the X axis and the identity, as maps of points. *)
Lemma half_turn_point (p : Point3d R) :
  transform_point (Rotation pi (mkVector3d (of_Z 1) (of_Z 0) (of_Z 0))
                            (mkPoint3d (of_Z 0) (of_Z 0) (of_Z 0))) p
  = mkPoint3d (ptX p) (- ptY p) (- ptZ p).
Proof.
  cbn [transform_point rhino_R euclid_rhino euclid_transform pi libm_R cos sin].
  unfold euclid_unitize, euclid_length, cross.
  cbn [vecX vecY vecZ ptX ptY ptZ fadd fsub fmul fdiv fltb float_R].
  rewrite !of_Z_R, cos_PI, sin_PI.
  replace (1 * 1 + 0 * 0 + 0 * 0) with 1 by ring. rewrite sqrt_1.
  unfold Rltb. destruct (Rlt_dec 0 1) as [_|Hn]; [|exfalso; apply Hn; lra].
  cbn [vecX vecY vecZ]. f_equal; field.
Qed.

Lemma unitize_vertical (drop : R) :
  drop ≠ 0 →
  Unitize (mkVector3d 0 0 (- drop))
  = mkVector3d 0 0 (if Rlt_dec 0 drop then -1 else 1).
Proof.
  intros Hd. cbn [Unitize rhino_R euclid_rhino]. unfold euclid_unitize, euclid_length.
  cbn [vecX vecY vecZ fadd fsub fmul fdiv fltb float_R].
  replace (0 * 0 + 0 * 0 + - drop * - drop) with (Rsqr drop) by (unfold Rsqr; ring).
  rewrite sqrt_Rsqr_abs, !of_Z_R.
  assert (0 < Rabs drop) as Habs by by apply Rabs_pos_lt.
  unfold Rltb. destruct (Rlt_dec 0 (Rabs drop)) as [_|Hn]; [|done].
  destruct (Rlt_dec 0 drop) as [Hpos|Hneg].
  - rewrite (Rabs_right drop) by lra. f_equal; field; lra.
  - rewrite (Rabs_left drop) by lra. f_equal; field; lra.
Qed.

Lemma rotation_of_vertical (drop : R) :
  drop ≠ 0 →
  _rotation_from_z (mkVector3d 0 0 (- drop))
  = if Rlt_dec 0 drop
    then AsTransform (Rotation pi (mkVector3d (of_Z 1) (of_Z 0) (of_Z 0))
                               (mkPoint3d (of_Z 0) (of_Z 0) (of_Z 0)))
    else IdentityMethod.
Proof.
  intros Hd. unfold _rotation_from_z. rewrite (unitize_vertical drop Hd).
  cbn [vecX vecY vecZ]. unfold fmax, fmin.
  cbn [fadd fsub fmul fdiv fltb fabs float_R of_frac]. rewrite !of_Z_R.
  unfold Rltb.
  destruct (Rlt_dec 0 drop) as [Hpos|Hneg].
  - replace (0 * 0 + 0 * 0 + 1 * -1) with (-1) by ring.
    destruct (Rlt_dec (-1) (IZR 1 / IZR 1)) as [_|Hn]; [|exfalso; lra].
    destruct (Rlt_dec (IZR (-1) / IZR 1) (-1)) as [Hn|_]; [exfalso; lra|].
    replace (IZR (-1) / IZR 1 - IZR 1 / IZR 1) with (-2) by field.
    replace (IZR (-1) / IZR 1 + IZR 1 / IZR 1) with 0 by field.
    rewrite Rabs_R0, (Rabs_left (-2)) by lra.
    destruct (Rlt_dec (- -2) (IZR 1 / IZR 100000000)) as [Hn|_]; [exfalso; lra|].
    destruct (Rlt_dec 0 (IZR 1 / IZR 100000000)) as [_|Hn]; [reflexivity|exfalso; lra].
  - replace (0 * 0 + 0 * 0 + 1 * 1) with 1 by ring.
    destruct (Rlt_dec 1 (IZR 1 / IZR 1)) as [Hn|_]; [exfalso; lra|].
    destruct (Rlt_dec (IZR (-1) / IZR 1) (IZR 1 / IZR 1)) as [_|Hn]; [|exfalso; lra].
    replace (IZR 1 / IZR 1 - IZR 1 / IZR 1) with 0 by field.
    rewrite Rabs_R0.
    destruct (Rlt_dec 0 (IZR 1 / IZR 100000000)) as [_|Hn]; [reflexivity|exfalso; lra].
Qed.

(** A vertical segment that is not degenerate has a drop other than 0. *)
Lemma vertical_drop (pl : PendantPlacement R) :
  ptX (end_ pl) = ptX (start pl) → ptY (end_ pl) = ptY (start pl) →
  degenerate pl = false →
  let drop := ptZ (start pl) - ptZ (end_ pl) in
  segment pl = mkVector3d 0 0 (- drop) ∧ segment_length pl = Rabs drop ∧ drop ≠ 0.
Proof.
  intros Hx Hy Hdeg drop.
  assert (segment pl = mkVector3d 0 0 (- drop)) as Hseg.
  { unfold segment, drop. cbn [fsub float_R]. rewrite Hx, Hy. f_equal; ring. }
  assert (segment_length pl = Rabs drop) as Hlen.
  { unfold segment_length. rewrite Hseg. cbn [Length rhino_R euclid_rhino].
    unfold euclid_length. cbn [vecX vecY vecZ fadd fmul float_R].
    rewrite <- sqrt_Rsqr_abs. f_equal. unfold Rsqr. ring. }
  split; [done|]. split; [done|]. intros Hz.
  unfold degenerate in Hdeg. rewrite Hlen, Hz, Rabs_R0 in Hdeg.
  cbn [fltb float_R of_frac] in Hdeg. unfold Rltb in Hdeg.
  destruct (Rlt_dec 0 (IZR 1 / IZR 1000000)) as [_|Hn]; [done|]. apply Hn. lra.
Qed.

(** Of the vertical segments that get a cable, [_rotation_from_z] returns
    the method [Identity] exactly for those that end above their start. *)
Lemma points_up_vertical (pl : PendantPlacement R) :
  ptX (end_ pl) = ptX (start pl) → ptY (end_ pl) = ptY (start pl) →
  degenerate pl = false →
  (_rotation_from_z (segment pl) = IdentityMethod ↔ ptZ (start pl) < ptZ (end_ pl)) ∧
  (points_up pl = false ↔ ptZ (end_ pl) < ptZ (start pl)).
Proof.
  intros Hx Hy Hdeg. destruct (vertical_drop pl Hx Hy Hdeg) as (Hseg & _ & Hd).
  unfold points_up. rewrite Hseg, (rotation_of_vertical _ Hd).
  destruct (Rlt_dec 0 (ptZ (start pl) - ptZ (end_ pl))) as [Hpos|Hneg].
  - split; (split; [intros; try done; lra|intros; try done; lra]).
  - split; (split; [intros; try done; lra|intros; try done; lra]).
Qed.

(** Where the half turn and the translation of a hanging cable take a point
    of the cylinder. *)
Lemma cable_point (pl : PendantPlacement R) (p : Point3d R) :
  transform_point (Translation (ptX (start pl)) (ptY (start pl)) (ptZ (start pl)))
                  (transform_point
                     (Rotation pi (mkVector3d (of_Z 1) (of_Z 0) (of_Z 0))
                               (mkPoint3d (of_Z 0) (of_Z 0) (of_Z 0))) p)
  = mkPoint3d (ptX p + ptX (start pl)) (- ptY p + ptY (start pl))
              (- ptZ p + ptZ (start pl)).
Proof. by rewrite half_turn_point. Qed.

Lemma cable_vertices (pl : PendantPlacement R) :
  ptX (end_ pl) = ptX (start pl) → ptY (end_ pl) = ptY (start pl) →
  degenerate pl = false → ptZ (end_ pl) < ptZ (start pl) →
  ∃ ring, Vertices (cable_value pl) = ring ++ [start pl; end_ pl] ∧
          length ring = 64%nat ∧
          Forall (λ v, (ptZ v = ptZ (start pl) ∨ ptZ v = ptZ (end_ pl)) ∧
                       Rsqr (ptX v - ptX (start pl)) + Rsqr (ptY v - ptY (start pl))
                       = Rsqr CABLE_RADIUS_MM) ring.
Proof.
  intros Hx Hy Hdeg Hdown.
  destruct (vertical_drop pl Hx Hy Hdeg) as (Hseg & Hlen & Hd).
  pose proof (cable_point pl) as Hpt.
  unfold cable_value. rewrite Hseg, (rotation_of_vertical _ Hd).
  destruct (Rlt_dec 0 (ptZ (start pl) - ptZ (end_ pl))) as [_|Hn]; [|exfalso; lra].
  unfold transform_mesh, cylinder_value. cbn [Vertices].
  rewrite <- list_fmap_compose, fmap_app.
  eexists. split; [f_equal|split].
  - cbn [fmap list_fmap compose]. rewrite !Hpt. rewrite Hlen, !of_Z_R.
    cbn [ptX ptY ptZ].
    destruct (start pl) as [sx sy sz] eqn:Hs, (end_ pl) as [ex ey ez] eqn:He.
    cbn [ptX ptY ptZ] in *. subst ex ey.
    rewrite (Rabs_right (sz - ez)) by lra. repeat f_equal; ring.
  - rewrite length_fmap, (length_flat_map_const _ 2%nat) by done. by rewrite length_seq.
  - apply Forall_fmap, Forall_flat_map, Forall_forall. intros i _.
    repeat apply Forall_cons_2; [| |apply Forall_nil_2].
    all: unfold compose; rewrite Hpt; rewrite ?Hlen, ?of_Z_R.
    all: cbn [ptX ptY ptZ fmul float_R].
    all: (split; [first [left; lra|right; rewrite Rabs_right by lra; lra]|]).
    all: cbn [cos sin libm_R].
    all: match goal with
         | |- context [Rtrigo_def.cos ?a] =>
             pose proof (sin2_cos2 a) as Hsc; unfold Rsqr in Hsc |- *;
             set (c := Rtrigo_def.cos a) in *; set (s := Rtrigo_def.sin a) in *;
             transitivity (CABLE_RADIUS_MM * CABLE_RADIUS_MM * (s * s + c * c));
             [ring|rewrite Hsc; ring]
         end.
Qed.

(** X20 (build_cables_from_placements with _rotation_from_z and
    create_cylinder_mesh, over the reals).  When every placement ends
    straight below or above its start and the call returns, every placement
    that got a cable ends below its start (a cabled placement that ends
    above its start makes the call raise [TypeError] instead), and its cable
    is a mesh of 66 vertices whose last two are the start and the end of the
    placement (the centres of the two caps), and whose 64 ring vertices lie
    at the height of the start or of the end, at the cable radius from the
    vertical line through the start: the cylinder spans exactly the
    segment. *)
Theorem vertical_cables_span_segments
        (placements : list (PendantPlacement R)) (w w' : World R)
        (cable_meshes : list loc) (ends : list (Point3d R)) :
  (∀ pl, pl ∈ placements →
         ptX (end_ pl) = ptX (start pl) ∧ ptY (end_ pl) = ptY (start pl)) →
  build_cables_from_placements placements w = (Ok (cable_meshes, ends), w') →
  ∀ i pl, with_cable placements !! i = Some pl →
    ptZ (end_ pl) < ptZ (start pl) ∧
    ∃ cyl m ring,
      cable_meshes !! i = Some cyl ∧ heap w' !! cyl = Some m ∧
      Vertices m = ring ++ [start pl; end_ pl] ∧ length ring = 64%nat ∧
      Forall (λ v, (ptZ v = ptZ (start pl) ∨ ptZ v = ptZ (end_ pl)) ∧
                   Rsqr (ptX v - ptX (start pl)) + Rsqr (ptY v - ptY (start pl))
                   = Rsqr CABLE_RADIUS_MM) ring.
Proof.
  intros Hvert Hrun i pl Hi.
  apply build_cables_from_placements_Ok in Hrun as (Hno & -> & -> & ->).
  assert (pl ∈ with_cable placements) as Hpl by by eapply list_elem_of_lookup_2.
  assert (points_up pl = false) as Hup.
  { apply not_true_is_false. intros Hup.
    assert (existsb points_up (with_cable placements) = true); [|congruence].
    apply existsb_exists. exists pl. split; [by apply list_elem_of_In|done]. }
  unfold with_cable in Hpl. apply list_elem_of_filter in Hpl as [Hdeg Hin].
  destruct (Hvert pl Hin) as [Hx Hy].
  apply (points_up_vertical pl Hx Hy Hdeg) in Hup.
  split; [exact Hup|].
  destruct (cable_vertices pl Hx Hy Hdeg Hup) as (ring & Hv & Hlen & Hring).
  exists (length (heap w) + i)%nat, (cable_value pl), ring.
  split; [|split; [|done]].
  - apply lookup_seq. split; [done|]. by eapply lookup_lt_Some.
  - rewrite heap_set_heap, lookup_app_r by lia.
    replace (length (heap w) + i - length (heap w))%nat with i by lia.
    by rewrite list_lookup_fmap, Hi.
Qed.

(** A vertical placement that gets a cable and ends above its start makes
    the call raise [TypeError]. *)
Lemma upward_cable_raises (placements : list (PendantPlacement R)) (w : World R)
      (pl : PendantPlacement R) :
  pl ∈ with_cable placements →
  ptX (end_ pl) = ptX (start pl) → ptY (end_ pl) = ptY (start pl) →
  ptZ (start pl) < ptZ (end_ pl) →
  (build_cables_from_placements placements w).1 = Raise TypeError.
Proof.
  intros Hpl Hx Hy Hup. rewrite build_cables_from_placements_run.
  rewrite (proj2 (existsb_exists _ _)); [done|].
  exists pl. split; [by apply list_elem_of_In|].
  unfold with_cable in Hpl. apply list_elem_of_filter in Hpl as [Hdeg _].
  apply (points_up_vertical pl Hx Hy Hdeg) in Hup. unfold points_up. by rewrite Hup.
Qed.
End CableReal.

Module CableRealRun.
Import RealModel RealFacts PlacementReal CableReal.
Local Open Scope R_scope.

(** A pendant hanging 1400 below the attachment point (110, 0, -40). *)
Definition hanging : PendantPlacement R :=
  mkPendantPlacement (mkPendantConfig "denny" "shade_natural")
                     (mkPoint3d 110 0 (-40)) (mkPoint3d 110 0 (-40 - 1400)) [].

Lemma hanging_has_cable : with_cable [hanging] = [hanging].
Proof.
  assert (degenerate hanging = false) as Hdeg.
  { unfold degenerate.
    destruct (vertical_segment hanging 1400 eq_refl) as (_ & _ & _ & ->).
    cbn [fltb float_R of_frac]. unfold Rltb. rewrite Rabs_right by lra.
    destruct (Rlt_dec 1400 (IZR 1 / IZR 1000000)) as [Hlt|_]; [exfalso; lra|done]. }
  unfold with_cable. by rewrite filter_cons_True, filter_nil.
Qed.

Lemma hanging_run :
  build_cables_from_placements [hanging] real_world
  = (Ok ([0%nat], [end_ hanging]), set_heap [cable_value hanging] real_world).
Proof.
  rewrite build_cables_from_placements_run, hanging_has_cable.
  assert (points_up hanging = false) as Hup.
  { apply (points_up_vertical hanging eq_refl eq_refl).
    - assert (hanging ∈ with_cable [hanging]) as Hin
          by (rewrite hanging_has_cable; apply list_elem_of_here).
      unfold with_cable in Hin. by apply list_elem_of_filter in Hin as [Hdeg _].
    - cbn [hanging start end_ ptZ]. lra. }
  cbn [existsb reached]. rewrite Hup. reflexivity.
Qed.

Lemma vertical_cables_span_segments_witness :
  -40 - 1400 < -40 ∧
  ∃ m ring,
    heap (snd (build_cables_from_placements [hanging] real_world)) !! 0%nat = Some m ∧
    Vertices m = ring ++ [mkPoint3d 110 0 (-40); mkPoint3d 110 0 (-40 - 1400)] ∧
    length ring = 64%nat.
Proof.
  assert (∀ pl, pl ∈ [hanging] →
                ptX (end_ pl) = ptX (start pl) ∧ ptY (end_ pl) = ptY (start pl)) as Hvert.
  { intros pl ->%list_elem_of_singleton. by split. }
  assert (with_cable [hanging] !! 0%nat = Some hanging) as Hi
      by (rewrite hanging_has_cable; reflexivity).
  destruct (vertical_cables_span_segments [hanging] real_world _ _ _ Hvert
              hanging_run 0%nat hanging Hi)
    as (Hdown & cyl & m & ring & Hcyl & Hm & Hv & Hlen & _).
  split; [exact Hdown|].
  injection Hcyl as <-.
  exists m, ring. rewrite hanging_run. by split.
Defined.
End CableRealRun.

(** ** Re-encoding a decoded configuration *)

(** A number below [10 ^ k] is written with at most [k] digits. *)
Lemma pretty_N_go_bound (k : nat) (x : N) (acc : string) :
  (x < 10 ^ N.of_nat k)%N →
  String.length (pretty_N_go x acc) ≤ String.length acc + k.
Proof.
  revert x acc. induction k as [|k IH]; intros x acc Hx.
  - assert (x = 0%N) as -> by (cbn in Hx; lia). rewrite pretty_N_go_0. lia.
  - destruct (decide (x = 0)%N) as [->|Hx0]; [rewrite pretty_N_go_0; lia|].
    rewrite pretty_N_go_step by lia.
    etrans; [apply IH|cbn [String.length]; lia].
    rewrite Nat2N.inj_succ, N.pow_succ_r' in Hx.
    apply N.Div0.div_lt_upper_bound. lia.
Qed.

Lemma pretty_N_length (k : nat) (x : N) :
  (x < 10 ^ N.of_nat k)%N → String.length (pretty x) ≤ max 1 k.
Proof.
  intros Hx. unfold pretty, pretty_N.
  destruct (decide (x = 0)%N) as [->|Hx0]; [cbn; lia|].
  etrans; [by apply pretty_N_go_bound|]. cbn [String.length]. lia.
Qed.

Lemma digit_value_range (c : ascii) (d : Z) : digit_value c = Some d → (0 ≤ d ≤ 9)%Z.
Proof.
  unfold digit_value.
  destruct (bool_decide (48 ≤ nat_of_ascii c) && bool_decide (nat_of_ascii c ≤ 57)) eqn:Hr;
    [|done].
  apply andb_prop in Hr as [H1%bool_decide_eq_true H2%bool_decide_eq_true].
  intros [= <-]. lia.
Qed.

(** The value read from [count] digits is below [10 ^ count]. *)
Lemma parse_digits_bound (s : string) (v : Z) (c : nat) (a : bool) (value : Z) (count : nat) :
  parse_digits s v c a = Some (value, count) →
  (0 ≤ v < 10 ^ Z.of_nat c)%Z → (0 ≤ value < 10 ^ Z.of_nat count)%Z.
Proof.
  revert v c a. induction s as [|ch s IH]; intros v c a; cbn [parse_digits].
  - destruct a; [|done]. by intros [= <- <-].
  - destruct (digit_value ch) as [d|] eqn:Hd.
    + intros Hrun Hv. apply (IH _ _ _ Hrun). apply digit_value_range in Hd.
      rewrite Nat2Z.inj_succ, Z.pow_succ_r by lia. lia.
    + destruct (bool_decide (ch = "_"%char) && a); [|done]. apply IH.
Qed.

(** A reversed table has an entry for every value of the table. *)
Lemma dict_of_is_Some {K V} `{Countable K} (items : list (K * V)) (k : K) :
  k ∈ items.*1 → is_Some (dict_of items !! k).
Proof.
  unfold dict_of. induction items as [|[k' v'] items IH] using rev_ind.
  - cbn. by intros ?%not_elem_of_nil.
  - rewrite fmap_app, fold_left_app. cbn [fold_left fst snd fmap list_fmap].
    destruct (decide (k' = k)) as [->|Hne].
    + rewrite lookup_insert_eq. by eexists.
    + rewrite lookup_insert_ne by done. intros [Hk|Hk%list_elem_of_singleton]%elem_of_app.
      * by apply IH.
      * by subst.
Qed.

Lemma getitem_reversed {V} `{Countable V} (items : list (Z * V)) (v : V) :
  v ∈ items.*2 → ∃ id, getitem (dict_of (reversed items)) v = Ok id ∧ (id, v) ∈ items.
Proof.
  intros Hv.
  destruct (dict_of_is_Some (reversed items) v) as [id Hid].
  { unfold reversed. rewrite <- list_fmap_compose.
    exact Hv. }
  exists id. unfold getitem. rewrite Hid. split; [done|].
  apply dict_of_lookup in Hid. unfold reversed in Hid.
  apply list_elem_of_fmap in Hid as ([id' v'] & [= -> ->] & Hin). done.
Qed.

Ltac pick_elem :=
  cbn; repeat first [apply list_elem_of_here | apply list_elem_of_further].

Section EncodeFacts.
Variable limit : nat.

(** What [int] accepts, [str] can print. *)
Lemma py_int_fits (s : string) (z : Z) :
  py_int limit s = Ok z →
  exceeds_limit limit (String.length (pretty (Z.abs_N z))) = false.
Proof.
  unfold py_int.
  destruct (match int_rstrip (int_lstrip s) with
            | String c r =>
                if decide (c = "-"%char) then (true, r)
                else if decide (c = "+"%char) then (false, r)
                else (false, int_rstrip (int_lstrip s))
            | EmptyString => (false, int_rstrip (int_lstrip s))
            end) as [negative digits].
  destruct (parse_digits digits 0 0 false) as [[value count]|] eqn:Hp; [|done].
  destruct (exceeds_limit limit count) eqn:Hlim; [done|]. intros [= <-].
  apply parse_digits_bound in Hp; [|cbn; lia].
  assert (Z.abs_N (if negative then (- value)%Z else value) = Z.to_N value) as ->
      by (destruct negative; lia).
  assert (String.length (pretty (Z.to_N value)) ≤ max 1 count) as Hlen.
  { apply pretty_N_length.
    apply N2Z.inj_lt. rewrite N2Z.inj_pow, Z2N.id, nat_N_Z by lia. cbn. lia. }
  destruct (decide (count = 0)) as [->|Hc].
  - apply exceeds_limit_small. cbn in Hlen. lia.
  - eapply exceeds_limit_mono; [|exact Hlim]. lia.
Qed.

Lemma format_d_fits (width : nat) (z : Z) :
  exceeds_limit limit (String.length (pretty (Z.abs_N z))) = false →
  ∃ s, format_d limit width z = Ok s.
Proof. intros Hz. unfold format_d. rewrite Hz. by eexists. Qed.

Lemma format_d_small (width : nat) (z : Z) :
  (Z.abs z < 10000000000)%Z → ∃ s, format_d limit width z = Ok s.
Proof.
  intros Hz. apply format_d_fits, exceeds_limit_small.
  etrans; [apply (pretty_N_length 10)|cbn; lia]. 
  change (10 ^ N.of_nat 10)%N with 10000000000%N. lia.
Qed.

Lemma getitem_reversed_small {V} `{Countable V} (items : list (Z * V)) (v : V) :
  Forall (λ kv, (0 ≤ kv.1 < 100)%Z) items → v ∈ items.*2 →
  ∃ id, getitem (dict_of (reversed items)) v = Ok id ∧
        ∀ width, ∃ s, format_d limit width id = Ok s.
Proof.
  intros Hsmall Hv. destruct (getitem_reversed items v Hv) as (id & Hid & Hin).
  exists id. split; [done|]. intros width. apply format_d_small.
  rewrite Forall_forall in Hsmall. specialize (Hsmall _ Hin). cbn in Hsmall. lia.
Qed.

Lemma canopy_seg_Ok (config : ClusterConfig) :
  canopy_appearance (canopy config) ∈ CanopyAppearance →
  ∃ seg, canopy_seg limit config = Ok seg.
Proof.
  intros Happ. unfold canopy_seg, CANOPY_SIZE_REVERSE, CANOPY_APPEARANCE_REVERSE.
  destruct (getitem_reversed_small CANOPY_SIZE_ITEMS (size (canopy config)))
    as (size_id & -> & Hs).
  { repeat constructor; cbn; lia. }
  { destruct (size (canopy config)); pick_elem. }
  destruct (getitem_reversed_small CANOPY_APPEARANCE_ITEMS (canopy_appearance (canopy config)))
    as (app_id & -> & Ha); [repeat constructor; cbn; lia|exact Happ|].
  cbn [rbind]. destruct (Hs 0) as [s1 ->]. destruct (Ha 0) as [s2 ->]. cbn [rbind].
  by eexists.
Qed.

Lemma layout_seg_Ok (config : ClusterConfig) :
  (100 ≤ first_drop_mm (layout config) ≤ 6000)%Z →
  (200 ≤ total_drop_mm (layout config) ≤ 8000)%Z →
  ∃ seg, layout_seg limit config = Ok seg.
Proof.
  intros Hf Ht. unfold layout_seg, CLUSTER_TYPE_REVERSE.
  destruct (getitem_reversed_small CLUSTER_TYPE_ITEMS (cluster_type (layout config)))
    as (type_id & -> & Hty).
  { repeat constructor; cbn; lia. }
  { destruct (cluster_type (layout config)); pick_elem. }
  cbn [rbind]. cbv zeta.
  pose proof (hundreds_mono _ _ (proj1 Hf)) as Hf1.
  pose proof (hundreds_mono _ _ (proj2 Hf)) as Hf2.
  pose proof (hundreds_mono _ _ (proj1 Ht)) as Ht1.
  pose proof (hundreds_mono _ _ (proj2 Ht)) as Ht2.
  change (hundreds 100) with 1%Z in Hf1. change (hundreds 6000) with 60%Z in Hf2.
  change (hundreds 200) with 2%Z in Ht1. change (hundreds 8000) with 80%Z in Ht2.
  rewrite !bool_decide_eq_true_2 by lia. cbn [negb].
  destruct (Hty 0) as [s1 ->].
  destruct (format_d_small 2 (hundreds (first_drop_mm (layout config)))) as [s2 ->]; [lia|].
  destruct (format_d_small 3 (hundreds (total_drop_mm (layout config)))) as [s3 ->]; [lia|].
  cbn [rbind]. by eexists.
Qed.

Lemma cable_seg_Ok (config : ClusterConfig) :
  cable_appearance (cable config) ∈ CableAppearance →
  ∃ seg, cable_seg limit config = Ok seg.
Proof.
  intros Happ. unfold cable_seg, CABLE_APPEARANCE_REVERSE.
  destruct (getitem_reversed_small CABLE_APPEARANCE_ITEMS (cable_appearance (cable config)))
    as (app_id & -> & Ha); [repeat constructor; cbn; lia|exact Happ|].
  cbn [rbind]. destruct (Ha 0) as [s ->]. cbn [rbind]. by eexists.
Qed.

Lemma encode_pendant_Ok (p : PendantConfig) :
  model p ∈ codec_models → appearance p ∈ ShadeAppearance →
  ∃ item, encode_pendant limit p = Ok item.
Proof.
  intros Hm Ha. unfold encode_pendant, PENDANT_MODEL_REVERSE, SHADE_APPEARANCE_REVERSE.
  destruct (getitem_reversed_small PENDANT_MODEL_ITEMS (model p))
    as (model_id & -> & Hmf); [repeat constructor; cbn; lia|exact Hm|].
  destruct (getitem_reversed_small SHADE_APPEARANCE_ITEMS (appearance p))
    as (shade_id & -> & Hsf); [repeat constructor; cbn; lia| |].
  { unfold ShadeAppearance in Ha.
    repeat (apply elem_of_cons in Ha as [->|Ha]); [pick_elem..|].
    by apply not_elem_of_nil in Ha. }
  cbn [rbind]. destruct (Hmf 0) as [s1 ->]. destruct (Hsf 0) as [s2 ->]. cbn [rbind].
  by eexists.
Qed.

Lemma encode_pendants_Ok (ps : list PendantConfig) (acc : list string) :
  Forall (λ p, model p ∈ codec_models ∧ appearance p ∈ ShadeAppearance) ps →
  ∃ items, for_each (λ items p, (let? item := encode_pendant limit p in
                                 Ok (items ++ [item]))%res) ps acc = Ok items ∧
           length items = length acc + length ps.
Proof.
  intros Hps. revert acc. induction Hps as [|p ps [Hm Ha] _ IH]; intros acc; cbn [for_each].
  - exists acc. split; [done|]. cbn. lia.
  - destruct (encode_pendant_Ok p Hm Ha) as [item ->]. cbn [rbind].
    destruct (IH (acc ++ [item])) as (items & -> & Hlen). exists items. split; [done|].
    rewrite Hlen, length_app. cbn. lia.
Qed.

(** The number of pendants is one that [str] prints. *)
Definition count_fits (ps : list PendantConfig) : Prop :=
  exceeds_limit limit (String.length (pretty (N.of_nat (length ps)))) = false.

Lemma pendant_seg_Ok (config : ClusterConfig) :
  Forall (λ p, model p ∈ codec_models ∧ appearance p ∈ ShadeAppearance) (pendants config) →
  count_fits (pendants config) →
  ∃ seg, pendant_seg limit config = Ok seg.
Proof.
  intros Hps Hfit. unfold pendant_seg.
  destruct (encode_pendants_Ok _ [] Hps) as (items & -> & Hlen). cbn [rbind].
  destruct (format_d_fits 0 (Z.of_nat (length items))) as [s ->]; [|cbn [rbind]; by eexists].
  rewrite Hlen. cbn [length Nat.add]. unfold count_fits in Hfit.
  by replace (Z.abs_N (Z.of_nat (length (pendants config))))
    with (N.of_nat (length (pendants config))) by lia.
Qed.

Lemma global_seg_Ok (config : ClusterConfig) :
  (0 ≤ random_seed config ≤ 2147483647)%Z → ∃ seg, global_seg limit config = Ok seg.
Proof.
  intros Hseed. unfold global_seg.
  destruct (format_d_small 0 (random_seed config)) as [s ->]; [lia|]. cbn [rbind].
  by eexists.
Qed.

(** The encoder fails on no valid configuration whose models the codec
    knows. *)
Lemma encode_valid_Ok (config : ClusterConfig) :
  valid_config config →
  Forall (λ p, model p ∈ codec_models) (pendants config) →
  count_fits (pendants config) →
  ∃ code, encode_config_to_code limit config = Ok code.
Proof.
  intros (Hf & Ht & _ & Hseed & Hca & Hcb & Hshade) Hmodels Hfit.
  unfold encode_config_to_code.
  destruct (canopy_seg_Ok config Hca) as [s1 ->].
  destruct (layout_seg_Ok config Hf Ht) as [s2 ->].
  destruct (cable_seg_Ok config Hcb) as [s3 ->].
  destruct (pendant_seg_Ok config) as [s4 ->]; [|done|].
  { apply Forall_and. split; [done|exact Hshade]. }
  destruct (global_seg_Ok config Hseed) as [s5 ->].
  cbn [rbind]. by eexists.
Qed.

Lemma getitem_reversed_missing {V} `{Countable V} (items : list (Z * V)) (v : V) :
  v ∉ items.*2 → getitem (dict_of (reversed items)) v = Raise KeyError.
Proof.
  intros Hv. unfold getitem.
  destruct (dict_of (reversed items) !! v) as [id|] eqn:Hid; [|done].
  destruct Hv. apply dict_of_lookup in Hid. unfold reversed in Hid.
  apply list_elem_of_fmap in Hid as ([id' v'] & [= -> ->] & Hin).
  apply list_elem_of_fmap. by exists (id', v').
Qed.

Lemma encode_pendants_unknown (ps : list PendantConfig) (acc : list string) :
  Forall (λ p, appearance p ∈ ShadeAppearance) ps →
  ¬ Forall (λ p, model p ∈ codec_models) ps →
  for_each (λ items p, (let? item := encode_pendant limit p in
                        Ok (items ++ [item]))%res) ps acc = Raise KeyError.
Proof.
  intros Hshade. revert acc.
  induction Hshade as [|p ps Ha _ IH]; intros acc Hmodels; cbn [for_each].
  - destruct Hmodels. constructor.
  - destruct (decide (model p ∈ codec_models)) as [Hm|Hm].
    + destruct (encode_pendant_Ok p Hm Ha) as [item ->]. cbn [rbind]. apply IH.
      intros Hall. apply Hmodels. by constructor.
    + unfold encode_pendant, PENDANT_MODEL_REVERSE.
      by rewrite (getitem_reversed_missing PENDANT_MODEL_ITEMS (model p) Hm).
Qed.

(** X22 (encode_config_to_code).  On a valid configuration the encoder
    fails in two ways only: with [KeyError] when some pendant model is not
    a value of [PENDANT_MODEL_MAP] (the schema accepts any string as a
    model); otherwise with [ValueError] when the number of pendants has more
    digits than [str] prints (more than 640 and more than the interpreter's
    limit).  In every other case it returns a code. *)
Theorem encode_config_to_code_defined (config : ClusterConfig) :
  valid_config config →
  if decide (Forall (λ p, model p ∈ codec_models) (pendants config)) then
    if exceeds_limit limit (String.length (pretty (N.of_nat (length (pendants config)))))
    then encode_config_to_code limit config = Raise ValueError
    else ∃ code, encode_config_to_code limit config = Ok code
  else encode_config_to_code limit config = Raise KeyError.
Proof.
  intros Hv. pose proof Hv as (Hf & Ht & _ & Hseed & Hca & Hcb & Hshade).
  destruct (decide (Forall (λ p, model p ∈ codec_models) (pendants config)))
    as [Hmodels|Hmodels].
  - destruct (exceeds_limit limit _) eqn:Hfit; [|by apply encode_valid_Ok].
    unfold encode_config_to_code.
    destruct (canopy_seg_Ok config Hca) as [s1 ->].
    destruct (layout_seg_Ok config Hf Ht) as [s2 ->].
    destruct (cable_seg_Ok config Hcb) as [s3 ->]. cbn [rbind].
    unfold pendant_seg.
    destruct (encode_pendants_Ok (pendants config) []) as (items & -> & Hlen).
    { apply Forall_and. split; [done|exact Hshade]. }
    cbn [rbind]. unfold format_d. rewrite Hlen. cbn [length Nat.add].
    replace (Z.abs_N (Z.of_nat (length (pendants config))))
      with (N.of_nat (length (pendants config))) by lia.
    by rewrite Hfit.
  - unfold encode_config_to_code.
    destruct (canopy_seg_Ok config Hca) as [s1 ->].
    destruct (layout_seg_Ok config Hf Ht) as [s2 ->].
    destruct (cable_seg_Ok config Hcb) as [s3 ->]. cbn [rbind].
    unfold pendant_seg. by rewrite (encode_pendants_unknown _ [] Hshade Hmodels).
Qed.

(** The pendant list of a decoding is as long as a number [int] read, or
    empty. *)
Lemma decode_pendants_fits (body : string) (ps : list PendantConfig) :
  decode_pendants limit body = Ok ps → count_fits ps.
Proof.
  unfold decode_pendants. intros Hrun.
  apply rbind_Ok in Hrun as ([count_part items_part] & _ & Hrun).
  apply rbind_Ok in Hrun as (count & Hcount & Hrun).
  destruct (decide (count ≠ _)) as [|Heq%dec_stable]; [done|].
  apply py_int_fits in Hcount.
  assert (∀ tokens acc r,
            for_each (λ pendants token, (let? p := decode_pendant limit token in
                                         Ok (pendants ++ [p]))%res) tokens acc = Ok r →
            length r = length acc + length tokens) as Hlen.
  { induction tokens as [|token tokens IH]; intros acc r; cbn [for_each].
    - intros [= <-]. cbn. lia.
    - intros Hstep. apply rbind_Ok in Hstep as (acc' & Hacc' & Hstep).
      apply rbind_Ok in Hacc' as (p & _ & [= <-]).
      rewrite (IH _ _ Hstep), length_app. cbn. lia. }
  apply Hlen in Hrun. cbn [length Nat.add] in Hrun.
  unfold count_fits. rewrite Hrun. rewrite Heq in Hcount.
  by replace (Z.abs_N (Z.of_nat (length (if decide (items_part = EmptyString) then []
                                          else split_on "-" items_part))))
    with (N.of_nat (length (if decide (items_part = EmptyString) then []
                            else split_on "-" items_part))) in Hcount by lia.
Qed.

Lemma decode_segment_fits (st st' : Decoding) (seg : string) :
  count_fits (decoded_pendants st) → decode_segment limit st seg = Ok st' →
  count_fits (decoded_pendants st').
Proof.
  intros Hfit. unfold decode_segment.
  destruct seg as [|prefix body]; [done|].
  repeat case_decide.
  - intros Hrun. by apply rbind_Ok in Hrun as (c & _ & [= <-]).
  - intros Hrun. by apply rbind_Ok in Hrun as (c & _ & [= <-]).
  - intros Hrun. by apply rbind_Ok in Hrun as (c & _ & [= <-]).
  - intros Hrun. apply rbind_Ok in Hrun as (ps & Hps & [= <-]).
    cbn [decoded_pendants]. by eapply decode_pendants_fits.
  - intros Hrun. by apply rbind_Ok in Hrun as (c & _ & [= <-]).
  - by intros [= <-].
Qed.

Lemma decoded_count_fits (code : string) (config : ClusterConfig)
      (defaults_applied : list string) :
  decode_code_to_config limit code = Ok (config, defaults_applied) →
  count_fits (pendants config).
Proof.
  unfold decode_code_to_config. case_decide; [done|]. intros Hrun.
  apply rbind_Ok in Hrun as (st & Hst & Hrun).
  apply (for_each_invariant _ (λ st, count_fits (decoded_pendants st))) in Hst.
  2:{ intros. by eapply decode_segment_fits. }
  2:{ unfold count_fits. apply exceeds_limit_small.
      etrans; [by apply (pretty_N_length 1)|]. cbn. lia. }
  destruct (decoded_canopy st) as [c|]; [|done].
  destruct (match decoded_layout st with
            | Some layout => (layout, [])
            | None => (default_LayoutFields, ["layout defaulted"])
            end) as [l d0].
  apply rbind_Ok in Hrun as ([cb d1] & _ & Hrun).
  destruct (decoded_pendants st) as [|p ps] eqn:Hps; [done|].
  unfold new_ClusterConfig in Hrun.
  destruct (bool_decide (0 ≤ decoded_random_seed st ≤ 2147483647)%Z); [|done].
  destruct (given_cluster_type l); by injection Hrun as <- _.
Qed.

(** X21 (decode_code_to_hash_inputs).  Whatever decodes has a canonical code:
    the encoder fails on no configuration the decoder returns, so
    [decode_code_to_hash_inputs] fails exactly where [decode_code_to_config]
    does, with the same exception, and returns the same configuration. *)
Theorem decode_code_to_hash_inputs_total (code : string) :
  match decode_code_to_config limit code with
  | Ok (config, _) =>
      ∃ canonical_code,
        encode_config_to_code limit config = Ok canonical_code ∧
        decode_code_to_hash_inputs limit code = Ok (canonical_code, config)
  | Raise e => decode_code_to_hash_inputs limit code = Raise e
  end.
Proof.
  unfold decode_code_to_hash_inputs.
  destruct (decode_code_to_config limit code) as [[config defaults]|e] eqn:Hdec; [|done].
  destruct (decoded_config_ok limit _ _ _ Hdec) as (Hv & _ & Hmodels & _).
  destruct (encode_valid_Ok config Hv Hmodels (decoded_count_fits _ _ _ Hdec))
    as [canonical Henc].
  exists canonical. split; [done|]. cbn [rbind]. by rewrite Henc.
Qed.
End EncodeFacts.

Module EncodeRun.

(** A valid configuration with a model the codec has no id for. *)
Definition custom_model : ClusterConfig :=
  mkClusterConfig (mkCanopyConfig size_m "canopy_black") (mkCableConfig "cable_white")
                  (mkLayoutConfig RING 1400 2000)
                  [mkPendantConfig "alki" "shade_blonde";
                   mkPendantConfig "prototype" "shade_natural"] 3.

Lemma custom_model_valid : valid_config custom_model.
Proof.
  unfold valid_config, custom_model. cbn.
  repeat split; try lia; repeat constructor.
Qed.

Lemma encode_config_to_code_defined_witness :
  encode_config_to_code 4300 custom_model = Raise KeyError.
Proof.
  pose proof (encode_config_to_code_defined 4300 custom_model custom_model_valid) as Hrun.
  rewrite decide_False in Hrun; [exact Hrun|].
  intros Hall. apply Forall_cons in Hall as [_ Hall]. apply Forall_cons in Hall as [Hin _].
  revert Hin. apply (bool_decide_eq_false_1 _). vm_compute. reflexivity.
Defined.
End EncodeRun.

(** ** Defaults of a decoded configuration *)

(** Whether a segment begins with the prefix letter [c], and whether the
    code has such a segment. *)
Definition starts_with (c : ascii) (seg : string) : bool :=
  match seg with
  | String prefix _ => bool_decide (prefix = c)
  | EmptyString => false
  end.

Definition has_segment (c : ascii) (code : string) : bool :=
  existsb (starts_with c) (filter (λ s, s ≠ EmptyString) (split_on "." code)).

Section DefaultFacts.
Variable limit : nat.

Definition layout_given (st : Decoding) : Prop :=
  ∃ l, decoded_layout st = Some l ∧ is_Some (given_cluster_type l).

Lemma decode_segment_layout (st st' : Decoding) (seg : string) :
  decode_segment limit st seg = Ok st' →
  if starts_with "L" seg then layout_given st'
  else decoded_layout st' = decoded_layout st.
Proof.
  unfold decode_segment. destruct seg as [|prefix body]; [done|]. cbn [starts_with].
  destruct (bool_decide (prefix = "L"%char)) eqn:HL.
  - apply bool_decide_eq_true in HL as ->.
    rewrite decide_False, decide_True by done.
    intros Hrun. apply rbind_Ok in Hrun as (l & Hrun & [= <-]).
    exists l. split; [done|].
    unfold decode_layout in Hrun. case_decide; [done|].
    apply rbind_Ok in Hrun as (? & _ & Hrun). apply rbind_Ok in Hrun as (t & _ & Hrun).
    apply rbind_Ok in Hrun as (f & _ & Hrun). apply rbind_Ok in Hrun as (d & _ & Hrun).
    apply rbind_Ok in Hrun as (ct & _ & Hrun).
    apply new_LayoutConfig_Ok in Hrun as (-> & _). by eexists.
  - apply bool_decide_eq_false in HL.
    repeat case_decide; try done; intros Hrun;
      first [by apply rbind_Ok in Hrun as (c & _ & [= <-])|by injection Hrun as <-].
Qed.

Lemma decode_segment_cable (st st' : Decoding) (seg : string) :
  decode_segment limit st seg = Ok st' →
  if starts_with "B" seg then is_Some (decoded_cable st')
  else decoded_cable st' = decoded_cable st.
Proof.
  unfold decode_segment. destruct seg as [|prefix body]; [done|]. cbn [starts_with].
  destruct (bool_decide (prefix = "B"%char)) eqn:HB.
  - apply bool_decide_eq_true in HB as ->.
    rewrite !decide_False, decide_True by done.
    intros Hrun. apply rbind_Ok in Hrun as (c & _ & [= <-]). by eexists.
  - apply bool_decide_eq_false in HB.
    repeat case_decide; try done; intros Hrun;
      first [by apply rbind_Ok in Hrun as (c & _ & [= <-])|by injection Hrun as <-].
Qed.

Lemma decode_segments_given (segments : list string) (st st' : Decoding) :
  for_each (decode_segment limit) segments st = Ok st' →
  (if existsb (starts_with "L") segments then layout_given st'
   else decoded_layout st' = decoded_layout st) ∧
  (if existsb (starts_with "B") segments then is_Some (decoded_cable st')
   else decoded_cable st' = decoded_cable st).
Proof.
  revert st. induction segments as [|seg segments IH]; intros st; cbn [for_each existsb].
  - by intros [= <-].
  - intros Hrun. apply rbind_Ok in Hrun as (st1 & Hseg & Hrun).
    destruct (IH _ Hrun) as [Hl Hb].
    pose proof (decode_segment_layout _ _ _ Hseg) as Hl1.
    pose proof (decode_segment_cable _ _ _ Hseg) as Hb1.
    split.
    + destruct (existsb (starts_with "L") segments); [by rewrite orb_true_r|].
      rewrite orb_false_r. unfold layout_given in *.
      destruct (starts_with "L" seg); by rewrite Hl.
    + destruct (existsb (starts_with "B") segments); [by rewrite orb_true_r|].
      rewrite orb_false_r. destruct (starts_with "B" seg); by rewrite Hb.
Qed.

(** X23 (decode_code_to_config with LayoutConfig, CableConfig and
    _apply_defaults).  What [defaults_applied] reports is exactly which of
    the L and B segments the code lacks.  Without an L segment the drops
    are 1400 and 2000 and the cluster type is [RING] for at most three
    pendants and [RING_WITH_CENTER] for more, and both "layout defaulted"
    and, last, "layout.cluster_type defaulted" are reported; with one,
    neither is.  Without a B segment the cable is "cable_black" and
    "cable defaulted" is reported. *)
Theorem decode_defaults (code : string) (config : ClusterConfig)
        (defaults_applied : list string) :
  decode_code_to_config limit code = Ok (config, defaults_applied) →
  defaults_applied
  = (if has_segment "L" code then [] else ["layout defaulted"])
    ++ (if has_segment "B" code then [] else ["cable defaulted"])
    ++ (if has_segment "L" code then [] else ["layout.cluster_type defaulted"]) ∧
  (has_segment "L" code = false →
   layout config
   = mkLayoutConfig (if decide (length (pendants config) ≤ 3) then RING
                     else RING_WITH_CENTER) 1400 2000) ∧
  (has_segment "B" code = false → cable config = mkCableConfig "cable_black").
Proof.
  unfold decode_code_to_config, has_segment. case_decide; [done|]. cbv zeta. intros Hrun.
  apply rbind_Ok in Hrun as (st & Hst & Hrun).
  apply decode_segments_given in Hst as [Hl Hb]. cbn [decoded_layout decoded_cable] in Hl, Hb.
  destruct (decoded_canopy st) as [c|]; [|done].
  destruct (existsb (starts_with "L") _).
  - destruct Hl as (l & Hl & [ct Hct]). rewrite Hl in Hrun.
    destruct (existsb (starts_with "B") _).
    + destruct Hb as [cb Hb]. rewrite Hb in Hrun. cbn [rbind] in Hrun.
      destruct (decoded_pendants st) as [|p ps]; [done|].
      unfold new_ClusterConfig in Hrun. destruct (bool_decide _); [|done].
      rewrite Hct in Hrun. injection Hrun as <- <-. by repeat split.
    + rewrite Hb in Hrun.
      change (new_CableConfig "cable_black") with (Ok (mkCableConfig "cable_black")) in Hrun.
      cbn [rbind] in Hrun.
      destruct (decoded_pendants st) as [|p ps]; [done|].
      unfold new_ClusterConfig in Hrun. destruct (bool_decide _); [|done].
      rewrite Hct in Hrun. injection Hrun as <- <-. by repeat split.
  - rewrite Hl in Hrun.
    destruct (existsb (starts_with "B") _).
    + destruct Hb as [cb Hb]. rewrite Hb in Hrun. cbn [rbind] in Hrun.
      destruct (decoded_pendants st) as [|p ps]; [done|].
      unfold new_ClusterConfig in Hrun. destruct (bool_decide _); [|done].
      cbn [given_cluster_type default_LayoutFields] in Hrun.
      injection Hrun as <- <-. by repeat split.
    + rewrite Hb in Hrun.
      change (new_CableConfig "cable_black") with (Ok (mkCableConfig "cable_black")) in Hrun.
      cbn [rbind] in Hrun.
      destruct (decoded_pendants st) as [|p ps]; [done|].
      unfold new_ClusterConfig in Hrun. destruct (bool_decide _); [|done].
      cbn [given_cluster_type default_LayoutFields] in Hrun.
      injection Hrun as <- <-. by repeat split.
Qed.
End DefaultFacts.

Module DefaultsRun.

(** Four pendants, and neither a layout nor a cable segment. *)
Lemma bare_code_decodes :
  decode_code_to_config 4300 "C01.P4-0,0-1,1-2,2-3,0"
  = Ok (mkClusterConfig (mkCanopyConfig size_s "canopy_white") (mkCableConfig "cable_black")
                        (mkLayoutConfig RING_WITH_CENTER 1400 2000)
                        [mkPendantConfig "denny" "shade_natural";
                         mkPendantConfig "alki" "shade_blonde";
                         mkPendantConfig "allyn" "shade_white";
                         mkPendantConfig "madison" "shade_natural"] 0,
        ["layout defaulted"; "cable defaulted"; "layout.cluster_type defaulted"]).
Proof. vm_compute. reflexivity. Qed.

Lemma decode_defaults_witness :
  has_segment "L" "C01.P4-0,0-1,1-2,2-3,0" = false ∧
  ["layout defaulted"; "cable defaulted"; "layout.cluster_type defaulted"]
  = (if has_segment "L" "C01.P4-0,0-1,1-2,2-3,0" then [] else ["layout defaulted"])
    ++ (if has_segment "B" "C01.P4-0,0-1,1-2,2-3,0" then [] else ["cable defaulted"])
    ++ (if has_segment "L" "C01.P4-0,0-1,1-2,2-3,0" then []
        else ["layout.cluster_type defaulted"]).
Proof.
  split; [vm_compute; reflexivity|].
  exact (proj1 (decode_defaults 4300 _ _ _ bare_code_decodes)).
Defined.
End DefaultsRun.

(** ** The cylinders of a scene *)
Section SceneCylinders.
Context {F : Type} `{Float F, Libm F, Rhino F, Random F, Codec F}.
Variable disk : gmap string (list (Mesh F)).





End SceneCylinders.

Module SceneCylindersRun.
Import RationalModel SceneRun.


End SceneCylindersRun.

(** ** Colour tokens (materials.py) *)

(** [str.lower()] on ASCII letters. *)
Definition ascii_lower (c : ascii) : ascii :=
  let n := nat_of_ascii c in
  if bool_decide (65 ≤ n) && bool_decide (n ≤ 90) then ascii_of_nat (n + 32) else c.

Fixpoint lower (s : string) : string :=
  match s with
  | String c s' => String (ascii_lower c) (lower s')
  | EmptyString => EmptyString
  end.

(** [(token or "").lower().strip()]; [None] stands for any falsy token. *)
Definition clean_token (token : option string) : string :=
  strip (lower (default "" token)).

Definition normalize_canopy_color (token : option string) : string :=
  let token := clean_token token in
  if bool_decide (token ∈ ["white"; "canopy_white"; "w"]) then "canopy_white"
  else "canopy_black".

Definition normalize_cable_color (token : option string) : string :=
  let token := clean_token token in
  if bool_decide (token ∈ ["white"; "cable_white"; "w"]) then "cable_white"
  else "cable_black".

Definition normalize_shade_color (token : option string) : string :=
  let token := clean_token token in
  if bool_decide (token ∈ ["white"; "shade_white"; "w"]) then "shade_white"
  else if bool_decide (token ∈ ["blonde"; "shade_blonde"; "b"]) then "shade_blonde"
  else "shade_natural".

Lemma ascii_lower_idemp (c : ascii) : ascii_lower (ascii_lower c) = ascii_lower c.
Proof. by destruct c as [[] [] [] [] [] [] [] []]. Qed.

Lemma is_space_lower (c : ascii) : is_space (ascii_lower c) = is_space c.
Proof. by destruct c as [[] [] [] [] [] [] [] []]. Qed.

Lemma lower_idemp (s : string) : lower (lower s) = lower s.
Proof. induction s as [|c s IH]; [done|]. cbn [lower]. by rewrite ascii_lower_idemp, IH. Qed.

Lemma lstrip_lower (s : string) : lstrip (lower s) = lower (lstrip s).
Proof.
  induction s as [|c s IH]; [done|]. cbn [lower lstrip]. rewrite is_space_lower.
  by destruct (is_space c).
Qed.

Lemma rstrip_lower (s : string) : rstrip (lower s) = lower (rstrip s).
Proof.
  induction s as [|c s IH]; [done|]. cbn [lower rstrip]. rewrite IH, is_space_lower.
  destruct (rstrip s); [by destruct (is_space c)|done].
Qed.

Lemma strip_lower (s : string) : strip (lower s) = lower (strip s).
Proof. unfold strip. by rewrite lstrip_lower, rstrip_lower. Qed.

(** A string is trimmed when it neither starts nor ends with whitespace. *)
Definition starts_clean (s : string) : Prop :=
  match s with
  | String c _ => is_space c = false
  | EmptyString => True
  end.

Lemma lstrip_clean (s : string) : starts_clean s → lstrip s = s.
Proof. destruct s as [|c s]; [done|]. cbn [starts_clean lstrip]. by intros ->. Qed.

Lemma lstrip_starts_clean (s : string) : starts_clean (lstrip s).
Proof.
  induction s as [|c s IH]; [done|]. cbn [lstrip].
  by destruct (is_space c) eqn:Hc.
Qed.

Lemma rstrip_starts_clean (s : string) : starts_clean s → starts_clean (rstrip s).
Proof.
  destruct s as [|c s]; [done|]. cbn [starts_clean rstrip]. intros Hc.
  destruct (rstrip s); [by rewrite Hc|done].
Qed.

Lemma rstrip_idemp (s : string) : rstrip (rstrip s) = rstrip s.
Proof.
  induction s as [|c s IH]; [done|]. cbn [rstrip].
  destruct (rstrip s) as [|c' r] eqn:Hr.
  - destruct (is_space c) eqn:Hc; [done|]. cbn [rstrip]. by rewrite Hc.
  - cbn [rstrip]. cbn [rstrip] in IH. by rewrite IH.
Qed.

Lemma strip_idemp (s : string) : strip (strip s) = strip s.
Proof.
  unfold strip.
  rewrite (lstrip_clean (rstrip (lstrip s)))
    by apply rstrip_starts_clean, lstrip_starts_clean.
  apply rstrip_idemp.
Qed.

(** Letter case and surrounding whitespace do not matter to the cleaned
    token. *)
Lemma clean_token_insensitive (s : string) :
  clean_token (Some (lower s)) = clean_token (Some s) ∧
  clean_token (Some (strip s)) = clean_token (Some s) ∧
  clean_token None = clean_token (Some "").
Proof.
  unfold clean_token. cbn [from_option]. unfold Datatypes.id.
  split; [by rewrite lower_idemp|]. split; [|done].
  by rewrite <- !strip_lower, strip_idemp.
Qed.

Section TokenFacts.
Context {F : Type} `{Float F}.

(** The preset [get_material_preset] returns for [key] is the one stored
    under [key] itself: no fallback is taken. *)
Definition own_preset (key fallback : string) : Prop :=
  ∃ p, get_material_preset (F:=F) key fallback = Ok p ∧
       preset_lookup key MATERIAL_PRESETS = Some p.

(** X25 (normalize_canopy_color, normalize_cable_color, normalize_shade_color
    with get_material_preset and the appearance types of schema.py).
    Whatever the token, each normalizer returns a value of the matching
    appearance type, which is a preset key, so that [get_material_preset]
    returns the preset stored under it whatever the fallback; normalizing
    a normalized value returns it unchanged; and neither the case of the
    letters nor whitespace around the token changes the result. *)
Theorem normalized_colors_are_presets (token : option string) (fallback : string) :
  let canopy := normalize_canopy_color token in
  let cable := normalize_cable_color token in
  let shade := normalize_shade_color token in
  canopy ∈ CanopyAppearance ∧ cable ∈ CableAppearance ∧ shade ∈ ShadeAppearance ∧
  own_preset canopy fallback ∧ own_preset cable fallback ∧ own_preset shade fallback ∧
  normalize_canopy_color (Some canopy) = canopy ∧
  normalize_cable_color (Some cable) = cable ∧
  normalize_shade_color (Some shade) = shade ∧
  ∀ s, Forall (λ normalize : option string → string,
                 normalize (Some (lower s)) = normalize (Some s) ∧
                 normalize (Some (strip s)) = normalize (Some s) ∧
                 normalize None = normalize (Some ""))
              [normalize_canopy_color; normalize_cable_color; normalize_shade_color].
Proof.
  cbv zeta.
  unfold normalize_canopy_color, normalize_cable_color, normalize_shade_color.
  cbv zeta. generalize (clean_token token). intros t.
  assert (∀ key, key ∈ ["canopy_white"; "canopy_black"; "cable_white"; "cable_black";
                        "shade_white"; "shade_blonde"; "shade_natural"] →
                 own_preset key fallback) as Hown.
  { intros key Hkey. unfold own_preset.
    repeat (apply elem_of_cons in Hkey as [->|Hkey]); [eexists; split; reflexivity..|].
    by apply not_elem_of_nil in Hkey. }
  split; [destruct (bool_decide (t ∈ _)); pick_elem|].
  split; [destruct (bool_decide (t ∈ _)); pick_elem|].
  split; [repeat destruct (bool_decide (t ∈ _)); pick_elem|].
  split; [destruct (bool_decide (t ∈ _)); apply Hown; pick_elem|].
  split; [destruct (bool_decide (t ∈ _)); apply Hown; pick_elem|].
  split; [repeat destruct (bool_decide (t ∈ _)); apply Hown; pick_elem|].
  split; [by destruct (bool_decide (t ∈ _))|].
  split; [by destruct (bool_decide (t ∈ _))|].
  split; [by repeat destruct (bool_decide (t ∈ _))|].
  intros s. destruct (clean_token_insensitive s) as (Hl & Hs & Hn).
  repeat apply Forall_cons_2; [..|apply Forall_nil_2].
  all: cbv beta; (split; [|split]); by rewrite ?Hl, ?Hs, ?Hn.
Qed.
End TokenFacts.

(** ** The canopy over the reals *)
Module CanopyShape.
Import RealModel RealFacts.
Local Open Scope R_scope.

(** The vertices of a cylinder: on the circle of its radius or on the
    axis, at height 0 or at its height. *)
Definition on_cylinder (radius low high : R) (v : Point3d R) : Prop :=
  (ptZ v = low ∨ ptZ v = high) ∧
  (Rsqr (ptX v) + Rsqr (ptY v) = Rsqr radius ∨ (ptX v = 0 ∧ ptY v = 0)).

Lemma cylinder_shape (radius height : R) (segments : nat) :
  Forall (on_cylinder radius 0 height) (Vertices (cylinder_value radius height segments)).
Proof.
  unfold cylinder_value. cbn [Vertices]. apply Forall_app. split.
  - apply Forall_flat_map, Forall_forall. intros i _.
    repeat apply Forall_cons_2; [| |apply Forall_nil_2].
    all: unfold on_cylinder; cbn [ptX ptY ptZ fmul float_R cos sin libm_R]; rewrite ?of_Z_R.
    all: (split; [by auto|left]).
    all: match goal with
         | |- context [Rtrigo_def.cos ?a] =>
             pose proof (sin2_cos2 a) as Hsc; unfold Rsqr in Hsc |- *;
             set (c := Rtrigo_def.cos a) in *; set (s := Rtrigo_def.sin a) in *;
             transitivity (radius * radius * (s * s + c * c)); [ring|rewrite Hsc; ring]
         end.
  - repeat apply Forall_cons_2; [| |apply Forall_nil_2].
    all: unfold on_cylinder; cbn [ptX ptY ptZ]; rewrite ?of_Z_R; split; auto.
Qed.

Lemma lifted_cylinder (radius height dz : R) (segments : nat) :
  Forall (on_cylinder radius dz (height + dz))
         (Vertices (transform_mesh (Translation (of_Z 0) (of_Z 0) dz)
                                   (cylinder_value radius height segments))).
Proof.
  unfold transform_mesh. cbn [Vertices]. apply Forall_fmap.
  eapply Forall_impl; [apply cylinder_shape|]. intros v [Hz Hr].
  unfold on_cylinder, compose.
  cbn [transform_point rhino_R euclid_rhino euclid_transform ptX ptY ptZ fadd float_R].
  rewrite !of_Z_R, !Rplus_0_r. split; [|done].
  destruct Hz as [->| ->]; [left; lra|by right].
Qed.

(** The attachment points lie strictly inside the rim of the bottom plate. *)
Lemma connection_radius_inside (size_key : CanopySize) :
  0 <= connection_radius size_key < outer_radius_mm (CANOPY_SPECS size_key).
Proof.
  unfold connection_radius.
  destruct size_key; cbn [CANOPY_SPECS inner_radius_mm cable_offset_mm outer_radius_mm
                          fsub float_R]; rewrite !of_Z_R; lra.
Qed.

(** X26 (build_canopy).  Over the reals the two canopy meshes stack: the
    bottom plate has the outer radius and lies between Z = -height and
    Z = -height + plate; the top part has the radius inner + plate and lies
    between Z = -height + plate, where the plate ends, and Z = 0.  Every
    attachment point lies on the lower face of the plate, at Z = -height,
    strictly inside its rim. *)
Theorem canopy_meshes_stack (size_key : CanopySize) (n_pendants : nat)
        (cluster_type : ClusterType) (w w' : World R) (bottom top : loc)
        (points : list (Point3d R)) :
  build_canopy size_key n_pendants cluster_type w = (Ok (bottom, top, points), w') →
  let spec := CANOPY_SPECS size_key in
  ∃ bottom_mesh top_mesh,
    heap w' !! bottom = Some bottom_mesh ∧ heap w' !! top = Some top_mesh ∧
    Forall (on_cylinder (outer_radius_mm spec) (- height_mm spec)
                        (- height_mm spec + plate_thickness_mm spec))
           (Vertices bottom_mesh) ∧
    Forall (on_cylinder (inner_radius_mm spec + plate_thickness_mm spec)
                        (- height_mm spec + plate_thickness_mm spec) 0)
           (Vertices top_mesh) ∧
    Forall (λ p, ptZ p = - height_mm spec ∧
                 Rsqr (ptX p) + Rsqr (ptY p) < Rsqr (outer_radius_mm spec)) points.
Proof.
  rewrite build_canopy_run. intros [= <- <- <- <-]. cbv zeta.
  exists (canopy_bottom_value size_key), (canopy_top_value size_key).
  rewrite heap_set_heap.
  split. { rewrite lookup_app_r by lia. by rewrite Nat.sub_diag. }
  split. { rewrite lookup_app_r by lia.
           by replace (S (length (heap w)) - length (heap w))%nat with 1%nat by lia. }
  set (spec := CANOPY_SPECS size_key).
  split; [|split].
  - unfold canopy_bottom_value. cbv zeta. fold spec.
    pose proof (lifted_cylinder (outer_radius_mm spec) (plate_thickness_mm spec)
                                (- height_mm spec) 96) as Hb.
    cbn [fneg float_R]. 
    by replace (- height_mm spec + plate_thickness_mm spec)
      with (plate_thickness_mm spec + - height_mm spec) by lra.
  - unfold canopy_top_value. cbv zeta. fold spec.
    pose proof (lifted_cylinder (inner_radius_mm spec + plate_thickness_mm spec)
                                (height_mm spec - plate_thickness_mm spec)
                                (- (height_mm spec - plate_thickness_mm spec)) 96) as Ht.
    cbn [fneg fadd fsub float_R].
    replace (height_mm spec - plate_thickness_mm spec
             + - (height_mm spec - plate_thickness_mm spec)) with 0 in Ht by lra.
    by replace (- height_mm spec + plate_thickness_mm spec)
      with (- (height_mm spec - plate_thickness_mm spec)) by lra.
  - subst spec. pose proof (connection_radius_inside size_key) as Hr.
    apply Forall_forall. intros p Hp. split; [by apply canopy_points_z in Hp|].
    assert (Rsqr (ptX p) + Rsqr (ptY p) = Rsqr (connection_radius size_key) ∨
            Rsqr (ptX p) + Rsqr (ptY p) = 0) as Hcases.
    { unfold connection_radius in *. cbn [fsub float_R] in *.
      unfold canopy_points in Hp. destruct (wants_center cluster_type).
      - apply elem_of_app in Hp as [Hp|Hp%list_elem_of_singleton].
        + apply list_elem_of_fmap in Hp as (i & -> & _). left.
          unfold ring_point. cbn [ptX ptY fmul float_R cos sin libm_R].
          match goal with
          | |- context [Rtrigo_def.cos ?a] =>
              pose proof (sin2_cos2 a) as Hsc; unfold Rsqr in Hsc |- *;
              set (c := Rtrigo_def.cos a) in *; set (s := Rtrigo_def.sin a) in *;
              match goal with
              | |- _ = ?r * ?r =>
                  transitivity (r * r * (s * s + c * c)); [ring|rewrite Hsc; ring]
              end
          end.
        + subst p. right. cbn [ptX ptY]. rewrite of_Z_R. unfold Rsqr. ring.
      - apply list_elem_of_fmap in Hp as (i & -> & _). left.
        unfold ring_point. cbn [ptX ptY fmul float_R cos sin libm_R].
        match goal with
        | |- context [Rtrigo_def.cos ?a] =>
            pose proof (sin2_cos2 a) as Hsc; unfold Rsqr in Hsc |- *;
            set (c := Rtrigo_def.cos a) in *; set (s := Rtrigo_def.sin a) in *;
            match goal with
            | |- _ = ?r * ?r =>
                transitivity (r * r * (s * s + c * c)); [ring|rewrite Hsc; ring]
            end
        end. }
    unfold Rsqr in *. destruct Hcases as [-> | ->]; nra.
Qed.
End CanopyShape.

Module CanopyShapeRun.
Import RealModel RealFacts PlacementReal CanopyShape.
Local Open Scope R_scope.

Lemma canopy_meshes_stack_witness :
  ∃ bottom_mesh top_mesh,
    heap (snd (build_canopy size_m 4 RING_WITH_CENTER real_world)) !! 0%nat
    = Some bottom_mesh ∧
    heap (snd (build_canopy size_m 4 RING_WITH_CENTER real_world)) !! 1%nat
    = Some top_mesh ∧
    Forall (on_cylinder (of_Z 300) (- of_Z 40) (- of_Z 40 + of_frac 15 10))
           (Vertices bottom_mesh) ∧
    Forall (on_cylinder (of_Z 280 + of_frac 15 10) (- of_Z 40 + of_frac 15 10) 0)
           (Vertices top_mesh).
Proof.
  destruct (canopy_meshes_stack size_m 4 RING_WITH_CENTER real_world _ _ _ _
              (build_canopy_run size_m 4 RING_WITH_CENTER real_world))
    as (bottom_mesh & top_mesh & Hb & Ht & Hbv & Htv & _).
  exists bottom_mesh, top_mesh. rewrite build_canopy_run.
  split; [exact Hb|]. split; [exact Ht|]. split; [exact Hbv|exact Htv].
Defined.
End CanopyShapeRun.

(** ** Placed pendants and their extents *)
Section HangingValues.
Context {F : Type} `{Float F, Libm F, Rhino F, Random F}.
Variable disk : gmap string (list (Mesh F)).

(** The value of placement [i]: pendant [i], and the meshes of its file
    twisted about the vertical axis and moved to the end point. *)
Definition hangs_value (config : ClusterConfig) (values_by_index : list (list (Mesh F)))
           (i : nat) (pv : PlacementValue F) : Prop :=
  ∃ ms twist p,
    values_by_index !! i = Some ms ∧ pendants config !! i = Some p ∧
    value_pendant pv = p ∧
    value_meshes pv
    = (λ m, transform_mesh
              (Translation (ptX (value_end pv)) (ptY (value_end pv)) (ptZ (value_end pv)))
              (transform_mesh
                 (Rotation twist (mkVector3d (of_Z 0) (of_Z 0) (of_Z 1))
                           (mkPoint3d (of_Z 0) (of_Z 0) (of_Z 0))) m)) <$> ms.

Lemma place_one_value_inv (config : ClusterConfig) (connection_points : list (Point3d F))
      (indices : list nat) (drops : list F) (values_by_index : list (list (Mesh F)))
      (rng rng' : Gen) (pvs pvs' : list (PlacementValue F)) (i : nat) :
  place_one_value config connection_points indices drops values_by_index (rng, pvs) i
  = Ok (rng', pvs') →
  ∃ pv, pvs' = pvs ++ [pv] ∧ hangs_value config values_by_index i pv.
Proof.
  unfold place_one_value. intros Hrun.
  apply rbind_Ok in Hrun as (k & _ & Hrun).
  apply rbind_Ok in Hrun as (sp & _ & Hrun).
  apply rbind_Ok in Hrun as (drop & _ & Hrun). cbv zeta in Hrun.
  destruct (gen_random rng) as [r rng1].
  apply rbind_Ok in Hrun as (ms & Hms%index_Some & Hrun).
  apply rbind_Ok in Hrun as (p & Hp%index_Some & [= <- <-]).
  eexists. split; [reflexivity|]. exists ms. eexists. exists p.
  split; [done|]. split; [done|]. split; reflexivity.
Qed.

Lemma place_values_loop (config : ClusterConfig) (connection_points : list (Point3d F))
      (indices : list nat) (drops : list F) (values_by_index : list (list (Mesh F)))
      (k a : nat) (rng rng' : Gen) (pvs0 pvs : list (PlacementValue F)) :
  for_each (place_one_value config connection_points indices drops values_by_index)
           (seq a k) (rng, pvs0) = Ok (rng', pvs) →
  length pvs0 = a →
  (∀ i pv, pvs0 !! i = Some pv → hangs_value config values_by_index i pv) →
  ∀ i pv, pvs !! i = Some pv → hangs_value config values_by_index i pv.
Proof.
  revert a rng pvs0. induction k as [|k IH]; intros a rng pvs0; cbn [seq for_each].
  - by intros [= <- <-].
  - intros Hrun Hlen Hpvs0. apply rbind_Ok in Hrun as ([rng1 pvs1] & Hone & Hrun).
    apply place_one_value_inv in Hone as (pv1 & -> & Hpv1).
    apply (IH _ _ _ Hrun).
    + rewrite length_app. cbn. lia.
    + intros i pv Hi. apply lookup_app_Some in Hi as [Hi|[Hge Hi]]; [by apply Hpvs0|].
      apply list_lookup_singleton_Some in Hi as [Hi <-].
      by replace i with a by lia.
Qed.

Lemma load_values_inv (ps : list PendantConfig) (tops bottoms : list F)
      (values_by_index : list (list (Mesh F))) :
  load_values disk ps = Ok (tops, bottoms, values_by_index) →
  ∀ i p, ps !! i = Some p →
    ∃ t b ms, extents_value disk (model p) = Ok (t, b) ∧
              template_values disk (model p) = Ok ms ∧
              tops !! i = Some t ∧ bottoms !! i = Some b ∧
              values_by_index !! i = Some ms.
Proof.
  unfold load_values. revert tops bottoms values_by_index.
  induction ps as [|q ps IH] using rev_ind; intros tops bottoms vals Hrun i p Hi.
  - by rewrite lookup_nil in Hi.
  - rewrite for_each_app in Hrun.
    apply rbind_Ok in Hrun as ([[tops0 bottoms0] vals0] & Hps & Hq).
    cbn [for_each] in Hq.
    apply rbind_Ok in Hq as ([[tops1 bottoms1] vals1] & Hq & [= <- <- <-]).
    apply rbind_Ok in Hq as ([t b] & Hext & Hq).
    apply rbind_Ok in Hq as (ms & Htem & [= <- <- <-]).
    assert (length tops0 = length ps ∧ length bottoms0 = length ps ∧
            length vals0 = length ps) as (Hlt & Hlb & Hlv).
    { clear -Hps. revert tops0 bottoms0 vals0 Hps.
      induction ps as [|q ps IH] using rev_ind; intros tops0 bottoms0 vals0 Hps.
      - by injection Hps as <- <- <-.
      - rewrite for_each_app in Hps.
        apply rbind_Ok in Hps as ([[t1 b1] v1] & Hps & Hq). cbn [for_each] in Hq.
        apply rbind_Ok in Hq as ([[t2 b2] v2] & Hq & [= <- <- <-]).
        apply rbind_Ok in Hq as ([t b] & _ & Hq).
        apply rbind_Ok in Hq as (ms & _ & [= <- <- <-]).
        destruct (IH _ _ _ Hps) as (? & ? & ?). rewrite !length_app. cbn. lia. }
    apply lookup_app_Some in Hi as [Hi|[Hge Hi]].
    + destruct (IH _ _ _ Hps i p Hi) as (t' & b' & ms' & ? & ? & ? & ? & ?).
      exists t', b', ms'. repeat split; try done; by apply lookup_app_l_Some.
    + apply list_lookup_singleton_Some in Hi as [Hi <-].
      exists t, b, ms. split; [done|]. split; [done|].
      assert (i = length ps) as -> by lia.
      split; [by apply list_lookup_middle|].
      split; by apply list_lookup_middle.
Qed.
End HangingValues.

Module PendantReal.
Import RealModel RealFacts.
Local Open Scope R_scope.

Lemma fmin_le (a b : R) : fmin a b <= a ∧ fmin a b <= b.
Proof.
  unfold fmin. cbn [fltb float_R]. unfold Rltb. destruct (Rlt_dec b a); lra.
Qed.

Lemma fmax_ge (a b : R) : a <= fmax a b ∧ b <= fmax a b.
Proof.
  unfold fmax. cbn [fltb float_R]. unfold Rltb. destruct (Rlt_dec a b); lra.
Qed.

(** The box of a mesh holds the mesh: here, in Z. *)
Lemma bbox_fold_covers (vs : list (Point3d R)) (bb : BoundingBox R) :
  let bb' := fold_left (λ bb p, mkBoundingBox (point_min (bbMin bb) p)
                                              (point_max (bbMax bb) p)) vs bb in
  ptZ (bbMin bb') <= ptZ (bbMin bb) ∧ ptZ (bbMax bb) <= ptZ (bbMax bb') ∧
  ∀ v, v ∈ vs → ptZ (bbMin bb') <= ptZ v <= ptZ (bbMax bb').
Proof.
  cbv zeta. revert bb. induction vs as [|p vs IH]; intros bb; cbn [fold_left].
  - split; [lra|]. split; [lra|]. by intros v ?%not_elem_of_nil.
  - destruct (IH (mkBoundingBox (point_min (bbMin bb) p) (point_max (bbMax bb) p)))
      as (Hmin & Hmax & Hall).
    cbn [bbMin bbMax point_min point_max ptZ] in Hmin, Hmax.
    pose proof (fmin_le (ptZ (bbMin bb)) (ptZ p)) as [? ?].
    pose proof (fmax_ge (ptZ (bbMax bb)) (ptZ p)) as [? ?].
    split; [lra|]. split; [lra|].
    intros v [->|Hv]%elem_of_cons; [lra|by apply Hall].
Qed.

Lemma bbox_covers (m : Mesh R) (v : Point3d R) :
  v ∈ Vertices m →
  ptZ (bbMin (GetBoundingBox m)) <= ptZ v <= ptZ (bbMax (GetBoundingBox m)).
Proof.
  cbn [GetBoundingBox rhino_R euclid_rhino]. unfold euclid_bbox.
  destruct (Vertices m) as [|v0 vs]; [by intros ?%not_elem_of_nil|].
  destruct (bbox_fold_covers vs (mkBoundingBox v0 v0)) as (Hmin & Hmax & Hall).
  cbv zeta in Hmin, Hmax, Hall. cbn [bbMin bbMax] in Hmin, Hmax.
  intros [->|Hv]%elem_of_cons; [lra|by apply Hall].
Qed.

(** The union over the meshes of a file holds each of their boxes. *)
Lemma bbox_of_values_covers (ms : list (Mesh R)) (bb : BoundingBox R) (m : Mesh R) :
  bbox_of_values ms = Some bb → m ∈ ms →
  ptZ (bbMin bb) <= ptZ (bbMin (GetBoundingBox m)) ∧
  ptZ (bbMax (GetBoundingBox m)) <= ptZ (bbMax bb).
Proof.
  unfold bbox_of_values. revert bb.
  induction ms as [|m' ms IH] using rev_ind; intros bb; [by intros _ ?%not_elem_of_nil|].
  rewrite fold_left_app. cbn [fold_left]. intros [= <-] Hm.
  destruct (fold_left _ ms None) as [bb0|] eqn:Hbb0.
  - cbn [Union rhino_R euclid_rhino]. unfold euclid_union.
    cbn [bbMin bbMax point_min point_max ptZ].
    pose proof (fmin_le (ptZ (bbMin bb0)) (ptZ (bbMin (GetBoundingBox m')))) as [? ?].
    pose proof (fmax_ge (ptZ (bbMax bb0)) (ptZ (bbMax (GetBoundingBox m')))) as [? ?].
    apply elem_of_app in Hm as [Hm|Hm%list_elem_of_singleton].
    + destruct (IH bb0 eq_refl Hm). 
      cbn [GetBoundingBox rhino_R euclid_rhino] in *. lra.
    + subst m'. cbn [GetBoundingBox rhino_R euclid_rhino] in *. lra.
  - apply elem_of_app in Hm as [Hm|Hm%list_elem_of_singleton];
      [|subst m'; split; apply Rle_refl].
    destruct ms as [|m0 ms _] using rev_ind; [by apply not_elem_of_nil in Hm|].
    rewrite fold_left_app in Hbb0. done.
Qed.

(** The twist turns about the vertical axis, the translation moves to the
    end point: a vertex keeps its height above the end point. *)
Lemma hung_point_Z (twist x y z : R) (p : Point3d R) :
  ptZ (transform_point (Translation x y z)
         (transform_point (Rotation twist (mkVector3d (of_Z 0) (of_Z 0) (of_Z 1))
                                    (mkPoint3d (of_Z 0) (of_Z 0) (of_Z 0))) p))
  = ptZ p + z.
Proof.
  cbn [transform_point rhino_R euclid_rhino euclid_transform ptZ].
  unfold euclid_unitize, euclid_length, cross.
  cbn [vecX vecY vecZ ptX ptY ptZ fadd fsub fmul fdiv fltb float_R cos sin libm_R].
  rewrite !of_Z_R.
  replace (0 * 0 + 0 * 0 + 1 * 1) with 1 by ring. rewrite sqrt_1.
  unfold Rltb. destruct (Rlt_dec 0 1) as [_|Hn]; [|exfalso; apply Hn; lra].
  cbn [vecX vecY vecZ]. field.
Qed.

(** The placed meshes of a pendant, against the extents of its file. *)
Lemma placement_vertices_bounded
        (disk : gmap string (list (Mesh R))) (config : ClusterConfig)
        (connection_points : list (Point3d R)) (placements : list (PendantPlacement R))
        (w w' : World R) :
  store_consistent disk w →
  place_pendants_then_plan_cables disk config connection_points w = (Ok placements, w') →
  ∃ tops bottoms meshes_by_index w1,
    load_pendants disk (pendants config) w = (Ok (tops, bottoms, meshes_by_index), w1) ∧
    ∀ i pl, placements !! i = Some pl →
      ∃ top bottom,
        tops !! i = Some top ∧ bottoms !! i = Some bottom ∧
        Forall (λ l, ∃ m, heap w' !! l = Some m ∧
                          Forall (λ v, ptZ (end_ pl) - bottom <= ptZ v
                                       <= ptZ (end_ pl) + top) (Vertices m))
               (meshes pl).
Proof.
  intros Hw Hrun. pose proof Hrun as Hinv.
  apply place_pendants_inv in Hinv
      as (tops & bottoms & mbi & w1 & gap & drops & indices & rng & rng' &
          Hload & _ & _ & _).
  exists tops, bottoms, mbi, w1. split; [done|].
  destruct (refines_load_pendants disk (pendants config) w Hw I) as (_ & _ & Hl).
  rewrite Hload in Hl. cbn [fst snd] in Hl.
  destruct (load_values disk (pendants config)) as [[[tops' bottoms'] vals]|] eqn:Hlv;
    [|done].
  destruct Hl as (Ht & Hb & _). cbn [fst snd] in Ht, Hb. subst tops' bottoms'.
  destruct (refines_place_pendants disk config connection_points w Hw I) as (_ & _ & Hp).
  rewrite Hrun in Hp. cbn [fst snd] in Hp.
  destruct (place_values disk config connection_points) as [pvs|] eqn:Hpv; [|done].
  unfold place_values in Hpv. cbv zeta in Hpv. rewrite Hlv in Hpv. cbn [rbind] in Hpv.
  apply rbind_Ok in Hpv as ([gap' drops'] & _ & Hpv).
  apply rbind_Ok in Hpv as ([indices' rng0] & _ & Hpv).
  apply rbind_Ok in Hpv as ([rng1 pvs'] & Hloop & [= <-]).
  pose proof (place_values_loop _ _ _ _ _ _ _ _ _ _ _ Hloop eq_refl) as Hhang.
  intros i pl Hi.
  destruct (Forall2_lookup_l _ _ _ _ _ Hp Hi) as (pv & Hpvi & _ & _ & Hend & Hholds).
  assert (∀ j (q : PlacementValue R), [] !! j = Some q →
                hangs_value config vals j q) as Hnil
      by (intros j q Hj; by rewrite lookup_nil in Hj).
  destruct (Hhang Hnil i pv Hpvi)
    as (ms & twist & p & Hms & Hpi & _ & Hvm).
  destruct (load_values_inv disk _ _ _ _ Hlv i p Hpi)
    as (t & b & ms' & Hext & Htem & Hti & Hbi & Hvi).
  assert (ms' = ms) as -> by congruence.
  exists t, b. split; [done|]. split; [done|].
  unfold extents_value in Hext. rewrite Htem in Hext. cbn [rbind] in Hext.
  destruct (bbox_of_values ms) as [bb|] eqn:Hbb; [|done]. injection Hext as <- <-.
  apply Forall_forall. intros l Hl.
  apply list_elem_of_lookup in Hl as [k Hk].
  destruct (Forall2_lookup_l _ _ _ _ _ Hholds Hk) as (m & Hmk & Hheap).
  exists m. split; [done|].
  rewrite Hvm, list_lookup_fmap in Hmk.
  destruct (ms !! k) as [m0|] eqn:Hm0; [|done]. injection Hmk as <-.
  unfold transform_mesh. cbn [Vertices]. rewrite <- list_fmap_compose.
  apply Forall_fmap, Forall_forall. intros v Hv. unfold compose.
  rewrite hung_point_Z, Hend.
  assert (m0 ∈ ms) as Hin by by eapply list_elem_of_lookup_2.
  destruct (bbox_of_values_covers ms bb m0 Hbb Hin) as [Hlow Hhigh].
  pose proof (bbox_covers m0 v Hv) as [Hvl Hvh].
  cbn [fneg float_R]. lra.
Qed.

(** X27 (place_pendants_then_plan_cables with _pendant_extents).  Over the
    reals, from a state whose memo tables agree with the pendant files:
    the extents [tops[i]] and [bottoms[i]] the planner computes its drops
    from do bound pendant [i] where it hangs.  Every vertex of every mesh of
    placement [i] lies between [bottoms[i]] below and [tops[i]] above the
    end point of that placement. *)
Theorem placed_pendant_within_extents
        (disk : gmap string (list (Mesh R))) (config : ClusterConfig)
        (connection_points : list (Point3d R)) (placements : list (PendantPlacement R))
        (w w' : World R) :
  store_consistent disk w →
  place_pendants_then_plan_cables disk config connection_points w = (Ok placements, w') →
  ∃ tops bottoms meshes_by_index w1,
    load_pendants disk (pendants config) w = (Ok (tops, bottoms, meshes_by_index), w1) ∧
    ∀ i pl, placements !! i = Some pl →
      ∃ top bottom,
        tops !! i = Some top ∧ bottoms !! i = Some bottom ∧
        Forall (λ l, ∃ m, heap w' !! l = Some m ∧
                          Forall (λ v, ptZ (end_ pl) - bottom <= ptZ v
                                       <= ptZ (end_ pl) + top) (Vertices m))
               (meshes pl).
Proof. apply placement_vertices_bounded. Qed.
End PendantReal.

Module PendantRealRun.
Import RealModel RealFacts PlacementReal PendantReal.
Local Open Scope R_scope.

Lemma placed_pendant_within_extents_witness :
  ∃ placements w' tops bottoms meshes_by_index w1,
    place_pendants_then_plan_cables real_disk one_pendant [mkPoint3d 110 0 (-40)] real_world
    = (Ok placements, w') ∧
    load_pendants real_disk (pendants one_pendant) real_world
    = (Ok (tops, bottoms, meshes_by_index), w1) ∧
    ∀ i pl, placements !! i = Some pl →
      ∃ top bottom,
        tops !! i = Some top ∧ bottoms !! i = Some bottom ∧
        Forall (λ l, ∃ m, heap w' !! l = Some m ∧
                          Forall (λ v, ptZ (end_ pl) - bottom <= ptZ v
                                       <= ptZ (end_ pl) + top) (Vertices m))
               (meshes pl).
Proof.
  destruct one_pendant_run as (placements & w' & Hrun).
  destruct (placed_pendant_within_extents real_disk one_pendant _ _ real_world w'
              (store_consistent_empty real_disk real_world eq_refl eq_refl) Hrun)
    as (tops & bottoms & mbi & w1 & Hload & Hall).
  exists placements, w', tops, bottoms, mbi, w1.
  split; [exact Hrun|]. split; [exact Hload|exact Hall].
Defined.
End PendantRealRun.

(** ** Vertical clearance between consecutive pendants *)
Section DropSteps.
Context {F : Type} `{Float F}.



End DropSteps.

Module ClearanceReal.
Import RealModel RealFacts PendantReal.
Local Open Scope R_scope.

End ClearanceReal.

Module ClearanceRealRun.
Import RealModel RealFacts PlacementReal ClearanceReal.
Local Open Scope R_scope.

End ClearanceRealRun.
